(** * Turnstile engine: formulas, truth tables, lexer, parser, printer and
      natural-deduction proof checker.

    Shallow embedding of [packages/engine/src]: [types.ts],
    [parser/lexer.ts], [parser/parser.ts], [parser/printer.ts],
    [truth-table/evaluate.ts], [truth-table/generate.ts],
    [validator/rules.ts], [validator/validator.ts] and
    [validator/checker.ts].

    Conventions of the embedding.
    - A JavaScript string is the list of its UTF-16 code units ([list N]);
      [s.length] is [length s] and [s[i]] is [s !! i].
    - A [Record<string, boolean>] is a [gmap] from names to booleans, its
      own properties; what a lookup inherits from [Object.prototype] when
      the object has no such property is modelled in [Runtime].
    - A thrown [Error] is [None] in an [option] result.
    - The operands of [<<] and [&] are 32-bit integers, written on [Z] with
      the wrap-around spelled out.
    - [while] loops whose bound is not structural carry a fuel argument that
      the entry point sets from the length of its input. *)

From Stdlib Require Import ZArith NArith Lia Ascii String.
From stdpp Require Import base option list list_numbers gmap sorting strings.

Set Default Proof Using "Type".
Open Scope Z_scope.

(** ** Strings *)

(** Code units of an ASCII literal, for readable examples. *)
Definition str (s : string) : list N :=
  Ascii.N_of_ascii <$> String.list_ascii_of_string s.

(** [x < y] on JavaScript strings: lexicographic on code units, a proper
    prefix first. *)
Fixpoint strLtb (x y : list N) : bool :=
  match x, y with
  | [], [] => false
  | [], _ :: _ => true
  | _ :: _, [] => false
  | a :: x', b :: y' =>
      if (a <? b)%N then true
      else if (b <? a)%N then false
      else strLtb x' y'
  end.

(** The order [Array.prototype.sort()] uses without a comparator: [x] may
    stay before [y] unless [y < x]. *)
Definition sortLe (x y : list N) : Prop := strLtb y x = false.

Global Instance sortLe_dec x y : Decision (sortLe x y).
Proof. unfold sortLe. apply _. Defined.

(** [Array.prototype.sort()] on an array of strings. *)
Definition jsSort (l : list (list N)) : list (list N) := merge_sort sortLe l.

(** [Set.prototype.add]: a [Set] keeps insertion order and ignores a value
    it already holds. *)
Definition setAdd (x : list N) (s : list (list N)) : list (list N) :=
  if decide (x ∈ s) then s else s ++ [x].

(** [new Set(array)]: the elements in first-occurrence order. *)
Definition setFrom (l : list (list N)) : list (list N) :=
  foldl (λ s x, setAdd x s) [] l.

(** ** 32-bit integer operators of JavaScript *)

Definition toInt32 (z : Z) : Z := (z + 2 ^ 31) `mod` 2 ^ 32 - 2 ^ 31.

(** [a << b]: the shift count is taken modulo 32, the result wraps. *)
Definition shl32 (a b : Z) : Z := toInt32 (Z.shiftl (toInt32 a) (b `mod` 32)).

(** [a & b] *)
Definition and32 (a b : Z) : Z := toInt32 (Z.land (toInt32 a) (toInt32 b)).

(** ** Formula AST ([types.ts]) *)

Inductive Formula : Type :=
  | Var (name : list N)
  | Not (operand : Formula)
  | And (left right : Formula)
  | Or (left right : Formula)
  | Implies (left right : Formula)
  | Iff (left right : Formula)
  | Bottom.

Global Instance Formula_eq_dec : EqDecision Formula.
Proof. solve_decision. Defined.

(** [formulaEquals] ([parser.ts]): structural equality. *)
Fixpoint formulaEquals (a b : Formula) : bool :=
  match a, b with
  | Var n, Var m => bool_decide (n = m)
  | Bottom, Bottom => true
  | Not x, Not y => formulaEquals x y
  | And l r, And l' r' => formulaEquals l l' && formulaEquals r r'
  | Or l r, Or l' r' => formulaEquals l l' && formulaEquals r r'
  | Implies l r, Implies l' r' => formulaEquals l l' && formulaEquals r r'
  | Iff l r, Iff l' r' => formulaEquals l l' && formulaEquals r r'
  | _, _ => false
  end.

(** [collect] inside [extractVariables]: depth-first, left to right, adding
    each name to the [Set]. *)
Fixpoint collect (f : Formula) (vars : list (list N)) : list (list N) :=
  match f with
  | Var n => setAdd n vars
  | Bottom => vars
  | Not g => collect g vars
  | And l r | Or l r | Implies l r | Iff l r => collect r (collect l vars)
  end.

(** [extractVariables]: [Array.from(vars).sort()]. *)
Definition extractVariables (f : Formula) : list (list N) :=
  jsSort (collect f []).

(** ** Tokens ([types.ts]) *)

Inductive TokenType : Type :=
  | VAR | NOT | AND | OR | IMPLIES | IFF | BOTTOM | LPAREN | RPAREN | EOF.

Global Instance TokenType_eq_dec : EqDecision TokenType.
Proof. solve_decision. Defined.

Module Token.
Record t : Type := mk {
  type : TokenType;
  value : list N;
  position : nat;
}.
End Token.

(** ** Lexer ([parser/lexer.ts]) *)

Module Lexer.

(** Code units of the characters the lexer names. *)
Definition LPAREN_CHAR : N := 40.      (* ( *)
Definition RPAREN_CHAR : N := 41.      (* ) *)
Definition TILDE : N := 126.           (* ~ *)
Definition NOT_SIGN : N := 172.        (* U+00AC *)
Definition AMPERSAND : N := 38.        (* & *)
Definition LOGICAL_AND : N := 8743.    (* U+2227 *)
Definition SLASH : N := 47.            (* / *)
Definition BACKSLASH : N := 92.
Definition LOGICAL_OR : N := 8744.     (* U+2228 *)
Definition BAR : N := 124.             (* | *)
Definition LEFT_RIGHT_ARROW : N := 8596. (* U+2194 *)
Definition LESS : N := 60.             (* < *)
Definition MINUS : N := 45.            (* - *)
Definition GREATER : N := 62.          (* > *)
Definition RIGHT_ARROW : N := 8594.    (* U+2192 *)
Definition UP_TACK : N := 8869.        (* U+22A5 *)
Definition UNDERSCORE : N := 95.       (* _ *)
Definition SPACE : N := 32.

(** [/\s/.test(char)]: the white space and line terminator code units. *)
Definition isSpace (c : N) : bool :=
  ((9 <=? c) && (c <=? 13) || (c =? 32) || (c =? 160) || (c =? 5760)
   || (8192 <=? c) && (c <=? 8202) || (c =? 8232) || (c =? 8233)
   || (c =? 8239) || (c =? 8287) || (c =? 12288) || (c =? 65279))%N.

(** [/[A-Za-z]/.test(char)] *)
Definition isAlpha (c : N) : bool :=
  ((65 <=? c) && (c <=? 90) || (97 <=? c) && (c <=? 122))%N.

(** [/[A-Za-z0-9]/.test(char)] *)
Definition isAlphaNumeric (c : N) : bool :=
  (isAlpha c || (48 <=? c) && (c <=? 57))%N.

(** The longest prefix whose characters pass the test: what a loop
    [while (position < input.length && test(input[position])) position++]
    walks over. *)
Fixpoint takeWhile (test : N → bool) (s : list N) : list N :=
  match s with
  | c :: s' => if test c then c :: takeWhile test s' else []
  | [] => []
  end.

(** [skipWhitespace]: the position after the loop. [drop position input] is
    the unread part of the input. *)
Definition skipWhitespace (input : list N) (position : nat) : nat :=
  (position + length (takeWhile isSpace (drop position input)))%nat.

(** The body of [nextToken] after [skipWhitespace]: the token and the
    position after it. [unread] is the input from [position] on: its head
    is [input[position]] and [peek k] is its element [k]. *)
Definition scanToken (unread : list N) (position : nat) : Token.t * nat :=
  let peek (k : nat) := unread !! k in
  match unread with
  | [] => (Token.mk EOF [] position, position)
  | char :: _ =>
      let startPos := position in
      if (char =? LPAREN_CHAR)%N then
        (Token.mk LPAREN [LPAREN_CHAR] startPos, S position)
      else if (char =? RPAREN_CHAR)%N then
        (Token.mk RPAREN [RPAREN_CHAR] startPos, S position)
      else if ((char =? TILDE) || (char =? NOT_SIGN))%N then
        (Token.mk NOT [char] startPos, S position)
      else if ((char =? AMPERSAND) || (char =? LOGICAL_AND))%N then
        (Token.mk AND [char] startPos, S position)
      else if (char =? SLASH)%N && bool_decide (peek 1%nat = Some BACKSLASH) then
        (Token.mk AND [SLASH; BACKSLASH] startPos, (position + 2)%nat)
      else if (char =? LOGICAL_OR)%N then
        (Token.mk OR [char] startPos, S position)
      else if (char =? BAR)%N then
        (Token.mk OR [BAR] startPos, S position)
      else if (char =? BACKSLASH)%N && bool_decide (peek 1%nat = Some SLASH) then
        (Token.mk OR [BACKSLASH; SLASH] startPos, (position + 2)%nat)
      else if (char =? LEFT_RIGHT_ARROW)%N then
        (Token.mk IFF [char] startPos, S position)
      else if (char =? LESS)%N && bool_decide (peek 1%nat = Some MINUS)
              && bool_decide (peek 2%nat = Some GREATER) then
        (Token.mk IFF [LESS; MINUS; GREATER] startPos, (position + 3)%nat)
      else if (char =? RIGHT_ARROW)%N then
        (Token.mk IMPLIES [char] startPos, S position)
      else if (char =? MINUS)%N && bool_decide (peek 1%nat = Some GREATER) then
        (Token.mk IMPLIES [MINUS; GREATER] startPos, (position + 2)%nat)
      else if (char =? UP_TACK)%N then
        (Token.mk BOTTOM [char] startPos, S position)
      else if (char =? UNDERSCORE)%N && bool_decide (peek 1%nat = Some BAR)
              && bool_decide (peek 2%nat = Some UNDERSCORE) then
        (Token.mk BOTTOM [UNDERSCORE; BAR; UNDERSCORE] startPos, (position + 3)%nat)
      else if isAlpha char then
        let value := takeWhile isAlphaNumeric unread in
        (Token.mk VAR value startPos, (position + length value)%nat)
      else
        (Token.mk VAR [char] startPos, S position)
  end.

(** [nextToken] *)
Definition nextToken (input : list N) (position : nat) : Token.t * nat :=
  let position := skipWhitespace input position in
  scanToken (drop position input) position.

(** The loop of [tokenize] from a position; every turn but the last moves
    the position forward, so [fuel] above the number of unread characters is
    never used up. *)
Fixpoint tokenizeLoop (fuel : nat) (input : list N) (position : nat) : list Token.t :=
  match fuel with
  | O => []
  | S fuel =>
      let '(token, position) := nextToken input position in
      if decide (Token.type token = EOF) then [token]
      else token :: tokenizeLoop fuel input position
  end.

(** [tokenize] *)
Definition tokenize (input : list N) : list Token.t :=
  tokenizeLoop (S (length input)) input 0.

(** The length in bytes of the UTF-8 encoding of the first [k] code units
    of a string without surrogates: the byte offset of index [k]. *)
Definition utf8Width (c : N) : nat :=
  if (c <? 128)%N then 1 else if (c <? 2048)%N then 2 else 3.

Definition byteOffset (input : list N) (k : nat) : nat :=
  sum_list (utf8Width <$> take k input).

(** A token moved [offset] positions to the right. *)
Definition shiftToken (offset : nat) (t : Token.t) : Token.t :=
  Token.mk (Token.type t) (Token.value t) (offset + Token.position t).

End Lexer.

(** ** Parser ([parser/parser.ts]) *)

Module Parser.

(** The three messages of the parser, each with the [value] of the token it
    quotes. *)
Inductive Message : Type :=
  | UnexpectedAfterFormula (value : list N)
  | ExpectedRParen (value : list N)
  | ExpectedPrimary (value : list N).

Record ParseError : Type := {
  message : Message;
  errorPosition : nat;
}.

Inductive ParseResult (A : Type) : Type :=
  | success (value : A)
  | failure (error : ParseError).
Global Arguments success {A} value.
Global Arguments failure {A} error.

(** How a parsing method ends: it returns, it throws a [ParserError], or
    the model has run out of fuel. *)
Inductive run (A : Type) : Type :=
  | Done (a : A)
  | Throw (e : ParseError)
  | OutOfFuel.
Global Arguments Done {A} a.
Global Arguments Throw {A} e.
Global Arguments OutOfFuel {A}.

Global Instance run_bind : MBind run := λ A B k m,
  match m with
  | Done a => k a
  | Throw e => Throw e
  | OutOfFuel => OutOfFuel
  end.

Section Methods.
Variable tokens : list Token.t.

(** [current]: [this.tokens[this.position] ?? { type: 'EOF', ... }] *)
Definition current (position : nat) : Token.t :=
  default (Token.mk EOF [] (length tokens)) (tokens !! position).

Definition check (position : nat) (type : TokenType) : bool :=
  bool_decide (Token.type (current position) = type).

(** [advance]: the position after the call. *)
Definition advance (position : nat) : nat :=
  if decide (Token.type (current position) = EOF) then position else S position.

Definition throwAt (position : nat) (msg : list N → Message) : run (Formula * nat) :=
  Throw {| message := msg (Token.value (current position));
           errorPosition := Token.position (current position) |}.

Section Levels.
(** [this.parseFormula()] as called between parentheses. *)
Variable parseFormula : nat → run (Formula * nat).

Definition parsePrimary (position : nat) : run (Formula * nat) :=
  let token := current position in
  if check position VAR then Done (Var (Token.value token), advance position)
  else if check position BOTTOM then Done (Bottom, advance position)
  else if check position LPAREN then
    '(formula, position) ← parseFormula (advance position);
    if negb (check position RPAREN) then throwAt position ExpectedRParen
    else Done (formula, advance position)
  else throwAt position ExpectedPrimary.

Fixpoint parseUnary (fuel : nat) (position : nat) : run (Formula * nat) :=
  if check position NOT then
    match fuel with
    | O => OutOfFuel
    | S fuel =>
        '(operand, position) ← parseUnary fuel (advance position);
        Done (Not operand, position)
    end
  else parsePrimary position.

(** [while (this.check(type)) { this.advance(); const right = operand();
    left = { kind, left, right }; } return left;] *)
Fixpoint leftLoop (operand : nat → run (Formula * nat)) (type : TokenType)
    (node : Formula → Formula → Formula) (fuel : nat) (left : Formula) (position : nat)
    : run (Formula * nat) :=
  if check position type then
    match fuel with
    | O => OutOfFuel
    | S fuel =>
        '(rightOperand, position) ← operand (advance position);
        leftLoop operand type node fuel (node left rightOperand) position
    end
  else Done (left, position).

Definition loopFuel : nat := S (length tokens).

Definition parseAnd (position : nat) : run (Formula * nat) :=
  '(first, position) ← parseUnary loopFuel position;
  leftLoop (parseUnary loopFuel) AND And loopFuel first position.

Definition parseOr (position : nat) : run (Formula * nat) :=
  '(first, position) ← parseAnd position;
  leftLoop parseAnd OR Or loopFuel first position.

(** The result loop of [parseImplies]: from the last operand down to the
    first. *)
Definition buildImplies (operands : list Formula) : Formula :=
  match reverse operands with
  | [] => Bottom (* not reached: [operands] starts with one element *)
  | lastOperand :: before => foldl (λ result o, Implies o result) lastOperand before
  end.

Fixpoint impliesLoop (fuel : nat) (operands : list Formula) (position : nat)
    : run (Formula * nat) :=
  if check position IMPLIES then
    match fuel with
    | O => OutOfFuel
    | S fuel =>
        '(o, position) ← parseOr (advance position);
        impliesLoop fuel (operands ++ [o]) position
    end
  else Done (buildImplies operands, position).

Definition parseImplies (position : nat) : run (Formula * nat) :=
  '(first, position) ← parseOr position;
  impliesLoop loopFuel [first] position.

Definition parseIff (position : nat) : run (Formula * nat) :=
  '(first, position) ← parseImplies position;
  leftLoop parseImplies IFF Iff loopFuel first position.

End Levels.

(** [parseFormula]; [depth] bounds the nesting of parentheses. *)
Fixpoint parseFormula (depth : nat) (position : nat) : run (Formula * nat) :=
  match depth with
  | O => OutOfFuel
  | S depth => parseIff (parseFormula depth) position
  end.

(** [Parser.parse]; [None] when the model ran out of fuel. *)
Definition parse : option (ParseResult Formula) :=
  match parseFormula loopFuel 0 with
  | Done (formula, position) =>
      if negb (check position EOF) then
        Some (failure {| message := UnexpectedAfterFormula (Token.value (current position));
                         errorPosition := Token.position (current position) |})
      else Some (success formula)
  | Throw e => Some (failure e)
  | OutOfFuel => None
  end.

End Methods.
End Parser.

(** [parseFormula(input)]: tokenize, then parse. *)
Definition parseFormula (input : list N) : option (Parser.ParseResult Formula) :=
  Parser.parse (Lexer.tokenize input).

(** ** Printer ([parser/printer.ts]) *)

Inductive DisplayMode : Type := ascii | utf8.

Module Printer.

Record Symbols : Type := {
  and : list N;
  or : list N;
  implies : list N;
  iff : list N;
  not : list N;
  bottom : list N;
}.

Definition SYMBOLS (mode : DisplayMode) : Symbols :=
  match mode with
  | ascii =>
      {| and := [32; 47; 92; 32]; or := [32; 92; 47; 32]; implies := [32; 45; 62; 32];
         iff := [32; 60; 45; 62; 32]; not := [126]; bottom := [95; 124; 95] |}
  | utf8 =>
      {| and := [32; 8743; 32]; or := [32; 8744; 32]; implies := [32; 8594; 32];
         iff := [32; 8596; 32]; not := [172]; bottom := [8869] |}
  end%N.

(** [PRECEDENCE], in tenths: the source compares [1..6] with [1..6] and
    with [k + 0.1], which lies strictly between [k] and [k + 1]. *)
Definition PRECEDENCE (f : Formula) : nat :=
  match f with
  | Iff _ _ => 10
  | Implies _ _ => 20
  | Or _ _ => 30
  | And _ _ => 40
  | Not _ => 50
  | Var _ => 60
  | Bottom => 60
  end.

(** [print] *)
Fixpoint print (f : Formula) (mode : DisplayMode) (parentPrecedence : nat) : list N :=
  let symbols := SYMBOLS mode in
  let myPrecedence := PRECEDENCE f in
  let result :=
    match f with
    | Var name => name
    | Bottom => bottom symbols
    | Not operand => not symbols ++ print operand mode 50
    | And l r =>
        print l mode myPrecedence ++ and symbols ++ print r mode (myPrecedence + 1)
    | Or l r =>
        print l mode myPrecedence ++ or symbols ++ print r mode (myPrecedence + 1)
    | Implies l r =>
        print l mode (myPrecedence + 1) ++ implies symbols ++ print r mode myPrecedence
    | Iff l r =>
        print l mode myPrecedence ++ iff symbols ++ print r mode (myPrecedence + 1)
    end in
  if (myPrecedence <? parentPrecedence)%nat
  then [40%N] ++ result ++ [41%N]
  else result.

(** [printFormula] *)
Definition printFormula (f : Formula) (mode : DisplayMode) : list N :=
  print f mode 0.

End Printer.

(** A well-formed name: non-empty, [[A-Za-z][A-Za-z0-9]*]. *)
Definition wellFormedName (name : list N) : bool :=
  match name with
  | [] => false
  | c :: rest => Lexer.isAlpha c && forallb Lexer.isAlphaNumeric rest
  end.

Fixpoint wellFormed (f : Formula) : bool :=
  match f with
  | Var name => wellFormedName name
  | Bottom => true
  | Not g => wellFormed g
  | And l r | Or l r | Implies l r | Iff l r => wellFormed l && wellFormed r
  end.

(** ** The tokens of a printed formula

    The notions below relate the printer to the lexer and the parser in the
    round-trip proof. *)

(** What the parser reads of a token: its type, and its value when it is a
    variable. *)
Definition kind (t : Token.t) : TokenType * list N :=
  (Token.type t, if decide (Token.type t = VAR) then Token.value t else []).

Definition kinds (tokens : list Token.t) : list (TokenType * list N) :=
  kind <$> tokens.

(** The token kinds that [print f mode parentPrecedence] spells, in either
    mode. *)
Fixpoint printedTokens (f : Formula) (parentPrecedence : nat)
    : list (TokenType * list N) :=
  let body :=
    match f with
    | Var name => [(VAR, name)]
    | Bottom => [(BOTTOM, [])]
    | Not g => (NOT, []) :: printedTokens g 50
    | And l r => printedTokens l 40 ++ (AND, []) :: printedTokens r 41
    | Or l r => printedTokens l 30 ++ (OR, []) :: printedTokens r 31
    | Implies l r => printedTokens l 21 ++ (IMPLIES, []) :: printedTokens r 20
    | Iff l r => printedTokens l 10 ++ (IFF, []) :: printedTokens r 11
    end in
  if (Printer.PRECEDENCE f <? parentPrecedence)%nat
  then (LPAREN, []) :: body ++ [(RPAREN, [])]
  else body.

(** The unread input after a token does not continue an identifier. *)
Definition endsIdentifier (r : list N) : Prop :=
  match r with
  | [] => True
  | c :: _ => Lexer.isAlphaNumeric c = false
  end.

(** From [position] the [tokenize] loop emits tokens of kinds [K] and
    reaches [position'], for any fuel above the number of unread
    characters. *)
Definition Lexes (input : list N) (position : nat) (K : list (TokenType * list N))
    (position' : nat) : Prop :=
  ∀ fuel, (length input - position < fuel)%nat →
    ∃ fuel', (length input - position' < fuel')%nat
             ∧ kinds (Lexer.tokenizeLoop fuel input position)
               = K ++ kinds (Lexer.tokenizeLoop fuel' input position').

(** The binary operator whose loop a token type feeds, as a level of the
    grammar: [IFF] 1, [IMPLIES] 2, [OR] 3, [AND] 4; no loop otherwise. *)
Definition operatorLevel (type : TokenType) : nat :=
  match type with
  | IFF => 1
  | IMPLIES => 2
  | OR => 3
  | AND => 4
  | _ => 0
  end.

(** The type of the token that follows, [EOF] past the end. *)
Definition followType (rest : list (TokenType * list N)) : TokenType :=
  match rest with
  | [] => EOF
  | (type, _) :: _ => type
  end.

(** A lexeme with its token type: its first character is no white space
    and [Lexer.scanToken] reads exactly it, whatever follows. *)
Definition lexemeOf (type : TokenType) (lexeme : list N) : Prop :=
  type ≠ VAR
  ∧ (∃ c rest, lexeme = c :: rest ∧ Lexer.isSpace c = false)
  ∧ ∀ s p, ∃ v q, Lexer.scanToken (lexeme ++ s) p = (Token.mk type v p, q)
                  ∧ q = (p + length lexeme)%nat.

(** A binary operator is printed as its lexeme between two spaces. *)
Definition infixOf (type : TokenType) (symbol : list N) : Prop :=
  ∃ lexeme, symbol = 32%N :: lexeme ++ [32%N] ∧ lexemeOf type lexeme.


(** What the induction carries for a printed piece [A] with kinds [K]. *)
Definition LexesAs (A : list N) (K : list (TokenType * list N)) : Prop :=
  ∀ input pos r,
    drop pos input = A ++ r → endsIdentifier r →
    Lexes input pos K (pos + length A).


(** The level of the grammar at which a formula is parsed when it is not
    parenthesized: [iff] 1, [implies] 2, [or] 3, [and] 4, [unary] 5. *)
Definition grammarLevel (f : Formula) : nat :=
  match f with
  | Iff _ _ => 1
  | Implies _ _ => 2
  | Or _ _ => 3
  | And _ _ => 4
  | Not _ | Var _ | Bottom => 5
  end.

Section ParsePredicates.
Import Parser.
Variable tokens : list Token.t.

(** [parseUnary] reads the tokens [K] as [f], wherever they stand. *)
Definition ParsesUnary (K : list (TokenType * list N)) (f : Formula) : Prop :=
  ∀ n pos rest k,
    (length K ≤ n)%nat →
    drop pos (kinds tokens) = K ++ rest →
    (length tokens < k + pos)%nat →
    parseUnary tokens (parseFormula tokens n) k pos = Done (f, (pos + length K)%nat).

(** The parser of a level reads [K] as [f] when the token after [K] is no
    operator of that level or of a looser one. *)
Definition ParsesWith (parser : (nat → run (Formula * nat)) → nat → run (Formula * nat))
    (level : nat) (K : list (TokenType * list N)) (f : Formula) : Prop :=
  ∀ n pos rest,
    (length K ≤ n)%nat →
    drop pos (kinds tokens) = K ++ rest →
    (operatorLevel (followType rest) < level)%nat →
    parser (parseFormula tokens n) pos = Done (f, (pos + length K)%nat).

(** A left-associative level, after its first operand and some turns of
    its loop, stands at the end of [K] with [f] as the left operand. *)
Definition ChainsLeft
    (operand : (nat → run (Formula * nat)) → nat → run (Formula * nat))
    (type : TokenType) (node : Formula → Formula → Formula) (level : nat)
    (K : list (TokenType * list N)) (f : Formula) : Prop :=
  ∀ n pos rest k,
    (length K ≤ n)%nat →
    drop pos (kinds tokens) = K ++ rest →
    (operatorLevel (followType rest) ≤ level)%nat →
    (length tokens < k + pos)%nat →
    ∃ k', (length tokens < k' + (pos + length K))%nat
          ∧ (operand (parseFormula tokens n) pos ≫= λ '(x, q),
               leftLoop tokens (operand (parseFormula tokens n)) type node k x q)
            = leftLoop tokens (operand (parseFormula tokens n)) type node k' f
                (pos + length K)%nat.

(** [parseImplies], with [acc] already collected, reads [K] as the last
    operands and builds the conditional right-nested. *)
Definition ChainsImplies (K : list (TokenType * list N)) (f : Formula) : Prop :=
  ∀ n pos rest k acc,
    (length K ≤ n)%nat →
    drop pos (kinds tokens) = K ++ rest →
    (operatorLevel (followType rest) < 2)%nat →
    (length tokens < k + pos)%nat →
    (parseOr tokens (parseFormula tokens n) pos ≫= λ '(o, q),
       impliesLoop tokens (parseFormula tokens n) k (acc ++ [o]) q)
    = Done (foldr Implies f acc, (pos + length K)%nat).

Definition unaryOperand (handler : nat → run (Formula * nat)) (pos : nat)
    : run (Formula * nat) :=
  parseUnary tokens handler (loopFuel tokens) pos.

(** What is known of the tokens [K] of a formula [f] at each level. *)
Definition Avail (level : nat) (K : list (TokenType * list N)) (f : Formula) : Prop :=
  match level with
  | 5 => ParsesUnary K f
  | 4 => ChainsLeft unaryOperand AND And 4 K f
  | 3 => ChainsLeft (parseAnd tokens) OR Or 3 K f
  | 2 => ChainsImplies K f
  | 1 => ChainsLeft (parseImplies tokens) IFF Iff 1 K f
  | _ => False
  end%nat.

End ParsePredicates.

(** ** Termination of the parser *)

Section ParserProgress.
Import Parser.
Variable tokens : list Token.t.

(** A parsing method that started at [pos] did not run out of fuel and, if
    it returned, stands strictly after [pos], within the tokens. *)
Definition Progress (r : run (Formula * nat)) (pos : nat) : Prop :=
  match r with
  | OutOfFuel => False
  | Throw _ => True
  | Done (_, q) => (pos < q ≤ length tokens)%nat
  end.

(** The same for a loop, which may return where it started. *)
Definition Reaches (r : run (Formula * nat)) (pos : nat) : Prop :=
  match r with
  | OutOfFuel => False
  | Throw _ => True
  | Done (_, q) => (pos ≤ q ≤ length tokens)%nat
  end.

(** The parser called between parentheses makes progress from every
    position after [lo]. *)
Definition HandlerProgress (handler : nat → run (Formula * nat)) (lo : nat) : Prop :=
  ∀ pos, (lo < pos ≤ length tokens)%nat → Progress (handler pos) pos.

End ParserProgress.

(** ** Truth tables ([truth-table/evaluate.ts], [truth-table/generate.ts]) *)

Module TruthTable.

(** [evaluate]: [None] is the thrown "Variable ... not found in
    assignments". [&&] and [||] evaluate their right operand only when the
    left one does not decide the result. The lookup of a variable is a
    lookup among the own properties of [assignments]; [Runtime.evaluate]
    adds the members of [Object.prototype], which a lookup finds under a
    name that [assignments] does not hold, and returns the same boolean
    wherever this function returns ([Runtime_evaluate_returns]). *)
Fixpoint evaluate (f : Formula) (assignments : gmap (list N) bool) : option bool :=
  match f with
  | Var name => assignments !! name
  | Bottom => Some false
  | Not g => negb <$> evaluate g assignments
  | And l r =>
      match evaluate l assignments with
      | Some true => evaluate r assignments
      | other => other
      end
  | Or l r =>
      match evaluate l assignments with
      | Some false => evaluate r assignments
      | other => other
      end
  | Implies l r =>
      match evaluate l assignments with
      | Some true => evaluate r assignments
      | Some false => Some true
      | None => None
      end
  | Iff l r =>
      match evaluate l assignments with
      | Some bl =>
          match evaluate r assignments with
          | Some br => Some (eqb bl br)
          | None => None
          end
      | None => None
      end
  end.

(** The inner loop of [generateAllAssignments]:
    [assignments[variables[j]] = !(i & (1 << (n - 1 - j)))] for [j] upwards. *)
Fixpoint fillAssignments (n i : Z) (j : nat) (variables : list (list N))
    (assignments : gmap (list N) bool) : gmap (list N) bool :=
  match variables with
  | [] => assignments
  | v :: rest =>
      fillAssignments n i (S j) rest
        (<[v := bool_decide (and32 i (shl32 1 (n - 1 - Z.of_nat j)) = 0)]> assignments)
  end.

(** [generateAllAssignments]: the assignments the generator yields, in
    order; [total = 1 << n] and [i] runs while [i < total]. *)
Definition generateAllAssignments (variables : list (list N)) : list (gmap (list N) bool) :=
  let n := Z.of_nat (length variables) in
  let total := shl32 1 n in
  (λ i, fillAssignments n i 0 variables ∅) <$> seqZ 0 total.

(** The loops of [isTautology], [isContradiction] and [isSatisfiable] over
    the yielded assignments, leaving at the first deciding row. *)
Fixpoint isTautologyLoop (f : Formula) (rows : list (gmap (list N) bool)) : option bool :=
  match rows with
  | [] => Some true
  | a :: rest =>
      match evaluate f a with
      | Some true => isTautologyLoop f rest
      | Some false => Some false
      | None => None
      end
  end.

Fixpoint isContradictionLoop (f : Formula) (rows : list (gmap (list N) bool)) : option bool :=
  match rows with
  | [] => Some true
  | a :: rest =>
      match evaluate f a with
      | Some true => Some false
      | Some false => isContradictionLoop f rest
      | None => None
      end
  end.

Fixpoint isSatisfiableLoop (f : Formula) (rows : list (gmap (list N) bool)) : option bool :=
  match rows with
  | [] => Some false
  | a :: rest =>
      match evaluate f a with
      | Some true => Some true
      | Some false => isSatisfiableLoop f rest
      | None => None
      end
  end.

Definition isTautology (f : Formula) (variables : list (list N)) : option bool :=
  isTautologyLoop f (generateAllAssignments variables).
Definition isContradiction (f : Formula) (variables : list (list N)) : option bool :=
  isContradictionLoop f (generateAllAssignments variables).
Definition isSatisfiable (f : Formula) (variables : list (list N)) : option bool :=
  isSatisfiableLoop f (generateAllAssignments variables).

Record TruthTableEntry : Type := {
  inputs : gmap (list N) bool;
  result : bool;
}.

Record TruthTable : Type := {
  formula : Formula;
  variables : list (list N);
  rows : list TruthTableEntry;
  tableIsTautology : bool;
  tableIsContradiction : bool;
  tableIsSatisfiable : bool;
}.

(** The row loop of [generateTruthTable]. *)
Fixpoint tableRows (f : Formula) (assignments : list (gmap (list N) bool))
    : option (list TruthTableEntry) :=
  match assignments with
  | [] => Some []
  | a :: rest =>
      r ← evaluate f a;
      rs ← tableRows f rest;
      Some ({| inputs := a; result := r |} :: rs)
  end.

Definition generateTruthTable (f : Formula) : option TruthTable :=
  let variables := extractVariables f in
  rows ← tableRows f (generateAllAssignments variables);
  taut ← isTautology f variables;
  contra ← isContradiction f variables;
  sat ← isSatisfiable f variables;
  Some {| formula := f; variables := variables; rows := rows;
          tableIsTautology := taut; tableIsContradiction := contra;
          tableIsSatisfiable := sat |}.

(** [premises.every((p) => evaluate(p, assignments))]: stops at the first
    false premise. *)
Fixpoint everyPremise (premises : list Formula) (a : gmap (list N) bool) : option bool :=
  match premises with
  | [] => Some true
  | p :: rest =>
      match evaluate p a with
      | Some true => everyPremise rest a
      | other => other
      end
  end.

(** [[...new Set([...premises.flatMap(extractVariables),
    ...extractVariables(conclusion)])].sort()] *)
Definition allVars (premises : list Formula) (conclusion : Formula) : list (list N) :=
  jsSort (setFrom (concat (extractVariables <$> premises) ++ extractVariables conclusion)).

(** The loop shared by [entails] and [findCounterexample]:
    [premisesTrue && !evaluate(conclusion, assignments)]. *)
Definition refutes (premises : list Formula) (conclusion : Formula)
    (a : gmap (list N) bool) : option bool :=
  match everyPremise premises a with
  | Some true => negb <$> evaluate conclusion a
  | other => other
  end.

Fixpoint entailsLoop (premises : list Formula) (conclusion : Formula)
    (rows : list (gmap (list N) bool)) : option bool :=
  match rows with
  | [] => Some true
  | a :: rest =>
      match refutes premises conclusion a with
      | Some true => Some false
      | Some false => entailsLoop premises conclusion rest
      | None => None
      end
  end.

(** [entails] *)
Definition entails (premises : list Formula) (conclusion : Formula) : option bool :=
  entailsLoop premises conclusion (generateAllAssignments (allVars premises conclusion)).

Fixpoint findCounterexampleLoop (premises : list Formula) (conclusion : Formula)
    (rows : list (gmap (list N) bool)) : option (option (gmap (list N) bool)) :=
  match rows with
  | [] => Some None
  | a :: rest =>
      match refutes premises conclusion a with
      | Some true => Some (Some a)
      | Some false => findCounterexampleLoop premises conclusion rest
      | None => None
      end
  end.

(** [findCounterexample]: [Some None] is the returned [null]. *)
Definition findCounterexample (premises : list Formula) (conclusion : Formula)
    : option (option (gmap (list N) bool)) :=
  findCounterexampleLoop premises conclusion
    (generateAllAssignments (allVars premises conclusion)).

End TruthTable.

(** ** Reference notions for the truth-table claims *)

(** The variable names occurring in a formula. *)
Fixpoint varsOf (f : Formula) : list (list N) :=
  match f with
  | Var n => [n]
  | Bottom => []
  | Not g => varsOf g
  | And l r | Or l r | Implies l r | Iff l r => varsOf l ++ varsOf r
  end.

(** The classical truth value of a formula under a total valuation. *)
Fixpoint classical (val : list N → bool) (f : Formula) : bool :=
  match f with
  | Var n => val n
  | Bottom => false
  | Not g => negb (classical val g)
  | And l r => classical val l && classical val r
  | Or l r => classical val l || classical val r
  | Implies l r => negb (classical val l) || classical val r
  | Iff l r => eqb (classical val l) (classical val r)
  end.

(** A formula over 31 distinct one-letter names [A..Z], [a..e]. *)
Definition thirtyOneVariables : Formula :=
  foldr (λ c f, And (Var [c]) f) (Var [101%N])
        (N.of_nat <$> (seq 65 26 ++ seq 97 4)).

(** ** Comparing formulas and checking submissions ([truth-table/generate.ts]) *)

Module Generate.
Import TruthTable.

(** [[...new Set([...varsA, ...varsB])].sort()] in [areEquivalent]. *)
Definition equivalenceVars (a b : Formula) : list (list N) :=
  jsSort (setFrom (extractVariables a ++ extractVariables b)).

(** The loop of [areEquivalent]: both formulas are evaluated on every row,
    the first one first. *)
Fixpoint areEquivalentLoop (a b : Formula) (rows : list (gmap (list N) bool))
    : option bool :=
  match rows with
  | [] => Some true
  | assignments :: rest =>
      va ← evaluate a assignments;
      vb ← evaluate b assignments;
      if eqb va vb then areEquivalentLoop a b rest else Some false
  end.

(** [areEquivalent] *)
Definition areEquivalent (a b : Formula) : option bool :=
  areEquivalentLoop a b (generateAllAssignments (equivalenceVars a b)).

(** [[...new Set(formulas.flatMap(extractVariables))].sort()] *)
Definition jointVars (formulas : list Formula) : list (list N) :=
  jsSort (setFrom (concat (extractVariables <$> formulas))).

(** The loop of [areJointlySatisfiable]; [formulas.every] is
    [everyPremise]. *)
Fixpoint jointLoop (formulas : list Formula) (rows : list (gmap (list N) bool))
    : option bool :=
  match rows with
  | [] => Some false
  | assignments :: rest =>
      match everyPremise formulas assignments with
      | Some true => Some true
      | Some false => jointLoop formulas rest
      | None => None
      end
  end.

(** [areJointlySatisfiable] *)
Definition areJointlySatisfiable (formulas : list Formula) : option bool :=
  match formulas with
  | [] => Some true
  | _ :: _ => jointLoop formulas (generateAllAssignments (jointVars formulas))
  end.

(** A submitted row: [{ inputs: boolean[]; output: boolean }]. *)
Record SubmittedRow : Type := {
  submittedInputs : list bool;
  output : bool;
}.

(** An entry of the returned [errors]: [{ row: number; expected: boolean }]. *)
Record RowError : Type := {
  row : nat;
  expected : bool;
}.

Record SubmissionResult : Type := {
  correct : bool;
  errors : list RowError;
}.

(** The inner loop of [validateTruthTableSubmission]:
    [assignments[variableOrder[j]] = submitted.inputs[j]] for [j] upwards.
    Past the end of [inputs] the value stored is [undefined], which
    [evaluate] treats as a missing variable. *)
Fixpoint fillSubmitted (variableOrder : list (list N)) (j : nat) (inputs : list bool)
    (assignments : gmap (list N) bool) : gmap (list N) bool :=
  match variableOrder with
  | [] => assignments
  | v :: rest =>
      fillSubmitted rest (S j) inputs
        match inputs !! j with
        | Some b => <[v := b]> assignments
        | None => delete v assignments
        end
  end.

(** The row loop of [validateTruthTableSubmission], at row [i]. *)
Fixpoint submissionLoop (f : Formula) (variableOrder : list (list N)) (i : nat)
    (submittedRows : list SubmittedRow) : option (list RowError) :=
  match submittedRows with
  | [] => Some []
  | submitted :: rest =>
      e ← evaluate f (fillSubmitted variableOrder 0 (submittedInputs submitted) ∅);
      errs ← submissionLoop f variableOrder (S i) rest;
      Some (if eqb (output submitted) e then errs
            else {| row := i; expected := e |} :: errs)
  end.

(** [validateTruthTableSubmission] *)
Definition validateTruthTableSubmission (f : Formula)
    (submittedRows : list SubmittedRow) (variableOrder : list (list N))
    : option SubmissionResult :=
  errs ← submissionLoop f variableOrder 0 submittedRows;
  Some {| correct := (length errs =? 0)%nat; errors := errs |}.

(** The rows of a generated table as a student would submit them: the
    inputs in the order of the table's variables, and the result. *)
Definition submissionOf (t : TruthTable) : list SubmittedRow :=
  (λ r, {| submittedInputs := (λ v, default false (inputs r !! v)) <$> variables t;
           output := result r |}) <$> rows t.

End Generate.

(** The valuation an assignment stands for: an unassigned name counts as
    false. *)
Definition valuationOf (a : gmap (list N) bool) (v : list N) : bool :=
  default false (a !! v).

(** The valuation a submitted row stands for: the [j]-th input is the
    value of the [j]-th name of [variableOrder]. *)
Definition submittedValuation (variableOrder : list (list N)) (inputs : list bool)
    (v : list N) : bool :=
  default false (list_find (λ w, w = v) variableOrder ≫= λ r, inputs !! r.1).

(** ** [evaluate] on any plain object ([truth-table/evaluate.ts]) *)

(** [assignments[formula.name]] is a property lookup: an object literal
    answers it from its own properties and, for a name it does not hold,
    from [Object.prototype]. [TruthTable.evaluate] models the own
    properties alone, which decide the lookup of every variable that has
    been assigned. This module models the lookup in full, for assignments
    that miss a variable. *)
Module Runtime.

(** What a lookup can yield on a plain object whose own properties hold
    booleans: a boolean, or the member of [Object.prototype] of that name
    (a function; the prototype object itself under [__proto__]). *)
Inductive Value : Type :=
  | Boolean (b : bool)
  | Inherited (name : list N).

Global Instance Value_eq_dec : EqDecision Value.
Proof. solve_decision. Defined.

(** The property names of [Object.prototype]. *)
Definition objectPrototype : list (list N) :=
  str <$> ["constructor"; "hasOwnProperty"; "isPrototypeOf";
           "propertyIsEnumerable"; "toLocaleString"; "toString"; "valueOf";
           "__defineGetter__"; "__defineSetter__"; "__lookupGetter__";
           "__lookupSetter__"; "__proto__"]%string.

(** [assignments[name]]; [None] is [undefined]. *)
Definition getProperty (assignments : gmap (list N) bool) (name : list N)
    : option Value :=
  match assignments !! name with
  | Some b => Some (Boolean b)
  | None => if bool_decide (name ∈ objectPrototype) then Some (Inherited name) else None
  end.

(** The truthiness that [!], [&&] and [||] test: a function or an object
    is truthy. *)
Definition truthy (v : Value) : bool :=
  match v with
  | Boolean b => b
  | Inherited _ => true
  end.

(** [x === y]: the members of [Object.prototype] are distinct objects, and
    none of them is a boolean. *)
Definition strictEquals (x y : Value) : bool := bool_decide (x = y).

(** [evaluate]: [None] is the thrown "Variable ... not found in
    assignments", raised when the lookup yields [undefined]. [x && y] is
    [x] when [x] is falsy and [y] otherwise, [x || y] is [x] when [x] is
    truthy and [y] otherwise, and [!x] is a boolean. *)
Fixpoint evaluate (f : Formula) (assignments : gmap (list N) bool) : option Value :=
  match f with
  | Var name => getProperty assignments name
  | Bottom => Some (Boolean false)
  | Not g => (λ v, Boolean (negb (truthy v))) <$> evaluate g assignments
  | And l r =>
      match evaluate l assignments with
      | Some v => if truthy v then evaluate r assignments else Some v
      | None => None
      end
  | Or l r =>
      match evaluate l assignments with
      | Some v => if truthy v then Some v else evaluate r assignments
      | None => None
      end
  | Implies l r =>
      match evaluate l assignments with
      | Some v => if negb (truthy v) then Some (Boolean true) else evaluate r assignments
      | None => None
      end
  | Iff l r =>
      match evaluate l assignments with
      | Some vl =>
          match evaluate r assignments with
          | Some vr => Some (Boolean (strictEquals vl vr))
          | None => None
          end
      | None => None
      end
  end.

End Runtime.

(** The variables whose value the evaluation of [f] asks for, from left to
    right, when every lookup answers as [val] does: the right operand of
    [And] and of [Implies] is evaluated only when the left one is true,
    that of [Or] only when the left one is false; [Not] and [Iff] evaluate
    all their operands. *)
Fixpoint reached (val : list N → bool) (f : Formula) : list (list N) :=
  match f with
  | Var n => [n]
  | Bottom => []
  | Not g => reached val g
  | And l r | Implies l r =>
      reached val l ++ (if classical val l then reached val r else [])
  | Or l r =>
      reached val l ++ (if classical val l then [] else reached val r)
  | Iff l r => reached val l ++ reached val r
  end.

(** ** Proof steps and validation results ([types.ts]) *)

Inductive InferenceRule : Type :=
  | assumption | and_intro | and_elim_l | and_elim_r
  | or_intro_l | or_intro_r | or_elim
  | implies_intro | implies_elim
  | not_intro | not_elim
  | iff_intro | iff_elim
  | bottom_elim | raa | theorem.

Global Instance InferenceRule_eq_dec : EqDecision InferenceRule.
Proof. solve_decision. Defined.

(** [ProofStep]; [depth] is the nesting level, a natural number, and
    [theoremId = None] an absent [theoremId]. *)
Module ProofStep.
Record t : Type := mk {
  id : list N;
  formula : Formula;
  rule : InferenceRule;
  justification : list (list N);
  depth : nat;
  theoremId : option (list N);
}.
End ProofStep.

(** The fields of [ProvenTheorem] the checker reads. *)
Module ProvenTheorem.
Record t : Type := mk {
  id : list N;
  premises : list Formula;
  conclusion : Formula;
}.
End ProvenTheorem.

(** The wire identifiers of the checker's errors. *)
Inductive ErrorCode : Type :=
  | EMPTY_PROOF
  | INSUFFICIENT_JUSTIFICATIONS | TOO_MANY_JUSTIFICATIONS
  | JUSTIFICATION_NOT_FOUND | INACCESSIBLE_JUSTIFICATION
  | WRONG_PREMISE_TYPE | WRONG_CONCLUSION_TYPE | CONCLUSION_MISMATCH
  | INVALID_SUBPROOF | SUBPROOF_MISMATCH | SUBPROOF_CONCLUSION_MISMATCH
  | INVALID_JUSTIFICATION
  | MISSING_THEOREM_ID | THEOREM_NOT_FOUND | THEOREM_MISMATCH
  | UNKNOWN_RULE.

Global Instance ErrorCode_eq_dec : EqDecision ErrorCode.
Proof. solve_decision. Defined.

(** [ValidationError]; the diagnostic [message] text is not modelled. *)
Module ValidationError.
Record t : Type := mk {
  stepId : list N;
  code : ErrorCode;
}.
End ValidationError.

Global Instance ValidationError_eq_dec : EqDecision ValidationError.t.
Proof. solve_decision. Defined.

Module ProofCheckResult.
Record t : Type := mk {
  valid : bool;
  complete : bool;
  errors : list ValidationError.t;
}.
End ProofCheckResult.

(** ** Inference rules ([validator/rules.ts]) *)

(** [getRequiredJustificationCount]: the pair [[min, max]]. *)
Definition getRequiredJustificationCount (rule : InferenceRule) : nat * nat :=
  match rule with
  | assumption => (0, 0)
  | and_intro => (2, 2)
  | and_elim_l | and_elim_r => (1, 1)
  | or_intro_l | or_intro_r => (1, 1)
  | or_elim => (3, 3)
  | implies_intro => (1, 1)
  | implies_elim => (2, 2)
  | not_intro => (1, 1)
  | not_elim => (1, 1)
  | iff_intro => (2, 2)
  | iff_elim => (2, 2)
  | bottom_elim => (1, 1)
  | raa => (1, 1)
  | theorem => (0, 0)
  end%nat.

Definition opensSubproof (rule : InferenceRule) : bool :=
  bool_decide (rule = assumption).

(** ** Step validation ([validator/validator.ts]) *)

(** [ProofLineInfo]; its optional [subproofStart] is never written or read
    and is left out. [subproofEnd = None] is [undefined]. *)
Module ProofLineInfo.
Record t : Type := mk {
  step : ProofStep.t;
  index : nat;
  accessible : bool;
  isSubproofStart : bool;
  isSubproofEnd : bool;
  subproofEnd : option nat;
}.

Definition setAccessible (b : bool) (l : t) : t :=
  mk (step l) (index l) b (isSubproofStart l) (isSubproofEnd l) (subproofEnd l).
Definition setIsSubproofEnd (b : bool) (l : t) : t :=
  mk (step l) (index l) (accessible l) (isSubproofStart l) b (subproofEnd l).
Definition setSubproofEnd (e : nat) (l : t) : t :=
  mk (step l) (index l) (accessible l) (isSubproofStart l) (isSubproofEnd l) (Some e).
End ProofLineInfo.

(** A recorded subproof start lies at a depth above 0. *)
Definition startsAboveZero (l : ProofLineInfo.t) : Prop :=
  ProofLineInfo.isSubproofStart l = true →
  (0 < ProofStep.depth (ProofLineInfo.step l))%nat.

Module ValidationContext.
Record t : Type := mk {
  lines : list ProofLineInfo.t;
  currentIndex : nat;
  currentDepth : nat;
  premises : list Formula;
}.
End ValidationContext.

Module Validator.

Definition err (step : ProofStep.t) (code : ErrorCode) : ValidationError.t :=
  ValidationError.mk (ProofStep.id step) code.

(** [context.lines.find((l) => l.step.id === justId)]; an [undefined]
    [justId] finds nothing. *)
Definition getLineInfo (context : ValidationContext.t) (justId : option (list N))
    : option ProofLineInfo.t :=
  j ← justId;
  list_find (λ l, ProofStep.id (ProofLineInfo.step l) = j) (ValidationContext.lines context)
    ≫= λ r, Some r.2.

Definition getFormula (context : ValidationContext.t) (justId : option (list N))
    : option Formula :=
  (λ l, ProofStep.formula (ProofLineInfo.step l)) <$> getLineInfo context justId.

(** The subproof named by a justification: its opening line and the line
    at its [subproofEnd] within the context. [INVALID_SUBPROOF] when the
    line is missing, does not start a subproof or has no [subproofEnd]. *)
Definition subproofOf (l : option ProofLineInfo.t) : option (ProofLineInfo.t * nat) :=
  match l with
  | Some s =>
      if ProofLineInfo.isSubproofStart s then
        match ProofLineInfo.subproofEnd s with
        | Some e => Some (s, e)
        | None => None
        end
      else None
  | None => None
  end.

Definition lineFormula (context : ValidationContext.t) (i : nat) : option Formula :=
  (λ l, ProofStep.formula (ProofLineInfo.step l)) <$> ValidationContext.lines context !! i.

Definition isBottom (f : Formula) : bool :=
  match f with Bottom => true | _ => false end.

(** [validateRuleApplication] *)
Definition validateRuleApplication (step : ProofStep.t) (context : ValidationContext.t)
    : list ValidationError.t :=
  let just k := ProofStep.justification step !! k in
  let E := ProofStep.formula step in
  match ProofStep.rule step with
  | assumption => []

  | and_intro =>
      match getFormula context (just 0%nat), getFormula context (just 1%nat) with
      | Some leftF, Some rightF =>
          match E with
          | And l r =>
              if negb (formulaEquals l leftF) || negb (formulaEquals r rightF)
              then [err step CONCLUSION_MISMATCH]
              else []
          | _ => [err step WRONG_CONCLUSION_TYPE]
          end
      | _, _ => [err step INVALID_JUSTIFICATION]
      end

  | and_elim_l =>
      match getFormula context (just 0%nat) with
      | Some (And l _) =>
          if negb (formulaEquals E l) then [err step CONCLUSION_MISMATCH] else []
      | _ => [err step WRONG_PREMISE_TYPE]
      end

  | and_elim_r =>
      match getFormula context (just 0%nat) with
      | Some (And _ r) =>
          if negb (formulaEquals E r) then [err step CONCLUSION_MISMATCH] else []
      | _ => [err step WRONG_PREMISE_TYPE]
      end

  | or_intro_l =>
      match getFormula context (just 0%nat) with
      | Some operand =>
          match E with
          | Or l _ =>
              if negb (formulaEquals l operand) then [err step CONCLUSION_MISMATCH] else []
          | _ => [err step WRONG_CONCLUSION_TYPE]
          end
      | None => [err step INVALID_JUSTIFICATION]
      end

  | or_intro_r =>
      match getFormula context (just 0%nat) with
      | Some operand =>
          match E with
          | Or _ r =>
              if negb (formulaEquals r operand) then [err step CONCLUSION_MISMATCH] else []
          | _ => [err step WRONG_CONCLUSION_TYPE]
          end
      | None => [err step INVALID_JUSTIFICATION]
      end

  | or_elim =>
      let sub1 := getLineInfo context (just 1%nat) in
      let sub2 := getLineInfo context (just 2%nat) in
      match getFormula context (just 0%nat) with
      | Some (Or dl dr) =>
          match sub1, sub2 with
          | Some s1, Some s2 =>
              match subproofOf (Some s1) with
              | None => [err step INVALID_SUBPROOF]
              | Some (_, e1) =>
                  if negb (formulaEquals (ProofStep.formula (ProofLineInfo.step s1)) dl)
                  then [err step SUBPROOF_MISMATCH]
                  else
                    match lineFormula context e1 with
                    | Some c1 =>
                        if negb (formulaEquals c1 E)
                        then [err step SUBPROOF_CONCLUSION_MISMATCH]
                        else
                          match subproofOf (Some s2) with
                          | None => [err step INVALID_SUBPROOF]
                          | Some (_, e2) =>
                              if negb (formulaEquals
                                         (ProofStep.formula (ProofLineInfo.step s2)) dr)
                              then [err step SUBPROOF_MISMATCH]
                              else
                                match lineFormula context e2 with
                                | Some c2 =>
                                    if negb (formulaEquals c2 E)
                                    then [err step SUBPROOF_CONCLUSION_MISMATCH]
                                    else []
                                | None => [err step SUBPROOF_CONCLUSION_MISMATCH]
                                end
                          end
                    | None => [err step SUBPROOF_CONCLUSION_MISMATCH]
                    end
              end
          | _, _ => [err step INVALID_JUSTIFICATION]
          end
      | _ => [err step WRONG_PREMISE_TYPE]
      end

  | implies_intro =>
      match subproofOf (getLineInfo context (just 0%nat)) with
      | None => [err step INVALID_SUBPROOF]
      | Some (s, e) =>
          match E with
          | Implies l r =>
              if negb (formulaEquals (ProofStep.formula (ProofLineInfo.step s)) l)
              then [err step SUBPROOF_MISMATCH]
              else
                match lineFormula context e with
                | Some c =>
                    if negb (formulaEquals c r)
                    then [err step SUBPROOF_CONCLUSION_MISMATCH]
                    else []
                | None => [err step SUBPROOF_CONCLUSION_MISMATCH]
                end
          | _ => [err step WRONG_CONCLUSION_TYPE]
          end
      end

  | implies_elim =>
      let conditional := getFormula context (just 0%nat) in
      let antecedent := getFormula context (just 1%nat) in
      match conditional with
      | Some (Implies cl cr) =>
          match antecedent with
          | None => [err step INVALID_JUSTIFICATION]
          | Some a =>
              if negb (formulaEquals cl a) then [err step CONCLUSION_MISMATCH]
              else if negb (formulaEquals cr E) then [err step CONCLUSION_MISMATCH]
              else []
          end
      | _ =>
          (* Try swapping order. Both formulas are defined here: [validateStep]
             has resolved every justification before this point. *)
          let maybeConditional := antecedent in
          let maybeAntecedent := conditional in
          match maybeConditional, maybeAntecedent with
          | Some (Implies ml mr), Some ma =>
              if formulaEquals ml ma && formulaEquals mr E then []
              else [err step WRONG_PREMISE_TYPE]
          | _, _ => [err step WRONG_PREMISE_TYPE]
          end
      end

  | not_intro =>
      match subproofOf (getLineInfo context (just 0%nat)) with
      | None => [err step INVALID_SUBPROOF]
      | Some (s, e) =>
          match E with
          | Not operand =>
              if negb (formulaEquals (ProofStep.formula (ProofLineInfo.step s)) operand)
              then [err step SUBPROOF_MISMATCH]
              else
                match lineFormula context e with
                | Some c =>
                    if negb (isBottom c) then [err step SUBPROOF_CONCLUSION_MISMATCH] else []
                | None => [err step SUBPROOF_CONCLUSION_MISMATCH]
                end
          | _ => [err step WRONG_CONCLUSION_TYPE]
          end
      end

  | not_elim =>
      match getFormula context (just 0%nat) with
      | Some (Not (Not inner)) =>
          if negb (formulaEquals inner E) then [err step CONCLUSION_MISMATCH] else []
      | _ => [err step WRONG_PREMISE_TYPE]
      end

  | iff_intro =>
      match getFormula context (just 0%nat), getFormula context (just 1%nat) with
      | Some (Implies l1 r1), Some (Implies l2 r2) =>
          match E with
          | Iff el er =>
              let valid1 := formulaEquals l1 el && formulaEquals r1 er
                            && formulaEquals l2 er && formulaEquals r2 el in
              let valid2 := formulaEquals l2 el && formulaEquals r2 er
                            && formulaEquals l1 er && formulaEquals r1 el in
              if negb valid1 && negb valid2 then [err step CONCLUSION_MISMATCH] else []
          | _ => [err step WRONG_CONCLUSION_TYPE]
          end
      | _, _ => [err step WRONG_PREMISE_TYPE]
      end

  | iff_elim =>
      let biconditional := getFormula context (just 0%nat) in
      let operand := getFormula context (just 1%nat) in
      match biconditional with
      | Some (Iff bl br) =>
          match operand with
          | None => [err step INVALID_JUSTIFICATION]
          | Some o =>
              if formulaEquals bl o && formulaEquals br E then []
              else if formulaEquals br o && formulaEquals bl E then []
              else [err step CONCLUSION_MISMATCH]
          end
      | _ =>
          (* Try swapped *)
          match operand, biconditional with
          | Some (Iff ml mr), Some maybeOp =>
              if (formulaEquals ml maybeOp && formulaEquals mr E)
                 || (formulaEquals mr maybeOp && formulaEquals ml E)
              then []
              else [err step WRONG_PREMISE_TYPE]
          | _, _ => [err step WRONG_PREMISE_TYPE]
          end
      end

  | bottom_elim =>
      match getFormula context (just 0%nat) with
      | Some Bottom => []
      | _ => [err step WRONG_PREMISE_TYPE]
      end

  | raa =>
      match subproofOf (getLineInfo context (just 0%nat)) with
      | None => [err step INVALID_SUBPROOF]
      | Some (s, e) =>
          match ProofStep.formula (ProofLineInfo.step s) with
          | Not operand =>
              if negb (formulaEquals operand E) then [err step SUBPROOF_MISMATCH]
              else
                match lineFormula context e with
                | Some c =>
                    if negb (isBottom c) then [err step SUBPROOF_CONCLUSION_MISMATCH] else []
                | None => [err step SUBPROOF_CONCLUSION_MISMATCH]
                end
          | _ => [err step SUBPROOF_MISMATCH]
          end
      end

  | theorem =>
      match ProofStep.theoremId step with
      | None | Some [] => [err step MISSING_THEOREM_ID]
      | Some (_ :: _) => []
      end
  end.

(** The loop over [step.justification] in [validateStep]: every
    justification is looked at and each failure pushes an error. *)
Fixpoint checkJustifications (step : ProofStep.t) (context : ValidationContext.t)
    (justs : list (list N)) : list ValidationError.t :=
  match justs with
  | [] => []
  | justId :: rest =>
      match getLineInfo context (Some justId) with
      | None => err step JUSTIFICATION_NOT_FOUND :: checkJustifications step context rest
      | Some justLine =>
          if negb (ProofLineInfo.accessible justLine)
          then err step INACCESSIBLE_JUSTIFICATION :: checkJustifications step context rest
          else checkJustifications step context rest
      end
  end.

(** [validateStep] *)
Definition validateStep (step : ProofStep.t) (context : ValidationContext.t)
    : list ValidationError.t :=
  let '(minJust, maxJust) := getRequiredJustificationCount (ProofStep.rule step) in
  let n := length (ProofStep.justification step) in
  if (n <? minJust)%nat then [err step INSUFFICIENT_JUSTIFICATIONS]
  else if (maxJust <? n)%nat then [err step TOO_MANY_JUSTIFICATIONS]
  else
    let errors := checkJustifications step context (ProofStep.justification step) in
    match errors with
    | _ :: _ => errors
    | [] => validateRuleApplication step context
    end.

End Validator.

(** ** Whole-proof checking ([validator/checker.ts]) *)

Module Checker.

Import Validator.

(** One turn of the closing loops of [buildProofLineInfo]:
    [startLine.subproofEnd = endIdx], then every line from [startIndex] up
    to (not including) [bound] gets [accessible = false]. *)
Definition closeSubproof (closed : nat * nat) (endIdx bound : nat)
    (lines : list ProofLineInfo.t) : list ProofLineInfo.t :=
  let startIndex := closed.1 in
  let lines := alter (ProofLineInfo.setSubproofEnd endIdx) startIndex lines in
  imap (λ j l,
          if bool_decide (startIndex ≤ j < bound)%nat
          then ProofLineInfo.setAccessible false l else l) lines.

(** [while (subproofStack.length > 0 && cond(top)) { pop; close }]; the
    head of the list is the top of the stack. *)
Fixpoint closeWhile (cond : nat * nat → bool) (endIdx bound : nat)
    (subproofStack : list (nat * nat)) (lines : list ProofLineInfo.t)
    : list (nat * nat) * list ProofLineInfo.t :=
  match subproofStack with
  | [] => ([], lines)
  | top :: rest =>
      if cond top
      then closeWhile cond endIdx bound rest (closeSubproof top endIdx bound lines)
      else (subproofStack, lines)
  end.

(** The main loop of [buildProofLineInfo], at step [i] with the depth of
    the step before it ([0] at the first step). *)
Fixpoint buildLoop (i prevDepth : nat) (steps : list ProofStep.t)
    (subproofStack : list (nat * nat)) (lines : list ProofLineInfo.t)
    : list (nat * nat) * list ProofLineInfo.t :=
  match steps with
  | [] => (subproofStack, lines)
  | step :: rest =>
      let d := ProofStep.depth step in
      let isAssumption := opensSubproof (ProofStep.rule step) in
      let depthIncreased := (prevDepth <? d)%nat in
      let newSubproofAtSameDepth := isAssumption && (0 <? d)%nat && (d =? prevDepth)%nat in
      let isSubproofStart := isAssumption && (depthIncreased || newSubproofAtSameDepth) in
      let '(subproofStack, lines) :=
        closeWhile (λ top, (d <? top.2)%nat || (newSubproofAtSameDepth && (d =? top.2)%nat))
                   (i - 1) i subproofStack lines in
      let lineInfo := ProofLineInfo.mk step i true isSubproofStart false None in
      let subproofStack :=
        if isSubproofStart then (i, d) :: subproofStack else subproofStack in
      buildLoop (S i) d rest subproofStack (lines ++ [lineInfo])
  end.

(** The last loop of [buildProofLineInfo]: the line at the [subproofEnd] of
    every subproof start gets [isSubproofEnd = true]. *)
Definition markSubproofEnds (lines : list ProofLineInfo.t) : list ProofLineInfo.t :=
  foldl (λ acc k,
           match acc !! k with
           | Some line =>
               if ProofLineInfo.isSubproofStart line then
                 match ProofLineInfo.subproofEnd line with
                 | Some e => alter (ProofLineInfo.setIsSubproofEnd true) e acc
                 | None => acc
                 end
               else acc
           | None => acc
           end)
        lines (seq 0 (length lines)).

(** [buildProofLineInfo] *)
Definition buildProofLineInfo (steps : list ProofStep.t) : list ProofLineInfo.t :=
  let '(subproofStack, lines) := buildLoop 0 0 steps [] [] in
  let '(_, lines) :=
    closeWhile (λ _, true) (length lines - 1) (length lines) subproofStack lines in
  markSubproofEnds lines.

Definition lineDepth (lines : list ProofLineInfo.t) (i : nat) : nat :=
  default 0%nat ((λ l, ProofStep.depth (ProofLineInfo.step l)) <$> lines !! i).

(** The loop of [getSubproofAncestors], about to look at index [k - 1]
    and going down to [0]. *)
Fixpoint ancestorsLoop (lines : list ProofLineInfo.t) (k currentDepth : nat) : list nat :=
  match k with
  | O => []
  | S i =>
      match lines !! i with
      | Some line =>
          if ProofLineInfo.isSubproofStart line
             && (ProofStep.depth (ProofLineInfo.step line) <? currentDepth)%nat
          then i :: ancestorsLoop lines i (ProofStep.depth (ProofLineInfo.step line))
          else ancestorsLoop lines i currentDepth
      | None => ancestorsLoop lines i currentDepth
      end
  end.

(** [getSubproofAncestors] *)
Definition getSubproofAncestors (lines : list ProofLineInfo.t) (idx : nat) : list nat :=
  ancestorsLoop lines (S idx) (lineDepth lines idx).

(** The two tests [isInSameSubproofBranch] makes on one ancestor. *)
Definition ancestorExcludes (lines : list ProofLineInfo.t) (currentIdx ancestor : nat) : bool :=
  match lines !! ancestor ≫= ProofLineInfo.subproofEnd with
  | Some e =>
      (e <? currentIdx)%nat || ((currentIdx <? ancestor)%nat || (e <? currentIdx)%nat)
  | None => false
  end.

(** [isInSameSubproofBranch] *)
Definition isInSameSubproofBranch (lines : list ProofLineInfo.t)
    (targetIdx currentIdx : nat) : bool :=
  forallb (λ ancestor, negb (ancestorExcludes lines currentIdx ancestor))
          (getSubproofAncestors lines targetIdx).

(** [isLineAccessible]; [targetIdx] is an index of [lines] at every call. *)
Definition isLineAccessible (lines : list ProofLineInfo.t)
    (targetIdx currentIdx currentDepth : nat) : bool :=
  if (currentIdx <? targetIdx)%nat then false
  else
    let targetDepth := lineDepth lines targetIdx in
    if (targetDepth =? 0)%nat then true
    else if (currentDepth <? targetDepth)%nat
         then isInSameSubproofBranch lines targetIdx currentIdx
         else isInSameSubproofBranch lines targetIdx currentIdx.

(** [isPremise] *)
Definition isPremise (f : Formula) (premises : list Formula) : bool :=
  existsb (λ p, formulaEquals p f) premises.

(** [lines.slice(0, i + 1).map((line, idx) => ({ ...line, accessible:
    isLineAccessible(lines, idx, i, step.depth) }))] *)
Definition contextLines (lines : list ProofLineInfo.t) (i depth : nat)
    : list ProofLineInfo.t :=
  imap (λ idx line, ProofLineInfo.setAccessible (isLineAccessible lines idx i depth) line)
       (take (S i) lines).

(** The body of the validation loop of [checkProof] for the step at
    index [i]: the errors it pushes onto [allErrors]. *)
Definition checkStep (lines : list ProofLineInfo.t) (premises : list Formula)
    (theoremLibrary : list ProvenTheorem.t) (i : nat) (step : ProofStep.t)
    : list ValidationError.t :=
  let context :=
    ValidationContext.mk (contextLines lines i (ProofStep.depth step)) i
                         (ProofStep.depth step) premises in
  if bool_decide (ProofStep.rule step = assumption)
     && (ProofStep.depth step =? 0)%nat
     && isPremise (ProofStep.formula step) premises
  then []
  else if bool_decide (ProofStep.rule step = theorem) then
    match list_find (λ t, Some (ProvenTheorem.id t) = ProofStep.theoremId step)
                    theoremLibrary with
    | None => [err step THEOREM_NOT_FOUND]
    | Some (_, thm) =>
        if negb (formulaEquals (ProvenTheorem.conclusion thm) (ProofStep.formula step))
        then [err step THEOREM_MISMATCH]
        else []
    end
  else validateStep step context.

(** [checkProof] *)
Definition checkProof (steps : list ProofStep.t) (premises : list Formula)
    (conclusion : Formula) (theoremLibrary : list ProvenTheorem.t)
    : ProofCheckResult.t :=
  match last steps with
  | None =>
      ProofCheckResult.mk false false [ValidationError.mk [] EMPTY_PROOF]
  | Some lastStep =>
      let lines := buildProofLineInfo steps in
      let allErrors := concat (imap (checkStep lines premises theoremLibrary) steps) in
      let complete :=
        (ProofStep.depth lastStep =? 0)%nat
        && formulaEquals (ProofStep.formula lastStep) conclusion in
      ProofCheckResult.mk (bool_decide (allErrors = [])) complete allErrors
  end.

(** [validateNewStep] *)
Definition validateNewStep (existingSteps : list ProofStep.t) (newStep : ProofStep.t)
    (premises : list Formula) : list ValidationError.t :=
  let allSteps := existingSteps ++ [newStep] in
  let lines := buildProofLineInfo allSteps in
  let currentIdx := (length allSteps - 1)%nat in
  let context :=
    ValidationContext.mk (contextLines lines currentIdx (ProofStep.depth newStep))
                         currentIdx (ProofStep.depth newStep) premises in
  if bool_decide (ProofStep.rule newStep = assumption)
     && (ProofStep.depth newStep =? 0)%nat
     && isPremise (ProofStep.formula newStep) premises
  then []
  else validateStep newStep context.

End Checker.

(** ** More of [validator/rules.ts] *)

(** [usesSubproofJustification] *)
Definition usesSubproofJustification (rule : InferenceRule) : bool :=
  bool_decide (rule = implies_intro) || bool_decide (rule = not_intro)
  || bool_decide (rule = raa) || bool_decide (rule = or_elim).

(** ** Notions used to state properties of the checker *)

(** A rule that derives its formula from the formulas of the cited lines
    alone: not an assumption, not a theorem citation, no subproof. *)
Definition directRule (rule : InferenceRule) : bool :=
  negb (opensSubproof rule) && negb (usesSubproofJustification rule)
  && negb (bool_decide (rule = theorem)).

(** The error codes that speak of a cited subproof. *)
Definition isSubproofCode (code : ErrorCode) : bool :=
  match code with
  | INVALID_SUBPROOF | SUBPROOF_MISMATCH | SUBPROOF_CONCLUSION_MISMATCH => true
  | _ => false
  end.

(** A step of a proof without hypotheses: an assumption restates a premise
    at depth 0, every other step applies a direct rule and does not cite
    itself. *)
Definition plainStep (premises : list Formula) (step : ProofStep.t) : Prop :=
  if bool_decide (ProofStep.rule step = assumption)
  then ProofStep.depth step = 0%nat
       ∧ Checker.isPremise (ProofStep.formula step) premises = true
  else directRule (ProofStep.rule step) = true
       ∧ ProofStep.id step ∉ ProofStep.justification step.

(** Why a justification of [step], the step at index [c], fails, if it
    does: no step up to [c] carries the cited id, or the first that does
    is not accessible from [c]. *)
Definition justificationFailure (steps : list ProofStep.t) (c : nat)
    (step : ProofStep.t) (justId : list N) : option ErrorCode :=
  match list_find (λ s, ProofStep.id s = justId) (take (S c) steps) with
  | None => Some JUSTIFICATION_NOT_FOUND
  | Some (t, _) =>
      if Checker.isLineAccessible (Checker.buildProofLineInfo steps) t c
           (ProofStep.depth step)
      then None
      else Some INACCESSIBLE_JUSTIFICATION
  end.

(** The step gets as far as the loop over its justifications: it is not
    taken as a premise, it is not a theorem citation, and it cites as many
    lines as its rule requires. *)
Definition reachesJustifications (premises : list Formula) (step : ProofStep.t) : bool :=
  negb (bool_decide (ProofStep.rule step = assumption)
        && (ProofStep.depth step =? 0)%nat
        && Checker.isPremise (ProofStep.formula step) premises)
  && negb (bool_decide (ProofStep.rule step = theorem))
  && ((getRequiredJustificationCount (ProofStep.rule step)).1
        <=? length (ProofStep.justification step))%nat
  && (length (ProofStep.justification step)
        <=? (getRequiredJustificationCount (ProofStep.rule step)).2)%nat.

(** The fields of a line that closing a subproof leaves alone. *)
Definition lineStatic (l : ProofLineInfo.t) : ProofStep.t * nat * bool :=
  (ProofLineInfo.step l, ProofLineInfo.index l, ProofLineInfo.isSubproofStart l).

(** The depth of the line before index [k], [0] before the first line. *)
Definition depthBefore (lines : list ProofLineInfo.t) (k : nat) : nat :=
  match k with
  | O => 0%nat
  | S j => Checker.lineDepth lines j
  end.

(** The line [l] at index [k] is an assumption at a depth above 0, at
    least as deep as the line before it. *)
Definition opensAt (lines : list ProofLineInfo.t) (k : nat) (l : ProofLineInfo.t) : Prop :=
  ProofStep.rule (ProofLineInfo.step l) = assumption
  ∧ (0 < ProofStep.depth (ProofLineInfo.step l))%nat
  ∧ (depthBefore lines k ≤ ProofStep.depth (ProofLineInfo.step l))%nat.

(** What the main loop of [buildProofLineInfo] maintains, before the step
    at index [i], with [subproofStack] the subproofs still open. *)
Definition BuildInv (i : nat) (subproofStack : list (nat * nat))
    (lines : list ProofLineInfo.t) : Prop :=
  length lines = i
  ∧ Forall (λ c, (c.1 < i)%nat) subproofStack
  ∧ ∀ k l, lines !! k = Some l →
      ProofLineInfo.index l = k
      ∧ (ProofLineInfo.isSubproofStart l = true ↔ opensAt lines k l)
      ∧ (ProofLineInfo.isSubproofStart l = false → ProofLineInfo.subproofEnd l = None)
      ∧ (k ∈ subproofStack.*1 → ProofLineInfo.isSubproofStart l = true)
      ∧ (ProofLineInfo.isSubproofStart l = true →
           k ∈ subproofStack.*1
           ∨ ∃ e, ProofLineInfo.subproofEnd l = Some e ∧ (k ≤ e < i)%nat).

(** The subproofs recorded so far are well nested: the open ones are
    stacked with the latest on top and have no end yet, and a subproof
    that starts inside a closed one ends inside it. *)
Definition Nested (subproofStack : list (nat * nat)) (lines : list ProofLineInfo.t)
    : Prop :=
  StronglySorted (λ x y, (y.1 < x.1)%nat) subproofStack
  ∧ (∀ k l, k ∈ subproofStack.*1 → lines !! k = Some l →
            ProofLineInfo.subproofEnd l = None)
  ∧ ∀ a b la lb ea,
      lines !! a = Some la → lines !! b = Some lb →
      ProofLineInfo.subproofEnd la = Some ea →
      ProofLineInfo.isSubproofStart lb = true →
      (a < b ≤ ea)%nat →
      ∃ eb, ProofLineInfo.subproofEnd lb = Some eb ∧ (eb ≤ ea)%nat.

(** ** Notions used to state the extent of subproofs *)

(** The depth of the step at index [j], [0] outside the proof. *)
Definition stepDepth (steps : list ProofStep.t) (j : nat) : nat :=
  default 0%nat (ProofStep.depth <$> steps !! j).

(** The depth of the step before index [j], [0] before the first step. *)
Definition depthBeforeStep (steps : list ProofStep.t) (j : nat) : nat :=
  match j with
  | O => 0%nat
  | S k => stepDepth steps k
  end.

(** The step at index [k] opens a subproof: it is an assumption at a depth
    above 0, at least as deep as the step before it. *)
Definition startsSubproof (steps : list ProofStep.t) (k : nat) : bool :=
  match steps !! k with
  | Some step =>
      opensSubproof (ProofStep.rule step)
      && (0 <? ProofStep.depth step)%nat
      && (depthBeforeStep steps k <=? ProofStep.depth step)%nat
  | None => false
  end.

(** The step at index [j] puts an end to an open subproof of depth
    [depth]: it is shallower, or it is an assumption that opens the next
    subproof at that same depth. *)
Definition closesDepth (steps : list ProofStep.t) (j depth : nat) : bool :=
  match steps !! j with
  | Some step =>
      let d := ProofStep.depth step in
      (d <? depth)%nat
      || (opensSubproof (ProofStep.rule step) && (0 <? d)%nat
          && (d =? depthBeforeStep steps j)%nat && (d =? depth)%nat)
  | None => false
  end.

(** The subproof that the table records as opened at index [a] contains
    the index [t]: [t] lies between [a] and the recorded [subproofEnd]. *)
Definition subproofContains (lines : list ProofLineInfo.t) (a t : nat) : bool :=
  match lines !! a with
  | Some la =>
      ProofLineInfo.isSubproofStart la
      && match ProofLineInfo.subproofEnd la with
         | Some e => (a <=? t)%nat && (t <=? e)%nat
         | None => false
         end
  | None => false
  end.

(** The depth column is a nesting level: from one step to the next it
    rises by one at most, and only at an assumption. *)
Fixpoint nestingLevelsFrom (prevDepth : nat) (steps : list ProofStep.t) : bool :=
  match steps with
  | [] => true
  | step :: rest =>
      ((ProofStep.depth step <=? prevDepth)%nat
       || (opensSubproof (ProofStep.rule step)
           && (ProofStep.depth step =? S prevDepth)%nat))
      && nestingLevelsFrom (ProofStep.depth step) rest
  end.

Definition nestingLevels (steps : list ProofStep.t) : bool :=
  nestingLevelsFrom 0 steps.

(** What the main loop of [buildProofLineInfo] maintains about the extent
    of the subproofs of the proof [all], before the step at index [i]: the
    open subproofs are stacked by depth, none of them has met a step that
    closes it, and a closed subproof ends just before the first step that
    closes it. *)
Definition ExtentInv (all : list ProofStep.t) (i : nat)
    (subproofStack : list (nat * nat)) (lines : list ProofLineInfo.t) : Prop :=
  StronglySorted (λ x y, (y.2 < x.2)%nat) subproofStack
  ∧ (∀ c, c ∈ subproofStack →
       (c.1 < i)%nat ∧ stepDepth all c.1 = c.2
       ∧ ∀ j, (c.1 < j < i)%nat → closesDepth all j c.2 = false)
  ∧ (∀ a la e, lines !! a = Some la → ProofLineInfo.subproofEnd la = Some e →
       (∀ j, (a < j ≤ e)%nat → closesDepth all j (stepDepth all a) = false)
       ∧ ((S e < length all)%nat → closesDepth all (S e) (stepDepth all a) = true)).

(** In terms of the steps alone: the step at [a] opens a subproof, and no
    step after it up to [t] closes a subproof of its depth. *)
Definition spans (steps : list ProofStep.t) (a t : nat) : Prop :=
  (a ≤ t)%nat
  ∧ startsSubproof steps a = true
  ∧ ∀ j, (a < j ≤ t)%nat → closesDepth steps j (stepDepth steps a) = false.

(** What the walk of [getSubproofAncestors] from [t] collects, in closed
    form: the subproof starts before [t] that are shallower than [t] and
    than every subproof start between them and [t]. *)
Definition enclosesByDepth (steps : list ProofStep.t) (a t : nat) : Prop :=
  (a < t)%nat
  ∧ startsSubproof steps a = true
  ∧ (stepDepth steps a < stepDepth steps t)%nat
  ∧ ∀ b, (a < b < t)%nat → startsSubproof steps b = true →
         (stepDepth steps a < stepDepth steps b)%nat.

(** ** More of [parser/parser.ts] *)

(** [parse]: the formula of a successful [parseFormula]; [None] is the
    thrown [Error] that carries the message of the failure. *)
Definition parse (input : list N) : option Formula :=
  match parseFormula input with
  | Some (Parser.success f) => Some f
  | _ => None
  end.

(** ** More of [parser/printer.ts] *)

(** [printAscii] *)
Definition printAscii (f : Formula) : list N := Printer.printFormula f ascii.

(** [printUtf8] *)
Definition printUtf8 (f : Formula) : list N := Printer.printFormula f utf8.

(** ** Notions used to state properties of the lexer and the parser *)

(** The characters that always start a token of their own. *)
Definition operatorChars : list N :=
  [Lexer.LPAREN_CHAR; Lexer.RPAREN_CHAR; Lexer.TILDE; Lexer.NOT_SIGN;
   Lexer.AMPERSAND; Lexer.LOGICAL_AND; Lexer.LOGICAL_OR; Lexer.BAR;
   Lexer.LEFT_RIGHT_ARROW; Lexer.RIGHT_ARROW; Lexer.UP_TACK].

(** A character the lexer can only fall back on: no white space, no
    letter, no operator character. Alone, it becomes a one-character
    variable token. *)
Definition fallbackChar (c : N) : bool :=
  negb (Lexer.isSpace c) && negb (Lexer.isAlpha c)
  && negb (bool_decide (c ∈ operatorChars)).

(** The names the lexer can give a variable token: an identifier, or one
    fallback character. *)
Definition lexerName (name : list N) : bool :=
  wellFormedName name
  || match name with
     | [c] => fallbackChar c
     | _ => false
     end.

(** A formula all of whose names the lexer can produce. *)
Fixpoint lexerFormula (f : Formula) : bool :=
  match f with
  | Var name => lexerName name
  | Bottom => true
  | Not g => lexerFormula g
  | And l r | Or l r | Implies l r | Iff l r => lexerFormula l && lexerFormula r
  end.

(** What the printer writes after a subformula: nothing, a space, or a
    closing parenthesis. *)
Definition followsPrinted (r : list N) : Prop :=
  match r with
  | [] => True
  | c :: _ => c = 32%N ∨ c = 41%N
  end.

(** What the induction carries for a printed piece [A] with kinds [K],
    when the piece is followed as the printer follows it. *)
Definition LexesPrinted (A : list N) (K : list (TokenType * list N)) : Prop :=
  ∀ input pos r,
    drop pos input = A ++ r → followsPrinted r →
    Lexes input pos K (pos + length A).

Section ParserOutcomes.
Import Parser.
Variable tokens : list Token.t.

(** A parsing method stopped inside the token array: it returned at an
    index of the array, or threw at the position of one of its tokens. *)
Definition Inside (r : run (Formula * nat)) : Prop :=
  match r with
  | Done (_, q) => (q < length tokens)%nat
  | Throw e => ∃ p t, tokens !! p = Some t ∧ errorPosition e = Token.position t
  | OutOfFuel => True
  end.

(** The names of a returned formula are values of variable tokens. *)
Definition NamesFromTokens (r : run (Formula * nat)) : Prop :=
  match r with
  | Done (f, _) =>
      ∀ name, name ∈ varsOf f →
        ∃ t, t ∈ tokens ∧ Token.type t = VAR ∧ Token.value t = name
  | _ => True
  end.

End ParserOutcomes.

(** Two runs of a parsing method end alike: with the same formula at the
    same index, or both with an exception. *)
Definition SameOutcome (r r' : Parser.run (Formula * nat)) : Prop :=
  match r, r' with
  | Parser.Done a, Parser.Done b => a = b
  | Parser.Throw _, Parser.Throw _ => True
  | Parser.OutOfFuel, Parser.OutOfFuel => True
  | _, _ => False
  end.

(** ** Concrete proofs used below *)

Module Examples.

Definition P : Formula := Var (str "P").
Definition Q : Formula := Var (str "Q").
Definition R : Formula := Var (str "R").

(** A step without a theorem id, as the tests' [makeStep] builds it. *)
Definition makeStep (f : Formula) (rule : InferenceRule) (justification : list string)
    (depth : nat) (id : string) : ProofStep.t :=
  ProofStep.mk (str id) f rule (str <$> justification) depth None.

(** One assumption at depth 0 that is not a premise. *)
Definition loneAssumption : list ProofStep.t :=
  [makeStep P assumption [] 0 "s1"].

(** A depth-0 step citing the derived line [s2] of the closed subproof
    [s1..s2]. *)
Definition citesClosedSubproof : list ProofStep.t :=
  [makeStep P assumption [] 1 "s1";
   makeStep (Or P Q) or_intro_l ["s1"] 1 "s2";
   makeStep (Or (Or P Q) R) or_intro_l ["s2"] 0 "s3"].

(** A step citing itself. *)
Definition citesItself : list ProofStep.t :=
  [makeStep Bottom bottom_elim ["s1"] 0 "s1"].

(** Goal [⊢ P → P]: the subproof [s1] is cited from depth 0 by its opening
    assumption. *)
Definition conditionalIntro : list ProofStep.t :=
  [makeStep P assumption [] 1 "s1";
   makeStep (Implies P P) implies_intro ["s1"] 0 "s2"].

(** A depth-0 step citing a line of a subproof nested in a closed one. *)
Definition citesNestedClosed : list ProofStep.t :=
  [makeStep P assumption [] 1 "a";
   makeStep Q assumption [] 2 "b";
   makeStep (Or Q R) or_intro_l ["b"] 0 "d"].

(** A depth column that is no nesting level: the depth jumps from 1 to 3
    at [t]; [u] cites [t] from inside the subproof that [t] opens. *)
Definition depthJump : list ProofStep.t :=
  [makeStep P assumption [] 1 "a";
   makeStep Q assumption [] 2 "b";
   makeStep (Or P Q) or_intro_l ["a"] 1 "s";
   makeStep R assumption [] 3 "t";
   makeStep (Or R P) or_intro_l ["t"] 3 "u"].

(** Two references that resolve to no line. *)
Definition twoMissingReferences : list ProofStep.t :=
  [makeStep (And P Q) and_intro ["s1"; "nonexistent"] 0 "s2"].

(** A step with three references: the first to a line of a subproof
    nested in a closed one, the second to no line, the third to the
    opening assumption of a closed subproof. *)
Definition mixedReferences : list ProofStep.t :=
  [makeStep P assumption [] 1 "a";
   makeStep Q assumption [] 2 "b";
   makeStep R or_elim ["b"; "nonexistent"; "a"] 0 "d"].

(** Modus ponens where both cited formulas are conditionals, the major
    premise [(P → Q) → R] cited second, and cited first. *)
Definition ponensMajorSecond : list ProofStep.t :=
  [makeStep (Implies P Q) assumption [] 0 "s1";
   makeStep (Implies (Implies P Q) R) assumption [] 0 "s2";
   makeStep R implies_elim ["s1"; "s2"] 0 "s3"].

Definition ponensMajorFirst : list ProofStep.t :=
  [makeStep (Implies P Q) assumption [] 0 "s1";
   makeStep (Implies (Implies P Q) R) assumption [] 0 "s2";
   makeStep R implies_elim ["s2"; "s1"] 0 "s3"].

(** An assumption that carries a justification. *)
Definition justifiedAssumption : list ProofStep.t :=
  [makeStep P assumption ["x"] 0 "s1"].

End Examples.

(** * Structural equality *)

Lemma formulaEquals_spec (a b : Formula) : formulaEquals a b = true ↔ a = b.
Proof.
  revert b. induction a as [n|x IH|l IHl r IHr|l IHl r IHr|l IHl r IHr|l IHl r IHr|];
    intros [m|y|l' r'|l' r'|l' r'|l' r'|]; simpl;
    rewrite ?andb_true_iff, ?bool_decide_eq_true, ?IH, ?IHl, ?IHr;
    split; intros H; try discriminate; try done;
    try (destruct H; congruence); try (inversion H; subst; auto).
Qed.

Lemma formulaEquals_refl (a : Formula) : formulaEquals a a = true.
Proof. by apply formulaEquals_spec. Qed.


(** * Properties of the string order and of [extractVariables] *)

Section StringOrder.

Lemma strLtb_irrefl x : strLtb x x = false.
Proof.
  induction x as [|a x IH]; [done|]. cbn [strLtb].
  by rewrite N.ltb_irrefl.
Qed.

Lemma strLtb_trichotomy x y :
  strLtb x y = false → strLtb y x = false → x = y.
Proof.
  revert y. induction x as [|a x IH]; intros [|b y]; cbn [strLtb]; try done.
  destruct (N.ltb_spec a b); [done|].
  destruct (N.ltb_spec b a); [done|].
  intros Hxy Hyx. assert (a = b) as -> by lia.
  f_equal. by apply IH.
Qed.

Lemma strLtb_trans x y z :
  strLtb x y = true → strLtb y z = true → strLtb x z = true.
Proof.
  revert y z. induction x as [|a x IH]; intros [|b y] [|c z]; cbn [strLtb]; try done.
  destruct (N.ltb_spec a b), (N.ltb_spec b c), (N.ltb_spec a c);
    try done; try lia;
    destruct (N.ltb_spec b a), (N.ltb_spec c b), (N.ltb_spec c a);
    try done; try lia.
  apply IH.
Qed.

Lemma strLtb_asym x y : strLtb x y = true → strLtb y x = false.
Proof.
  intros H. destruct (strLtb y x) eqn:H'; [|done].
  pose proof (strLtb_trans _ _ _ H H') as Hxx. by rewrite strLtb_irrefl in Hxx.
Qed.

Global Instance sortLe_total : Total sortLe.
Proof.
  intros x y. unfold sortLe.
  destruct (strLtb y x) eqn:H; [|by left].
  right. by apply strLtb_asym.
Qed.

Global Instance sortLe_trans : Transitive sortLe.
Proof.
  intros x y z. unfold sortLe. intros Hxy Hyz.
  destruct (strLtb z x) eqn:Hzx; [|done].
  destruct (strLtb x y) eqn:Hxy'.
  - pose proof (strLtb_trans _ _ _ Hzx Hxy'). congruence.
  - assert (x = y) as -> by by apply strLtb_trichotomy. congruence.
Qed.

Lemma jsSort_Permutation l : jsSort l ≡ₚ l.
Proof. apply merge_sort_Permutation. Qed.

Lemma jsSort_elem_of l x : x ∈ jsSort l ↔ x ∈ l.
Proof. by rewrite jsSort_Permutation. Qed.

Lemma jsSort_NoDup l : NoDup l → NoDup (jsSort l).
Proof. by rewrite jsSort_Permutation. Qed.

Lemma jsSort_length l : length (jsSort l) = length l.
Proof. by rewrite jsSort_Permutation. Qed.

(** A sorted array of distinct names is strictly ascending. *)
Lemma jsSort_ascending l :
  NoDup l → StronglySorted (λ x y, strLtb x y = true) (jsSort l).
Proof.
  intros Hnd. apply jsSort_NoDup in Hnd.
  pose proof (StronglySorted_merge_sort sortLe l) as Hs. fold (jsSort l) in Hs.
  induction Hs as [|x k Hs IH Hall]; [constructor|].
  apply NoDup_cons in Hnd as [Hx Hnd].
  constructor; [by apply IH|].
  apply Forall_forall. intros y Hy.
  rewrite Forall_forall in Hall. specialize (Hall y Hy). unfold sortLe in Hall.
  destruct (strLtb x y) eqn:Hxy; [done|].
  assert (x = y) as -> by by apply strLtb_trichotomy. done.
Qed.

Lemma setAdd_elem_of x s y : y ∈ setAdd x s ↔ y = x ∨ y ∈ s.
Proof.
  unfold setAdd. case_decide.
  - split; [by right|]. by intros [->|?].
  - rewrite elem_of_app, list_elem_of_singleton. tauto.
Qed.

Lemma setAdd_NoDup x s : NoDup s → NoDup (setAdd x s).
Proof.
  intros H. unfold setAdd. case_decide; [done|].
  apply NoDup_app. split_and!; [done| |apply NoDup_singleton].
  intros y Hy ->%list_elem_of_singleton. done.
Qed.

Lemma collect_elem_of f s y : y ∈ collect f s ↔ y ∈ varsOf f ∨ y ∈ s.
Proof.
  revert s. induction f as [n|g IH|l IHl r IHr|l IHl r IHr|l IHl r IHr|l IHl r IHr|];
    intros s; cbn [collect varsOf];
    rewrite ?IHr, ?IHl, ?IH, ?elem_of_app, ?setAdd_elem_of, ?list_elem_of_singleton,
            ?elem_of_nil; tauto.
Qed.

Lemma collect_NoDup f s : NoDup s → NoDup (collect f s).
Proof.
  revert s. induction f; intros s H; cbn [collect]; auto using setAdd_NoDup.
Qed.

Lemma extractVariables_elem_of f v : v ∈ extractVariables f ↔ v ∈ varsOf f.
Proof.
  unfold extractVariables. rewrite jsSort_elem_of, collect_elem_of, elem_of_nil. tauto.
Qed.

Lemma extractVariables_NoDup f : NoDup (extractVariables f).
Proof. apply jsSort_NoDup, collect_NoDup, NoDup_nil_2. Qed.

Lemma extractVariables_ascending f :
  StronglySorted (λ x y, strLtb x y = true) (extractVariables f).
Proof. apply jsSort_ascending, collect_NoDup, NoDup_nil_2. Qed.

Lemma setFrom_elem_of l y : y ∈ setFrom l ↔ y ∈ l.
Proof.
  unfold setFrom.
  assert (∀ s, y ∈ foldl (λ s x, setAdd x s) s l ↔ y ∈ l ∨ y ∈ s) as H.
  { induction l as [|x l IH]; intros s; cbn [foldl].
    - rewrite elem_of_nil. tauto.
    - rewrite IH, setAdd_elem_of, elem_of_cons. tauto. }
  rewrite H, elem_of_nil. tauto.
Qed.

Lemma setFrom_NoDup l : NoDup (setFrom l).
Proof.
  unfold setFrom.
  assert (∀ s, NoDup s → NoDup (foldl (λ s x, setAdd x s) s l)) as H.
  { induction l as [|x l IH]; intros s Hs; cbn [foldl]; [done|].
    by apply IH, setAdd_NoDup. }
  apply H, NoDup_nil_2.
Qed.

End StringOrder.

(** * Properties of the lexer *)

Section LexerFacts.
Import Lexer.

Lemma takeWhile_prefix test s : take (length (takeWhile test s)) s = takeWhile test s.
Proof.
  induction s as [|c s IH]; [done|]. cbn [takeWhile].
  destruct (test c); [|done]. cbn [length take]. by rewrite IH.
Qed.

Lemma takeWhile_length test s : (length (takeWhile test s) ≤ length s)%nat.
Proof.
  induction s as [|c s IH]; [done|]. cbn [takeWhile].
  destruct (test c); cbn [length]; lia.
Qed.

Lemma takeWhile_drop_head test s c rest :
  drop (length (takeWhile test s)) s = c :: rest → test c = false.
Proof.
  induction s as [|d s IH]; [done|]. cbn [takeWhile].
  destruct (test d) eqn:Hd; cbn [length drop]; [done|].
  intros; by simplify_eq.
Qed.

Lemma isAlpha_isAlphaNumeric c : isAlpha c = true → isAlphaNumeric c = true.
Proof. unfold isAlphaNumeric. by intros ->. Qed.

(** What [scanToken] returns on unread input: a token that starts at the
    position, spells a non-empty prefix of the unread input and ends at the
    returned position. *)
Lemma scanToken_spec unread position t q :
  scanToken unread position = (t, q) →
  Token.position t = position
  ∧ (position + length (Token.value t))%nat = q
  ∧ take (length (Token.value t)) unread = Token.value t
  ∧ (Token.type t = EOF ↔ unread = [])
  ∧ (Token.type t = EOF ↔ Token.value t = []).
Proof.
  unfold scanToken. destruct unread as [|char rest]; [by intros [= <- <-]|].
  repeat case_match;
    intros [= <- <-]; cbn [Token.position Token.value Token.type length take];
    (split_and!; try done; try lia; try (by split));
    repeat match goal with
      | H : (_ =? _)%N = true |- _ => apply N.eqb_eq in H; subst
      | H : orb _ _ = true |- _ => apply orb_true_iff in H as [H|H]
      | H : andb _ _ = true |- _ => apply andb_true_iff in H as [? ?]
      | H : bool_decide _ = true |- _ => apply bool_decide_eq_true in H
      end;
    try done;
    try (destruct rest as [|? [|? ?]]; simplify_eq/=; done);
    rename select (isAlpha _ = true) into Ha;
    cbn [takeWhile]; rewrite (isAlpha_isAlphaNumeric _ Ha); cbn [length take].
  - by rewrite takeWhile_prefix.
  - by split.
Qed.
End LexerFacts.

Section LexerPositions.
Import Lexer.

Lemma skipWhitespace_bounds input position :
  (position ≤ length input)%nat →
  (position ≤ skipWhitespace input position ≤ length input)%nat.
Proof.
  intros Hle. unfold skipWhitespace.
  pose proof (takeWhile_length isSpace (drop position input)) as H.
  rewrite length_drop in H. lia.
Qed.

(** What [nextToken] returns from a position inside the input. *)
Lemma nextToken_spec input position t q :
  (position ≤ length input)%nat →
  nextToken input position = (t, q) →
  (position ≤ Token.position t)%nat
  ∧ (Token.position t + length (Token.value t))%nat = q
  ∧ (q ≤ length input)%nat
  ∧ take (length (Token.value t)) (drop (Token.position t) input) = Token.value t
  ∧ (Token.type t = EOF → Token.position t = length input)
  ∧ (Token.type t = EOF ↔ Token.value t = []).
Proof.
  intros Hle Hnext. unfold nextToken in Hnext.
  pose proof (skipWhitespace_bounds input position Hle) as Hw.
  apply scanToken_spec in Hnext as (Hpos & Hq & Htake & Heof & Hval).
  rewrite Hpos. split_and!; try done; try lia.
  - rewrite <- Hq.
    pose proof (f_equal length Htake) as Hlen.
    rewrite length_take, length_drop in Hlen. lia.
  - intros Ht. apply Heof in Ht.
    pose proof (f_equal length Ht) as Hlen.
    rewrite length_drop in Hlen. cbn in Hlen. lia.
Qed.

(** The invariant of the [tokenize] loop: with fuel above the number of
    unread characters the loop ends with the EOF token at the end of the
    input; every token before it spells the input at its position, and the
    tokens follow one another without overlap. *)
Lemma tokenizeLoop_spec fuel input position :
  (position ≤ length input)%nat →
  (length input - position < fuel)%nat →
  ∃ body,
    tokenizeLoop fuel input position = body ++ [Token.mk EOF [] (length input)]
    ∧ Forall (λ t, Token.type t ≠ EOF
                   ∧ Token.value t ≠ []
                   ∧ (position ≤ Token.position t)%nat
                   ∧ (Token.position t + length (Token.value t) ≤ length input)%nat
                   ∧ take (length (Token.value t)) (drop (Token.position t) input)
                     = Token.value t) body
    ∧ StronglySorted
        (λ a b, (Token.position a + length (Token.value a) ≤ Token.position b)%nat)
        body.
Proof.
  revert position. induction fuel as [|fuel IH]; intros position Hle Hfuel; [lia|].
  cbn [tokenizeLoop].
  destruct (nextToken input position) as [t q] eqn:Hnext.
  pose proof (nextToken_spec _ _ _ _ Hle Hnext) as (Hp & Hq & Hqle & Htake & Heof & Hval).
  destruct (decide (Token.type t = EOF)) as [Ht|Ht].
  - exists []. split_and!; [|constructor|constructor].
    cbn [app]. f_equal. destruct t as [ty v p]; cbn in *.
    rewrite (proj1 Hval Ht), (Heof Ht), Ht. done.
  - assert (Token.value t ≠ []) as Hne by (by rewrite <- Hval).
    assert (0 < length (Token.value t))%nat as Hpos.
    { destruct (Token.value t); [done|cbn; lia]. }
    destruct (IH q) as (body & Hbody & Hall & Hsorted); [lia|lia|].
    exists (t :: body). rewrite Hbody. split_and!; [done| |].
    + constructor; [split_and!; try done; lia|].
      eapply Forall_impl; [exact Hall|]. cbn. intros t' (?&?&?&?&?).
      split_and!; try done; lia.
    + constructor; [done|].
      eapply Forall_impl; [exact Hall|]. cbn. intros t' (?&?&?&?&?). lia.
Qed.

Lemma byteOffset_ascii input k :
  Forall (λ c, (c < 128)%N) input → (k ≤ length input)%nat → byteOffset input k = k.
Proof.
  intros Hall. revert k. induction Hall as [|c input Hc Hall IH]; intros k Hk.
  - cbn in Hk. by replace k with 0%nat by lia.
  - destruct k as [|k]; [done|]. unfold byteOffset in *. cbn [take fmap list_fmap sum_list].
    cbn in Hk. specialize (IH k ltac:(lia)).
    unfold utf8Width at 1. destruct (N.ltb_spec c 128); [|lia].
    rewrite IH. unfold id. lia.
Qed.

(** C9 (amended): for every input string, [tokenize] ends with the EOF
    token, whose position is the length of the input in UTF-16 code units;
    every other token carries the zero-based code-unit index of its first
    character: the input spells the token's value from its position on, and
    tokens follow one another without overlap. When the input holds ASCII
    characters only, these positions are the byte offsets. *)
Theorem C9_token_positions :
  ∀ input,
    ∃ body,
      tokenize input = body ++ [Token.mk EOF [] (length input)]
      ∧ Forall (λ t, Token.type t ≠ EOF
                     ∧ Token.value t ≠ []
                     ∧ (Token.position t + length (Token.value t) ≤ length input)%nat
                     ∧ take (length (Token.value t)) (drop (Token.position t) input)
                       = Token.value t) body
      ∧ StronglySorted
          (λ a b, (Token.position a + length (Token.value a) ≤ Token.position b)%nat)
          body
      ∧ (Forall (λ c, (c < 128)%N) input →
         byteOffset input (length input) = length input
         ∧ Forall (λ t, byteOffset input (Token.position t) = Token.position t) body).
Proof.
  intros input. unfold tokenize.
  destruct (tokenizeLoop_spec (S (length input)) input 0) as (body & Hbody & Hall & Hs);
    [lia|lia|].
  exists body. split_and!; [done| |done|].
  - eapply Forall_impl; [exact Hall|]. cbn. by intros t (?&?&?&?&?).
  - intros Hascii. split; [by apply byteOffset_ascii|].
    eapply Forall_impl; [exact Hall|]. cbn. intros t (?&?&?&?&?).
    apply byteOffset_ascii; [done|lia].
Qed.

Lemma C9_token_positions_witness :
  ∃ body,
    tokenize (str "P -> Q") = body ++ [Token.mk EOF [] 6]
    ∧ Forall (λ t, byteOffset (str "P -> Q") (Token.position t) = Token.position t) body.
Proof.
  destruct (C9_token_positions (str "P -> Q")) as (body & Hbody & _ & _ & Hascii).
  exists body. split; [exact Hbody|].
  apply Hascii. vm_compute. repeat constructor.
Defined.

(** C9 as stated fails: in the two-character input [¬P] the sign [¬]
    takes two bytes in UTF-8, so [P] starts at byte offset 2 and the input
    is 3 bytes long, while the lexer gives [P] position 1 and EOF
    position 2. *)
Lemma C9_counterexample :
  let input := [NOT_SIGN; 80%N] in
  tokenize input
  = [Token.mk NOT [NOT_SIGN] 0; Token.mk VAR [80%N] 1; Token.mk EOF [] 2]
  ∧ input !! 1%nat = Some 80%N
  ∧ byteOffset input 1 = 2%nat
  ∧ (Token.position <$> tokenize input !! 1%nat) ≠ Some (byteOffset input 1)
  ∧ (Token.position <$> last (tokenize input)) ≠ Some (byteOffset input (length input)).
Proof. cbv zeta. split_and!; vm_compute; done. Qed.

End LexerPositions.

(** * Lexing a printed formula *)

Section LexPrinted.
Import Lexer.

Lemma drop_app_at {A} (l a b : list A) pos :
  drop pos l = a ++ b → drop (pos + length a) l = b.
Proof.
  intros H. rewrite <- drop_drop, H. by rewrite drop_app_length.
Qed.

Lemma drop_cons_lt {A} (l : list A) pos c s :
  drop pos l = c :: s → (pos < length l)%nat.
Proof.
  intros H. apply (f_equal length) in H. rewrite length_drop in H. cbn in H. lia.
Qed.

Lemma Lexes_nil input pos : Lexes input pos [] pos.
Proof. intros fuel Hf. by exists fuel. Qed.

Lemma Lexes_app input p0 p1 p2 K1 K2 :
  Lexes input p0 K1 p1 → Lexes input p1 K2 p2 → Lexes input p0 (K1 ++ K2) p2.
Proof.
  intros H1 H2 fuel Hf.
  destruct (H1 fuel Hf) as (fuel1 & Hf1 & E1).
  destruct (H2 fuel1 Hf1) as (fuel2 & Hf2 & E2).
  exists fuel2. split; [done|]. by rewrite E1, E2, app_assoc.
Qed.

Lemma Lexes_eq input p K q K' q' :
  Lexes input p K q → K = K' → q = q' → Lexes input p K' q'.
Proof. by intros H <- <-. Qed.

(** White space before a token is skipped. *)
Lemma Lexes_space input pos c s :
  drop pos input = c :: s → isSpace c = true → Lexes input pos [] (S pos).
Proof.
  intros Hd Hc fuel Hf. exists fuel. split; [lia|]. cbn [app].
  destruct fuel as [|fuel]; [done|]. cbn [tokenizeLoop].
  assert (nextToken input pos = nextToken input (S pos)) as ->; [|done].
  unfold nextToken.
  assert (drop (S pos) input = s) as Hs.
  { replace (S pos) with (pos + length [c])%nat by (cbn; lia).
    by apply drop_app_at. }
  assert (skipWhitespace input pos = skipWhitespace input (S pos)) as ->; [|done].
  unfold skipWhitespace. rewrite Hd, Hs. cbn [takeWhile]. rewrite Hc. cbn [length]. lia.
Qed.

(** One token that starts right at the position. *)
Lemma Lexes_token input pos c s t q :
  drop pos input = c :: s → isSpace c = false →
  scanToken (c :: s) pos = (t, q) →
  Lexes input pos [kind t] q.
Proof.
  intros Hd Hc Hscan fuel Hf.
  pose proof (drop_cons_lt _ _ _ _ Hd) as Hlt.
  destruct fuel as [|fuel]; [lia|].
  pose proof (scanToken_spec _ _ _ _ Hscan) as (Hp & Hq & _ & Heof & Hval).
  assert (Token.type t ≠ EOF) as Hne by (by rewrite Heof).
  assert (Token.value t ≠ []) as Hvne by (by rewrite <- Hval).
  assert (0 < length (Token.value t))%nat.
  { destruct (Token.value t); [done|cbn; lia]. }
  exists fuel. split; [lia|]. cbn [tokenizeLoop].
  assert (nextToken input pos = (t, q)) as ->.
  { unfold nextToken, skipWhitespace. rewrite Hd. cbn [takeWhile]. rewrite Hc.
    cbn [length]. rewrite Nat.add_0_r, Hd. done. }
  destruct (decide (Token.type t = EOF)); done.
Qed.

(** At the end of the input the loop emits EOF and stops. *)
Lemma kinds_tokenizeLoop_end input pos fuel :
  drop pos input = [] → (0 < fuel)%nat →
  kinds (tokenizeLoop fuel input pos) = [(EOF, [])].
Proof.
  intros Hd Hf. destruct fuel as [|fuel]; [lia|]. cbn [tokenizeLoop].
  unfold nextToken, skipWhitespace. rewrite Hd. cbn [takeWhile length].
  rewrite Nat.add_0_r, Hd. done.
Qed.

(** The lexemes the printer writes. *)
Lemma Lexes_symbol input pos (lexeme : list N) (type : TokenType) s c rest :
  lexeme = c :: rest →
  isSpace c = false →
  (∀ p, ∃ v q, scanToken (lexeme ++ s) p = (Token.mk type v p, q)
               ∧ q = (p + length lexeme)%nat) →
  type ≠ VAR →
  drop pos input = lexeme ++ s →
  Lexes input pos [(type, [])] (pos + length lexeme).
Proof.
  intros -> Hc Hscan Hty Hd. destruct (Hscan pos) as (v & q & Hv & ->).
  eapply Lexes_eq; [eapply Lexes_token; [exact Hd|exact Hc|exact Hv]| |done].
  unfold kind. cbn [Token.type]. by rewrite decide_False.
Qed.

Ltac lexeme_facts :=
  split_and!;
    [done
    |eexists _, _; split; reflexivity
    |intros s p; eexists _, _; split; [reflexivity|cbn; lia]].

Lemma lexeme_lparen : lexemeOf LPAREN [40%N].
Proof. lexeme_facts. Qed.
Lemma lexeme_rparen : lexemeOf RPAREN [41%N].
Proof. lexeme_facts. Qed.
Lemma lexeme_not mode : lexemeOf NOT (Printer.not (Printer.SYMBOLS mode)).
Proof. destruct mode; lexeme_facts. Qed.
Lemma lexeme_bottom mode : lexemeOf BOTTOM (Printer.bottom (Printer.SYMBOLS mode)).
Proof. destruct mode; lexeme_facts. Qed.

Ltac infix_facts := split; [reflexivity|lexeme_facts].

Lemma infix_and mode : infixOf AND (Printer.and (Printer.SYMBOLS mode)).
Proof. destruct mode; [exists [47; 92]%N|exists [8743%N]]; infix_facts. Qed.
Lemma infix_or mode : infixOf OR (Printer.or (Printer.SYMBOLS mode)).
Proof. destruct mode; [exists [92; 47]%N|exists [8744%N]]; infix_facts. Qed.
Lemma infix_implies mode : infixOf IMPLIES (Printer.implies (Printer.SYMBOLS mode)).
Proof. destruct mode; [exists [45; 62]%N|exists [8594%N]]; infix_facts. Qed.
Lemma infix_iff mode : infixOf IFF (Printer.iff (Printer.SYMBOLS mode)).
Proof. destruct mode; [exists [60; 45; 62]%N|exists [8596%N]]; infix_facts. Qed.

Lemma Lexes_lexeme input pos type lexeme s :
  lexemeOf type lexeme →
  drop pos input = lexeme ++ s →
  Lexes input pos [(type, [])] (pos + length lexeme).
Proof.
  intros (Hty & (c & rest & -> & Hc) & Hscan) Hd.
  eapply Lexes_symbol; [reflexivity|exact Hc| |exact Hty|exact Hd].
  intros p. apply Hscan.
Qed.
Lemma takeWhile_app_all test name r :
  forallb test name = true →
  match r with [] => True | c :: _ => test c = false end →
  takeWhile test (name ++ r) = name.
Proof.
  intros Hall Hr. induction name as [|c name IH]; cbn [app takeWhile].
  - destruct r as [|c r]; [done|]. cbn [takeWhile]. by rewrite Hr.
  - cbn [forallb] in Hall. apply andb_true_iff in Hall as [-> Hall].
    by rewrite IH.
Qed.

Lemma isAlpha_not_special c :
  isAlpha c = true →
  isSpace c = false
  ∧ Forall (λ k, (c =? k)%N = false)
      [LPAREN_CHAR; RPAREN_CHAR; TILDE; NOT_SIGN; AMPERSAND; LOGICAL_AND; SLASH;
       LOGICAL_OR; BAR; BACKSLASH; LEFT_RIGHT_ARROW; LESS; RIGHT_ARROW; MINUS;
       UP_TACK; UNDERSCORE].
Proof.
  unfold isAlpha, isSpace. intros H.
  apply orb_true_iff in H.
  rewrite !andb_true_iff, !N.leb_le in H.
  split.
  - repeat (apply orb_false_intro);
      rewrite ?andb_false_iff, ?N.leb_gt, ?N.eqb_neq; lia.
  - repeat constructor; apply N.eqb_neq;
      unfold LPAREN_CHAR, RPAREN_CHAR, TILDE, NOT_SIGN, AMPERSAND, LOGICAL_AND, SLASH,
        LOGICAL_OR, BAR, BACKSLASH, LEFT_RIGHT_ARROW, LESS, RIGHT_ARROW, MINUS,
        UP_TACK, UNDERSCORE; lia.
Qed.

(** An identifier followed by something that ends it is read whole. *)
Lemma scanToken_identifier name r p :
  wellFormedName name = true → endsIdentifier r →
  scanToken (name ++ r) p = (Token.mk VAR name p, (p + length name)%nat).
Proof.
  destruct name as [|c name]; [done|]. cbn [wellFormedName].
  intros [Hc Hname]%andb_true_iff Hr.
  destruct (isAlpha_not_special c Hc) as [_ Hspecial].
  repeat match goal with
    | H : Forall _ (_ :: _) |- _ => apply Forall_cons in H as [? H]
    end.
  unfold scanToken. cbn [app].
  repeat match goal with H : (c =? _)%N = false |- _ => rewrite H; clear H end.
  cbn [orb andb]. rewrite Hc.
  change (c :: name ++ r) with ((c :: name) ++ r).
  rewrite takeWhile_app_all; [done| |done].
  cbn [forallb]. by rewrite (isAlpha_isAlphaNumeric _ Hc).
Qed.

Lemma Lexes_identifier input pos name r :
  wellFormedName name = true → endsIdentifier r →
  drop pos input = name ++ r →
  Lexes input pos [(VAR, name)] (pos + length name).
Proof.
  intros Hwf Hr Hd.
  pose proof (scanToken_identifier name r pos Hwf Hr) as Hscan.
  destruct name as [|c name]; [done|].
  cbn [wellFormedName] in Hwf. apply andb_true_iff in Hwf as [Hc _].
  destruct (isAlpha_not_special c Hc) as [Hsp _].
  eapply Lexes_eq; [eapply Lexes_token; [exact Hd|exact Hsp|exact Hscan]|done|done].
Qed.

Lemma endsIdentifier_space r : endsIdentifier (32%N :: r).
Proof. done. Qed.

Lemma endsIdentifier_rparen r : endsIdentifier (41%N :: r).
Proof. done. Qed.

Lemma LexesAs_prefix type lexeme B KB :
  lexemeOf type lexeme → LexesAs B KB → LexesAs (lexeme ++ B) ((type, []) :: KB).
Proof.
  intros Hlx HB input pos r Hd Hr. rewrite <- app_assoc in Hd.
  eapply Lexes_eq; [eapply (Lexes_app _ _ _ _ [_])| |].
  - eapply Lexes_lexeme; [exact Hlx|exact Hd].
  - eapply HB; [|exact Hr]. by eapply drop_app_at.
  - done.
  - rewrite length_app. lia.
Qed.

Lemma LexesAs_suffix type lexeme A KA c rest :
  lexemeOf type lexeme → lexeme = c :: rest → isAlphaNumeric c = false →
  LexesAs A KA → LexesAs (A ++ lexeme) (KA ++ [(type, [])]).
Proof.
  intros Hlx -> Hc HA input pos r Hd Hr. rewrite <- app_assoc in Hd.
  eapply Lexes_eq; [eapply Lexes_app| |].
  - eapply HA; [exact Hd|]. exact Hc.
  - eapply Lexes_lexeme; [exact Hlx|]. by eapply drop_app_at.
  - done.
  - rewrite length_app. lia.
Qed.

Lemma LexesAs_space A K : LexesAs A K → LexesAs (32%N :: A) K.
Proof.
  intros HA input pos r Hd Hr.
  eapply Lexes_eq; [eapply Lexes_app| |].
  - eapply Lexes_space; [exact Hd|done].
  - eapply HA; [|exact Hr].
    replace (S pos) with (pos + length [32%N])%nat by (cbn; lia).
    eapply drop_app_at. exact Hd.
  - done.
  - cbn [length]. lia.
Qed.

Lemma LexesAs_infix type symbol A B KA KB :
  infixOf type symbol → LexesAs A KA → LexesAs B KB →
  LexesAs (A ++ symbol ++ B) (KA ++ (type, []) :: KB).
Proof.
  intros (lexeme & -> & Hlx) HA HB.
  assert (LexesAs ((32%N :: lexeme ++ [32%N]) ++ B) ((type, []) :: KB)) as Hop.
  { cbn [app]. apply LexesAs_space. rewrite <- app_assoc.
    apply LexesAs_prefix; [done|]. cbn [app]. by apply LexesAs_space. }
  intros input pos r Hd Hr. rewrite <- !app_assoc in Hd.
  eapply Lexes_eq; [eapply Lexes_app| |].
  - eapply HA; [exact Hd|]. cbn [app]. done.
  - eapply Hop; [|exact Hr]. rewrite <- app_assoc. by eapply drop_app_at.
  - done.
  - rewrite !length_app. lia.
Qed.

Lemma LexesAs_wrap A K :
  LexesAs A K → LexesAs ([40%N] ++ A ++ [41%N]) ((LPAREN, []) :: K ++ [(RPAREN, [])]).
Proof.
  intros HA. apply LexesAs_prefix; [apply lexeme_lparen|].
  eapply LexesAs_suffix; [apply lexeme_rparen|reflexivity|done|done].
Qed.

(** The lexer reads a printed well-formed formula as its tokens. *)
Lemma print_LexesAs f mode p :
  wellFormed f = true → LexesAs (Printer.print f mode p) (printedTokens f p).
Proof.
  revert p. induction f as [n|g IH|l IHl r IHr|l IHl r IHr|l IHl r IHr|l IHl r IHr|];
    intros p Hwf; cbn [wellFormed] in Hwf;
    try apply andb_true_iff in Hwf as [Hwl Hwr];
    cbn [Printer.print printedTokens];
    (destruct (_ <? p)%nat; [apply LexesAs_wrap|]).
  all: try (intros input pos r0 Hd Hr; by eapply Lexes_identifier).
  all: try (apply LexesAs_prefix; [apply lexeme_not|by apply IH]).
  all: try (apply LexesAs_infix; [apply infix_and|by apply IHl|by apply IHr]).
  all: try (apply LexesAs_infix; [apply infix_or|by apply IHl|by apply IHr]).
  all: try (apply LexesAs_infix; [apply infix_implies|by apply IHl|by apply IHr]).
  all: try (apply LexesAs_infix; [apply infix_iff|by apply IHl|by apply IHr]).
  all: intros input pos r0 Hd Hr; by eapply Lexes_lexeme; [apply lexeme_bottom|].
Qed.

(** The token kinds of a printed well-formed formula. *)
Lemma kinds_tokenize_print f mode :
  wellFormed f = true →
  kinds (tokenize (Printer.printFormula f mode)) = printedTokens f 0 ++ [(EOF, [])].
Proof.
  intros Hwf. unfold tokenize, Printer.printFormula.
  set (input := Printer.print f mode 0).
  destruct (print_LexesAs f mode 0 Hwf input 0%nat [] ltac:(by rewrite app_nil_r) I
              (S (length input)) ltac:(lia)) as (fuel' & Hf & ->).
  f_equal. apply kinds_tokenizeLoop_end; [|lia].
  apply drop_ge. subst input. lia.
Qed.

End LexPrinted.

(** * Parsing the tokens of a printed formula *)

Section ParsePrinted.
Import Parser.
Variable tokens : list Token.t.

Lemma followType_drop (l : list (TokenType * list N)) pos :
  followType (drop pos l) = default EOF (fst <$> l !! pos).
Proof.
  revert pos. induction l as [|[ty v] l IH]; intros [|pos]; cbn; auto.
Qed.

Lemma type_current pos :
  Token.type (current tokens pos) = followType (drop pos (kinds tokens)).
Proof.
  rewrite followType_drop. unfold current, kinds. rewrite list_lookup_fmap.
  by destruct (tokens !! pos).
Qed.

Lemma value_current pos v rest :
  drop pos (kinds tokens) = (VAR, v) :: rest → Token.value (current tokens pos) = v.
Proof.
  intros Hd. pose proof (f_equal (λ l, l !! 0%nat) Hd) as H0. cbn in H0.
  rewrite lookup_drop, Nat.add_0_r in H0. unfold kinds in H0.
  rewrite list_lookup_fmap in H0. unfold current.
  destruct (tokens !! pos) as [t|]; [|done]. cbn in *.
  unfold kind in H0. injection H0 as Hty Hv. by rewrite Hty, decide_True in Hv.
Qed.

Lemma check_drop pos type :
  check tokens pos type = bool_decide (followType (drop pos (kinds tokens)) = type).
Proof. unfold check. by rewrite type_current. Qed.

Lemma check_at pos ty v rest type :
  drop pos (kinds tokens) = (ty, v) :: rest →
  check tokens pos type = bool_decide (ty = type).
Proof. intros Hd. by rewrite check_drop, Hd. Qed.

Lemma advance_at pos ty v rest :
  drop pos (kinds tokens) = (ty, v) :: rest → ty ≠ EOF → advance tokens pos = S pos.
Proof.
  intros Hd Hne. unfold advance. rewrite type_current, Hd. cbn.
  by rewrite decide_False.
Qed.

Lemma drop_tail pos (x : TokenType * list N) rest :
  drop pos (kinds tokens) = x :: rest → drop (S pos) (kinds tokens) = rest.
Proof.
  intros Hd. replace (S pos) with (pos + length [x])%nat by (cbn; lia).
  by eapply drop_app_at.
Qed.

Lemma token_at_lt pos (x : TokenType * list N) rest :
  drop pos (kinds tokens) = x :: rest → (pos < length tokens)%nat.
Proof.
  intros Hd. apply drop_cons_lt in Hd. unfold kinds in Hd.
  by rewrite length_fmap in Hd.
Qed.

Lemma span_le pos (K rest : list (TokenType * list N)) :
  drop pos (kinds tokens) = K ++ rest → K ≠ [] → (pos + length K ≤ length tokens)%nat.
Proof.
  intros Hd Hne. apply (f_equal length) in Hd.
  rewrite length_drop, length_app in Hd. unfold kinds in Hd.
  rewrite length_fmap in Hd. destruct K; [done|]. cbn in *. lia.
Qed.

Lemma leftLoop_unfold operand type node fuel left pos :
  leftLoop tokens operand type node fuel left pos
  = if check tokens pos type then
      match fuel with
      | O => OutOfFuel
      | S fuel =>
          '(rightOperand, position) ← operand (advance tokens pos);
          leftLoop tokens operand type node fuel (node left rightOperand) position
      end
    else Done (left, pos).
Proof. by destruct fuel. Qed.

Lemma parseUnary_unfold handler fuel pos :
  parseUnary tokens handler fuel pos
  = if check tokens pos NOT then
      match fuel with
      | O => OutOfFuel
      | S fuel =>
          '(operand, position) ← parseUnary tokens handler fuel (advance tokens pos);
          Done (Not operand, position)
      end
    else parsePrimary tokens handler pos.
Proof. by destruct fuel. Qed.

Lemma impliesLoop_unfold handler fuel operands pos :
  impliesLoop tokens handler fuel operands pos
  = if check tokens pos IMPLIES then
      match fuel with
      | O => OutOfFuel
      | S fuel =>
          '(o, position) ← parseOr tokens handler (advance tokens pos);
          impliesLoop tokens handler fuel (operands ++ [o]) position
      end
    else Done (buildImplies operands, pos).
Proof. by destruct fuel. Qed.

Lemma buildImplies_snoc acc f : buildImplies (acc ++ [f]) = foldr Implies f acc.
Proof.
  unfold buildImplies. rewrite reverse_app. cbn.
  rewrite <- (reverse_involutive acc) at 2.
  generalize (reverse acc). intros l. revert f.
  induction l as [|x l IH]; intros f; [done|].
  cbn [foldl]. rewrite reverse_cons, foldr_app. cbn. apply IH.
Qed.

Lemma fuel_positive pos k (x : TokenType * list N) rest :
  drop pos (kinds tokens) = x :: rest → (length tokens < k + pos)%nat →
  ∃ k', k = S k'.
Proof.
  intros Hd Hk. apply token_at_lt in Hd.
  destruct k as [|k']; [lia|by exists k'].
Qed.

Lemma ParsesUnary_var name : ParsesUnary tokens [(VAR, name)] (Var name).
Proof.
  intros n pos rest k _ Hd _. cbn [app] in Hd.
  rewrite parseUnary_unfold, (check_at _ _ _ _ _ Hd).
  rewrite bool_decide_eq_false_2 by done.
  unfold parsePrimary. rewrite (check_at _ _ _ _ _ Hd).
  rewrite bool_decide_eq_true_2 by done.
  rewrite (value_current _ _ _ Hd), (advance_at _ _ _ _ Hd) by done.
  do 2 f_equal. cbn. lia.
Qed.

Lemma ParsesUnary_bottom : ParsesUnary tokens [(BOTTOM, [])] Bottom.
Proof.
  intros n pos rest k _ Hd _. cbn [app] in Hd.
  rewrite parseUnary_unfold, (check_at _ _ _ _ _ Hd).
  rewrite bool_decide_eq_false_2 by done.
  unfold parsePrimary. rewrite !(check_at _ _ _ _ _ Hd).
  rewrite bool_decide_eq_false_2 by done.
  rewrite bool_decide_eq_true_2 by done.
  rewrite (advance_at _ _ _ _ Hd) by done.
  do 2 f_equal. cbn. lia.
Qed.

Lemma ParsesUnary_not K g :
  ParsesUnary tokens K g → ParsesUnary tokens ((NOT, []) :: K) (Not g).
Proof.
  intros Hg n pos rest k Hn Hd Hk. cbn [app length] in Hd, Hn.
  rewrite parseUnary_unfold, (check_at _ _ _ _ _ Hd).
  rewrite bool_decide_eq_true_2 by done.
  destruct (fuel_positive _ _ _ _ Hd Hk) as [k' ->].
  rewrite (advance_at _ _ _ _ Hd) by done.
  rewrite (Hg n (S pos) rest k'); [|lia|by eapply drop_tail|lia].
  cbn. do 2 f_equal. lia.
Qed.

Lemma ParsesUnary_paren K f :
  ParsesWith tokens (parseIff tokens) 1 K f →
  ParsesUnary tokens ((LPAREN, []) :: K ++ [(RPAREN, [])]) f.
Proof.
  intros Hf n pos rest k Hn Hd _.
  cbn [app length] in Hd, Hn. rewrite length_app in Hn. cbn [length] in Hn.
  rewrite <- app_assoc in Hd. cbn [app] in Hd.
  rewrite parseUnary_unfold, (check_at _ _ _ _ _ Hd).
  rewrite bool_decide_eq_false_2 by done.
  unfold parsePrimary. rewrite !(check_at _ _ _ _ _ Hd).
  rewrite !bool_decide_eq_false_2 by done.
  rewrite bool_decide_eq_true_2 by done.
  rewrite (advance_at _ _ _ _ Hd) by done.
  destruct n as [|n]; [lia|]. cbn [parseFormula].
  pose proof (drop_tail _ _ _ Hd) as Hd1.
  rewrite (Hf n (S pos) ((RPAREN, []) :: rest)); [|lia|exact Hd1|cbn; lia].
  cbn [mbind run_bind].
  pose proof (drop_app_at _ _ _ _ Hd1) as Hd2.
  rewrite (check_at _ _ _ _ _ Hd2).
  rewrite bool_decide_eq_true_2 by done. cbn [negb].
  rewrite (advance_at _ _ _ _ Hd2) by done.
  do 2 f_equal. cbn [length]. rewrite length_app. cbn [length]. lia.
Qed.

(** A level whose operand parser reads [K] whole starts its loop there. *)
Lemma ChainsLeft_base operand type node level K f :
  (∀ n pos rest,
     (length K ≤ n)%nat → drop pos (kinds tokens) = K ++ rest →
     (operatorLevel (followType rest) ≤ level)%nat →
     operand (parseFormula tokens n) pos = Done (f, (pos + length K)%nat)) →
  ChainsLeft tokens operand type node level K f.
Proof.
  intros Hop n pos rest k Hn Hd Hf Hk. exists k. split; [lia|].
  by rewrite (Hop n pos rest).
Qed.

(** One more turn of the loop of a left-associative level. *)
Lemma ChainsLeft_step operand type node level Ka a Kb b :
  operatorLevel type = level → type ≠ EOF →
  ChainsLeft tokens operand type node level Ka a →
  (∀ n pos rest,
     (length Kb ≤ n)%nat → drop pos (kinds tokens) = Kb ++ rest →
     (operatorLevel (followType rest) ≤ level)%nat →
     operand (parseFormula tokens n) pos = Done (b, (pos + length Kb)%nat)) →
  ChainsLeft tokens operand type node level (Ka ++ (type, []) :: Kb) (node a b).
Proof.
  intros Hlevel Hne Ha Hb n pos rest k Hn Hd Hf Hk.
  rewrite length_app in Hn. cbn [length] in Hn.
  rewrite <- app_assoc in Hd. cbn [app] in Hd.
  destruct (Ha n pos _ k ltac:(lia) Hd) as (k1 & Hk1 & ->); [cbn; lia|done|].
  pose proof (drop_app_at _ _ _ _ Hd) as Hd1.
  rewrite leftLoop_unfold, (check_at _ _ _ _ _ Hd1).
  rewrite bool_decide_eq_true_2 by done.
  destruct (fuel_positive _ _ _ _ Hd1 Hk1) as [k2 ->].
  rewrite (advance_at _ _ _ _ Hd1) by done.
  rewrite (Hb n (S (pos + length Ka)) rest); [|lia|by eapply drop_tail|done].
  cbn [mbind run_bind].
  exists k2. rewrite length_app. cbn [length].
  replace (pos + (length Ka + S (length Kb)))%nat
    with (S (pos + length Ka) + length Kb)%nat by lia.
  split; [lia|done].
Qed.

(** At the end of its chain a left-associative level returns when the next
    token is not its operator. *)
Lemma ChainsLeft_parses operand type node level K f
    (parser : (nat → run (Formula * nat)) → nat → run (Formula * nat)) :
  operatorLevel type = level → (0 < level)%nat →
  (∀ handler pos,
     parser handler pos
     = operand handler pos ≫= λ '(x, q),
         leftLoop tokens (operand handler) type node (loopFuel tokens) x q) →
  ChainsLeft tokens operand type node level K f →
  ParsesWith tokens parser level K f.
Proof.
  intros Hlevel Hpos Hparser Hchain n pos rest Hn Hd Hf.
  rewrite Hparser.
  destruct (Hchain n pos rest (loopFuel tokens) Hn Hd) as (k' & _ & ->);
    [lia|unfold loopFuel; lia|].
  rewrite leftLoop_unfold, check_drop, (drop_app_at _ _ _ _ Hd).
  rewrite bool_decide_eq_false_2; [done|].
  intros Heq. rewrite Heq in Hf. lia.
Qed.

Lemma ChainsImplies_base K f :
  ParsesWith tokens (parseOr tokens) 3 K f → ChainsImplies tokens K f.
Proof.
  intros Hor n pos rest k acc Hn Hd Hf Hk.
  rewrite (Hor n pos rest); [|done|done|lia]. cbn [mbind run_bind].
  rewrite impliesLoop_unfold, check_drop, (drop_app_at _ _ _ _ Hd).
  rewrite bool_decide_eq_false_2.
  - by rewrite buildImplies_snoc.
  - intros Heq. rewrite Heq in Hf. cbn in Hf. lia.
Qed.

Lemma ChainsImplies_step Kl l Kr r :
  ParsesWith tokens (parseOr tokens) 3 Kl l →
  ChainsImplies tokens Kr r →
  ChainsImplies tokens (Kl ++ (IMPLIES, []) :: Kr) (Implies l r).
Proof.
  intros Hl Hr n pos rest k acc Hn Hd Hf Hk.
  rewrite length_app in Hn. cbn [length] in Hn.
  rewrite <- app_assoc in Hd. cbn [app] in Hd.
  rewrite (Hl n pos _ ltac:(lia) Hd); [|cbn; lia]. cbn [mbind run_bind].
  pose proof (drop_app_at _ _ _ _ Hd) as Hd1.
  rewrite impliesLoop_unfold, (check_at _ _ _ _ _ Hd1).
  rewrite bool_decide_eq_true_2 by done.
  pose proof (token_at_lt _ _ _ Hd1) as Hlt.
  destruct k as [|k]; [lia|].
  rewrite (advance_at _ _ _ _ Hd1) by done.
  rewrite (Hr n (S (pos + length Kl)) rest k (acc ++ [l]));
    [|lia|by eapply drop_tail|done|lia].
  rewrite foldr_app. cbn [foldr]. do 2 f_equal.
  rewrite length_app. cbn [length]. lia.
Qed.

Lemma ChainsImplies_parses K f :
  ChainsImplies tokens K f → ParsesWith tokens (parseImplies tokens) 2 K f.
Proof.
  intros Hchain n pos rest Hn Hd Hf. unfold parseImplies.
  apply (Hchain n pos rest (loopFuel tokens) [] Hn Hd Hf).
  unfold loopFuel. lia.
Qed.

Lemma Avail_5_operand K f :
  Avail tokens 5 K f →
  ∀ n pos rest,
    (length K ≤ n)%nat → drop pos (kinds tokens) = K ++ rest →
    (operatorLevel (followType rest) ≤ 4)%nat →
    unaryOperand tokens (parseFormula tokens n) pos = Done (f, (pos + length K)%nat).
Proof.
  intros H n pos rest Hn Hd _. unfold unaryOperand.
  apply (H n pos rest); [done|done|]. unfold loopFuel. lia.
Qed.

Lemma Avail_4_parses K f :
  Avail tokens 4 K f → ParsesWith tokens (parseAnd tokens) 4 K f.
Proof.
  intros H. eapply (ChainsLeft_parses (unaryOperand tokens) AND And); [done|lia| |exact H].
  reflexivity.
Qed.

Lemma Avail_3_parses K f :
  Avail tokens 3 K f → ParsesWith tokens (parseOr tokens) 3 K f.
Proof.
  intros H. eapply (ChainsLeft_parses (parseAnd tokens) OR Or); [done|lia| |exact H].
  reflexivity.
Qed.

Lemma Avail_2_parses K f :
  Avail tokens 2 K f → ParsesWith tokens (parseImplies tokens) 2 K f.
Proof. apply ChainsImplies_parses. Qed.

Lemma Avail_1_parses K f :
  Avail tokens 1 K f → ParsesWith tokens (parseIff tokens) 1 K f.
Proof.
  intros H. eapply (ChainsLeft_parses (parseImplies tokens) IFF Iff); [done|lia| |exact H].
  reflexivity.
Qed.

Lemma ParsesWith_operand parser level K f :
  ParsesWith tokens parser (S level) K f →
  ∀ n pos rest,
    (length K ≤ n)%nat → drop pos (kinds tokens) = K ++ rest →
    (operatorLevel (followType rest) ≤ level)%nat →
    parser (parseFormula tokens n) pos = Done (f, (pos + length K)%nat).
Proof. intros H n pos rest Hn Hd Hf. apply (H n pos rest); [done|done|lia]. Qed.

(** What a tighter level reads, a looser level reads too. *)
Lemma Avail_down level K f :
  (1 ≤ level)%nat → Avail tokens (S level) K f → Avail tokens level K f.
Proof.
  intros Hl H. destruct level as [|[|[|[|[|level]]]]]; try done; try lia.
  - (* implies to iff *)
    apply ChainsLeft_base. apply ParsesWith_operand. by apply Avail_2_parses.
  - (* or to implies *)
    apply ChainsImplies_base. by apply Avail_3_parses.
  - (* and to or *)
    apply ChainsLeft_base. apply ParsesWith_operand. by apply Avail_4_parses.
  - (* unary to and *)
    apply ChainsLeft_base. by apply Avail_5_operand.
Qed.

Lemma Avail_le level level' K f :
  (1 ≤ level' ≤ level)%nat → Avail tokens level K f → Avail tokens level' K f.
Proof.
  intros [H1 Hle]. induction Hle as [|level Hle IH]; [done|].
  intros H. apply IH. apply Avail_down; [lia|done].
Qed.

Lemma printedTokens_unfold f p :
  printedTokens f p
  = if (Printer.PRECEDENCE f <? p)%nat
    then (LPAREN, []) :: printedTokens f 0 ++ [(RPAREN, [])]
    else printedTokens f 0.
Proof. by destruct f. Qed.

(** The tokens of [print f mode p], parenthesized or not, at every level
    the grammar may meet them. *)
Lemma Avail_at f p level :
  Avail tokens (grammarLevel f) (printedTokens f 0) f →
  (1 ≤ level ≤ 5)%nat →
  ((p ≤ Printer.PRECEDENCE f)%nat → (level ≤ grammarLevel f)%nat) →
  Avail tokens level (printedTokens f p) f.
Proof.
  intros Hown Hl Hp. rewrite printedTokens_unfold.
  destruct (Nat.ltb_spec (Printer.PRECEDENCE f) p).
  - apply (Avail_le 5); [lia|]. apply ParsesUnary_paren, Avail_1_parses.
    eapply Avail_le; [|exact Hown]. destruct f; cbn; lia.
  - eapply Avail_le; [|exact Hown]. lia.
Qed.

Lemma Avail_printed f : Avail tokens (grammarLevel f) (printedTokens f 0) f.
Proof.
  induction f as [n|g IH|l IHl r IHr|l IHl r IHr|l IHl r IHr|l IHl r IHr|];
    cbn [grammarLevel printedTokens Printer.PRECEDENCE Nat.ltb Nat.leb Avail].
  - apply ParsesUnary_var.
  - apply ParsesUnary_not.
    apply (Avail_at g 50 5 IH); [lia|]. destruct g; cbn; lia.
  - apply ChainsLeft_step; [done|done| |].
    + apply (Avail_at l 40 4 IHl); [lia|]. destruct l; cbn; lia.
    + apply Avail_5_operand.
      apply (Avail_at r 41 5 IHr); [lia|]. destruct r; cbn; lia.
  - apply ChainsLeft_step; [done|done| |].
    + apply (Avail_at l 30 3 IHl); [lia|]. destruct l; cbn; lia.
    + apply ParsesWith_operand, Avail_4_parses.
      apply (Avail_at r 31 4 IHr); [lia|]. destruct r; cbn; lia.
  - apply ChainsImplies_step.
    + apply Avail_3_parses.
      apply (Avail_at l 21 3 IHl); [lia|]. destruct l; cbn; lia.
    + apply (Avail_at r 20 2 IHr); [lia|]. destruct r; cbn; lia.
  - apply ChainsLeft_step; [done|done| |].
    + apply (Avail_at l 10 1 IHl); [lia|]. destruct l; cbn; lia.
    + apply ParsesWith_operand, Avail_2_parses.
      apply (Avail_at r 11 2 IHr); [lia|]. destruct r; cbn; lia.
  - apply ParsesUnary_bottom.
Qed.

(** [Parser.parse] on tokens that spell a printed formula and end with
    EOF. *)
Lemma parse_printedTokens f :
  kinds tokens = printedTokens f 0 ++ [(EOF, [])] →
  parse tokens = Some (success f).
Proof.
  intros Hk. unfold parse.
  assert (length tokens = S (length (printedTokens f 0))) as Hlen.
  { apply (f_equal length) in Hk. unfold kinds in Hk.
    rewrite length_fmap, length_app in Hk. cbn [length] in Hk. lia. }
  unfold loopFuel at 1. cbn [parseFormula].
  assert (Avail tokens 1 (printedTokens f 0) f) as Hav.
  { apply (Avail_le (grammarLevel f)); [destruct f; cbn; lia|apply Avail_printed]. }
  rewrite (Avail_1_parses _ f Hav (length tokens) 0%nat [(EOF, [])]);
    [|lia|done|cbn; lia].
  rewrite check_drop.
  rewrite (drop_app_at (kinds tokens) (printedTokens f 0) [(EOF, [])] 0 Hk).
  done.
Qed.

End ParsePrinted.

(** C3: for every well-formed formula and each display mode, parsing the
    printed string succeeds and returns a formula structurally equal to
    the formula printed. *)
Theorem C3_parse_print_roundtrip :
  ∀ f mode,
    wellFormed f = true →
    ∃ g, parseFormula (Printer.printFormula f mode) = Some (Parser.success g)
         ∧ formulaEquals g f = true.
Proof.
  intros f mode Hwf. exists f. split.
  - unfold parseFormula. apply parse_printedTokens.
    by apply kinds_tokenize_print.
  - by apply formulaEquals_spec.
Qed.

Lemma C3_parse_print_roundtrip_witness :
  ∃ g, parseFormula
         (Printer.printFormula
            (Implies (Implies (Var (str "P")) (Not (Var (str "q1")))) (Iff Bottom (Var (str "R"))))
            ascii)
       = Some (Parser.success g)
       ∧ formulaEquals g
           (Implies (Implies (Var (str "P")) (Not (Var (str "q1")))) (Iff Bottom (Var (str "R"))))
         = true.
Proof. apply C3_parse_print_roundtrip. vm_compute. reflexivity. Defined.

(** * Properties of the truth-table engine *)

Section TruthTableFacts.
Import TruthTable.

Lemma toInt32_small z : - 2 ^ 31 ≤ z < 2 ^ 31 → toInt32 z = z.
Proof. intros H. unfold toInt32. rewrite Z.mod_small; lia. Qed.

Lemma shl32_one k : 0 ≤ k ≤ 30 → shl32 1 k = 2 ^ k.
Proof.
  intros Hk. unfold shl32.
  rewrite (toInt32_small 1) by lia.
  rewrite Z.mod_small by lia.
  rewrite Z.shiftl_1_l.
  apply toInt32_small.
  assert (2 ^ k ≤ 2 ^ 30) by (apply Z.pow_le_mono_r; lia).
  assert (0 < 2 ^ k) by (apply Z.pow_pos_nonneg; lia).
  lia.
Qed.

Lemma land_pow2 i k :
  0 ≤ k → Z.land i (2 ^ k) = if Z.testbit i k then 2 ^ k else 0.
Proof.
  intros Hk. apply Z.bits_inj'. intros m Hm.
  rewrite Z.land_spec, Z.pow2_bits_eqb by done.
  destruct (Z.eqb_spec k m) as [->|Hne].
  - rewrite andb_true_r. destruct (Z.testbit i m) eqn:Hb.
    + by rewrite Z.pow2_bits_true.
    + by rewrite Z.bits_0.
  - rewrite andb_false_r. destruct (Z.testbit i k).
    + by rewrite Z.pow2_bits_false.
    + by rewrite Z.bits_0.
Qed.

(** [!(i & (1 << k))] reads bit [k] of [i] as long as both fit 31 bits. *)
Lemma bit_test i k :
  0 ≤ i < 2 ^ 30 → 0 ≤ k ≤ 30 →
  bool_decide (and32 i (shl32 1 k) = 0) = negb (Z.testbit i k).
Proof.
  intros Hi Hk. rewrite shl32_one by done. unfold and32.
  assert (0 < 2 ^ k ≤ 2 ^ 30).
  { split; [apply Z.pow_pos_nonneg; lia|apply Z.pow_le_mono_r; lia]. }
  rewrite (toInt32_small i), (toInt32_small (2 ^ k)) by lia.
  rewrite land_pow2 by lia.
  destruct (Z.testbit i k); cbn [negb].
  - rewrite toInt32_small by lia. apply bool_decide_eq_false_2. lia.
  - rewrite toInt32_small by lia. by apply bool_decide_eq_true_2.
Qed.

Lemma fillAssignments_notin n i j vars a v :
  v ∉ vars → fillAssignments n i j vars a !! v = a !! v.
Proof.
  revert j a. induction vars as [|w vars IH]; intros j a Hv; cbn [fillAssignments]; [done|].
  apply not_elem_of_cons in Hv as [Hne Hv].
  rewrite IH by done. by rewrite lookup_insert_ne.
Qed.

(** Distinct names: the value written for the [k]-th name stays. *)
Lemma fillAssignments_lookup n i j vars a k v :
  NoDup vars → vars !! k = Some v →
  fillAssignments n i j vars a !! v
  = Some (bool_decide (and32 i (shl32 1 (n - 1 - Z.of_nat (j + k))) = 0)).
Proof.
  revert j a k. induction vars as [|w vars IH]; intros j a k Hnd Hk; [done|].
  apply NoDup_cons in Hnd as [Hw Hnd]. cbn [fillAssignments].
  destruct k as [|k]; simplify_eq/=.
  - rewrite fillAssignments_notin by done.
    rewrite lookup_insert_eq. by rewrite Nat.add_0_r.
  - rewrite (IH (S j) _ k) by done.
    by replace (S j + k)%nat with (j + S k)%nat by lia.
Qed.

Lemma fillAssignments_is_Some n i j vars a v :
  v ∈ vars → is_Some (fillAssignments n i j vars a !! v).
Proof.
  revert j a. induction vars as [|w vars IH]; intros j a Hv; [by apply elem_of_nil in Hv|].
  cbn [fillAssignments].
  destruct (decide (v ∈ vars)) as [Hin|Hnin]; [by apply IH|].
  apply elem_of_cons in Hv as [->|?]; [|done].
  rewrite fillAssignments_notin by done. rewrite lookup_insert_eq. eauto.
Qed.

(** Every yielded assignment gives a value to every listed variable. *)
Lemma generateAllAssignments_assigns vars a v :
  a ∈ generateAllAssignments vars → v ∈ vars → is_Some (a !! v).
Proof.
  unfold generateAllAssignments. intros (i & -> & _)%list_elem_of_fmap Hv.
  by apply fillAssignments_is_Some.
Qed.

Lemma evaluate_classical f a :
  (∀ v, v ∈ varsOf f → is_Some (a !! v)) →
  evaluate f a = Some (classical (λ v, default false (a !! v)) f).
Proof.
  induction f as [n|g IH|l IHl r IHr|l IHl r IHr|l IHl r IHr|l IHl r IHr|];
    intros Hv; cbn [evaluate classical varsOf] in *.
  - destruct (Hv n) as [b Hb]; [left|]. by rewrite Hb.
  - by rewrite IH.
  - rewrite IHl, IHr by (intros; apply Hv, elem_of_app; auto).
    by destruct (classical _ l).
  - rewrite IHl, IHr by (intros; apply Hv, elem_of_app; auto).
    by destruct (classical _ l).
  - rewrite IHl, IHr by (intros; apply Hv, elem_of_app; auto).
    by destruct (classical _ l).
  - rewrite IHl, IHr by (intros; apply Hv, elem_of_app; auto). done.
  - done.
Qed.

Lemma evaluate_None f a :
  evaluate f a = None → ∃ v, v ∈ varsOf f ∧ a !! v = None.
Proof.
  intros Hnone.
  destruct (decide (Forall (λ v, is_Some (a !! v)) (varsOf f))) as [Hall|Hnot].
  - rewrite Forall_forall in Hall.
    rewrite evaluate_classical in Hnone by (intros; by apply Hall). done.
  - apply not_Forall_Exists in Hnot; [|apply _].
    apply Exists_exists in Hnot as (v & Hv & Hn).
    exists v. split; [done|]. by apply eq_None_not_Some.
Qed.

Lemma reached_varsOf val f v : v ∈ reached val f → v ∈ varsOf f.
Proof.
  induction f as [n|g IH|l IHl r IHr|l IHl r IHr|l IHl r IHr|l IHl r IHr|];
    cbn [reached varsOf]; try done; rewrite !elem_of_app.
  - intros [?|Hr]; [auto|]. destruct (classical val l); [auto|by apply elem_of_nil in Hr].
  - intros [?|Hr]; [auto|]. destruct (classical val l); [by apply elem_of_nil in Hr|auto].
  - intros [?|Hr]; [auto|]. destruct (classical val l); [auto|by apply elem_of_nil in Hr].
  - intros [?|?]; auto.
Qed.

(** A value that [evaluate] returns is the classical one, whatever the
    variables that were skipped would have been. *)
Lemma evaluate_Some_classical f a b :
  evaluate f a = Some b → classical (valuationOf a) f = b.
Proof.
  revert b.
  induction f as [n|g IH|l IHl r IHr|l IHl r IHr|l IHl r IHr|l IHl r IHr|];
    intros b; cbn [evaluate classical].
  - unfold valuationOf. by intros ->.
  - destruct (evaluate g a) as [x|]; [|done]. intros [= <-]. by rewrite (IH x).
  - destruct (evaluate l a) as [[]|]; [|intros [= <-]; by rewrite (IHl false)|done].
    intros Hr. by rewrite (IHl true), (IHr b).
  - destruct (evaluate l a) as [[]|]; [intros [= <-]; by rewrite (IHl true)| |done].
    intros Hr. by rewrite (IHl false), (IHr b).
  - destruct (evaluate l a) as [[]|]; [|intros [= <-]; by rewrite (IHl false)|done].
    intros Hr. by rewrite (IHl true), (IHr b).
  - destruct (evaluate l a) as [x|]; [|done]. destruct (evaluate r a) as [y|]; [|done].
    intros [= <-]. by rewrite (IHl x), (IHr y).
  - by intros [= <-].
Qed.

(** [evaluate] raises exactly when one of the variables it gets to is
    missing. *)
Lemma evaluate_None_reached f a :
  evaluate f a = None ↔ ∃ v, v ∈ reached (valuationOf a) f ∧ a !! v = None.
Proof.
  induction f as [n|g IH|l IHl r IHr|l IHl r IHr|l IHl r IHr|l IHl r IHr|];
    cbn [evaluate reached].
  - split; [intros ?; exists n; split; [left|done]|].
    by intros (v & ->%list_elem_of_singleton & ?).
  - rewrite <- IH. by destruct (evaluate g a).
  - setoid_rewrite elem_of_app. destruct (evaluate l a) as [x|] eqn:Hl.
    + rewrite (evaluate_Some_classical l a x Hl). destruct x.
      * rewrite IHr. split; [intros (v & ? & ?); eauto|].
        intros (v & [Hv|Hv] & Hm); [|eauto].
        assert (Some true = None) as [=]. apply IHl. eauto.
      * split; [done|]. intros (v & [Hv|[]%elem_of_nil] & Hm).
        assert (Some false = None) as [=]. apply IHl. eauto.
    + split; [|done]. intros _. destruct (proj1 IHl eq_refl) as (v & ? & ?). eauto.
  - setoid_rewrite elem_of_app. destruct (evaluate l a) as [x|] eqn:Hl.
    + rewrite (evaluate_Some_classical l a x Hl). destruct x.
      * split; [done|]. intros (v & [Hv|[]%elem_of_nil] & Hm).
        assert (Some true = None) as [=]. apply IHl. eauto.
      * rewrite IHr. split; [intros (v & ? & ?); eauto|].
        intros (v & [Hv|Hv] & Hm); [|eauto].
        assert (Some false = None) as [=]. apply IHl. eauto.
    + split; [|done]. intros _. destruct (proj1 IHl eq_refl) as (v & ? & ?). eauto.
  - setoid_rewrite elem_of_app. destruct (evaluate l a) as [x|] eqn:Hl.
    + rewrite (evaluate_Some_classical l a x Hl). destruct x.
      * rewrite IHr. split; [intros (v & ? & ?); eauto|].
        intros (v & [Hv|Hv] & Hm); [|eauto].
        assert (Some true = None) as [=]. apply IHl. eauto.
      * split; [done|]. intros (v & [Hv|[]%elem_of_nil] & Hm).
        assert (Some false = None) as [=]. apply IHl. eauto.
    + split; [|done]. intros _. destruct (proj1 IHl eq_refl) as (v & ? & ?). eauto.
  - setoid_rewrite elem_of_app. destruct (evaluate l a) as [x|] eqn:Hl.
    + destruct (evaluate r a) as [y|] eqn:Hr.
      * split; [done|]. intros (v & [Hv|Hv] & Hm).
        -- assert (Some x = None) as [=]. apply IHl. eauto.
        -- assert (Some y = None) as [=]. apply IHr. eauto.
      * split; [|done]. intros _. destruct (proj1 IHr eq_refl) as (v & ? & ?). eauto.
    + split; [|done]. intros _. destruct (proj1 IHl eq_refl) as (v & ? & ?). eauto.
  - split; [done|]. by intros (v & []%elem_of_nil & _).
Qed.

(** Whenever the evaluator on own properties returns, so does the
    evaluator on the whole object, with the same boolean: only own
    properties were read. *)
Lemma Runtime_evaluate_returns f a b :
  evaluate f a = Some b → Runtime.evaluate f a = Some (Runtime.Boolean b).
Proof.
  revert b.
  induction f as [n|g IH|l IHl r IHr|l IHl r IHr|l IHl r IHr|l IHl r IHr|];
    intros b; cbn [evaluate Runtime.evaluate].
  - unfold Runtime.getProperty. by intros ->.
  - destruct (evaluate g a) as [x|]; [|done]. intros [= <-]. by rewrite (IH x).
  - destruct (evaluate l a) as [[]|]; [|intros [= <-]; by rewrite (IHl false)|done].
    intros Hr. rewrite (IHl true) by done. by apply IHr.
  - destruct (evaluate l a) as [[]|]; [intros [= <-]; by rewrite (IHl true)| |done].
    intros Hr. rewrite (IHl false) by done. by apply IHr.
  - destruct (evaluate l a) as [[]|]; [|intros [= <-]; by rewrite (IHl false)|done].
    intros Hr. rewrite (IHl true) by done. by apply IHr.
  - destruct (evaluate l a) as [x|]; [|done]. destruct (evaluate r a) as [y|]; [|done].
    intros [= <-]. rewrite (IHl x), (IHr y) by done. cbn. do 2 f_equal.
    unfold Runtime.strictEquals. destruct x, y; by vm_compute.
  - by intros [= <-].
Qed.

(** The two evaluators agree, raise included, when no missing variable
    bears the name of a member of [Object.prototype]. *)
Lemma Runtime_evaluate_own f a :
  (∀ v, v ∈ varsOf f → a !! v = None → v ∉ Runtime.objectPrototype) →
  Runtime.evaluate f a = Runtime.Boolean <$> evaluate f a.
Proof.
  induction f as [n|g IH|l IHl r IHr|l IHl r IHr|l IHl r IHr|l IHl r IHr|];
    intros Hv; cbn [evaluate Runtime.evaluate varsOf] in *.
  - unfold Runtime.getProperty. destruct (a !! n) eqn:Hn; [done|].
    rewrite bool_decide_eq_false_2; [done|]. apply Hv; [left|done].
  - rewrite IH by done. by destruct (evaluate g a).
  - rewrite IHl by (intros; apply Hv; [apply elem_of_app; auto|done]).
    destruct (evaluate l a) as [[]|]; cbn; [|done|done].
    apply IHr. intros; apply Hv; [apply elem_of_app; auto|done].
  - rewrite IHl by (intros; apply Hv; [apply elem_of_app; auto|done]).
    destruct (evaluate l a) as [[]|]; cbn; [done| |done].
    apply IHr. intros; apply Hv; [apply elem_of_app; auto|done].
  - rewrite IHl by (intros; apply Hv; [apply elem_of_app; auto|done]).
    destruct (evaluate l a) as [[]|]; cbn; [|done|done].
    apply IHr. intros; apply Hv; [apply elem_of_app; auto|done].
  - rewrite IHl, IHr by (intros; apply Hv; [apply elem_of_app; auto|done]).
    destruct (evaluate l a) as [x|]; cbn; [|done].
    destruct (evaluate r a) as [y|]; cbn; [|done].
    do 2 f_equal. unfold Runtime.strictEquals. destruct x, y; by vm_compute.
  - done.
Qed.

(** A missing variable that bears the name of a member of
    [Object.prototype] does not raise: the lookup finds the inherited
    member. *)
Lemma Runtime_evaluate_inherited a n :
  a !! n = None → n ∈ Runtime.objectPrototype →
  Runtime.evaluate (Var n) a = Some (Runtime.Inherited n).
Proof.
  intros Hn Hin. cbn [Runtime.evaluate]. unfold Runtime.getProperty.
  by rewrite Hn, bool_decide_eq_true_2.
Qed.

(** C8 (amended): [evaluate] raises only when a variable occurring in the
    formula is missing from the assignment; it raises exactly when its
    evaluation from left to right gets to a missing variable, the right
    operand of [And] and [Implies] being evaluated only when the left one
    is true and that of [Or] only when the left one is false, as long as
    no missing variable bears the name of a member of [Object.prototype];
    and when every variable of the formula is assigned it returns the
    classical value. *)
Theorem C8_evaluate_semantics :
  ∀ f a,
    (Runtime.evaluate f a = None → ∃ v, v ∈ varsOf f ∧ a !! v = None)
    ∧ ((∀ v, v ∈ varsOf f → a !! v = None → v ∉ Runtime.objectPrototype) →
         (Runtime.evaluate f a = None
          ↔ ∃ v, v ∈ reached (valuationOf a) f ∧ a !! v = None))
    ∧ ((∀ v, v ∈ varsOf f → is_Some (a !! v)) →
         Runtime.evaluate f a
         = Some (Runtime.Boolean (classical (valuationOf a) f))).
Proof.
  intros f a. split_and!.
  - intros Hnone. apply evaluate_None.
    destruct (evaluate f a) as [b|] eqn:Hb; [|done].
    by rewrite (Runtime_evaluate_returns f a b Hb) in Hnone.
  - intros Hown. rewrite Runtime_evaluate_own by done.
    rewrite <- evaluate_None_reached. by destruct (evaluate f a).
  - intros Hall. apply Runtime_evaluate_returns. by apply evaluate_classical.
Qed.

Lemma C8_evaluate_semantics_witness :
  Runtime.evaluate (Implies (Var (str "P")) (Iff (Var (str "Q")) Bottom))
                   (<[str "P" := true]> (<[str "Q" := false]> ∅))
  = Some (Runtime.Boolean true)
  ∧ Runtime.evaluate (Or (Var (str "P")) (Var (str "Q"))) (<[str "P" := false]> ∅)
    = None
  ∧ ∃ v, v ∈ varsOf (Not (Var (str "P"))) ∧ (∅ : gmap (list N) bool) !! v = None.
Proof.
  split_and!.
  - rewrite (proj2 (proj2 (C8_evaluate_semantics _ _))).
    + vm_compute. reflexivity.
    + intros v Hv. vm_compute in Hv.
      apply elem_of_cons in Hv as [->|Hv]; [vm_compute; eauto|].
      apply elem_of_cons in Hv as [->|Hv]; [vm_compute; eauto|].
      by apply elem_of_nil in Hv.
  - apply (proj1 (proj2 (C8_evaluate_semantics
                           (Or (Var (str "P")) (Var (str "Q")))
                           (<[str "P" := false]> ∅)))).
    + intros v Hv Hm Hproto. vm_compute in Hv.
      apply elem_of_cons in Hv as [->|Hv]; [by vm_compute in Hm|].
      apply elem_of_cons in Hv as [->|Hv]; [|by apply elem_of_nil in Hv].
      revert Hproto. apply (bool_decide_unpack _). vm_compute. reflexivity.
    + exists (str "Q"). split; [vm_compute; right; left|vm_compute; reflexivity].
  - apply (proj1 (C8_evaluate_semantics (Not (Var (str "P"))) ∅)).
    reflexivity.
Defined.

(** C8 as stated fails: [P] occurs in [⊥ ∧ P] and is missing from the
    empty assignment, yet [evaluate] returns [false] without raising. *)
Lemma C8_counterexample :
  str "P" ∈ varsOf (And Bottom (Var (str "P")))
  ∧ (∅ : gmap (list N) bool) !! str "P" = None
  ∧ Runtime.evaluate (And Bottom (Var (str "P"))) ∅ = Some (Runtime.Boolean false).
Proof. split_and!; [cbn [varsOf app]; left|done|done]. Qed.

Lemma refutes_loops premises conclusion rows :
  (entailsLoop premises conclusion rows = Some true
   ↔ findCounterexampleLoop premises conclusion rows = Some None)
  ∧ (entailsLoop premises conclusion rows = None
     ↔ findCounterexampleLoop premises conclusion rows = None).
Proof.
  induction rows as [|a rows [IH1 IH2]]; cbn [entailsLoop findCounterexampleLoop].
  - done.
  - destruct (refutes premises conclusion a) as [[]|]; [done|done|done].
Qed.

Lemma elem_of_concat_fmap {A B} (g : A → list B) (l : list A) (x : B) :
  x ∈ concat (g <$> l) ↔ ∃ a, a ∈ l ∧ x ∈ g a.
Proof.
  induction l as [|a l IH]; cbn [fmap list_fmap concat].
  - split; [by intros ?%elem_of_nil|by intros (? & ?%elem_of_nil & _)].
  - rewrite elem_of_app, IH. split.
    + intros [?|(b & ? & ?)]; [exists a; split; [left|done]|exists b; split; [by right|done]].
    + intros (b & [->|?]%elem_of_cons & ?); [by left|right; eauto].
Qed.

Lemma allVars_elem_of premises conclusion v :
  v ∈ allVars premises conclusion
  ↔ (∃ p, p ∈ premises ∧ v ∈ varsOf p) ∨ v ∈ varsOf conclusion.
Proof.
  unfold allVars.
  rewrite jsSort_elem_of, setFrom_elem_of, elem_of_app, extractVariables_elem_of.
  apply or_iff_compat_r. rewrite elem_of_concat_fmap.
  by setoid_rewrite extractVariables_elem_of.
Qed.

Lemma everyPremise_total premises a :
  (∀ p v, p ∈ premises → v ∈ varsOf p → is_Some (a !! v)) →
  is_Some (everyPremise premises a).
Proof.
  induction premises as [|p premises IH]; intros Hall; cbn [everyPremise]; [eauto|].
  rewrite evaluate_classical by (intros v Hv; eapply Hall; [left|done]).
  destruct (classical _ p); [|eauto].
  apply IH. intros q v Hq. apply Hall. by right.
Qed.

Lemma refutes_total premises conclusion a :
  (∀ v, v ∈ allVars premises conclusion → is_Some (a !! v)) →
  is_Some (refutes premises conclusion a).
Proof.
  intros Hall. unfold refutes.
  destruct (everyPremise_total premises a) as [b Hb].
  { intros p v Hp Hv. apply Hall, allVars_elem_of. left. eauto. }
  rewrite Hb. destruct b; [|eauto].
  rewrite evaluate_classical; [cbn; eauto|].
  intros v Hv. apply Hall, allVars_elem_of. by right.
Qed.

Lemma refutes_loops_total premises conclusion rows :
  (∀ a, a ∈ rows → is_Some (refutes premises conclusion a)) →
  is_Some (entailsLoop premises conclusion rows)
  ∧ is_Some (findCounterexampleLoop premises conclusion rows).
Proof.
  induction rows as [|a rows IH]; intros Hall;
    cbn [entailsLoop findCounterexampleLoop]; [eauto|].
  destruct (Hall a) as [b ->]; [left|].
  destruct b; [eauto|]. apply IH. intros; apply Hall. by right.
Qed.

(** C7: [entails] returns [true] exactly when [findCounterexample] returns
    [null]; both always return, neither raises. *)
Theorem C7_entails_iff_no_counterexample :
  ∀ premises conclusion,
    (entails premises conclusion = Some true
     ↔ findCounterexample premises conclusion = Some None)
    ∧ is_Some (entails premises conclusion)
    ∧ is_Some (findCounterexample premises conclusion).
Proof.
  intros premises conclusion. split; [apply refutes_loops|].
  apply refutes_loops_total. intros a Ha. apply refutes_total.
  intros v Hv. by eapply generateAllAssignments_assigns.
Qed.

Lemma C7_entails_iff_no_counterexample_witness :
  entails [Var (str "P"); Implies (Var (str "P")) (Var (str "Q"))] (Var (str "Q"))
  = Some true
  ∧ findCounterexample [Var (str "P"); Implies (Var (str "P")) (Var (str "Q"))]
      (Var (str "Q"))
    = Some None.
Proof.
  assert (entails [Var (str "P"); Implies (Var (str "P")) (Var (str "Q"))]
            (Var (str "Q")) = Some true) as H by (vm_compute; reflexivity).
  split; [exact H|].
  apply (proj1 (proj1 (C7_entails_iff_no_counterexample _ _))). exact H.
Defined.

Lemma tableRows_total f assignments :
  (∀ a, a ∈ assignments → is_Some (evaluate f a)) →
  ∃ rows, tableRows f assignments = Some rows
          ∧ inputs <$> rows = assignments
          ∧ Forall (λ r, evaluate f (inputs r) = Some (result r)) rows.
Proof.
  induction assignments as [|a rest IH]; intros Hall.
  - exists []. by split_and!.
  - destruct (Hall a) as [b Hb]; [left|].
    destruct IH as (rows & Hrows & Hin & Hres); [intros; apply Hall; by right|].
    exists ({| inputs := a; result := b |} :: rows).
    cbn [tableRows]. rewrite Hb, Hrows. cbn. split_and!; [done|by f_equal|].
    by constructor.
Qed.

Lemma flag_loops_total f assignments :
  (∀ a, a ∈ assignments → is_Some (evaluate f a)) →
  is_Some (isTautologyLoop f assignments)
  ∧ is_Some (isContradictionLoop f assignments)
  ∧ is_Some (isSatisfiableLoop f assignments).
Proof.
  induction assignments as [|a rest IH]; intros Hall.
  - cbn. eauto.
  - destruct (Hall a) as [b Hb]; [left|].
    destruct IH as (? & ? & ?); [intros; apply Hall; by right|].
    cbn [isTautologyLoop isContradictionLoop isSatisfiableLoop]. rewrite Hb.
    destruct b; eauto.
Qed.

Lemma generateAllAssignments_small vars :
  (length vars ≤ 30)%nat →
  generateAllAssignments vars
  = (λ i, fillAssignments (Z.of_nat (length vars)) i 0 vars ∅)
      <$> seqZ 0 (2 ^ Z.of_nat (length vars)).
Proof.
  intros Hn. unfold generateAllAssignments. by rewrite shl32_one by lia.
Qed.

Lemma pow2_nat_Z n : Z.of_nat (2 ^ n) = 2 ^ Z.of_nat n.
Proof. by rewrite Nat2Z.inj_pow. Qed.

(** Row [i], column [j] of the enumeration for at most 30 distinct names. *)
Lemma generateAllAssignments_lookup vars i j v :
  (length vars ≤ 30)%nat → NoDup vars →
  (i < 2 ^ length vars)%nat → vars !! j = Some v →
  ∃ a, generateAllAssignments vars !! i = Some a
       ∧ a !! v = Some (negb (Z.testbit (Z.of_nat i) (Z.of_nat (length vars - 1 - j)))).
Proof.
  intros Hn Hnd Hi Hj.
  pose proof (lookup_lt_Some _ _ _ Hj) as Hjn.
  assert (2 ^ Z.of_nat (length vars) ≤ 2 ^ 30) by (apply Z.pow_le_mono_r; lia).
  pose proof (pow2_nat_Z (length vars)).
  rewrite generateAllAssignments_small by done.
  eexists. split.
  - rewrite list_lookup_fmap, (lookup_seqZ_lt _ _ i) by lia. reflexivity.
  - rewrite (fillAssignments_lookup _ _ 0 vars ∅ j v) by done.
    f_equal. rewrite bit_test by lia. do 2 f_equal. lia.
Qed.

Lemma generateAllAssignments_length vars :
  (length vars ≤ 30)%nat → length (generateAllAssignments vars) = (2 ^ length vars)%nat.
Proof.
  intros Hn. rewrite generateAllAssignments_small by done.
  rewrite length_fmap, length_seqZ, <- pow2_nat_Z. apply Nat2Z.id.
Qed.

Lemma testbit_all_ones n k : 0 ≤ k < n → Z.testbit (2 ^ n - 1) k = true.
Proof.
  intros Hk. replace (2 ^ n - 1) with (Z.ones n).
  - by apply Z.ones_spec_low.
  - rewrite Z.ones_equiv. lia.
Qed.

(** C6 (amended): for every formula whose [n] distinct variables number at
    most 30, [generateTruthTable] returns a table over the variables in
    strictly ascending order with exactly [2^n] rows; in row [i] the [j]-th
    variable is true iff bit [n-1-j] of [i] is zero; the first row is
    all-true, the last all-false, and with no variable there is exactly one
    row. Each row's result is the value of the formula on the row. *)
Theorem C6_truth_table_shape :
  ∀ f,
    let vars := extractVariables f in
    let n := length vars in
    (n ≤ 30)%nat →
    ∃ t, generateTruthTable f = Some t
      ∧ variables t = vars
      ∧ StronglySorted (λ x y, strLtb x y = true) vars
      ∧ (∀ v, v ∈ vars ↔ v ∈ varsOf f)
      ∧ length (rows t) = (2 ^ n)%nat
      ∧ (∀ i j v, (i < 2 ^ n)%nat → vars !! j = Some v →
           ∃ row, rows t !! i = Some row
             ∧ inputs row !! v
               = Some (negb (Z.testbit (Z.of_nat i) (Z.of_nat (n - 1 - j))))
             ∧ evaluate f (inputs row) = Some (result row))
      ∧ (∀ row v, rows t !! 0%nat = Some row → v ∈ vars → inputs row !! v = Some true)
      ∧ (∀ row v, rows t !! (2 ^ n - 1)%nat = Some row → v ∈ vars →
           inputs row !! v = Some false)
      ∧ (n = 0%nat → length (rows t) = 1%nat).
Proof.
  intros f. cbv zeta. set (vars := extractVariables f). intros Hn.
  assert (∀ a, a ∈ generateAllAssignments vars → is_Some (evaluate f a)) as Htotal.
  { intros a Ha. rewrite evaluate_classical; [eauto|].
    intros v Hv. eapply generateAllAssignments_assigns; [exact Ha|].
    by apply extractVariables_elem_of. }
  destruct (tableRows_total f _ Htotal) as (rs & Hrs & Hin & Hres).
  destruct (flag_loops_total f _ Htotal) as ([taut Ht] & [contra Hc] & [sat Hs]).
  pose proof (extractVariables_NoDup f) as Hnd. fold vars in Hnd.
  assert (length rs = (2 ^ length vars)%nat) as Hlen.
  { rewrite <- (generateAllAssignments_length vars) by done.
    by rewrite <- Hin, length_fmap. }
  assert (∀ i j v, (i < 2 ^ length vars)%nat → vars !! j = Some v →
           ∃ row, rs !! i = Some row
             ∧ inputs row !! v
               = Some (negb (Z.testbit (Z.of_nat i) (Z.of_nat (length vars - 1 - j))))
             ∧ evaluate f (inputs row) = Some (result row)) as Hrow.
  { intros i j v Hi Hj.
    destruct (generateAllAssignments_lookup vars i j v) as (a & Ha & Hav); try done.
    rewrite <- Hin, list_lookup_fmap in Ha.
    destruct (rs !! i) as [row|] eqn:Hr; [|done]. simplify_eq/=.
    exists row. split_and!; [done|done|].
    by eapply Forall_lookup_1 in Hres. }
  eexists. split.
  { unfold generateTruthTable. fold vars. rewrite Hrs.
    unfold isTautology, isContradiction, isSatisfiable. rewrite Ht, Hc, Hs.
    reflexivity. }
  cbn [variables rows]. split_and!.
  - done.
  - apply extractVariables_ascending.
  - apply extractVariables_elem_of.
  - done.
  - done.
  - intros row v Hr0 (j & Hj)%list_elem_of_lookup.
    assert (0 < 2 ^ length vars)%nat as Hpos by (apply Nat.neq_0_lt_0, Nat.pow_nonzero; lia).
    destruct (Hrow 0%nat j v Hpos Hj) as (row' & Hr' & Hv & _). simplify_eq.
    by rewrite Hv, Z.bits_0.
  - intros row v Hrl (j & Hj)%list_elem_of_lookup.
    pose proof (lookup_lt_Some _ _ _ Hj) as Hjn.
    assert (0 < 2 ^ length vars)%nat as Hpos by (apply Nat.neq_0_lt_0, Nat.pow_nonzero; lia).
    destruct (Hrow (2 ^ length vars - 1)%nat j v ltac:(lia) Hj) as (row' & Hr' & Hv & _).
    simplify_eq. rewrite Hv. f_equal.
    rewrite Nat2Z.inj_sub, pow2_nat_Z by lia.
    rewrite (testbit_all_ones (Z.of_nat (length vars))) by lia. done.
  - intros H0. by rewrite Hlen, H0.
Qed.

Lemma C6_truth_table_shape_witness :
  ∃ t, generateTruthTable (And (Var (str "Q")) (Var (str "P"))) = Some t
       ∧ length (rows t) = 4%nat.
Proof.
  destruct (C6_truth_table_shape (And (Var (str "Q")) (Var (str "P"))))
    as (t & Ht & _ & _ & _ & Hlen & _).
  - vm_compute. lia.
  - exists t. split; [exact Ht|]. exact Hlen.
Defined.

(** C6 as stated fails: for a formula with 31 distinct variables
    [1 << 31] is negative, the row loop never runs and the table has no
    row instead of [2^31]. *)
Lemma C6_counterexample :
  ∃ t, generateTruthTable thirtyOneVariables = Some t
       ∧ length (variables t) = 31%nat
       ∧ rows t = []
       ∧ Z.of_nat (length (rows t)) ≠ 2 ^ Z.of_nat (length (variables t)).
Proof. eexists. split_and!; vm_compute; done. Qed.

End TruthTableFacts.

(** * The parser never runs out of fuel *)

Section ParserTotal.
Import Parser.
Variable tokens : list Token.t.

Lemma check_true_advance pos type :
  check tokens pos type = true → type ≠ EOF →
  (pos < length tokens)%nat ∧ advance tokens pos = S pos.
Proof.
  unfold check, advance, current. intros Hc%bool_decide_eq_true Hne.
  destruct (tokens !! pos) as [t|] eqn:Ht; cbn in *; [|congruence].
  split; [by eapply lookup_lt_Some|].
  rewrite decide_False; [done|congruence].
Qed.

Lemma Progress_bind (m : run (Formula * nat)) (k : Formula * nat → run (Formula * nat))
    pos :
  Progress tokens m pos →
  (∀ f q, m = Done (f, q) → (pos < q ≤ length tokens)%nat → Reaches tokens (k (f, q)) q) →
  Progress tokens (m ≫= k) pos.
Proof.
  destruct m as [[f q]| |]; cbn; [|done|done].
  intros Hq Hk. specialize (Hk f q eq_refl Hq).
  destruct (k (f, q)) as [[g q']| |]; cbn in *; [lia|done|done].
Qed.

Lemma parsePrimary_progress handler pos :
  HandlerProgress tokens handler pos →
  Progress tokens (parsePrimary tokens handler pos) pos.
Proof.
  intros Hh. unfold parsePrimary.
  destruct (check tokens pos VAR) eqn:Hv.
  { destruct (check_true_advance _ _ Hv) as [? ->]; [done|]. cbn. lia. }
  destruct (check tokens pos BOTTOM) eqn:Hb.
  { destruct (check_true_advance _ _ Hb) as [? ->]; [done|]. cbn. lia. }
  destruct (check tokens pos LPAREN) eqn:Hl; [|done].
  destruct (check_true_advance _ _ Hl) as [Hlt ->]; [done|].
  pose proof (Hh (S pos) ltac:(lia)) as Hinner.
  destruct (handler (S pos)) as [[f q]| |]; cbn in *; [|done|done].
  destruct (check tokens q RPAREN) eqn:Hr; cbn; [|done].
  destruct (check_true_advance _ _ Hr) as [? ->]; [done|]. lia.
Qed.

Lemma HandlerProgress_mono handler lo lo' :
  (lo ≤ lo')%nat → HandlerProgress tokens handler lo → HandlerProgress tokens handler lo'.
Proof. intros Hle H pos Hpos. apply H. lia. Qed.

Lemma parseUnary_progress handler fuel pos :
  HandlerProgress tokens handler pos →
  (length tokens < fuel + pos)%nat →
  Progress tokens (parseUnary tokens handler fuel pos) pos.
Proof.
  revert pos. induction fuel as [|fuel IH]; intros pos Hh Hf.
  - cbn [parseUnary]. destruct (check tokens pos NOT) eqn:Hn.
    + destruct (check_true_advance _ _ Hn); [done|lia].
    + by apply parsePrimary_progress.
  - cbn [parseUnary]. destruct (check tokens pos NOT) eqn:Hn.
    + destruct (check_true_advance _ _ Hn) as [Hlt ->]; [done|].
      specialize (IH (S pos) (HandlerProgress_mono handler pos (S pos) ltac:(lia) Hh)
                    ltac:(lia)).
      destruct (parseUnary tokens handler fuel (S pos)) as [[f q]| |]; cbn in *;
        [lia|done|done].
    + by apply parsePrimary_progress.
Qed.

Lemma leftLoop_reaches operand type node fuel left pos :
  type ≠ EOF →
  (∀ pos', (pos < pos')%nat → Progress tokens (operand pos') pos') →
  (pos ≤ length tokens)%nat →
  (length tokens < fuel + pos)%nat →
  Reaches tokens (leftLoop tokens operand type node fuel left pos) pos.
Proof.
  intros Hne. revert left pos.
  induction fuel as [|fuel IH]; intros left pos Hop Hle Hf; cbn [leftLoop].
  - destruct (check tokens pos type) eqn:Hc; [|cbn; lia].
    destruct (check_true_advance _ _ Hc); [done|lia].
  - destruct (check tokens pos type) eqn:Hc; [|cbn; lia].
    destruct (check_true_advance _ _ Hc) as [Hlt ->]; [done|].
    pose proof (Hop (S pos) ltac:(lia)) as Hr.
    destruct (operand (S pos)) as [[r q]| |]; cbn in *; [|done|done].
    specialize (IH (node left r) q ltac:(intros; apply Hop; lia) ltac:(lia) ltac:(lia)).
    destruct (leftLoop tokens operand type node fuel (node left r) q) as [[g q']| |];
      cbn in *; [lia|done|done].
Qed.

(** A level makes progress when its operand parser does. *)
Lemma level_progress operand type node pos :
  type ≠ EOF →
  (∀ pos', (pos ≤ pos')%nat → Progress tokens (operand pos') pos') →
  Progress tokens
    (operand pos ≫= λ '(x, q), leftLoop tokens operand type node (loopFuel tokens) x q)
    pos.
Proof.
  intros Hne Hop. apply Progress_bind; [apply Hop; lia|].
  intros f q _ Hq. apply leftLoop_reaches; [done| |lia|unfold loopFuel; lia].
  intros pos' Hpos'. apply Hop. lia.
Qed.

Lemma parseAnd_progress handler pos :
  HandlerProgress tokens handler pos →
  Progress tokens (parseAnd tokens handler pos) pos.
Proof.
  intros Hh. apply (level_progress (unaryOperand tokens handler)); [done|].
  intros pos' Hpos'. apply parseUnary_progress; [|unfold loopFuel; lia].
  by eapply HandlerProgress_mono.
Qed.

Lemma parseOr_progress handler pos :
  HandlerProgress tokens handler pos →
  Progress tokens (parseOr tokens handler pos) pos.
Proof.
  intros Hh. apply (level_progress (parseAnd tokens handler)); [done|].
  intros pos' Hpos'. apply parseAnd_progress. by eapply HandlerProgress_mono.
Qed.

Lemma impliesLoop_reaches handler fuel operands pos :
  HandlerProgress tokens handler pos →
  (pos ≤ length tokens)%nat →
  (length tokens < fuel + pos)%nat →
  Reaches tokens (impliesLoop tokens handler fuel operands pos) pos.
Proof.
  revert operands pos.
  induction fuel as [|fuel IH]; intros operands pos Hh Hle Hf; cbn [impliesLoop].
  - destruct (check tokens pos IMPLIES) eqn:Hc; [|cbn; lia].
    destruct (check_true_advance _ _ Hc); [done|lia].
  - destruct (check tokens pos IMPLIES) eqn:Hc; [|cbn; lia].
    destruct (check_true_advance _ _ Hc) as [Hlt ->]; [done|].
    pose proof (parseOr_progress handler (S pos)
                  (HandlerProgress_mono handler pos (S pos) ltac:(lia) Hh)) as Hr.
    destruct (parseOr tokens handler (S pos)) as [[r q]| |]; cbn in *; [|done|done].
    specialize (IH (operands ++ [r]) q
                  (HandlerProgress_mono handler pos q ltac:(lia) Hh)
                  ltac:(lia) ltac:(lia)).
    destruct (impliesLoop tokens handler fuel (operands ++ [r]) q) as [[g q']| |];
      cbn in *; [lia|done|done].
Qed.

Lemma parseImplies_progress handler pos :
  HandlerProgress tokens handler pos →
  Progress tokens (parseImplies tokens handler pos) pos.
Proof.
  intros Hh. unfold parseImplies.
  apply Progress_bind; [by apply parseOr_progress|].
  intros f q _ Hq. apply impliesLoop_reaches; [|lia|unfold loopFuel; lia].
  eapply HandlerProgress_mono; [|exact Hh]. lia.
Qed.

Lemma parseIff_progress handler pos :
  HandlerProgress tokens handler pos →
  Progress tokens (parseIff tokens handler pos) pos.
Proof.
  intros Hh. apply (level_progress (parseImplies tokens handler)); [done|].
  intros pos' Hpos'. apply parseImplies_progress. by eapply HandlerProgress_mono.
Qed.

(** With the depth fuel above the number of tokens still ahead,
    [parseFormula] ends by returning or by throwing. *)
Lemma parseFormula_progress depth pos :
  (length tokens < depth + pos)%nat →
  (pos ≤ length tokens)%nat →
  Progress tokens (parseFormula tokens depth pos) pos.
Proof.
  revert pos. induction depth as [|depth IH]; intros pos Hd Hle; [lia|].
  cbn [parseFormula]. apply parseIff_progress.
  intros pos' Hpos'. apply IH; lia.
Qed.

(** [Parser.parse] always returns a result. *)
Lemma parse_total : is_Some (parse tokens).
Proof.
  unfold parse.
  pose proof (parseFormula_progress (loopFuel tokens) 0
                ltac:(unfold loopFuel; lia) ltac:(lia)) as H.
  destruct (parseFormula tokens (loopFuel tokens) 0) as [[f q]| |]; cbn in H; [|eauto|done].
  destruct (negb _); eauto.
Qed.

End ParserTotal.

(** [parseFormula] always returns a result. *)
Lemma parseFormula_total input : is_Some (parseFormula input).
Proof. apply parse_total. Qed.

(** * What the truth-table functions decide *)

Section TruthTableSemantics.
Import TruthTable Generate.

Lemma classical_ext val val' f :
  (∀ v, v ∈ varsOf f → val v = val' v) → classical val f = classical val' f.
Proof.
  induction f as [n|g IH|l IHl r IHr|l IHl r IHr|l IHl r IHr|l IHl r IHr|];
    intros Hv; cbn [classical varsOf] in *.
  - apply Hv. by left.
  - by rewrite IH.
  - rewrite IHl, IHr by (intros; apply Hv, elem_of_app; auto). done.
  - rewrite IHl, IHr by (intros; apply Hv, elem_of_app; auto). done.
  - rewrite IHl, IHr by (intros; apply Hv, elem_of_app; auto). done.
  - rewrite IHl, IHr by (intros; apply Hv, elem_of_app; auto). done.
  - done.
Qed.

(** Two sorted arrays of distinct names with the same members are the same
    array. *)
Lemma jsSort_canonical l1 l2 :
  NoDup l1 → NoDup l2 → (∀ x, x ∈ l1 ↔ x ∈ l2) → jsSort l1 = jsSort l2.
Proof.
  intros H1 H2 Heq.
  apply (StronglySorted_unique_strong (λ x y, strLtb x y = true)).
  - intros x y _ _ Hxy Hyx. apply strLtb_asym in Hxy. congruence.
  - by apply jsSort_ascending.
  - by apply jsSort_ascending.
  - rewrite !jsSort_Permutation. by apply NoDup_Permutation.
Qed.

Lemma jsSort_sorted l :
  StronglySorted (λ x y, strLtb x y = true) l → jsSort l = l.
Proof.
  intros Hs.
  assert (NoDup l) as Hnd.
  { induction Hs as [|x l Hs IH Hall]; constructor; [|done].
    intros Hx. rewrite Forall_forall in Hall. specialize (Hall x Hx).
    by rewrite strLtb_irrefl in Hall. }
  apply (StronglySorted_unique_strong (λ x y, strLtb x y = true)).
  - intros x y _ _ Hxy Hyx. apply strLtb_asym in Hxy. congruence.
  - by apply jsSort_ascending.
  - done.
  - apply jsSort_Permutation.
Qed.

Lemma setFrom_snoc l x : setFrom (l ++ [x]) = setAdd x (setFrom l).
Proof. unfold setFrom. by rewrite foldl_app. Qed.

Lemma setFrom_NoDup_id l : NoDup l → setFrom l = l.
Proof.
  induction l as [|x l IH] using rev_ind; [done|].
  intros [Hnd [Hx _]]%NoDup_app. rewrite setFrom_snoc, IH by done.
  unfold setAdd. destruct (decide (x ∈ l)) as [Hin|]; [|done].
  exfalso. apply (Hx x Hin). by left.
Qed.

(** The value the inner loop leaves for a listed name: the one written at
    some position that holds the name. *)
Lemma fillAssignments_lookup_last n i j vars a v :
  v ∈ vars →
  ∃ k, vars !! k = Some v
       ∧ fillAssignments n i j vars a !! v
         = Some (bool_decide (and32 i (shl32 1 (n - 1 - Z.of_nat (j + k))) = 0)).
Proof.
  revert j a. induction vars as [|w vars IH]; intros j a Hv; [by apply elem_of_nil in Hv|].
  cbn [fillAssignments].
  destruct (decide (v ∈ vars)) as [Hin|Hnin].
  - destruct (IH (S j) (<[w:=bool_decide (and32 i (shl32 1 (n - 1 - Z.of_nat j)) = 0)]> a) Hin)
      as (k & Hk & Hv').
    exists (S k). split; [done|]. rewrite Hv'.
    by replace (S j + k)%nat with (j + S k)%nat by lia.
  - apply elem_of_cons in Hv as [->|?]; [|done].
    exists 0%nat. split; [done|].
    rewrite fillAssignments_notin by done.
    by rewrite lookup_insert_eq, Nat.add_0_r.
Qed.

Lemma fillAssignments_dom n i j vars a v :
  is_Some (fillAssignments n i j vars a !! v) ↔ v ∈ vars ∨ is_Some (a !! v).
Proof.
  revert j a. induction vars as [|w vars IH]; intros j a; cbn [fillAssignments].
  - rewrite elem_of_nil. tauto.
  - rewrite IH, elem_of_cons. destruct (decide (v = w)) as [->|Hne].
    + rewrite lookup_insert_eq. split; [auto|]. intros _. right. eauto.
    + rewrite lookup_insert_ne by done. tauto.
Qed.

(** A row index whose bits spell a given valuation of the names. *)
Lemma exists_row (val : list N → bool) vars :
  ∃ i, 0 ≤ i < 2 ^ Z.of_nat (length vars)
       ∧ ∀ j v, vars !! j = Some v →
           Z.testbit i (Z.of_nat (length vars - 1 - j)) = negb (val v).
Proof.
  induction vars as [|w vars (i & Hi & Hbits)] using rev_ind.
  - exists 0. split; [cbn; lia|]. by intros j v ?.
  - exists (2 * i + Z.b2z (negb (val w))).
    rewrite length_app. cbn [length]. split.
    + replace (Z.of_nat (length vars + 1)) with (Z.succ (Z.of_nat (length vars))) by lia.
      rewrite Z.pow_succ_r by lia. destruct (negb (val w)); cbn [Z.b2z]; lia.
    + intros j v Hj.
      destruct (decide (j < length vars)%nat) as [Hlt|Hge].
      * rewrite lookup_app_l in Hj by done.
        replace (Z.of_nat (length vars + 1 - 1 - j))
          with (Z.succ (Z.of_nat (length vars - 1 - j))) by lia.
        rewrite Z.testbit_succ_r by lia. by apply Hbits.
      * rewrite lookup_app_r in Hj by lia.
        destruct (j - length vars)%nat as [|?] eqn:Hd; [|done].
        cbn in Hj. simplify_eq.
        replace (Z.of_nat (length vars + 1 - 1 - j)) with 0 by lia.
        apply Z.testbit_0_r.
Qed.

Lemma generateAllAssignments_covers vars (val : list N → bool) :
  (length vars ≤ 30)%nat →
  ∃ a, a ∈ generateAllAssignments vars ∧ ∀ v, v ∈ vars → a !! v = Some (val v).
Proof.
  intros Hn. destruct (exists_row val vars) as (i & Hi & Hbits).
  assert (2 ^ Z.of_nat (length vars) ≤ 2 ^ 30) by (apply Z.pow_le_mono_r; lia).
  exists (fillAssignments (Z.of_nat (length vars)) i 0 vars ∅). split.
  - rewrite generateAllAssignments_small by done.
    apply list_elem_of_fmap. exists i. split; [done|]. apply elem_of_seqZ. lia.
  - intros v Hv.
    destruct (fillAssignments_lookup_last (Z.of_nat (length vars)) i 0 vars ∅ v Hv)
      as (k & Hk & ->).
    pose proof (lookup_lt_Some _ _ _ Hk).
    rewrite bit_test by lia. f_equal.
    replace (Z.of_nat (length vars) - 1 - Z.of_nat (0 + k))
      with (Z.of_nat (length vars - 1 - k)) by lia.
    rewrite (Hbits k v Hk). by destruct (val v).
Qed.

Lemma generateAllAssignments_dom vars a v :
  a ∈ generateAllAssignments vars → is_Some (a !! v) ↔ v ∈ vars.
Proof.
  unfold generateAllAssignments. intros (i & -> & _)%list_elem_of_fmap.
  rewrite fillAssignments_dom, lookup_empty. split; [|by left].
  intros [?|[? ?]]; done.
Qed.

(** On a row of the enumeration a formula over the listed names has its
    classical value. *)
Lemma evaluate_row vars f a :
  a ∈ generateAllAssignments vars → (∀ v, v ∈ varsOf f → v ∈ vars) →
  evaluate f a = Some (classical (valuationOf a) f).
Proof.
  intros Ha Hsub. apply evaluate_classical.
  intros v Hv. eapply generateAllAssignments_assigns; eauto.
Qed.

Lemma evaluate_covered (val : list N → bool) f a :
  (∀ v, v ∈ varsOf f → a !! v = Some (val v)) →
  evaluate f a = Some (classical val f).
Proof.
  intros Hv. rewrite evaluate_classical by (intros v ?; rewrite Hv; eauto).
  f_equal. apply classical_ext. intros v ?. by rewrite Hv.
Qed.

(** What the three flag loops return when no row raises. *)
Lemma flag_loops_spec f rows :
  (∀ a, a ∈ rows → is_Some (evaluate f a)) →
  ∃ t c s,
    isTautologyLoop f rows = Some t
    ∧ isContradictionLoop f rows = Some c
    ∧ isSatisfiableLoop f rows = Some s
    ∧ (t = true ↔ ∀ a, a ∈ rows → evaluate f a = Some true)
    ∧ (c = true ↔ ∀ a, a ∈ rows → evaluate f a = Some false)
    ∧ (s = true ↔ ∃ a, a ∈ rows ∧ evaluate f a = Some true).
Proof.
  induction rows as [|a rows IH]; intros Hall.
  - exists true, true, false. split_and!; try done.
    + split; [|done]. intros _ a Ha. by apply elem_of_nil in Ha.
    + split; [|done]. intros _ a Ha. by apply elem_of_nil in Ha.
    + split; [done|]. intros (a & Ha & _). by apply elem_of_nil in Ha.
  - destruct IH as (t & c & s & Ht & Hc & Hs & Ht' & Hc' & Hs');
      [intros; apply Hall; by right|].
    destruct (Hall a) as [b Hb]; [left|].
    cbn [isTautologyLoop isContradictionLoop isSatisfiableLoop]. rewrite Hb.
    destruct b.
    + exists t, false, true. split_and!; try done.
      * rewrite Ht'. split.
        -- intros H x [->|?]%elem_of_cons; auto.
        -- intros H x ?. apply H. by right.
      * split; [done|]. intros H. specialize (H a ltac:(left)). congruence.
      * split; [|done]. intros _. exists a. split; [left|done].
    + exists false, c, s. split_and!; try done.
      * split; [done|]. intros H. specialize (H a ltac:(left)). congruence.
      * rewrite Hc'. split.
        -- intros H x [->|?]%elem_of_cons; auto.
        -- intros H x ?. apply H. by right.
      * rewrite Hs'. split.
        -- intros (x & ? & ?). exists x. split; [by right|done].
        -- intros (x & [->|?]%elem_of_cons & ?); [congruence|eauto].
Qed.

(** X1: For at most 30 names, [generateAllAssignments] yields every valuation
    of the names: each row assigns exactly the listed names, and every
    valuation is the content of some row. *)
Theorem generateAllAssignments_complete :
  ∀ vars (val : list N → bool),
    (length vars ≤ 30)%nat →
    (∀ a v, a ∈ generateAllAssignments vars → is_Some (a !! v) ↔ v ∈ vars)
    ∧ ∃ a, a ∈ generateAllAssignments vars ∧ ∀ v, v ∈ vars → a !! v = Some (val v).
Proof.
  intros vars val Hn. split.
  - intros a v Ha. by apply generateAllAssignments_dom.
  - by apply generateAllAssignments_covers.
Qed.

Lemma generateAllAssignments_complete_witness :
  (∀ a v, a ∈ generateAllAssignments [str "P"; str "Q"] →
          is_Some (a !! v) ↔ v ∈ [str "P"; str "Q"])
  ∧ ∃ a, a ∈ generateAllAssignments [str "P"; str "Q"]
         ∧ ∀ v, v ∈ [str "P"; str "Q"] →
                a !! v = Some (bool_decide (v = str "Q")).
Proof.
  apply (generateAllAssignments_complete [str "P"; str "Q"]
           (λ v, bool_decide (v = str "Q"))).
  cbn. lia.
Defined.

(** X2: The flags of a formula over at most 30 listed names: [isTautology]
    holds exactly of the formulas true under every valuation,
    [isContradiction] of those false under every valuation, and
    [isSatisfiable] of those true under some valuation; none raises. *)
Theorem flags_decide_semantics :
  ∀ f vars,
    (length vars ≤ 30)%nat →
    (∀ v, v ∈ varsOf f → v ∈ vars) →
    ∃ t c s,
      isTautology f vars = Some t
      ∧ isContradiction f vars = Some c
      ∧ isSatisfiable f vars = Some s
      ∧ (t = true ↔ ∀ val, classical val f = true)
      ∧ (c = true ↔ ∀ val, classical val f = false)
      ∧ (s = true ↔ ∃ val, classical val f = true).
Proof.
  intros f vars Hn Hsub.
  destruct (flag_loops_spec f (generateAllAssignments vars))
    as (t & c & s & Ht & Hc & Hs & Ht' & Hc' & Hs').
  { intros a Ha. erewrite evaluate_row by done. eauto. }
  exists t, c, s. split_and!; try done.
  - rewrite Ht'. split.
    + intros H val. destruct (generateAllAssignments_covers vars val Hn) as (a & Ha & Hv).
      specialize (H a Ha). rewrite (evaluate_covered val) in H by auto. congruence.
    + intros H a Ha. erewrite evaluate_row by done. by rewrite H.
  - rewrite Hc'. split.
    + intros H val. destruct (generateAllAssignments_covers vars val Hn) as (a & Ha & Hv).
      specialize (H a Ha). rewrite (evaluate_covered val) in H by auto. congruence.
    + intros H a Ha. erewrite evaluate_row by done. by rewrite H.
  - rewrite Hs'. split.
    + intros (a & Ha & He). exists (valuationOf a).
      erewrite evaluate_row in He by done. congruence.
    + intros (val & Hval).
      destruct (generateAllAssignments_covers vars val Hn) as (a & Ha & Hv).
      exists a. split; [done|]. rewrite (evaluate_covered val) by auto. by rewrite Hval.
Qed.

Lemma flags_decide_semantics_witness :
  ∃ t c s,
    isTautology (Or (Var (str "P")) (Not (Var (str "P")))) [str "P"] = Some t
    ∧ isContradiction (Or (Var (str "P")) (Not (Var (str "P")))) [str "P"] = Some c
    ∧ isSatisfiable (Or (Var (str "P")) (Not (Var (str "P")))) [str "P"] = Some s
    ∧ (t = true ↔ ∀ val, classical val (Or (Var (str "P")) (Not (Var (str "P")))) = true)
    ∧ (c = true ↔ ∀ val, classical val (Or (Var (str "P")) (Not (Var (str "P")))) = false)
    ∧ (s = true ↔ ∃ val, classical val (Or (Var (str "P")) (Not (Var (str "P")))) = true).
Proof.
  apply (flags_decide_semantics (Or (Var (str "P")) (Not (Var (str "P")))) [str "P"]).
  - cbn. lia.
  - intros v Hv. cbn [varsOf app] in Hv.
    rewrite !elem_of_cons, elem_of_nil in Hv. destruct Hv as [->|[->|[]]]; left.
Defined.

(** X3: For every formula and every list of names, of any length:
    [isContradiction] is the negation of [isSatisfiable], and a formula is
    a contradiction exactly when its negation is a tautology; each pair
    raises together. *)
Theorem flags_related :
  ∀ f vars,
    isContradiction f vars = negb <$> isSatisfiable f vars
    ∧ isTautology (Not f) vars = isContradiction f vars.
Proof.
  intros f vars. unfold isContradiction, isSatisfiable, isTautology.
  induction (generateAllAssignments vars) as [|a rows [IH1 IH2]]; [done|].
  cbn [isTautologyLoop isContradictionLoop isSatisfiableLoop evaluate].
  destruct (evaluate f a) as [[]|]; cbn; done.
Qed.

Lemma everyPremise_classical premises a :
  (∀ p v, p ∈ premises → v ∈ varsOf p → is_Some (a !! v)) →
  everyPremise premises a = Some (forallb (classical (valuationOf a)) premises).
Proof.
  induction premises as [|p premises IH]; intros Hall; cbn [everyPremise forallb]; [done|].
  rewrite evaluate_classical by (intros v Hv; eapply Hall; [left|done]).
  fold (valuationOf a).
  destruct (classical _ p); [|done].
  apply IH. intros q v Hq. apply Hall. by right.
Qed.

Lemma everyPremise_true premises a :
  everyPremise premises a = Some true ↔ ∀ p, p ∈ premises → evaluate p a = Some true.
Proof.
  induction premises as [|p premises IH]; cbn [everyPremise].
  - split; [|done]. intros _ p Hp. by apply elem_of_nil in Hp.
  - destruct (evaluate p a) as [[]|] eqn:Hp.
    + rewrite IH. split.
      * intros H q [->|?]%elem_of_cons; auto.
      * intros H q ?. apply H. by right.
    + split; [done|]. intros H. specialize (H p ltac:(left)). congruence.
    + split; [done|]. intros H. specialize (H p ltac:(left)). congruence.
Qed.

Lemma forallb_classical val premises :
  forallb (classical val) premises = true
  ↔ ∀ p, p ∈ premises → classical val p = true.
Proof.
  rewrite forallb_forall. by setoid_rewrite list_elem_of_In.
Qed.

(** [refutes] on a row of the enumeration over the names of the argument. *)
Lemma refutes_row premises conclusion vars a :
  a ∈ generateAllAssignments vars →
  (∀ v, v ∈ allVars premises conclusion → v ∈ vars) →
  refutes premises conclusion a
  = Some (forallb (classical (valuationOf a)) premises
          && negb (classical (valuationOf a) conclusion)).
Proof.
  intros Ha Hsub. unfold refutes.
  rewrite everyPremise_classical.
  - destruct (forallb _ premises); [|done]. cbn [andb].
    erewrite evaluate_row; [done|exact Ha|].
    intros v Hv. apply Hsub, allVars_elem_of. by right.
  - intros p v Hp Hv. eapply generateAllAssignments_assigns; [exact Ha|].
    apply Hsub, allVars_elem_of. left. eauto.
Qed.

Lemma entailsLoop_spec premises conclusion rows :
  (∀ a, a ∈ rows → is_Some (refutes premises conclusion a)) →
  ∃ b, entailsLoop premises conclusion rows = Some b
       ∧ (b = true ↔ ∀ a, a ∈ rows → refutes premises conclusion a = Some false).
Proof.
  induction rows as [|a rows IH]; intros Hall; cbn [entailsLoop].
  - exists true. split; [done|]. split; [|done]. intros _ a Ha. by apply elem_of_nil in Ha.
  - destruct (Hall a) as [r Hr]; [left|]. rewrite Hr.
    destruct IH as (b & Hb & Hb'); [intros; apply Hall; by right|].
    destruct r.
    + exists false. split; [done|]. split; [done|].
      intros H. specialize (H a ltac:(left)). congruence.
    + exists b. split; [done|]. rewrite Hb'. split.
      * intros H x [->|?]%elem_of_cons; auto.
      * intros H x ?. apply H. by right.
Qed.

Lemma entails_spec premises conclusion :
  (length (allVars premises conclusion) ≤ 30)%nat →
  ∃ b, entails premises conclusion = Some b
       ∧ (b = true
          ↔ ∀ val, (∀ p, p ∈ premises → classical val p = true) →
                   classical val conclusion = true).
Proof.
  intros Hn.
  set (vars := allVars premises conclusion) in *.
  destruct (entailsLoop_spec premises conclusion (generateAllAssignments vars))
    as (b & Hb & Hb').
  { intros a Ha. erewrite refutes_row by done. eauto. }
  exists b. split; [done|]. rewrite Hb'. split.
  - intros H val Hprem.
    destruct (generateAllAssignments_covers vars val Hn) as (a & Ha & Hv).
    specialize (H a Ha). erewrite refutes_row in H by done.
    assert (∀ f, (∀ v, v ∈ varsOf f → v ∈ vars) →
                 classical (valuationOf a) f = classical val f) as Hsame.
    { intros f Hf. apply classical_ext. intros v Hvf. unfold valuationOf.
      by rewrite Hv by auto. }
    rewrite Hsame in H by (intros v ?; apply allVars_elem_of; by right).
    assert (forallb (classical (valuationOf a)) premises = true) as Hall.
    { apply forallb_classical. intros p Hp. rewrite Hsame; [by apply Hprem|].
      intros v ?. apply allVars_elem_of. left. eauto. }
    rewrite Hall in H. cbn [andb] in H. destruct (classical val conclusion); [done|].
    cbn in H. congruence.
  - intros H a Ha. erewrite refutes_row by done. f_equal.
    destruct (forallb _ premises) eqn:Hall; [|done]. cbn [andb].
    rewrite H; [done|]. by apply forallb_classical.
Qed.

(** X4: [entails] decides semantic consequence when the argument has at most
    30 distinct variables: it returns [true] exactly when every valuation
    that makes all premises true makes the conclusion true, and never
    raises. *)
Theorem entails_decides_consequence :
  ∀ premises conclusion,
    (length (allVars premises conclusion) ≤ 30)%nat →
    ∃ b, entails premises conclusion = Some b
         ∧ (b = true
            ↔ ∀ val, (∀ p, p ∈ premises → classical val p = true) →
                     classical val conclusion = true).
Proof. exact entails_spec. Qed.

Lemma entails_decides_consequence_witness :
  ∃ b, entails [Or (Var (str "P")) (Var (str "Q")); Not (Var (str "P"))] (Var (str "Q"))
       = Some b
       ∧ (b = true
          ↔ ∀ val, (∀ p, p ∈ [Or (Var (str "P")) (Var (str "Q")); Not (Var (str "P"))] →
                         classical val p = true) →
                   classical val (Var (str "Q")) = true).
Proof.
  apply (entails_decides_consequence
           [Or (Var (str "P")) (Var (str "Q")); Not (Var (str "P"))] (Var (str "Q"))).
  vm_compute. lia.
Defined.

Lemma findCounterexampleLoop_found premises conclusion rows a :
  findCounterexampleLoop premises conclusion rows = Some (Some a) →
  a ∈ rows ∧ refutes premises conclusion a = Some true.
Proof.
  induction rows as [|r rows IH]; cbn [findCounterexampleLoop]; [done|].
  destruct (refutes premises conclusion r) as [[]|] eqn:Hr; [|  |done].
  - intros [= ->]. split; [left|done].
  - intros [? ?]%IH. split; [by right|done].
Qed.

(** X5: The assignment [findCounterexample] returns is a counterexample: it
    assigns exactly the variables of the argument, makes every premise
    true and the conclusion false. This holds for arguments of any size. *)
Theorem findCounterexample_sound :
  ∀ premises conclusion a,
    findCounterexample premises conclusion = Some (Some a) →
    (∀ v, is_Some (a !! v)
          ↔ (∃ p, p ∈ premises ∧ v ∈ varsOf p) ∨ v ∈ varsOf conclusion)
    ∧ (∀ p, p ∈ premises → evaluate p a = Some true)
    ∧ evaluate conclusion a = Some false.
Proof.
  intros premises conclusion a [Ha Hr]%findCounterexampleLoop_found. split_and!.
  - intros v. rewrite <- allVars_elem_of. by apply generateAllAssignments_dom.
  - apply everyPremise_true. unfold refutes in Hr.
    by destruct (everyPremise premises a) as [[]|].
  - unfold refutes in Hr.
    destruct (everyPremise premises a) as [[]|]; [|done|done].
    by destruct (evaluate conclusion a) as [[]|].
Qed.

Lemma findCounterexample_sound_witness :
  ∃ a, findCounterexample [Or (Var (str "P")) (Var (str "Q"))] (Var (str "P")) = Some (Some a)
       ∧ evaluate (Var (str "P")) a = Some false.
Proof.
  exists (<[str "P" := false]> (<[str "Q" := true]> ∅)).
  assert (findCounterexample [Or (Var (str "P")) (Var (str "Q"))] (Var (str "P"))
          = Some (Some (<[str "P" := false]> (<[str "Q" := true]> ∅)))) as H
    by (vm_compute; reflexivity).
  split; [exact H|].
  exact (proj2 (proj2 (findCounterexample_sound _ _ _ H))).
Defined.

Lemma areEquivalentLoop_spec a b rows :
  (∀ r, r ∈ rows → is_Some (evaluate a r) ∧ is_Some (evaluate b r)) →
  ∃ e, areEquivalentLoop a b rows = Some e
       ∧ (e = true ↔ ∀ r, r ∈ rows → evaluate a r = evaluate b r).
Proof.
  induction rows as [|r rows IH]; intros Hall; cbn [areEquivalentLoop].
  - exists true. split; [done|]. split; [|done]. intros _ r Hr. by apply elem_of_nil in Hr.
  - destruct (Hall r) as [[va Ha] [vb Hb]]; [left|]. rewrite Ha, Hb. cbn.
    destruct IH as (e & He & He'); [intros; apply Hall; by right|].
    destruct (eqb va vb) eqn:Heq.
    + apply eqb_prop in Heq as ->. exists e. split; [done|]. rewrite He'. split.
      * intros H x [->|?]%elem_of_cons; [congruence|auto].
      * intros H x ?. apply H. by right.
    + exists false. split; [done|]. split; [done|].
      intros H. specialize (H r ltac:(left)). rewrite Ha, Hb in H.
      simplify_eq. by rewrite eqb_reflx in Heq.
Qed.

Lemma equivalenceVars_elem_of a b v :
  v ∈ equivalenceVars a b ↔ v ∈ varsOf a ∨ v ∈ varsOf b.
Proof.
  unfold equivalenceVars.
  by rewrite jsSort_elem_of, setFrom_elem_of, elem_of_app, !extractVariables_elem_of.
Qed.

(** X6: [areEquivalent] decides logical equivalence of two formulas with at
    most 30 distinct variables between them: it returns [true] exactly
    when the formulas have the same value under every valuation, and never
    raises. *)
Theorem areEquivalent_decides_equivalence :
  ∀ a b,
    (length (equivalenceVars a b) ≤ 30)%nat →
    ∃ e, areEquivalent a b = Some e
         ∧ (e = true ↔ ∀ val, classical val a = classical val b).
Proof.
  intros a b Hn. set (vars := equivalenceVars a b) in *.
  assert (∀ v, v ∈ varsOf a → v ∈ vars) as Hva
    by (intros; apply equivalenceVars_elem_of; by left).
  assert (∀ v, v ∈ varsOf b → v ∈ vars) as Hvb
    by (intros; apply equivalenceVars_elem_of; by right).
  destruct (areEquivalentLoop_spec a b (generateAllAssignments vars)) as (e & He & He').
  { intros r Hr. rewrite !(evaluate_row vars) by done. eauto. }
  exists e. split; [done|]. rewrite He'. split.
  - intros H val.
    destruct (generateAllAssignments_covers vars val Hn) as (r & Hr & Hv).
    specialize (H r Hr).
    rewrite !(evaluate_covered val) in H by auto. congruence.
  - intros H r Hr. rewrite !(evaluate_row vars) by done. by rewrite H.
Qed.

Lemma areEquivalent_decides_equivalence_witness :
  ∃ e, areEquivalent (Implies (Var (str "P")) (Var (str "Q")))
                     (Or (Not (Var (str "P"))) (Var (str "Q"))) = Some e
       ∧ (e = true
          ↔ ∀ val, classical val (Implies (Var (str "P")) (Var (str "Q")))
                   = classical val (Or (Not (Var (str "P"))) (Var (str "Q")))).
Proof.
  apply areEquivalent_decides_equivalence. vm_compute. lia.
Defined.

Lemma areEquivalentLoop_sym a b rows :
  areEquivalentLoop a b rows = areEquivalentLoop b a rows.
Proof.
  induction rows as [|r rows IH]; cbn [areEquivalentLoop]; [done|].
  destruct (evaluate a r) as [[]|], (evaluate b r) as [[]|]; cbn; by rewrite ?IH.
Qed.

Lemma areEquivalentLoop_refl a rows :
  (∀ r, r ∈ rows → is_Some (evaluate a r)) → areEquivalentLoop a a rows = Some true.
Proof.
  induction rows as [|r rows IH]; intros Hall; cbn [areEquivalentLoop]; [done|].
  destruct (Hall r) as [v ->]; [left|]. cbn. rewrite eqb_reflx.
  apply IH. intros; apply Hall. by right.
Qed.

(** X7: [areEquivalent] is reflexive and symmetric on all formulas, whatever
    their size: a formula is equivalent to itself, and the answer (or the
    failure) does not depend on the order of the two arguments. *)
Theorem areEquivalent_refl_sym :
  ∀ a b,
    areEquivalent a a = Some true
    ∧ areEquivalent a b = areEquivalent b a.
Proof.
  intros a b. unfold areEquivalent. split.
  - apply areEquivalentLoop_refl. intros r Hr.
    rewrite (evaluate_row (equivalenceVars a a)); [eauto|done|].
    intros v Hv. apply equivalenceVars_elem_of. by left.
  - assert (equivalenceVars a b = equivalenceVars b a) as ->.
    { apply jsSort_canonical; [apply setFrom_NoDup..|].
      intros v. rewrite !setFrom_elem_of, !elem_of_app. tauto. }
    apply areEquivalentLoop_sym.
Qed.

Lemma jointVars_elem_of formulas v :
  v ∈ jointVars formulas ↔ ∃ f, f ∈ formulas ∧ v ∈ varsOf f.
Proof.
  unfold jointVars. rewrite jsSort_elem_of, setFrom_elem_of, elem_of_concat_fmap.
  by setoid_rewrite extractVariables_elem_of.
Qed.

Lemma jointLoop_spec formulas rows :
  (∀ r, r ∈ rows → is_Some (everyPremise formulas r)) →
  ∃ s, jointLoop formulas rows = Some s
       ∧ (s = true ↔ ∃ r, r ∈ rows ∧ everyPremise formulas r = Some true).
Proof.
  induction rows as [|r rows IH]; intros Hall; cbn [jointLoop].
  - exists false. split; [done|]. split; [done|]. intros (r & Hr & _). by apply elem_of_nil in Hr.
  - destruct (Hall r) as [e He]; [left|]. rewrite He.
    destruct IH as (s & Hs & Hs'); [intros; apply Hall; by right|].
    destruct e.
    + exists true. split; [done|]. split; [|done]. intros _. exists r. split; [left|done].
    + exists s. split; [done|]. rewrite Hs'. split.
      * intros (x & ? & ?). exists x. split; [by right|done].
      * intros (x & [->|?]%elem_of_cons & ?); [congruence|eauto].
Qed.

(** X8: [areJointlySatisfiable] decides joint satisfiability of formulas with
    at most 30 distinct variables between them: it returns [true] exactly
    when some valuation makes all of them true (so it is [true] of the
    empty list), and never raises. *)
Theorem areJointlySatisfiable_decides :
  ∀ formulas,
    (length (jointVars formulas) ≤ 30)%nat →
    ∃ s, areJointlySatisfiable formulas = Some s
         ∧ (s = true ↔ ∃ val, ∀ f, f ∈ formulas → classical val f = true).
Proof.
  intros formulas Hn. destruct formulas as [|f0 rest] eqn:Hf.
  { exists true. split; [done|]. split; [|done]. intros _.
    exists (λ _, true). intros f Hin. by apply elem_of_nil in Hin. }
  rewrite <- Hf in *. unfold areJointlySatisfiable.
  replace (match formulas with [] => Some true | _ :: _ =>
             jointLoop formulas (generateAllAssignments (jointVars formulas)) end)
    with (jointLoop formulas (generateAllAssignments (jointVars formulas)))
    by (by rewrite Hf).
  clear Hf f0 rest. set (vars := jointVars formulas) in *.
  assert (∀ r, r ∈ generateAllAssignments vars →
            everyPremise formulas r = Some (forallb (classical (valuationOf r)) formulas))
    as Hrow.
  { intros r Hr. apply everyPremise_classical. intros p v Hp Hv.
    eapply generateAllAssignments_assigns; [exact Hr|].
    apply jointVars_elem_of. eauto. }
  destruct (jointLoop_spec formulas (generateAllAssignments vars)) as (s & Hs & Hs').
  { intros r Hr. rewrite Hrow by done. eauto. }
  exists s. split; [done|]. rewrite Hs'. split.
  - intros (r & Hr & He). exists (valuationOf r).
    rewrite Hrow in He by done. apply forallb_classical. congruence.
  - intros (val & Hval).
    destruct (generateAllAssignments_covers vars val Hn) as (r & Hr & Hv).
    exists r. split; [done|]. rewrite Hrow by done. f_equal.
    apply forallb_classical. intros p Hp. rewrite <- (Hval p Hp).
    apply classical_ext. intros v Hvp. unfold valuationOf.
    rewrite Hv; [done|]. apply jointVars_elem_of. eauto.
Qed.

Lemma areJointlySatisfiable_decides_witness :
  ∃ s, areJointlySatisfiable [Var (str "P"); Not (Var (str "P"))] = Some s
       ∧ (s = true
          ↔ ∃ val, ∀ f, f ∈ [Var (str "P"); Not (Var (str "P"))] → classical val f = true).
Proof.
  apply areJointlySatisfiable_decides. vm_compute. lia.
Defined.

Lemma entailsLoop_no_premises conclusion rows :
  entailsLoop [] conclusion rows = isTautologyLoop conclusion rows.
Proof.
  induction rows as [|a rows IH]; cbn [entailsLoop isTautologyLoop refutes everyPremise];
    [done|].
  destruct (evaluate conclusion a) as [[]|]; cbn; by rewrite ?IH.
Qed.

(** X9: Entailment from no premises is the tautology check of the truth
    table: [entails([], c)] is [isTautology(c, extractVariables(c))], for
    every formula. *)
Theorem entails_no_premises_is_tautology :
  ∀ conclusion,
    entails [] conclusion = isTautology conclusion (extractVariables conclusion).
Proof.
  intros conclusion. unfold entails, isTautology.
  assert (allVars [] conclusion = extractVariables conclusion) as ->.
  { unfold allVars. cbn [fmap list_fmap concat app].
    rewrite setFrom_NoDup_id by apply extractVariables_NoDup.
    apply jsSort_sorted, extractVariables_ascending. }
  apply entailsLoop_no_premises.
Qed.

Lemma fillSubmitted_notin order j inputs a v :
  v ∉ order → fillSubmitted order j inputs a !! v = a !! v.
Proof.
  revert j a. induction order as [|w order IH]; intros j a Hv; cbn [fillSubmitted]; [done|].
  apply not_elem_of_cons in Hv as [Hne Hv]. rewrite IH by done.
  destruct (inputs !! j); [by rewrite lookup_insert_ne|by rewrite lookup_delete_ne].
Qed.

(** Distinct names: the [k]-th name gets the [k]-th input, and none when
    the row is too short. *)
Lemma fillSubmitted_lookup order j inputs a k v :
  NoDup order → order !! k = Some v →
  fillSubmitted order j inputs a !! v = inputs !! (j + k)%nat.
Proof.
  revert j a k. induction order as [|w order IH]; intros j a k Hnd Hk; [done|].
  apply NoDup_cons in Hnd as [Hw Hnd]. cbn [fillSubmitted].
  destruct k as [|k]; simplify_eq/=.
  - rewrite fillSubmitted_notin by done. rewrite Nat.add_0_r.
    destruct (inputs !! j); [by rewrite lookup_insert_eq|by rewrite lookup_delete_eq].
  - rewrite (IH (S j) _ k) by done.
    by replace (S j + k)%nat with (j + S k)%nat by lia.
Qed.

Lemma list_find_NoDup (order : list (list N)) k v :
  NoDup order → order !! k = Some v → list_find (λ w, w = v) order = Some (k, v).
Proof.
  intros Hnd Hk. apply list_find_Some. split_and!; [done|done|].
  intros j w Hj Hlt ->. pose proof (NoDup_lookup _ _ _ _ Hnd Hj Hk). lia.
Qed.

(** A row long enough for the names of the formula is evaluated as the
    valuation it stands for. *)
Lemma evaluate_submitted f order inputs :
  NoDup order → (∀ v, v ∈ varsOf f → v ∈ order) → (length order ≤ length inputs)%nat →
  evaluate f (fillSubmitted order 0 inputs ∅)
  = Some (classical (submittedValuation order inputs) f).
Proof.
  intros Hnd Hsub Hlen. apply evaluate_covered. intros v Hv.
  destruct (proj1 (list_elem_of_lookup _ _) (Hsub v Hv)) as [k Hk].
  rewrite (fillSubmitted_lookup order 0 inputs ∅ k v) by done. cbn [Nat.add].
  unfold submittedValuation. rewrite (list_find_NoDup order k v) by done. cbn.
  pose proof (lookup_lt_Some _ _ _ Hk).
  destruct (lookup_lt_is_Some_2 inputs k) as [b ->]; [lia|done].
Qed.

Lemma submissionLoop_spec f order i rows :
  (∀ r, r ∈ rows → ∃ e, evaluate f (fillSubmitted order 0 (submittedInputs r) ∅) = Some e) →
  ∃ errs,
    submissionLoop f order i rows = Some errs
    ∧ (∀ k e, {| row := k; expected := e |} ∈ errs
              ↔ ∃ r, (i ≤ k)%nat ∧ rows !! (k - i)%nat = Some r
                     ∧ evaluate f (fillSubmitted order 0 (submittedInputs r) ∅) = Some e
                     ∧ e ≠ output r)
    ∧ StronglySorted lt (row <$> errs).
Proof.
  revert i. induction rows as [|r rows IH]; intros i Hall; cbn [submissionLoop].
  - exists []. split_and!; [done| |constructor].
    intros k e. split; [by intros ?%elem_of_nil|by intros (? & _ & ? & _)].
  - destruct (Hall r) as [e0 He0]; [left|]. rewrite He0. cbn.
    destruct (IH (S i)) as (errs & -> & Hin & Hsorted); [intros; apply Hall; by right|].
    cbn.
    assert (∀ k e, (∃ r', (i ≤ k)%nat ∧ (r :: rows) !! (k - i)%nat = Some r'
                         ∧ evaluate f (fillSubmitted order 0 (submittedInputs r') ∅) = Some e
                         ∧ e ≠ output r')
                   ↔ (k = i ∧ e = e0 ∧ e0 ≠ output r)
                     ∨ {| row := k; expected := e |} ∈ errs) as Hsplit.
    { intros k e. rewrite Hin. split.
      - intros (r' & Hle & Hr' & He & Hne).
        destruct (decide (k = i)) as [->|Hki].
        + rewrite Nat.sub_diag in Hr'. cbn in Hr'. simplify_eq. left. split_and!; congruence.
        + right. exists r'. split_and!; [lia| |done|done].
          replace (k - i)%nat with (S (k - S i)) in Hr' by lia. done.
      - intros [(-> & -> & Hne)|(r' & Hle & Hr' & He & Hne)].
        + exists r. rewrite Nat.sub_diag. done.
        + exists r'. split_and!; [lia| |done|done].
          by replace (k - i)%nat with (S (k - S i)) by lia. }
    assert (Forall (lt i) (row <$> errs)) as Hgt.
    { apply Forall_fmap, Forall_forall. intros [k e] Hke. cbn.
      apply Hin in Hke as (? & ? & _). lia. }
    destruct (eqb (output r) e0) eqn:Heq.
    + apply eqb_prop in Heq. exists errs. split_and!; [done| |done].
      intros k e. rewrite Hsplit. split; [auto|]. intros [(_ & _ & Hne)|?]; [congruence|done].
    + eexists. split_and!; [done| |].
      * intros k e. rewrite Hsplit, elem_of_cons. split.
        -- intros [[= -> ->]|?]; [left|by right]. split_and!; [done|done|].
           intros ->. by rewrite eqb_reflx in Heq.
        -- intros [(-> & -> & _)|?]; [by left|by right].
      * cbn [fmap list_fmap row]. by constructor.
Qed.

(** X10: [validateTruthTableSubmission] on rows that give a value to each of
    the distinct names of [variableOrder], for a formula over these names:
    it never raises; the reported rows are exactly the rows whose output
    differs from the value of the formula under the row's inputs, each
    with that value as [expected], listed by ascending row number; and
    [correct] holds exactly when no row is reported. *)
Theorem validateTruthTableSubmission_reports :
  ∀ f submittedRows variableOrder,
    NoDup variableOrder →
    (∀ v, v ∈ varsOf f → v ∈ variableOrder) →
    (∀ r, r ∈ submittedRows → (length variableOrder ≤ length (submittedInputs r))%nat) →
    ∃ res,
      validateTruthTableSubmission f submittedRows variableOrder = Some res
      ∧ (correct res = true ↔ errors res = [])
      ∧ (∀ k e, {| row := k; expected := e |} ∈ errors res
                ↔ ∃ r, submittedRows !! k = Some r
                       ∧ e = classical (submittedValuation variableOrder (submittedInputs r)) f
                       ∧ e ≠ output r)
      ∧ StronglySorted lt (row <$> errors res).
Proof.
  intros f rows order Hnd Hsub Hlen.
  destruct (submissionLoop_spec f order 0 rows) as (errs & Hloop & Hin & Hsorted).
  { intros r Hr. rewrite evaluate_submitted by auto. eauto. }
  unfold validateTruthTableSubmission. rewrite Hloop. cbn.
  eexists. split; [done|]. cbn [correct errors]. split_and!.
  - rewrite Nat.eqb_eq. by destruct errs.
  - intros k e. rewrite Hin. split.
    + intros (r & _ & Hr & He & Hne). rewrite Nat.sub_0_r in Hr. exists r.
      rewrite evaluate_submitted in He
        by (try done; apply Hlen; by eapply list_elem_of_lookup_2).
      split_and!; congruence.
    + intros (r & Hr & -> & Hne). exists r. rewrite Nat.sub_0_r.
      split_and!; [lia|done| |done].
      apply evaluate_submitted; try done. apply Hlen. by eapply list_elem_of_lookup_2.
  - done.
Qed.

Lemma validateTruthTableSubmission_reports_witness :
  ∃ res,
    validateTruthTableSubmission (And (Var (str "P")) (Var (str "Q")))
      [ {| submittedInputs := [true; true]; output := true |};
        {| submittedInputs := [true; false]; output := true |} ]
      [str "P"; str "Q"] = Some res
    ∧ {| row := 1%nat; expected := false |} ∈ errors res.
Proof.
  destruct (validateTruthTableSubmission_reports (And (Var (str "P")) (Var (str "Q")))
      [ {| submittedInputs := [true; true]; output := true |};
        {| submittedInputs := [true; false]; output := true |} ]
      [str "P"; str "Q"]) as (res & Hres & _ & Hin & _).
  - apply (bool_decide_unpack _). vm_compute. exact I.
  - intros v Hv. exact Hv.
  - intros r Hr. rewrite !elem_of_cons, elem_of_nil in Hr.
    destruct Hr as [->|[->|[]]]; cbn; lia.
  - exists res. split; [exact Hres|]. apply Hin.
    eexists. split; [reflexivity|]. split; [vm_compute; reflexivity|discriminate].
Defined.

Lemma generateTruthTable_rows f :
  ∃ t, generateTruthTable f = Some t
       ∧ variables t = extractVariables f
       ∧ inputs <$> rows t = generateAllAssignments (extractVariables f)
       ∧ Forall (λ r, evaluate f (inputs r) = Some (result r)) (rows t).
Proof.
  assert (∀ a, a ∈ generateAllAssignments (extractVariables f) → is_Some (evaluate f a))
    as Htotal.
  { intros a Ha. erewrite evaluate_row; [eauto|exact Ha|].
    intros v. apply extractVariables_elem_of. }
  destruct (tableRows_total f _ Htotal) as (rs & Hrs & Hin & Hres).
  destruct (flag_loops_total f _ Htotal) as ([taut Ht] & [contra Hc] & [sat Hs]).
  eexists. split.
  { unfold generateTruthTable. rewrite Hrs.
    unfold isTautology, isContradiction, isSatisfiable. rewrite Ht, Hc, Hs.
    reflexivity. }
  done.
Qed.

Lemma submissionLoop_correct f order i rows :
  (∀ r, r ∈ rows →
        evaluate f (fillSubmitted order 0 (submittedInputs r) ∅) = Some (output r)) →
  submissionLoop f order i rows = Some [].
Proof.
  revert i. induction rows as [|r rows IH]; intros i Hall; cbn [submissionLoop]; [done|].
  rewrite (Hall r) by left. cbn. rewrite IH by (intros; apply Hall; by right).
  cbn. by rewrite eqb_reflx.
Qed.

(** X11: The table the engine generates passes the engine's own check: for
    every formula, submitting the rows of [generateTruthTable] in the
    order of the table's variables is found correct, with no error. *)
Theorem generated_table_is_accepted :
  ∀ f,
    ∃ t, generateTruthTable f = Some t
         ∧ validateTruthTableSubmission f (submissionOf t) (variables t)
           = Some {| correct := true; errors := [] |}.
Proof.
  intros f. destruct (generateTruthTable_rows f) as (t & Ht & Hvars & Hin & Hres).
  exists t. split; [done|].
  unfold validateTruthTableSubmission. rewrite submissionLoop_correct; [done|].
  intros s (r & -> & Hr)%list_elem_of_fmap. cbn [submittedInputs output].
  rewrite Forall_forall in Hres. rewrite <- (Hres r Hr). rewrite Hvars.
  assert (inputs r ∈ generateAllAssignments (extractVariables f)) as Ha.
  { rewrite <- Hin. apply list_elem_of_fmap. eauto. }
  rewrite (evaluate_row (extractVariables f) f (inputs r) Ha)
    by (intros v; apply extractVariables_elem_of).
  apply evaluate_covered. intros v Hv.
  apply extractVariables_elem_of in Hv.
  destruct (proj1 (list_elem_of_lookup _ _) Hv) as [k Hk].
  rewrite (fillSubmitted_lookup _ 0 _ ∅ k v) by (done || apply extractVariables_NoDup).
  cbn [Nat.add]. by rewrite list_lookup_fmap, Hk.
Qed.

End TruthTableSemantics.

(** * Properties of the proof checker *)

Section CheckerFacts.
Import Validator Checker.

Lemma validateRuleApplication_length step context :
  (length (validateRuleApplication step context) ≤ 1)%nat.
Proof.
  unfold validateRuleApplication.
  repeat case_match; simpl; lia.
Qed.

Lemma validateRuleApplication_stepId step context :
  Forall (λ e, ValidationError.stepId e = ProofStep.id step)
         (validateRuleApplication step context).
Proof.
  unfold validateRuleApplication.
  repeat case_match; repeat constructor.
Qed.

Lemma checkJustifications_length step context justs :
  (length (checkJustifications step context justs) ≤ length justs)%nat.
Proof.
  induction justs as [|j justs IH]; cbn [checkJustifications length]; [lia|].
  repeat case_match; cbn [length]; lia.
Qed.

Lemma checkJustifications_codes step context justs :
  Forall (λ e, ValidationError.stepId e = ProofStep.id step
               ∧ (ValidationError.code e = JUSTIFICATION_NOT_FOUND
                  ∨ ValidationError.code e = INACCESSIBLE_JUSTIFICATION))
         (checkJustifications step context justs).
Proof.
  induction justs as [|j justs IH]; cbn [checkJustifications]; [constructor|].
  repeat case_match; try constructor; simpl; auto.
Qed.

(** No error from the reference loop exactly when every justification
    resolves to an accessible line. *)
Lemma checkJustifications_nil step context justs :
  checkJustifications step context justs = [] ↔
  Forall (λ j, ∃ l, getLineInfo context (Some j) = Some l
                    ∧ ProofLineInfo.accessible l = true) justs.
Proof.
  induction justs as [|j justs IH].
  - split; [constructor|done].
  - cbn [checkJustifications].
    destruct (getLineInfo context (Some j)) as [l|] eqn:Hl.
    + destruct (ProofLineInfo.accessible l) eqn:Ha; cbn [negb].
      * rewrite IH. split.
        -- intros H. constructor; [eauto|done].
        -- by inversion 1.
      * split; [done|]. inversion 1 as [|?? [l' [? ?]]]; simplify_eq. congruence.
    + split; [done|]. inversion 1 as [|?? [l' [? ?]]]; simplify_eq.
Qed.

Lemma arity_le_3 rule : ((getRequiredJustificationCount rule).2 ≤ 3)%nat.
Proof. destruct rule; simpl; lia. Qed.

Lemma checkJustifications_In step context justs j l :
  j ∈ justs →
  getLineInfo context (Some j) = Some l →
  ProofLineInfo.accessible l = false →
  err step INACCESSIBLE_JUSTIFICATION ∈ checkJustifications step context justs.
Proof.
  intros Hin Hl Ha.
  induction justs as [|j' justs IH]; [by apply elem_of_nil in Hin|].
  cbn [checkJustifications]. apply elem_of_cons in Hin as [->|Hin].
  - rewrite Hl, Ha. cbn [negb]. left.
  - specialize (IH Hin). repeat case_match; try right; done.
Qed.

End CheckerFacts.

Section BuildInvariant.
Import Validator Checker.

Lemma startsAboveZero_alter (g : ProofLineInfo.t → ProofLineInfo.t) i lines :
  (∀ l, startsAboveZero l → startsAboveZero (g l)) →
  Forall startsAboveZero lines → Forall startsAboveZero (alter g i lines).
Proof.
  intros Hg H. apply Forall_lookup. intros j x Hx.
  destruct (decide (i = j)) as [->|Hne].
  - rewrite list_lookup_alter_eq in Hx.
    destruct (lines !! j) as [y|] eqn:Hy; simplify_eq/=.
    apply Hg. by eapply Forall_lookup_1.
  - rewrite list_lookup_alter_ne in Hx by done. by eapply Forall_lookup_1.
Qed.

Lemma closeSubproof_starts closed e b lines :
  Forall startsAboveZero lines → Forall startsAboveZero (closeSubproof closed e b lines).
Proof.
  intros H. unfold closeSubproof. apply Forall_lookup. intros j x Hx.
  rewrite list_lookup_imap in Hx.
  apply fmap_Some in Hx as (y & Hy & ->).
  assert (startsAboveZero y) as Hgood.
  { eapply Forall_lookup_1; [|exact Hy].
    apply startsAboveZero_alter; [|done]. by intros []. }
  case_bool_decide; [|done]. by destruct y.
Qed.

Lemma closeWhile_starts cond e b stack lines :
  Forall startsAboveZero lines →
  Forall startsAboveZero (closeWhile cond e b stack lines).2.
Proof.
  revert lines. induction stack as [|top rest IH]; intros lines H; simpl; [done|].
  destruct (cond top); [|done]. apply IH. by apply closeSubproof_starts.
Qed.

Lemma buildLoop_starts steps i prevDepth stack lines :
  Forall startsAboveZero lines →
  Forall startsAboveZero (buildLoop i prevDepth steps stack lines).2.
Proof.
  revert i prevDepth stack lines.
  induction steps as [|step rest IH]; intros i prevDepth stack lines H; [done|].
  cbn [buildLoop].
  pose proof (closeWhile_starts
    (λ top, (ProofStep.depth step <? top.2)%nat
            || (opensSubproof (ProofStep.rule step) && (0 <? ProofStep.depth step)%nat
                && (ProofStep.depth step =? prevDepth)%nat
                && (ProofStep.depth step =? top.2)%nat))
    (i - 1) i stack lines H) as Hc.
  destruct (closeWhile _ _ _ stack lines) as [stack' lines'].
  apply IH. apply Forall_app. split; [done|].
  constructor; [|done]. intros Hs.
  cbn [ProofLineInfo.isSubproofStart ProofLineInfo.step] in Hs |- *.
  apply andb_true_iff in Hs as [_ Hs]. apply orb_true_iff in Hs as [Hs|Hs].
  - apply Nat.ltb_lt in Hs. lia.
  - apply andb_true_iff in Hs as [Hs _]. apply andb_true_iff in Hs as [_ Hs].
    by apply Nat.ltb_lt in Hs.
Qed.

Lemma markSubproofEnds_starts lines :
  Forall startsAboveZero lines → Forall startsAboveZero (markSubproofEnds lines).
Proof.
  unfold markSubproofEnds. generalize (seq 0 (length lines)).
  intros ks. revert lines. induction ks as [|k ks IH]; intros lines H; [done|].
  cbn [foldl]. apply IH. repeat case_match; try done.
  apply startsAboveZero_alter; [|done]. by intros [].
Qed.

(** Every subproof start that [buildProofLineInfo] records lies at a depth
    above 0. *)
Lemma buildProofLineInfo_starts steps :
  Forall startsAboveZero (buildProofLineInfo steps).
Proof.
  unfold buildProofLineInfo.
  pose proof (buildLoop_starts steps 0 0 [] [] (Forall_nil_2 _)) as H.
  destruct (buildLoop 0 0 steps [] []) as [stack lines].
  pose proof (closeWhile_starts (λ _, true) (length lines - 1) (length lines)
                stack lines H) as H'.
  destruct (closeWhile _ _ _ stack lines) as [? lines'].
  by apply markSubproofEnds_starts.
Qed.

Lemma ancestorsLoop_depth_le_1 lines k d :
  Forall startsAboveZero lines → (d ≤ 1)%nat → ancestorsLoop lines k d = [].
Proof.
  intros H Hd. induction k as [|i IH]; [done|]. cbn [ancestorsLoop].
  destruct (lines !! i) as [line|] eqn:Hl; [|done].
  destruct (ProofLineInfo.isSubproofStart line) eqn:Hs; [|done].
  pose proof (Forall_lookup_1 _ _ _ _ H Hl Hs) as Hpos.
  destruct (Nat.ltb_spec (ProofStep.depth (ProofLineInfo.step line)) d); [lia|done].
Qed.

Lemma ancestorsLoop_depth_0 lines k : ancestorsLoop lines k 0 = [].
Proof.
  induction k as [|i IH]; [done|]. cbn [ancestorsLoop].
  destruct (lines !! i) as [line|]; [|done].
  rewrite andb_false_r. done.
Qed.

(** Every index the ancestor walk returns is a subproof start before [k],
    at a depth below the depth the walk started with. *)
Lemma ancestorsLoop_spec lines k d a :
  a ∈ ancestorsLoop lines k d →
  (a < k)%nat
  ∧ ∃ la, lines !! a = Some la
          ∧ ProofLineInfo.isSubproofStart la = true
          ∧ (ProofStep.depth (ProofLineInfo.step la) < d)%nat.
Proof.
  revert d. induction k as [|i IH]; intros d; cbn [ancestorsLoop].
  { by intros ?%elem_of_nil. }
  destruct (lines !! i) as [line|] eqn:Hl.
  - destruct (ProofLineInfo.isSubproofStart line) eqn:Hs; cbn [andb].
    + destruct (Nat.ltb_spec (ProofStep.depth (ProofLineInfo.step line)) d).
      * intros [->|Ha]%elem_of_cons.
        -- split; [lia|]. by exists line.
        -- destruct (IH _ Ha) as (? & la & ? & ? & ?).
           split; [lia|]. exists la. split_and!; [done|done|lia].
      * intros Ha. destruct (IH _ Ha) as (? & la & ? & ? & ?).
        split; [lia|]. by exists la.
    + intros Ha. destruct (IH _ Ha) as (? & la & ? & ? & ?).
      split; [lia|]. by exists la.
  - intros Ha. destruct (IH _ Ha) as (? & la & ? & ? & ?).
    split; [lia|]. by exists la.
Qed.

Lemma list_find_imap_transfer {A} (P : A → Prop) `{!∀ x, Decision (P x)}
    (g : nat → A → A) (l : list A) i x :
  (∀ j y, P (g j y) ↔ P y) →
  list_find P l = Some (i, x) →
  list_find P (imap g l) = Some (i, g i x).
Proof.
  intros Hg (Hi & HP & Hlt)%list_find_Some. apply list_find_Some.
  split_and!.
  - by rewrite list_lookup_imap, Hi.
  - by apply Hg.
  - intros j y Hj ?. rewrite list_lookup_imap in Hj.
    apply fmap_Some in Hj as (z & Hz & ->). rewrite Hg. by eapply Hlt.
Qed.

End BuildInvariant.

(** * The line table of [buildProofLineInfo] *)

Section BuildShape.
Import Validator Checker.

Lemma closeSubproof_lookup c e b L k :
  closeSubproof c e b L !! k
  = (λ l, let l' := if decide (k = c.1) then ProofLineInfo.setSubproofEnd e l else l in
          if bool_decide (c.1 ≤ k < b)%nat
          then ProofLineInfo.setAccessible false l' else l')
    <$> L !! k.
Proof.
  unfold closeSubproof. rewrite list_lookup_imap.
  destruct (decide (k = c.1)) as [->|Hne].
  - rewrite list_lookup_alter_eq. by destruct (L !! c.1).
  - rewrite list_lookup_alter_ne by done. by destruct (L !! k).
Qed.

Lemma closeSubproof_fields c e b L k :
  lineStatic <$> closeSubproof c e b L !! k = lineStatic <$> L !! k
  ∧ ProofLineInfo.subproofEnd <$> closeSubproof c e b L !! k
    = if decide (k = c.1) then (λ _, Some e) <$> L !! k
      else ProofLineInfo.subproofEnd <$> L !! k.
Proof.
  rewrite closeSubproof_lookup. destruct (L !! k) as [l|]; cbn; [|by destruct (decide _)].
  destruct (decide (k = c.1)), (bool_decide _); by destruct l.
Qed.

Lemma closeSubproof_length c e b L : length (closeSubproof c e b L) = length L.
Proof. unfold closeSubproof. by rewrite length_imap, length_alter. Qed.

Lemma closeWhile_length cond e b S L : length (closeWhile cond e b S L).2 = length L.
Proof.
  revert L. induction S as [|top rest IH]; intros L; cbn [closeWhile]; [done|].
  destruct (cond top); [|done]. by rewrite IH, closeSubproof_length.
Qed.

(** The closing loop pops a prefix of the stack, gives the popped
    subproofs their end and leaves every other field of interest alone. *)
Lemma closeWhile_fields cond e b S L :
  ∃ popped,
    S = popped ++ (closeWhile cond e b S L).1
    ∧ ∀ k, lineStatic <$> (closeWhile cond e b S L).2 !! k = lineStatic <$> L !! k
           ∧ ProofLineInfo.subproofEnd <$> (closeWhile cond e b S L).2 !! k
             = if decide (k ∈ popped.*1) then (λ _, Some e) <$> L !! k
               else ProofLineInfo.subproofEnd <$> L !! k.
Proof.
  revert L. induction S as [|top rest IH]; intros L; cbn [closeWhile].
  - exists []. split; [done|]. intros k. split; [done|].
    destruct (decide _) as [[]%elem_of_nil|]; done.
  - destruct (cond top).
    + destruct (IH (closeSubproof top e b L)) as (popped & Hs & Hk).
      exists (top :: popped). split; [cbn; by f_equal|].
      intros k. destruct (Hk k) as [H1 H2].
      destruct (closeSubproof_fields top e b L k) as [H3 H4].
      split; [by rewrite H1|]. rewrite H2. cbn [fmap list_fmap].
      destruct (decide (k ∈ popped.*1)) as [Hin|Hnin].
      * rewrite decide_True by (by right).
        destruct (closeSubproof top e b L !! k), (L !! k); simplify_eq/=; done.
      * rewrite H4. destruct (decide (k = top.1)) as [->|Hne].
        -- by rewrite decide_True by left.
        -- rewrite decide_False; [done|]. by intros [?|?]%elem_of_cons.
    + exists []. split; [done|]. intros k. split; [done|].
      destruct (decide _) as [[]%elem_of_nil|]; done.
Qed.

Lemma markSubproofEnds_fields L k :
  lineStatic <$> markSubproofEnds L !! k = lineStatic <$> L !! k
  ∧ ProofLineInfo.subproofEnd <$> markSubproofEnds L !! k
    = ProofLineInfo.subproofEnd <$> L !! k.
Proof.
  unfold markSubproofEnds. generalize (seq 0 (length L)). intros ks. revert L.
  induction ks as [|j ks IH]; intros L; cbn [foldl]; [done|].
  match goal with |- context [foldl _ ?acc ks] => destruct (IH acc) as [-> ->] end.
  repeat case_match; try done.
  match goal with |- context [alter _ ?n L] =>
    destruct (decide (n = k)) as [->|Hne];
      [rewrite list_lookup_alter_eq|rewrite list_lookup_alter_ne by done; done]
  end.
  destruct (L !! k) as [l|]; [|done]. by destruct l.
Qed.

Lemma markSubproofEnds_length L : length (markSubproofEnds L) = length L.
Proof.
  unfold markSubproofEnds. generalize (seq 0 (length L)). intros ks. revert L.
  induction ks as [|j ks IH]; intros L; cbn [foldl]; [done|].
  rewrite IH. repeat case_match; try done. apply length_alter.
Qed.

(** Lines that agree on their static fields agree on depths. *)
Lemma lineDepth_static A B j :
  lineStatic <$> A !! j = lineStatic <$> B !! j → lineDepth A j = lineDepth B j.
Proof.
  unfold lineDepth. intros H.
  destruct (A !! j) as [a|]; destruct (B !! j) as [b|]; simplify_eq/=; [|done].
  congruence.
Qed.

Lemma depthBefore_static A B k :
  (∀ j, (j < k)%nat → lineStatic <$> A !! j = lineStatic <$> B !! j) →
  depthBefore A k = depthBefore B k.
Proof.
  intros H. destruct k as [|j]; [done|]. cbn [depthBefore].
  apply lineDepth_static, H. lia.
Qed.

Lemma static_step A B :
  length A = length B →
  (∀ k, lineStatic <$> A !! k = lineStatic <$> B !! k) →
  ProofLineInfo.step <$> A = ProofLineInfo.step <$> B.
Proof.
  intros Hlen H. apply list_eq. intros k. rewrite !list_lookup_fmap.
  specialize (H k). destruct (A !! k) as [a|]; destruct (B !! k) as [b|];
    simplify_eq/=; [|done].
  congruence.
Qed.

(** Closing the subproofs [popped] at the end [i - 1] keeps the
    invariant. *)
Lemma BuildInv_close i S L popped S' L' :
  BuildInv i S L →
  S = popped ++ S' →
  length L' = length L →
  (∀ k, lineStatic <$> L' !! k = lineStatic <$> L !! k
        ∧ ProofLineInfo.subproofEnd <$> L' !! k
          = if decide (k ∈ popped.*1) then (λ _, Some (i - 1)%nat) <$> L !! k
            else ProofLineInfo.subproofEnd <$> L !! k) →
  BuildInv i S' L'.
Proof.
  intros (Hlen & HS & Hl) -> Hlen' Hf. split_and!.
  - lia.
  - by apply Forall_app in HS as [_ ?].
  - intros k l Hk. destruct (Hf k) as [Hst Hend]. rewrite Hk in Hst, Hend.
    destruct (L !! k) as [l0|] eqn:Hl0; [|done]. cbn in Hst, Hend.
    unfold lineStatic in Hst. injection Hst as Hstep Hindex Hflag.
    destruct (Hl k l0 Hl0) as (Hidx & Hopen & Hnone & Hstack & Hclosed).
    assert (opensAt L' k l ↔ opensAt L k l0) as Hop.
    { unfold opensAt. rewrite (depthBefore_static L' L k) by (intros; apply Hf).
      by rewrite Hstep. }
    rewrite fmap_app in Hstack, Hclosed. setoid_rewrite elem_of_app in Hstack.
    setoid_rewrite elem_of_app in Hclosed.
    assert (k ∈ popped.*1 → (k < i)%nat) as Hlt.
    { intros (c & -> & Hc)%list_elem_of_fmap. rewrite Forall_forall in HS.
      apply (HS c). apply elem_of_app. by left. }
    rewrite Hflag. split_and!.
    + congruence.
    + by rewrite Hop, <- Hopen.
    + intros Hfalse. destruct (decide (k ∈ popped.*1)) as [Hin|Hnin].
      * assert (ProofLineInfo.isSubproofStart l0 = true) by auto. congruence.
      * injection Hend as Hend. rewrite Hend. by apply Hnone.
    + intros Hin. auto.
    + intros Hstart. destruct (decide (k ∈ popped.*1)) as [Hin|Hnin].
      * right. exists (i - 1)%nat. specialize (Hlt Hin). injection Hend as Hend.
        split; [done|lia].
      * injection Hend as Hend.
        destruct (Hclosed Hstart) as [[?|?]|(e & He & ?)]; [done|by left|].
        right. exists e. split; [congruence|done].
Qed.

(** Adding the line of the step at index [i] keeps the invariant. *)
Lemma BuildInv_push i stk L step flag :
  BuildInv i stk L →
  (flag = true ↔ ProofStep.rule step = assumption
                 ∧ (0 < ProofStep.depth step)%nat
                 ∧ (depthBefore L i ≤ ProofStep.depth step)%nat) →
  BuildInv (S i) (if flag then (i, ProofStep.depth step) :: stk else stk)
           (L ++ [ProofLineInfo.mk step i true flag false None]).
Proof.
  intros (Hlen & HS & Hl) Hflag. split_and!.
  - rewrite length_app. cbn. lia.
  - assert (Forall (λ c, (c.1 < S i)%nat) stk) as HS'
      by (eapply Forall_impl; [exact HS|]; cbn; intros; lia).
    destruct flag; [constructor; [cbn; lia|done]|done].
  - intros k l Hk.
    assert (∀ j, (j < i)%nat →
              lineStatic <$> (L ++ [ProofLineInfo.mk step i true flag false None]) !! j
              = lineStatic <$> L !! j) as Hsame.
    { intros j Hj. by rewrite lookup_app_l by lia. }
    destruct (decide (k < i)%nat) as [Hlt|Hge].
    + rewrite lookup_app_l in Hk by lia.
      destruct (Hl k l Hk) as (Hidx & Hopen & Hnone & Hstack & Hclosed).
      assert (k ∈ (if flag then (i, ProofStep.depth step) :: stk else stk).*1
              ↔ k ∈ stk.*1) as Hmem.
      { destruct flag; [|done]. cbn [fmap list_fmap fst]. rewrite elem_of_cons.
        split; [intros [?|?]; [lia|done]|by right]. }
      split_and!; [done| |done|by rewrite Hmem| ].
      * rewrite Hopen. unfold opensAt.
        by rewrite (depthBefore_static (L ++ [ProofLineInfo.mk step i true flag false None]) L k)
          by (intros; apply Hsame; lia).
      * intros Hstart. destruct (Hclosed Hstart) as [?|(e & ? & ?)].
        -- left. by apply Hmem.
        -- right. exists e. split; [done|lia].
    + pose proof (lookup_lt_Some _ _ _ Hk) as Hb. rewrite length_app in Hb. cbn in Hb.
      assert (k = i) as -> by lia.
      rewrite lookup_app_r, Hlen, Nat.sub_diag in Hk by lia. cbn in Hk.
      injection Hk as <-.
      cbn [ProofLineInfo.index ProofLineInfo.isSubproofStart ProofLineInfo.subproofEnd].
      split_and!; [done| |done| |].
      * rewrite Hflag. unfold opensAt. cbn [ProofLineInfo.step].
        by rewrite (depthBefore_static (L ++ [ProofLineInfo.mk step i true flag false None]) L i)
          by (intros; apply Hsame; lia).
      * intros Hin. destruct flag; [done|].
        apply list_elem_of_fmap in Hin as (c & Hci & Hc).
        rewrite Forall_forall in HS. specialize (HS c Hc). lia.
      * intros ->. left. cbn. left.
Qed.

Lemma buildLoop_inv steps i prevDepth S L :
  BuildInv i S L → prevDepth = depthBefore L i →
  BuildInv (i + length steps) (buildLoop i prevDepth steps S L).1
           (buildLoop i prevDepth steps S L).2
  ∧ ProofLineInfo.step <$> (buildLoop i prevDepth steps S L).2
    = (ProofLineInfo.step <$> L) ++ steps.
Proof.
  revert i prevDepth S L.
  induction steps as [|step rest IH]; intros i prevDepth S L Hinv Hprev.
  - cbn. rewrite Nat.add_0_r, app_nil_r. done.
  - cbn [buildLoop].
    match goal with |- context [closeWhile ?c ?e ?b S L] =>
      pose proof (closeWhile_fields c e b S L) as (popped & HS & Hf);
      pose proof (closeWhile_length c e b S L) as Hlen';
      destruct (closeWhile c e b S L) as [S' L']
    end.
    cbn [fst snd] in HS, Hf, Hlen'.
    pose proof (BuildInv_close i S L popped S' L' Hinv HS Hlen' Hf) as Hinv'.
    assert (depthBefore L' i = depthBefore L i) as Hd
      by (apply depthBefore_static; intros; apply Hf).
    match goal with |- context [buildLoop (Datatypes.S i) ?d rest ?S2 (L' ++ [?info])] =>
      destruct (IH (Datatypes.S i) d S2 (L' ++ [info])) as [Hfinal Hsteps]
    end.
    + apply BuildInv_push; [done|]. rewrite Hd, <- Hprev.
      unfold opensSubproof.
      destruct (bool_decide_reflect (ProofStep.rule step = assumption));
        destruct (Nat.ltb_spec prevDepth (ProofStep.depth step));
        destruct (Nat.ltb_spec 0 (ProofStep.depth step));
        destruct (Nat.eqb_spec (ProofStep.depth step) prevDepth);
        cbn; (split; [intros ?; try done; split_and!; try done; lia
                     |intros (? & ? & ?); try done; lia]).
    + cbn [depthBefore]. unfold lineDepth.
      destruct Hinv' as (Hl' & _). rewrite lookup_app_r, Hl', Nat.sub_diag by lia. done.
    + split.
      * by replace (i + length (step :: rest))%nat
          with (Datatypes.S i + length rest)%nat by (cbn [length]; lia).
      * rewrite Hsteps, fmap_app. cbn [fmap list_fmap ProofLineInfo.step].
        rewrite (static_step L' L) by (done || intros; apply Hf).
        by rewrite <- app_assoc.
Qed.

Lemma closeWhile_all e b S L : (closeWhile (λ _, true) e b S L).1 = [].
Proof. revert L. induction S as [|top rest IH]; intros L; cbn [closeWhile]; [done|apply IH]. Qed.

(** The table [buildProofLineInfo] returns, with every subproof closed. *)
Lemma buildProofLineInfo_inv steps :
  BuildInv (length steps) [] (buildProofLineInfo steps)
  ∧ ProofLineInfo.step <$> buildProofLineInfo steps = steps.
Proof.
  unfold buildProofLineInfo.
  destruct (buildLoop_inv steps 0 0 [] []) as [Hinv Hsteps].
  { split_and!; [done|constructor|]. intros k l Hk. done. }
  { done. }
  destruct (buildLoop 0 0 steps [] []) as [S L]. cbn [fst snd Nat.add] in Hinv, Hsteps.
  pose proof Hinv as (Hlen & _).
  pose proof (closeWhile_fields (λ _, true) (length L - 1) (length L) S L)
    as (popped & HS & Hf).
  pose proof (closeWhile_length (λ _, true) (length L - 1) (length L) S L) as Hlen'.
  pose proof (closeWhile_all (length L - 1) (length L) S L) as Hnil.
  destruct (closeWhile _ _ _ S L) as [S' L']. cbn [fst snd] in *. subst S'.
  rewrite Hlen in Hf.
  pose proof (BuildInv_close _ S L popped [] L' Hinv HS Hlen' Hf) as Hinv'.
  split.
  - apply (BuildInv_close _ [] L' [] [] (markSubproofEnds L') Hinv' eq_refl).
    + apply markSubproofEnds_length.
    + intros k. destruct (markSubproofEnds_fields L' k) as [-> ->].
      split; [done|]. destruct (decide _) as [[]%elem_of_nil|]; done.
  - rewrite (static_step (markSubproofEnds L') L').
    + rewrite (static_step L' L); [done|done|]. intros; apply Hf.
    + apply markSubproofEnds_length.
    + intros; apply markSubproofEnds_fields.
Qed.

End BuildShape.

Section NestedSubproofs.
Import Validator Checker.

Lemma sorted_app_disjoint (popped stk' : list (nat * nat)) k :
  StronglySorted (λ x y, (y.1 < x.1)%nat) (popped ++ stk') →
  k ∈ popped.*1 → k ∈ stk'.*1 → False.
Proof.
  intros Hs (x & -> & Hx)%list_elem_of_fmap (y & Hxy & Hy)%list_elem_of_fmap.
  pose proof (StronglySorted_app_1_elem_of _ _ _ x y Hs Hx Hy) as Hlt.
  cbn in Hlt. lia.
Qed.

Lemma sorted_app_above (popped stk' : list (nat * nat)) a b :
  StronglySorted (λ x y, (y.1 < x.1)%nat) (popped ++ stk') →
  a ∈ popped.*1 → b ∈ stk'.*1 → (b < a)%nat.
Proof.
  intros Hs (x & -> & Hx)%list_elem_of_fmap (y & -> & Hy)%list_elem_of_fmap.
  exact (StronglySorted_app_1_elem_of _ _ _ x y Hs Hx Hy).
Qed.

(** Closing the subproofs [popped] at the end [i - 1] keeps the subproofs
    well nested. *)
Lemma Nested_close i stk L popped stk' L' :
  BuildInv i stk L → Nested stk L →
  stk = popped ++ stk' →
  (∀ k, lineStatic <$> L' !! k = lineStatic <$> L !! k
        ∧ ProofLineInfo.subproofEnd <$> L' !! k
          = if decide (k ∈ popped.*1) then (λ _, Some (i - 1)%nat) <$> L !! k
            else ProofLineInfo.subproofEnd <$> L !! k) →
  Nested stk' L'.
Proof.
  intros (Hlen & Hstk & Hl) (Hsorted & Hopen & Hnest) -> Hf.
  assert (∀ k l', L' !! k = Some l' →
            ∃ l, L !! k = Some l
                 ∧ ProofLineInfo.isSubproofStart l' = ProofLineInfo.isSubproofStart l
                 ∧ ProofLineInfo.subproofEnd l'
                   = if decide (k ∈ popped.*1) then Some (i - 1)%nat
                     else ProofLineInfo.subproofEnd l) as Hold.
  { intros k l' Hk. destruct (Hf k) as [Hst Hend]. rewrite Hk in Hst, Hend.
    destruct (L !! k) as [l|]; [|done]. exists l. cbn in Hst, Hend.
    unfold lineStatic in Hst. injection Hst as _ _ Hflag.
    split_and!; [done|done|]. destruct (decide _); by injection Hend. }
  split_and!.
  - by eapply StronglySorted_app_1_r.
  - intros k l' Hk Hl'. destruct (Hold k l' Hl') as (l & Hlk & _ & Hend).
    rewrite Hend. rewrite decide_False.
    + apply (Hopen k l); [|done]. rewrite fmap_app, elem_of_app. by right.
    + intros Hin. by eapply sorted_app_disjoint.
  - intros a b la' lb' ea Ha Hb Hea Hsb Hab.
    destruct (Hold a la' Ha) as (la & Hla & _ & Henda).
    destruct (Hold b lb' Hb) as (lb & Hlb & Hflagb & Hendb).
    rewrite Hendb. rewrite Hsb in Hflagb. symmetry in Hflagb.
    destruct (Hl b lb Hlb) as (_ & _ & _ & _ & Hclosedb).
    rewrite Henda in Hea.
    destruct (decide (a ∈ popped.*1)) as [Hina|Hnina].
    + injection Hea as <-.
      destruct (decide (b ∈ popped.*1)) as [|Hninb]; [by exists (i - 1)%nat|].
      destruct (Hclosedb Hflagb) as [Hinb|(eb & Heb & ?)].
      * rewrite fmap_app, elem_of_app in Hinb. destruct Hinb as [?|Hinb]; [done|].
        pose proof (sorted_app_above _ _ _ _ Hsorted Hina Hinb). lia.
      * exists eb. split; [done|lia].
    + destruct (Hnest a b la lb ea Hla Hlb Hea Hflagb Hab) as (eb & Heb & ?).
      rewrite decide_False; [by exists eb|].
      intros Hinb. rewrite (Hopen b lb) in Heb; [done| |done].
      rewrite fmap_app, elem_of_app. by left.
Qed.

(** Adding the line of the step at index [i] keeps them well nested. *)
Lemma Nested_push i stk L step (flag : bool) :
  BuildInv i stk L → Nested stk L →
  Nested (if flag then (i, ProofStep.depth step) :: stk else stk)
         (L ++ [ProofLineInfo.mk step i true flag false None]).
Proof.
  intros (Hlen & Hstk & Hl) (Hsorted & Hopen & Hnest).
  assert (∀ k l, (L ++ [ProofLineInfo.mk step i true flag false None]) !! k = Some l →
            (k < i)%nat ∧ L !! k = Some l
            ∨ k = i ∧ l = ProofLineInfo.mk step i true flag false None) as Hcases.
  { intros k l Hk. apply lookup_app_Some in Hk as [Hk|[Hge Hk]].
    - left. split; [|done]. apply lookup_lt_Some in Hk. lia.
    - right. apply list_lookup_singleton_Some in Hk as [? <-]. split; [lia|done]. }
  split_and!.
  - destruct flag; [|done]. constructor; [done|].
    eapply Forall_impl; [exact Hstk|]. cbn. intros; lia.
  - intros k l Hin Hk. destruct (Hcases k l Hk) as [[Hlt Hk']|[-> ->]]; [|done].
    apply (Hopen k l); [|done].
    destruct flag; [|done]. cbn in Hin. apply elem_of_cons in Hin as [?|?]; [lia|done].
  - intros a b la lb ea Ha Hb Hea Hsb Hab.
    destruct (Hcases a la Ha) as [[Hlta Ha']|[-> ->]]; [|done].
    destruct (Hl a la Ha') as (_ & _ & Hnone & Hin & Hclosed).
    assert (ProofLineInfo.isSubproofStart la = true) as Hsa.
    { destruct (ProofLineInfo.isSubproofStart la); [done|]. rewrite Hnone in Hea; done. }
    destruct (Hclosed Hsa) as [Hina|(e & He & ?)].
    { rewrite (Hopen a la Hina Ha') in Hea. done. }
    assert (e = ea) as -> by congruence.
    destruct (Hcases b lb Hb) as [[Hltb Hb']|[-> ->]]; [|lia].
    exact (Hnest a b la lb ea Ha' Hb' Hea Hsb Hab).
Qed.

Lemma buildLoop_nested steps i prevDepth stk L :
  BuildInv i stk L → prevDepth = depthBefore L i → Nested stk L →
  Nested (buildLoop i prevDepth steps stk L).1 (buildLoop i prevDepth steps stk L).2.
Proof.
  revert i prevDepth stk L.
  induction steps as [|step rest IH]; intros i prevDepth stk L Hinv Hprev Hnest; [done|].
  cbn [buildLoop].
  match goal with |- context [closeWhile ?c ?e ?b stk L] =>
    pose proof (closeWhile_fields c e b stk L) as (popped & HS & Hf);
    pose proof (closeWhile_length c e b stk L) as Hlen';
    destruct (closeWhile c e b stk L) as [stk' L']
  end.
  cbn [fst snd] in HS, Hf, Hlen'.
  pose proof (BuildInv_close i stk L popped stk' L' Hinv HS Hlen' Hf) as Hinv'.
  pose proof (Nested_close i stk L popped stk' L' Hinv Hnest HS Hf) as Hnest'.
  assert (depthBefore L' i = depthBefore L i) as Hd
    by (apply depthBefore_static; intros; apply Hf).
  match goal with |- context [buildLoop (S i) ?d rest ?S2 (L' ++ [?info])] =>
    apply (IH (S i) d S2 (L' ++ [info]))
  end.
  - apply BuildInv_push; [done|]. rewrite Hd, <- Hprev.
    unfold opensSubproof.
    destruct (bool_decide_reflect (ProofStep.rule step = assumption));
      destruct (Nat.ltb_spec prevDepth (ProofStep.depth step));
      destruct (Nat.ltb_spec 0 (ProofStep.depth step));
      destruct (Nat.eqb_spec (ProofStep.depth step) prevDepth);
      cbn; (split; [intros ?; try done; split_and!; try done; lia
                   |intros (? & ? & ?); try done; lia]).
  - cbn [depthBefore]. unfold lineDepth.
    destruct Hinv' as (Hl' & _). rewrite lookup_app_r, Hl', Nat.sub_diag by lia. done.
  - by apply Nested_push.
Qed.

Lemma buildProofLineInfo_nested steps : Nested [] (buildProofLineInfo steps).
Proof.
  unfold buildProofLineInfo.
  assert (BuildInv 0 [] []) as H0.
  { split_and!; [done|constructor|]. intros k l Hk. done. }
  assert (Nested [] []) as N0.
  { split_and!; [constructor|by intros k l ?%elem_of_nil|]. by intros a b la lb ea ?. }
  destruct (buildLoop_inv steps 0 0 [] [] H0 eq_refl) as [Hinv _].
  pose proof (buildLoop_nested steps 0 0 [] [] H0 eq_refl N0) as Hnest.
  destruct (buildLoop 0 0 steps [] []) as [stk L]. cbn [fst snd Nat.add] in Hinv, Hnest.
  pose proof Hinv as (Hlen & _).
  pose proof (closeWhile_fields (λ _, true) (length L - 1) (length L) stk L)
    as (popped & HS & Hf).
  pose proof (closeWhile_length (λ _, true) (length L - 1) (length L) stk L) as Hlen'.
  pose proof (closeWhile_all (length L - 1) (length L) stk L) as Hnil.
  destruct (closeWhile _ _ _ stk L) as [stk' L']. cbn [fst snd] in *. subst stk'.
  rewrite Hlen in Hf.
  pose proof (BuildInv_close _ stk L popped [] L' Hinv HS Hlen' Hf) as Hinv'.
  pose proof (Nested_close _ stk L popped [] L' Hinv Hnest HS Hf) as Hnest'.
  apply (Nested_close _ [] L' [] [] (markSubproofEnds L') Hinv' Hnest' eq_refl).
  intros k. destruct (markSubproofEnds_fields L' k) as [-> ->].
  split; [done|]. destruct (decide _) as [[]%elem_of_nil|]; done.
Qed.

End NestedSubproofs.

(** * The extent of the subproofs that [buildProofLineInfo] records *)

Section SubproofExtent.
Import Validator Checker.

(** The closing loop pops exactly the subproofs on top of the stack that
    pass its test. *)
Lemma closeWhile_popped cond e b stk L :
  ∃ popped,
    stk = popped ++ (closeWhile cond e b stk L).1
    ∧ Forall (λ c, cond c = true) popped
    ∧ (∀ c rest, (closeWhile cond e b stk L).1 = c :: rest → cond c = false)
    ∧ ∀ k, lineStatic <$> (closeWhile cond e b stk L).2 !! k = lineStatic <$> L !! k
           ∧ ProofLineInfo.subproofEnd <$> (closeWhile cond e b stk L).2 !! k
             = if decide (k ∈ popped.*1) then (λ _, Some e) <$> L !! k
               else ProofLineInfo.subproofEnd <$> L !! k.
Proof.
  revert L. induction stk as [|top rest IH]; intros L; cbn [closeWhile].
  - exists []. split_and!; [done|constructor|done|]. intros k. split; [done|].
    destruct (decide _) as [[]%elem_of_nil|]; done.
  - destruct (cond top) eqn:Htop.
    + destruct (IH (closeSubproof top e b L)) as (popped & Hs & Hall & Hhead & Hk).
      exists (top :: popped). split_and!; [cbn; by f_equal|by constructor|done|].
      intros k. destruct (Hk k) as [H1 H2].
      destruct (closeSubproof_fields top e b L k) as [H3 H4].
      split; [by rewrite H1|]. rewrite H2. cbn [fmap list_fmap].
      destruct (decide (k ∈ popped.*1)) as [Hin|Hnin].
      * rewrite decide_True by (by right).
        destruct (closeSubproof top e b L !! k), (L !! k); simplify_eq/=; done.
      * rewrite H4. destruct (decide (k = top.1)) as [->|Hne].
        -- by rewrite decide_True by left.
        -- rewrite decide_False; [done|]. by intros [?|?]%elem_of_cons.
    + exists []. split_and!; [done|constructor|by intros c r [= <- _]|].
      intros k. split; [done|].
      destruct (decide _) as [[]%elem_of_nil|]; done.
Qed.

Lemma stepDepth_lookup all j step :
  all !! j = Some step → stepDepth all j = ProofStep.depth step.
Proof. unfold stepDepth. by intros ->. Qed.

(** What [closesDepth] says, as a proposition. *)
Lemma closesDepth_false all j step depth :
  all !! j = Some step →
  closesDepth all j depth = false ↔
  (depth ≤ ProofStep.depth step)%nat
  ∧ ¬ (ProofStep.rule step = assumption ∧ (0 < ProofStep.depth step)%nat
       ∧ ProofStep.depth step = depthBeforeStep all j
       ∧ ProofStep.depth step = depth).
Proof.
  intros Hj. unfold closesDepth, opensSubproof. rewrite Hj. cbn zeta.
  rewrite orb_false_iff, Nat.ltb_ge, !andb_false_iff, bool_decide_eq_false,
    Nat.ltb_ge, !Nat.eqb_neq.
  split.
  - intros [? [[[?|?]|?]|?]]; (split; [done|]); intros (? & ? & ? & ?); try done; lia.
  - intros [? Hn]. split; [done|].
    destruct (decide (ProofStep.depth step = depth)); [|by right]. left.
    destruct (decide (ProofStep.depth step = depthBeforeStep all j)); [|by right]. left.
    destruct (decide (ProofStep.rule step = assumption)); [|by left]. right.
    destruct (decide (0 < ProofStep.depth step)%nat); [|lia]. by destruct Hn.
Qed.

Lemma startsSubproof_true all k :
  startsSubproof all k = true ↔
  ∃ step, all !! k = Some step
          ∧ ProofStep.rule step = assumption
          ∧ (0 < ProofStep.depth step)%nat
          ∧ (depthBeforeStep all k ≤ ProofStep.depth step)%nat.
Proof.
  unfold startsSubproof, opensSubproof. destruct (all !! k) as [step|].
  - rewrite !andb_true_iff, bool_decide_eq_true, Nat.ltb_lt, Nat.leb_le.
    split; [intros [[? ?] ?]; by exists step|intros (? & [= <-] & ? & ? & ?); done].
  - split; [done|by intros (? & ? & _)].
Qed.


(** Closing the subproofs [popped] at the end [i - 1] keeps the
    invariant, provided the step at [i], if there is one, closes them. *)
Lemma ExtentInv_close all i stk L popped stk' L' :
  ExtentInv all i stk L →
  stk = popped ++ stk' →
  (∀ c, c ∈ popped → (i < length all)%nat → closesDepth all i c.2 = true) →
  (∀ k, lineStatic <$> L' !! k = lineStatic <$> L !! k
        ∧ ProofLineInfo.subproofEnd <$> L' !! k
          = if decide (k ∈ popped.*1) then (λ _, Some (i - 1)%nat) <$> L !! k
            else ProofLineInfo.subproofEnd <$> L !! k) →
  ExtentInv all i stk' L'.
Proof.
  intros (Hsorted & Hopen & Hclosed) -> Hcond Hf. split_and!.
  - by eapply StronglySorted_app_1_r.
  - intros c Hc. apply Hopen. apply elem_of_app. by right.
  - intros a la e Ha He. destruct (Hf a) as [_ Hend]. rewrite Ha in Hend.
    cbn in Hend. rewrite He in Hend.
    destruct (L !! a) as [la0|] eqn:Hla0; [|by destruct (decide _)].
    destruct (decide (a ∈ popped.*1)) as [Hin|Hnin].
    + cbn in Hend. injection Hend as ->.
      apply list_elem_of_fmap in Hin as (c & -> & Hc).
      destruct (Hopen c) as (Hlt & Hdepth & Hnone); [apply elem_of_app; by left|].
      rewrite Hdepth. split.
      * intros j Hj. apply Hnone. lia.
      * intros Hlen. replace (S (i - 1)) with i in * by lia. by apply Hcond.
    + cbn in Hend. injection Hend as Hend. by apply (Hclosed a la0 e).
Qed.

(** Adding the line of the step at index [i] keeps the invariant. *)
Lemma ExtentInv_push all i stk L step :
  ExtentInv all i stk L →
  length L = i →
  all !! i = Some step →
  (∀ c, c ∈ stk → closesDepth all i c.2 = false) →
  let flag := startsSubproof all i in
  ExtentInv all (S i) (if flag then (i, ProofStep.depth step) :: stk else stk)
            (L ++ [ProofLineInfo.mk step i true flag false None]).
Proof.
  intros (Hsorted & Hopen & Hclosed) Hlen Hi Hnoclose flag. split_and!.
  - destruct flag eqn:Hflag; [|done]. constructor; [done|].
    apply Forall_forall. intros y Hy. cbn [snd].
    destruct (Hopen y Hy) as (Hlt & Hdepth & Hnone).
    pose proof (Hnoclose y Hy) as Hy'.
    apply (closesDepth_false all i step) in Hy' as [Hle Hnot]; [|done].
    apply startsSubproof_true in Hflag as (step' & Hi' & Hrule & Hpos & Hbefore).
    assert (step' = step) as -> by congruence.
    destruct (decide (y.2 = ProofStep.depth step)) as [Heq|]; [|lia]. exfalso.
    destruct (decide (ProofStep.depth step = depthBeforeStep all i)) as [Hsame|Hrise].
    { apply Hnot. by rewrite Heq. }
    destruct i as [|i']; [lia|]. cbn [depthBeforeStep] in *.
    destruct (decide (y.1 = i')) as [<-|Hne]; [lia|].
    destruct (lookup_lt_is_Some_2 all i') as [s' Hs'].
    { apply lookup_lt_Some in Hi. lia. }
    pose proof (Hnone i' ltac:(lia)) as Hc.
    apply (closesDepth_false all i' s') in Hc as [Hc _]; [|done].
    rewrite (stepDepth_lookup all i' s') in * by done. lia.
  - intros c Hc.
    assert (c = (i, ProofStep.depth step) ∨ c ∈ stk) as [->|Hin].
    { destruct flag; [by apply elem_of_cons in Hc|by right]. }
    + cbn [fst snd]. split_and!; [lia|by apply stepDepth_lookup|intros; lia].
    + destruct (Hopen c Hin) as (Hlt & Hdepth & Hnone). split_and!; [lia|done|].
      intros j Hj. destruct (decide (j = i)) as [->|]; [by apply Hnoclose|].
      apply Hnone. lia.
  - intros a la e Ha He. apply lookup_app_Some in Ha as [Ha|[_ Ha]].
    + by apply (Hclosed a la e).
    + apply list_lookup_singleton_Some in Ha as [_ <-]. done.
Qed.

Lemma buildLoop_extent all steps i prevDepth stk L :
  BuildInv i stk L → ExtentInv all i stk L →
  all = (ProofLineInfo.step <$> L) ++ steps →
  prevDepth = depthBeforeStep all i →
  ExtentInv all (i + length steps) (buildLoop i prevDepth steps stk L).1
            (buildLoop i prevDepth steps stk L).2.
Proof.
  revert i prevDepth stk L.
  induction steps as [|step rest IH]; intros i prevDepth stk L Hinv Hext Hall Hprev.
  { cbn. by rewrite Nat.add_0_r. }
  cbn [buildLoop].
  pose proof Hinv as (Hlen & _).
  assert (all !! i = Some step) as Hi.
  { rewrite Hall, lookup_app_r, length_fmap, Hlen, Nat.sub_diag by (rewrite length_fmap; lia).
    done. }
  match goal with |- context [closeWhile ?c ?e ?b stk L] =>
    pose proof (closeWhile_popped c e b stk L) as (popped & HS & Hpop & Hhead & Hf);
    pose proof (closeWhile_length c e b stk L) as Hlen';
    destruct (closeWhile c e b stk L) as [stk' L']
  end.
  cbn [fst snd] in HS, Hpop, Hhead, Hf, Hlen'.
  assert (∀ c : nat * nat,
            ((ProofStep.depth step <? c.2)%nat
             || (opensSubproof (ProofStep.rule step) && (0 <? ProofStep.depth step)%nat
                 && (ProofStep.depth step =? prevDepth)%nat
                 && (ProofStep.depth step =? c.2)%nat))
            = closesDepth all i c.2) as Hcond.
  { intros c. unfold closesDepth. by rewrite Hi, Hprev. }
  pose proof (BuildInv_close i stk L popped stk' L' Hinv HS Hlen' Hf) as Hinv'.
  assert (ExtentInv all i stk' L') as Hext'.
  { apply (ExtentInv_close all i stk L popped stk' L' Hext HS); [|done].
    intros c Hc _. rewrite <- Hcond. rewrite Forall_forall in Hpop. by apply Hpop. }
  assert (∀ c, c ∈ stk' → closesDepth all i c.2 = false) as Hnoclose.
  { destruct stk' as [|c0 r]; [by intros c ?%elem_of_nil|].
    pose proof (Hhead c0 r eq_refl) as H0. rewrite Hcond in H0.
    intros c [->|Hc]%elem_of_cons; [done|].
    destruct Hext' as (Hsorted' & _). apply StronglySorted_inv in Hsorted' as [_ Hall'].
    rewrite Forall_forall in Hall'. specialize (Hall' c Hc).
    apply (closesDepth_false all i step) in H0 as [Hle Hnot]; [|done].
    apply (closesDepth_false all i step); [done|]. split; [lia|].
    intros (_ & _ & _ & ?). lia. }
  assert (depthBefore L' i = depthBefore L i) as Hd
    by (apply depthBefore_static; intros; apply Hf).
  assert (opensSubproof (ProofStep.rule step)
          && ((prevDepth <? ProofStep.depth step)%nat
              || opensSubproof (ProofStep.rule step) && (0 <? ProofStep.depth step)%nat
                 && (ProofStep.depth step =? prevDepth)%nat)
          = startsSubproof all i) as Hflag.
  { unfold startsSubproof. rewrite Hi, <- Hprev. unfold opensSubproof.
    destruct (bool_decide (ProofStep.rule step = assumption));
      destruct (Nat.ltb_spec prevDepth (ProofStep.depth step));
      destruct (Nat.ltb_spec 0 (ProofStep.depth step));
      destruct (Nat.eqb_spec (ProofStep.depth step) prevDepth);
      destruct (Nat.leb_spec prevDepth (ProofStep.depth step));
      cbn; try done; lia. }
  rewrite Hflag.
  replace (i + length (step :: rest))%nat with (S i + length rest)%nat
    by (cbn [length]; lia).
  apply IH.
  - rewrite <- Hflag. apply BuildInv_push; [done|]. rewrite Hd.
    assert (depthBefore L i = prevDepth) as ->.
    { rewrite Hprev. destruct i as [|i']; [done|]. cbn [depthBefore depthBeforeStep].
      unfold lineDepth, stepDepth. rewrite Hall.
      rewrite lookup_app_l by (rewrite length_fmap; lia).
      rewrite list_lookup_fmap. by destruct (L !! i'). }
    unfold opensSubproof.
    destruct (bool_decide_reflect (ProofStep.rule step = assumption));
      destruct (Nat.ltb_spec prevDepth (ProofStep.depth step));
      destruct (Nat.ltb_spec 0 (ProofStep.depth step));
      destruct (Nat.eqb_spec (ProofStep.depth step) prevDepth);
      cbn; (split; [intros ?; try done; split_and!; try done; lia
                   |intros (? & ? & ?); try done; lia]).
  - apply ExtentInv_push; [done|lia|done|done].
  - rewrite fmap_app. cbn [fmap list_fmap ProofLineInfo.step].
    rewrite <- app_assoc. cbn [app]. rewrite Hall. f_equal.
    symmetry. apply static_step; [done|]. intros k. apply Hf.
  - cbn [depthBeforeStep]. symmetry. by apply stepDepth_lookup.
Qed.

(** The extent of every subproof that [buildProofLineInfo] records: the
    subproof lasts up to the step before the first one that closes it, or
    to the last step of the proof. *)
Lemma buildProofLineInfo_extent steps :
  ExtentInv steps (length steps) [] (buildProofLineInfo steps).
Proof.
  unfold buildProofLineInfo.
  assert (BuildInv 0 [] []) as H0.
  { split_and!; [done|constructor|]. intros k l Hk. done. }
  assert (ExtentInv steps 0 [] []) as E0.
  { split_and!; [constructor|by intros c ?%elem_of_nil|]. by intros a la e ?. }
  destruct (buildLoop_inv steps 0 0 [] [] H0 eq_refl) as [Hinv _].
  pose proof (buildLoop_extent steps steps 0 0 [] [] H0 E0 eq_refl eq_refl) as Hext.
  destruct (buildLoop 0 0 steps [] []) as [stk L]. cbn [fst snd Nat.add] in Hinv, Hext.
  pose proof Hinv as (Hlen & _).
  pose proof (closeWhile_fields (λ _, true) (length L - 1) (length L) stk L)
    as (popped & HS & Hf).
  pose proof (closeWhile_all (length L - 1) (length L) stk L) as Hnil.
  destruct (closeWhile _ _ _ stk L) as [stk' L']. cbn [fst snd] in *. subst stk'.
  rewrite Hlen in Hf.
  assert (ExtentInv steps (length steps) [] L') as Hext'.
  { apply (ExtentInv_close steps _ stk L popped [] L' Hext HS); [|done]. intros; lia. }
  apply (ExtentInv_close steps _ [] L' [] [] (markSubproofEnds L') Hext' eq_refl).
  - by intros c ?%elem_of_nil.
  - intros k. destruct (markSubproofEnds_fields L' k) as [-> ->].
    split; [done|]. destruct (decide _) as [[]%elem_of_nil|]; done.
Qed.

End SubproofExtent.

(** * Accessibility in terms of the subproofs of the table *)

Section AccessibilityExact.
Import Validator Checker.

(** The walk of [getSubproofAncestors], in closed form. *)
Lemma ancestorsLoop_elem_of lines k d a :
  a ∈ ancestorsLoop lines k d ↔
  (a < k)%nat
  ∧ ProofLineInfo.isSubproofStart <$> lines !! a = Some true
  ∧ (lineDepth lines a < d)%nat
  ∧ ∀ b, (a < b < k)%nat →
         ProofLineInfo.isSubproofStart <$> lines !! b = Some true →
         (lineDepth lines a < lineDepth lines b)%nat.
Proof.
  revert d. induction k as [|i IH]; intros d; cbn [ancestorsLoop].
  { split; [by intros ?%elem_of_nil|intros (? & _); lia]. }
  assert (∀ P : nat → Prop,
            (∀ b, (a < b < S i)%nat → P b)
            ↔ (∀ b, (a < b < i)%nat → P b) ∧ ((a < i)%nat → P i)) as Hsplit.
  { intros P. split.
    - intros H. split; intros; apply H; lia.
    - intros [H1 H2] b Hb. destruct (decide (b = i)) as [->|]; [apply H2|apply H1]; lia. }
  destruct (lines !! i) as [line|] eqn:Hl.
  - destruct (ProofLineInfo.isSubproofStart line) eqn:Hs; cbn [andb].
    + destruct (Nat.ltb_spec (ProofStep.depth (ProofLineInfo.step line)) d) as [Hlt|Hge].
      * rewrite elem_of_cons, IH, Hsplit.
        assert (lineDepth lines i = ProofStep.depth (ProofLineInfo.step line)) as Hdi
          by (unfold lineDepth; by rewrite Hl).
        rewrite Hl. cbn [fmap option_fmap option_map]. rewrite Hs, Hdi. split.
        -- intros [->|(? & ? & ? & ?)].
           ++ rewrite Hl. cbn. rewrite Hs, Hdi.
              split_and!; [lia|done|lia| |intros; lia]. intros; lia.
           ++ split_and!; [lia|done|lia|done|done].
        -- intros (? & Hsa & ? & ? & Hi).
           destruct (decide (a = i)) as [->|]; [by left|right].
           split_and!; [lia|done|apply Hi; [lia|done]|done].
      * rewrite IH, Hsplit.
        assert (lineDepth lines i = ProofStep.depth (ProofLineInfo.step line)) as Hdi
          by (unfold lineDepth; by rewrite Hl).
        rewrite Hl. cbn [fmap option_fmap option_map]. rewrite Hs, Hdi. split.
        -- intros (? & ? & ? & ?). split_and!; [lia|done|done|done|intros; lia].
        -- intros (? & Hsa & ? & ? & Hi).
           destruct (decide (a = i)) as [->|].
           { rewrite Hl in Hsa. unfold lineDepth in *. rewrite Hl in *. cbn in *. lia. }
           split_and!; [lia|done|done|done].
    + rewrite IH, Hsplit. rewrite Hl. cbn [fmap option_fmap option_map]. rewrite Hs. split.
      * intros (? & ? & ? & ?). split_and!; [lia|done|done|done|done].
      * intros (? & Hsa & ? & ? & Hi).
        destruct (decide (a = i)) as [->|].
        { rewrite Hl in Hsa. cbn in Hsa. congruence. }
        split_and!; [lia|done|done|done].
  - rewrite IH, Hsplit. rewrite Hl. cbn [fmap option_fmap option_map]. split.
    + intros (? & ? & ? & ?). split_and!; [lia|done|done|done|done].
    + intros (? & Hsa & ? & ? & Hi).
      destruct (decide (a = i)) as [->|].
      { by rewrite Hl in Hsa. }
      split_and!; [lia|done|done|done].
Qed.


(** The table of [buildProofLineInfo] read in terms of the steps. *)
Lemma steps_lookup steps k :
  steps !! k = ProofLineInfo.step <$> buildProofLineInfo steps !! k.
Proof.
  rewrite <- list_lookup_fmap. by rewrite (proj2 (buildProofLineInfo_inv steps)).
Qed.

Lemma lineDepth_steps steps j :
  lineDepth (buildProofLineInfo steps) j = stepDepth steps j.
Proof.
  unfold lineDepth, stepDepth. rewrite steps_lookup.
  by destruct (buildProofLineInfo steps !! j).
Qed.

Lemma depthBefore_steps steps k :
  depthBefore (buildProofLineInfo steps) k = depthBeforeStep steps k.
Proof. destruct k; [done|]. apply lineDepth_steps. Qed.

Lemma isSubproofStart_steps steps k :
  ProofLineInfo.isSubproofStart <$> buildProofLineInfo steps !! k = Some true
  ↔ startsSubproof steps k = true.
Proof.
  destruct (buildProofLineInfo_inv steps) as [(_ & _ & Hl) Hsteps].
  rewrite startsSubproof_true, steps_lookup.
  destruct (buildProofLineInfo steps !! k) as [l|] eqn:Hk; cbn.
  - destruct (Hl k l Hk) as (_ & Hopen & _). unfold opensAt in Hopen.
    rewrite depthBefore_steps in Hopen. split.
    + intros [= Hs]. exists (ProofLineInfo.step l). split; [done|]. by apply Hopen.
    + intros (s & [= <-] & H). f_equal. by apply Hopen.
  - split; [done|by intros (? & ? & _)].
Qed.

Lemma subproofContains_spans steps a t :
  (t < length steps)%nat →
  subproofContains (buildProofLineInfo steps) a t = true ↔ spans steps a t.
Proof.
  intros Ht.
  destruct (buildProofLineInfo_inv steps) as [(_ & _ & Hl) _].
  destruct (buildProofLineInfo_extent steps) as (_ & _ & Hext).
  pose proof (isSubproofStart_steps steps a) as Hstart.
  unfold subproofContains, spans.
  destruct (buildProofLineInfo steps !! a) as [la|] eqn:Ha; cbn in Hstart.
  - destruct (Hl a la Ha) as (_ & _ & Hnone & _ & Hclosed).
    destruct (ProofLineInfo.isSubproofStart la) eqn:Hs; cbn [andb].
    + destruct (Hclosed eq_refl) as [[]%elem_of_nil|(e & He & Hae)].
      rewrite He. destruct (Hext a la e Ha He) as [Hin Hout].
      rewrite andb_true_iff, Nat.leb_le, Nat.leb_le. split.
      * intros [? ?]. split_and!; [done|by apply Hstart|]. intros j Hj. apply Hin. lia.
      * intros (? & _ & Hno). split; [done|].
        destruct (decide (t ≤ e)%nat) as [|Hlt]; [done|].
        assert (S e < length steps)%nat as Hse by lia.
        specialize (Hout Hse). rewrite Hno in Hout by lia. done.
    + split; [done|]. intros (_ & Hst & _). apply Hstart in Hst. congruence.
  - split; [done|]. intros (_ & Hst & _). by apply Hstart in Hst.
Qed.

Lemma getSubproofAncestors_spec steps t a :
  a ∈ getSubproofAncestors (buildProofLineInfo steps) t ↔ enclosesByDepth steps a t.
Proof.
  unfold getSubproofAncestors, enclosesByDepth.
  rewrite ancestorsLoop_elem_of, isSubproofStart_steps.
  setoid_rewrite lineDepth_steps. setoid_rewrite isSubproofStart_steps.
  split.
  - intros (? & ? & ? & Hb).
    assert (a ≠ t) by (intros ->; lia).
    split_and!; [lia|done|done|]. intros b ? ?. apply Hb; [lia|done].
  - intros (? & ? & ? & Hb). split_and!; [lia|done|done|].
    intros b ? Hs. destruct (decide (b = t)) as [->|]; [done|].
    apply Hb; [lia|done].
Qed.

Lemma ancestorExcludes_contains steps a t c :
  enclosesByDepth steps a t → (t ≤ c)%nat →
  negb (ancestorExcludes (buildProofLineInfo steps) c a) = true
  ↔ subproofContains (buildProofLineInfo steps) a c = true.
Proof.
  intros (Hat & Hsa & _) Htc.
  apply isSubproofStart_steps in Hsa.
  destruct (buildProofLineInfo_inv steps) as [(_ & _ & Hl) _].
  unfold ancestorExcludes, subproofContains.
  destruct (buildProofLineInfo steps !! a) as [la|] eqn:Ha; [|done].
  cbn in Hsa. injection Hsa as Hsa. rewrite Hsa. cbn [mbind option_bind andb].
  destruct (Hl a la Ha) as (_ & _ & _ & _ & Hclosed).
  destruct (Hclosed Hsa) as [[]%elem_of_nil|(e & -> & Hae)].
  destruct (Nat.ltb_spec e c); destruct (Nat.ltb_spec c a);
    destruct (Nat.leb_spec a c); destruct (Nat.leb_spec c e); cbn; try tauto; lia.
Qed.

(** [isLineAccessible] in closed form: the line at [t] may be cited from
    [c] exactly when every subproof the walk collects contains [c]. *)
Lemma isLineAccessible_spec steps t c d :
  (t ≤ c)%nat →
  isLineAccessible (buildProofLineInfo steps) t c d = true
  ↔ ∀ a, enclosesByDepth steps a t →
         subproofContains (buildProofLineInfo steps) a c = true.
Proof.
  intros Htc. unfold isLineAccessible.
  destruct (Nat.ltb_spec c t); [lia|]. rewrite lineDepth_steps.
  destruct (Nat.eqb_spec (stepDepth steps t) 0) as [H0|_].
  { split; [|done]. intros _ a (_ & _ & ? & _). lia. }
  assert (isInSameSubproofBranch (buildProofLineInfo steps) t c = true
          ↔ ∀ a, enclosesByDepth steps a t →
                 subproofContains (buildProofLineInfo steps) a c = true) as Hiff.
  { unfold isInSameSubproofBranch. rewrite forallb_forall.
    setoid_rewrite <- list_elem_of_In. setoid_rewrite getSubproofAncestors_spec.
    split; intros H' a Henc; apply (ancestorExcludes_contains steps a t c Henc Htc);
      by apply H'. }
  by destruct (_ <? _)%nat.
Qed.

(** ** Subproofs and depths *)

Lemma spans_depth_le steps a t :
  (t < length steps)%nat → spans steps a t →
  (0 < stepDepth steps a ≤ stepDepth steps t)%nat.
Proof.
  intros Ht (Hat & Hsa & Hno).
  apply startsSubproof_true in Hsa as (sa & Ha & _ & Hpos & _).
  pose proof (stepDepth_lookup steps a sa Ha) as Hda.
  destruct (decide (a = t)) as [->|Hne]; [lia|].
  rewrite Hda in *.
  destruct (lookup_lt_is_Some_2 steps t Ht) as [st Hst].
  pose proof (Hno t ltac:(lia)) as Hc.
  apply (closesDepth_false steps t st) in Hc as [Hc _]; [|done].
  rewrite (stepDepth_lookup steps t st Hst). lia.
Qed.

(** A subproof that starts inside another lies deeper. *)
Lemma spans_start_inside steps a t b :
  (t < length steps)%nat → spans steps a t → (a < b ≤ t)%nat →
  startsSubproof steps b = true →
  (stepDepth steps a < stepDepth steps b)%nat.
Proof.
  intros Ht (Hat & Hsa & Hno) Hb Hsb.
  apply startsSubproof_true in Hsb as (sb & Hlb & Hrule & Hpos & Hbefore).
  pose proof (Hno b ltac:(lia)) as Hc.
  apply (closesDepth_false steps b sb) in Hc as [Hle Hnot]; [|done].
  rewrite (stepDepth_lookup steps b sb Hlb).
  destruct (decide (stepDepth steps a = ProofStep.depth sb)) as [Heq|]; [|lia].
  exfalso.
  destruct (decide (ProofStep.depth sb = depthBeforeStep steps b)) as [Hsame|Hrise].
  { apply Hnot. by rewrite Heq. }
  destruct b as [|b']; [lia|]. cbn [depthBeforeStep] in *.
  destruct (decide (b' = a)) as [->|Hne]; [lia|].
  destruct (lookup_lt_is_Some_2 steps b') as [s' Hs']; [lia|].
  pose proof (Hno b' ltac:(lia)) as Hc'.
  apply (closesDepth_false steps b' s') in Hc' as [Hc' _]; [|done].
  rewrite (stepDepth_lookup steps b' s' Hs') in *. lia.
Qed.

Lemma spans_encloses steps a t :
  (t < length steps)%nat → spans steps a t →
  (stepDepth steps a < stepDepth steps t)%nat →
  enclosesByDepth steps a t.
Proof.
  intros Ht Hsp Hd. pose proof Hsp as (Hat & Hsa & _).
  assert (a ≠ t) by (intros ->; lia).
  split_and!; [lia|done|done|].
  intros b Hb Hsb. apply (spans_start_inside steps a t b); [done|done|lia|done].
Qed.

(** Of two subproofs around the same line, the one that starts first is
    the shallower, and neither is deeper than the line. *)
Lemma spans_nested steps a b t :
  (t < length steps)%nat → spans steps a t → spans steps b t → (a < b)%nat →
  (stepDepth steps a < stepDepth steps b ≤ stepDepth steps t)%nat.
Proof.
  intros Ht Ha Hb Hab. pose proof Hb as (Hbt & Hsb & _). split.
  - apply (spans_start_inside steps a t b); [done|done|lia|done].
  - by apply spans_depth_le.
Qed.

Lemma spans_self steps t : startsSubproof steps t = true → spans steps t t.
Proof. intros Hs. split_and!; [done|done|]. intros; lia. Qed.

Lemma nestingLevelsFrom_lookup prevDepth steps j step :
  nestingLevelsFrom prevDepth steps = true →
  steps !! j = Some step →
  let before := match j with O => prevDepth | S k => stepDepth steps k end in
  (ProofStep.depth step ≤ before)%nat
  ∨ (ProofStep.rule step = assumption ∧ ProofStep.depth step = S before).
Proof.
  revert prevDepth j. induction steps as [|s rest IH]; intros prevDepth j; [done|].
  cbn [nestingLevelsFrom]. intros [Hhead Hrest]%andb_true_iff Hj.
  destruct j as [|j]; cbn in Hj.
  - injection Hj as <-. cbn zeta.
    apply orb_true_iff in Hhead as [Hle%Nat.leb_le|[Hr%bool_decide_eq_true He%Nat.eqb_eq]%andb_true_iff];
      [by left|by right].
  - specialize (IH _ j Hrest Hj). cbn zeta in *.
    destruct j as [|j]; [done|]. exact IH.
Qed.

Lemma nestingLevels_lookup steps j step :
  nestingLevels steps = true → steps !! j = Some step →
  (ProofStep.depth step ≤ depthBeforeStep steps j)%nat
  ∨ (ProofStep.rule step = assumption
     ∧ ProofStep.depth step = S (depthBeforeStep steps j)).
Proof.
  intros Hn Hj. pose proof (nestingLevelsFrom_lookup 0 steps j step Hn Hj) as H.
  by destruct j.
Qed.

(** Where the depth is a nesting level, it cannot get from below [depth]
    to [depth] or above without a subproof being opened at [depth]. *)
Lemma depth_rise steps depth m j :
  nestingLevels steps = true →
  (j + m < length steps)%nat →
  (stepDepth steps j < depth ≤ stepDepth steps (j + m))%nat →
  ∃ b, (j < b ≤ j + m)%nat ∧ startsSubproof steps b = true
       ∧ stepDepth steps b = depth.
Proof.
  intros Hn. revert j. induction m as [|m IH]; intros j Hlen Hd.
  { rewrite Nat.add_0_r in Hd. lia. }
  destruct (lookup_lt_is_Some_2 steps (S j)) as [s Hs]; [lia|].
  pose proof (nestingLevels_lookup steps (S j) s Hn Hs) as Hstep.
  cbn [depthBeforeStep] in Hstep.
  pose proof (stepDepth_lookup steps (S j) s Hs) as Hds.
  destruct (decide (depth ≤ ProofStep.depth s)%nat) as [Hge|Hlt].
  - exists (S j). destruct Hstep as [?|[Hrule Heq]]; [lia|].
    split; [lia|]. split; [|lia].
    apply startsSubproof_true. exists s. cbn [depthBeforeStep].
    repeat split; try done; lia.
  - destruct (IH (S j)) as (b & Hb & Hsb & Hdb).
    + lia.
    + replace (S j + m)%nat with (j + S m)%nat by lia. lia.
    + exists b. split; [lia|done].
Qed.

(** Where the depth is a nesting level, every subproof the walk collects
    is still open at the line it started from. *)
Lemma encloses_spans steps a t :
  nestingLevels steps = true → (t < length steps)%nat →
  enclosesByDepth steps a t → spans steps a t.
Proof.
  intros Hn Ht (Hat & Hsa & Hd & Hb). split_and!; [lia|done|].
  intros j Hj. apply not_true_is_false. intros Hc.
  destruct (lookup_lt_is_Some_2 steps j) as [sj Hsj]; [lia|].
  pose proof (stepDepth_lookup steps j sj Hsj) as Hdj.
  assert (j ≠ t → False) as Hjt.
  { intros Hne.
    destruct (decide (ProofStep.depth sj < stepDepth steps a)%nat) as [Hlow|Hhigh].
    - destruct (depth_rise steps (stepDepth steps a) (t - j) j Hn) as (b & Hjb & Hsb & Hdb).
      + lia.
      + replace (j + (t - j))%nat with t by lia. lia.
      + replace (j + (t - j))%nat with t in Hjb by lia.
        assert (b ≠ t) by (intros ->; lia).
        specialize (Hb b ltac:(lia) Hsb). lia.
    - assert (startsSubproof steps j = true) as Hsj'.
      { apply startsSubproof_true. exists sj. split; [done|].
        unfold closesDepth in Hc. rewrite Hsj in Hc. cbn zeta in Hc.
        apply orb_true_iff in Hc as [Hc%Nat.ltb_lt|Hc]; [lia|].
        apply andb_true_iff in Hc as [Hc _]. apply andb_true_iff in Hc as [Hc He].
        apply andb_true_iff in Hc as [Hr Hp].
        apply bool_decide_eq_true in Hr. apply Nat.ltb_lt in Hp. apply Nat.eqb_eq in He.
        split_and!; [done|done|lia]. }
      assert (stepDepth steps j = stepDepth steps a) as Heq.
      { unfold closesDepth in Hc. rewrite Hsj in Hc. cbn zeta in Hc.
        apply orb_true_iff in Hc as [Hc%Nat.ltb_lt|Hc]; [lia|].
        apply andb_true_iff in Hc as [_ He]. apply Nat.eqb_eq in He. lia. }
      specialize (Hb j ltac:(lia) Hsj'). lia. }
  destruct (decide (j = t)) as [->|]; [|done].
  unfold closesDepth in Hc. rewrite Hsj in Hc. cbn zeta in Hc.
  apply orb_true_iff in Hc as [Hc%Nat.ltb_lt|Hc]; [lia|].
  apply andb_true_iff in Hc as [_ He]. apply Nat.eqb_eq in He. lia.
Qed.

End AccessibilityExact.

Section CheckerClaims.
Import Validator Checker.

(** The aggregated error list is the concatenation, in step order, of what
    each step contributes. *)
Lemma checkProof_errors steps premises conclusion lib :
  steps ≠ [] →
  ProofCheckResult.errors (checkProof steps premises conclusion lib)
  = concat (imap (checkStep (buildProofLineInfo steps) premises lib) steps).
Proof.
  intros Hne. unfold checkProof.
  destruct (last steps) eqn:Hlast; [done|].
  apply last_None in Hlast. done.
Qed.

Lemma checkProof_valid steps premises conclusion lib :
  steps ≠ [] →
  ProofCheckResult.valid (checkProof steps premises conclusion lib) = true ↔
  ProofCheckResult.errors (checkProof steps premises conclusion lib) = [].
Proof.
  intros Hne. unfold checkProof.
  destruct (last steps) eqn:Hlast.
  - cbn. by rewrite bool_decide_eq_true.
  - apply last_None in Hlast. done.
Qed.

Lemma list_find_steps_lines (lines : list ProofLineInfo.t) j n :
  list_find (λ s, ProofStep.id s = j) (take n (ProofLineInfo.step <$> lines))
  = prod_map id ProofLineInfo.step
      <$> list_find (λ l, ProofStep.id (ProofLineInfo.step l) = j) (take n lines).
Proof. rewrite <- fmap_take. apply list_find_fmap. Qed.

Lemma list_find_imap_None {A} (P : A → Prop) `{!∀ x, Decision (P x)}
    (g : nat → A → A) (l : list A) :
  (∀ j y, P (g j y) ↔ P y) →
  list_find P l = None → list_find P (imap g l) = None.
Proof.
  intros Hg Hnone. apply list_find_None. apply Forall_lookup. intros i x Hx.
  rewrite list_lookup_imap in Hx. apply fmap_Some in Hx as (y & Hy & ->).
  rewrite Hg. rewrite list_find_None, Forall_lookup in Hnone. by eapply Hnone.
Qed.

(** The loop over the justifications pushes one error for every
    justification that fails, in the order of the justifications. *)
Lemma checkJustifications_failures steps premises c step justs :
  checkJustifications step
    (ValidationContext.mk
       (contextLines (buildProofLineInfo steps) c (ProofStep.depth step))
       c (ProofStep.depth step) premises) justs
  = err step <$> omap (justificationFailure steps c step) justs.
Proof.
  induction justs as [|j justs IH]; [done|].
  cbn [checkJustifications omap list_omap]. rewrite IH.
  generalize (omap (justificationFailure steps c step) justs). intros rest.
  unfold justificationFailure.
  assert (list_find (λ s, ProofStep.id s = j) (take (S c) steps)
          = prod_map id ProofLineInfo.step
              <$> list_find (λ l, ProofStep.id (ProofLineInfo.step l) = j)
                    (take (S c) (buildProofLineInfo steps))) as ->.
  { rewrite <- list_find_steps_lines.
    by rewrite (proj2 (buildProofLineInfo_inv steps)). }
  unfold getLineInfo. cbn [mbind option_bind ValidationContext.lines].
  unfold contextLines.
  destruct (list_find _ (take (S c) (buildProofLineInfo steps))) as [[t l]|] eqn:Hfind.
  - erewrite list_find_imap_transfer; [| |exact Hfind]; [|by intros ? []].
    cbn. destruct (isLineAccessible _ t c _); done.
  - rewrite list_find_imap_None; [done| |done]. by intros ? [].
Qed.

Lemma justificationFailure_codes steps c step justs :
  Forall (λ code, code = JUSTIFICATION_NOT_FOUND ∨ code = INACCESSIBLE_JUSTIFICATION)
         (omap (justificationFailure steps c step) justs).
Proof.
  apply Forall_forall. intros code (j & _ & Hj)%list_elem_of_omap.
  unfold justificationFailure in Hj. repeat case_match; simplify_eq; auto.
Qed.

Lemma omap_length_le {A B} (g : A → option B) (l : list A) :
  (length (omap g l) ≤ length l)%nat.
Proof.
  induction l as [|x l IH]; [done|]. cbn [omap list_omap length].
  destruct (g x); cbn [length]; lia.
Qed.

(** C4 (amended): within one invocation the aggregated error list is the
    concatenation, in step order, of the steps' contributions. A step that
    is taken as a premise, cites a theorem or fails the arity check
    contributes at most one error. Otherwise the loop over its
    justifications does not stop at its first failure: when some
    justification fails, the step contributes exactly one error for every
    failing justification, in their order, JUSTIFICATION_NOT_FOUND for one
    that no step up to it carries and INACCESSIBLE_JUSTIFICATION for one
    whose line is not accessible, and the rule-schema check is skipped;
    when none fails, it contributes what the rule-schema check returns, at
    most one error. So a step contributes at most three errors, all
    carrying its id, and more than one only when several of its
    justifications fail. *)
Theorem C4_errors_per_step :
  ∀ steps premises conclusion lib,
    steps ≠ [] →
    let lines := buildProofLineInfo steps in
    ProofCheckResult.errors (checkProof steps premises conclusion lib)
    = concat (imap (checkStep lines premises lib) steps)
    ∧ ∀ i step, steps !! i = Some step →
        let errs := checkStep lines premises lib i step in
        let failures :=
          omap (justificationFailure steps i step) (ProofStep.justification step) in
        Forall (λ e, ValidationError.stepId e = ProofStep.id step) errs
        ∧ (length errs ≤ 3)%nat
        ∧ (reachesJustifications premises step = false → (length errs ≤ 1)%nat)
        ∧ (reachesJustifications premises step = true →
             (failures ≠ [] → errs = err step <$> failures)
             ∧ (failures = [] →
                  (length errs ≤ 1)%nat
                  ∧ errs = validateRuleApplication step
                             (ValidationContext.mk
                                (contextLines lines i (ProofStep.depth step)) i
                                (ProofStep.depth step) premises)))
        ∧ ((1 < length errs)%nat →
             reachesJustifications premises step = true
             ∧ errs = err step <$> failures
             ∧ length errs = length failures
             ∧ Forall (λ e, ValidationError.code e = JUSTIFICATION_NOT_FOUND
                            ∨ ValidationError.code e = INACCESSIBLE_JUSTIFICATION) errs
             ∧ (length errs ≤ length (ProofStep.justification step))%nat).
Proof.
  intros steps premises conclusion lib Hne lines.
  split; [by apply checkProof_errors|].
  intros i step _ errs failures. subst errs lines.
  unfold checkStep, reachesJustifications.
  destruct (_ && _ && isPremise _ _).
  { cbn. split_and!; [constructor|lia|lia|done|lia]. }
  cbn [negb andb]. case_bool_decide.
  { cbn [negb andb]. repeat case_match; cbn; split_and!; repeat constructor; lia. }
  cbn [negb andb]. unfold validateStep.
  pose proof (arity_le_3 (ProofStep.rule step)) as H3.
  destruct (getRequiredJustificationCount (ProofStep.rule step)) as [mn mx].
  cbn [fst snd] in *.
  destruct (Nat.ltb_spec (length (ProofStep.justification step)) mn) as [Hlt|Hge].
  { rewrite (proj2 (Nat.leb_gt _ _)) by lia.
    cbn. split_and!; [by repeat constructor|lia|lia|done|lia]. }
  rewrite (proj2 (Nat.leb_le _ _)) by lia.
  destruct (Nat.ltb_spec mx (length (ProofStep.justification step))) as [Hlt|Hle].
  { rewrite (proj2 (Nat.leb_gt _ _)) by lia.
    cbn. split_and!; [by repeat constructor|lia|lia|done|lia]. }
  rewrite (proj2 (Nat.leb_le _ _)) by lia.
  rewrite checkJustifications_failures. fold failures.
  pose proof (justificationFailure_codes steps i step (ProofStep.justification step))
    as Hcodes. fold failures in Hcodes.
  assert (length failures ≤ length (ProofStep.justification step))%nat as Hlen
    by apply omap_length_le.
  destruct failures as [|code codes] eqn:Hf.
  - cbn [fmap list_fmap].
    pose proof (validateRuleApplication_length step
      (ValidationContext.mk
         (contextLines (buildProofLineInfo steps) i (ProofStep.depth step)) i
         (ProofStep.depth step) premises)).
    split_and!; [apply validateRuleApplication_stepId|lia|done| |lia].
    intros _. split; [done|]. intros _. split; [lia|done].
  - cbn [fmap list_fmap]. rewrite <- fmap_cons.
    split_and!.
    + apply Forall_fmap. by apply Forall_true.
    + rewrite length_fmap. lia.
    + done.
    + intros _. split; [done|]. done.
    + intros _. split_and!; [done|done|by rewrite length_fmap| |rewrite length_fmap; lia].
      apply Forall_fmap. eapply Forall_impl; [exact Hcodes|]. done.
Qed.

Lemma C4_errors_per_step_witness :
  Examples.mixedReferences ≠ []
  ∧ Examples.mixedReferences !! 2%nat
    = Some (Examples.makeStep Examples.R or_elim ["b"; "nonexistent"; "a"] 0 "d")
  ∧ checkStep (buildProofLineInfo Examples.mixedReferences) [] [] 2
      (Examples.makeStep Examples.R or_elim ["b"; "nonexistent"; "a"] 0 "d")
    = [ValidationError.mk (str "d") INACCESSIBLE_JUSTIFICATION;
       ValidationError.mk (str "d") JUSTIFICATION_NOT_FOUND].
Proof.
  split; [done|]. split; [reflexivity|].
  destruct (C4_errors_per_step Examples.mixedReferences [] Examples.R [] ltac:(done))
    as [_ Hstep].
  destruct (Hstep 2%nat _ eq_refl) as (_ & _ & _ & Hloop & _).
  destruct (Hloop eq_refl) as [Hfail _].
  rewrite Hfail; [vm_compute; reflexivity|].
  vm_compute. discriminate.
Defined.

(** C4 as stated fails: the single step of this proof, whose two
    justifications both resolve to no line, contributes two errors. *)
Lemma C4_counterexample :
  length Examples.twoMissingReferences = 1%nat
  ∧ ProofCheckResult.errors
      (checkProof Examples.twoMissingReferences [] (And Examples.P Examples.Q) [])
    = [ValidationError.mk (str "s2") JUSTIFICATION_NOT_FOUND;
       ValidationError.mk (str "s2") JUSTIFICATION_NOT_FOUND].
Proof. split; vm_compute; reflexivity. Qed.

(** C10 (amended): a step whose rule is assumption and whose justification
    list is empty passes per-step validation with no errors, at any depth
    and for any formula, premise or not. *)
Theorem C10_assumption_accepted :
  ∀ step,
    ProofStep.rule step = assumption →
    ProofStep.justification step = [] →
    (∀ context, validateStep step context = [])
    ∧ (∀ lines premises lib i, checkStep lines premises lib i step = []).
Proof.
  intros step Hrule Hjust.
  assert (∀ context, validateStep step context = []) as Hv.
  { intros context. unfold validateStep, validateRuleApplication.
    rewrite Hrule, Hjust. reflexivity. }
  split; [done|]. intros lines premises lib i. unfold checkStep.
  rewrite Hrule. cbn [bool_decide decide_rel].
  destruct (_ && _ && isPremise _ _); [done|].
  rewrite bool_decide_eq_false_2 by done. apply Hv.
Qed.

Lemma C10_assumption_accepted_witness :
  isPremise Examples.P [] = false
  ∧ ProofCheckResult.errors (checkProof Examples.loneAssumption [] Examples.P []) = [].
Proof.
  split; [reflexivity|].
  rewrite checkProof_errors by done.
  cbn [Examples.loneAssumption imap concat].
  rewrite (proj2 (C10_assumption_accepted
                    (Examples.makeStep Examples.P assumption [] 0 "s1")
                    eq_refl eq_refl)).
  reflexivity.
Defined.

(** C10 as stated fails: an assumption step at depth 0 that carries a
    justification is rejected by the arity check. *)
Lemma C10_counterexample :
  Forall (λ s, ProofStep.rule s = assumption ∧ ProofStep.depth s = 0%nat)
         Examples.justifiedAssumption
  ∧ ProofCheckResult.errors
      (checkProof Examples.justifiedAssumption [] Examples.P [])
    = [ValidationError.mk (str "s1") TOO_MANY_JUSTIFICATIONS].
Proof. split; [by repeat constructor|vm_compute; reflexivity]. Qed.

Lemma implies_elim_swapped_branch (e : ValidationError.t) (J1 J2 E : Formula) :
  (∀ a b, J1 ≠ Implies a b) →
  match J2 with
  | Implies ml mr => if formulaEquals ml J1 && formulaEquals mr E then [] else [e]
  | _ => [e]
  end = []
  ↔ J1 = Implies J2 E ∨ ((∀ a b, J1 ≠ Implies a b) ∧ J2 = Implies J1 E).
Proof.
  intros Hn. split.
  - destruct J2 as [| | | |ml mr| |]; try done.
    destruct (formulaEquals ml J1) eqn:Hl; [|done].
    destruct (formulaEquals mr E) eqn:Hr; [|done].
    apply formulaEquals_spec in Hl, Hr. subst. intros _. by right.
  - intros [->|[_ ->]]; [by destruct (Hn J2 E)|].
    by rewrite !formulaEquals_refl.
Qed.

(** What [validateRuleApplication] accepts for implies_elim once both
    justifications have resolved to [J1] and [J2]: [J1 = Implies(J2, E)], or
    the swapped pairing provided [J1] is not itself a conditional. *)
Lemma implies_elim_accepts step context J1 J2 :
  ProofStep.rule step = implies_elim →
  getFormula context (ProofStep.justification step !! 0%nat) = Some J1 →
  getFormula context (ProofStep.justification step !! 1%nat) = Some J2 →
  validateRuleApplication step context = [] ↔
  J1 = Implies J2 (ProofStep.formula step)
  ∨ ((∀ a b, J1 ≠ Implies a b) ∧ J2 = Implies J1 (ProofStep.formula step)).
Proof.
  intros Hrule H1 H2. unfold validateRuleApplication. rewrite Hrule, H1, H2.
  destruct J1 as [n|x|l r|l r|cl cr|l r|];
    try (by apply implies_elim_swapped_branch).
  destruct (formulaEquals cl J2) eqn:Hl; cbn.
  - destruct (formulaEquals cr _) eqn:Hr; cbn.
    + apply formulaEquals_spec in Hl, Hr. subst. split; [by left|done].
    + split; [done|]. intros [?|[Hn _]]; [|by destruct (Hn cl cr)].
      simplify_eq. by rewrite formulaEquals_refl in Hr.
  - split; [done|]. intros [?|[Hn _]]; [|by destruct (Hn cl cr)].
    simplify_eq. by rewrite formulaEquals_refl in Hl.
Qed.

(** C5, at the failing input: with [J1 = P → Q], [J2 = (P → Q) → R] and
    [E = R] the swapped pairing of the claim holds ([X = P → Q]), yet the
    step is rejected with CONCLUSION_MISMATCH; citing the same two lines in
    the other order is accepted. *)
Theorem C5_both_conditionals_rejected :
  let premises := [Implies Examples.P Examples.Q;
                   Implies (Implies Examples.P Examples.Q) Examples.R] in
  ProofCheckResult.errors (checkProof Examples.ponensMajorSecond premises Examples.R [])
  = [ValidationError.mk (str "s3") CONCLUSION_MISMATCH]
  ∧ ProofCheckResult.errors (checkProof Examples.ponensMajorFirst premises Examples.R [])
    = [].
Proof. split; vm_compute; reflexivity. Qed.

(** C1, at three failing inputs: each proof is accepted as valid and
    complete although the premises do not entail the conclusion. *)
Theorem C1_unsound_acceptance :
  let accepted steps premises conclusion :=
    ProofCheckResult.valid (checkProof steps premises conclusion []) = true
    ∧ ProofCheckResult.complete (checkProof steps premises conclusion []) = true
    ∧ TruthTable.entails premises conclusion = Some false in
  accepted Examples.loneAssumption [] Examples.P
  ∧ accepted Examples.citesClosedSubproof []
      (Or (Or Examples.P Examples.Q) Examples.R)
  ∧ accepted Examples.citesItself [] Bottom.
Proof. cbv zeta. split_and!; vm_compute; reflexivity. Qed.

Lemma arity_min_max rule :
  (getRequiredJustificationCount rule).1 = (getRequiredJustificationCount rule).2.
Proof. by destruct rule. Qed.

Lemma isLineAccessible_depth_0 lines t c d :
  (t ≤ c)%nat → lineDepth lines t = 0%nat → isLineAccessible lines t c d = true.
Proof.
  intros Hle H0. unfold isLineAccessible.
  destruct (Nat.ltb_spec c t); [lia|]. by rewrite H0.
Qed.

Lemma elem_of_concat_imap {A B} (g : nat → A → list B) (l : list A) i x y :
  l !! i = Some x → y ∈ g i x → y ∈ concat (imap g l).
Proof.
  revert g i. induction l as [|z l IH]; intros g i Hi Hy; [done|].
  cbn [imap concat]. apply elem_of_app. destruct i as [|i]; simplify_eq/=.
  - by left.
  - right. by apply (IH (g ∘ S) i).
Qed.

(** Citing a line that resolves and is not accessible is reported, once
    the arity check has passed. *)
Lemma inaccessible_reported lines premises lib c step j t l :
  length (ProofStep.justification step)
  = (getRequiredJustificationCount (ProofStep.rule step)).1 →
  j ∈ ProofStep.justification step →
  list_find (λ l, ProofStep.id (ProofLineInfo.step l) = j) (take (S c) lines)
  = Some (t, l) →
  isLineAccessible lines t c (ProofStep.depth step) = false →
  err step INACCESSIBLE_JUSTIFICATION ∈ checkStep lines premises lib c step.
Proof.
  intros Hlen Hj Hfind Hacc.
  assert (ProofStep.rule step ≠ assumption ∧ ProofStep.rule step ≠ theorem)
    as [Hna Hnt].
  { destruct (ProofStep.justification step) as [|? ?]; [by apply elem_of_nil in Hj|].
    split; intros Hr; rewrite Hr in Hlen; done. }
  unfold checkStep.
  rewrite (bool_decide_eq_false_2 (ProofStep.rule step = assumption)) by done.
  rewrite (bool_decide_eq_false_2 (ProofStep.rule step = theorem)) by done.
  cbn [andb]. unfold validateStep.
  pose proof (arity_min_max (ProofStep.rule step)) as Hmm.
  destruct (getRequiredJustificationCount (ProofStep.rule step)) as [mn mx].
  cbn [fst snd] in *. subst mx. rewrite Hlen, Nat.ltb_irrefl.
  match goal with |- context [checkJustifications step ?ctx ?js] =>
    assert (err step INACCESSIBLE_JUSTIFICATION ∈ checkJustifications step ctx js)
      as Hin
  end.
  { eapply checkJustifications_In; [exact Hj| |].
    - unfold getLineInfo. cbn [mbind option_bind ValidationContext.lines].
      unfold contextLines.
      erewrite list_find_imap_transfer; [reflexivity| |exact Hfind].
      by intros ? [].
    - cbn. exact Hacc. }
  destruct (checkJustifications _ _ _) as [|e errs]; [by apply elem_of_nil in Hin|done].
Qed.

Lemma subproofContains_le lines a t :
  subproofContains lines a t = true → (a ≤ t)%nat.
Proof.
  unfold subproofContains. destruct (lines !! a) as [la|]; [|done].
  destruct (ProofLineInfo.isSubproofStart la); [|done].
  destruct (ProofLineInfo.subproofEnd la); [|done].
  cbn [andb]. by intros [?%Nat.leb_le _]%andb_true_iff.
Qed.

(** A subproof other than the innermost one around a line: when it does
    not contain [c], the line may not be cited from [c]. *)
Lemma closed_outer_subproof_inaccessible steps t c d a b :
  (t ≤ c < length steps)%nat →
  subproofContains (buildProofLineInfo steps) a t = true →
  subproofContains (buildProofLineInfo steps) b t = true →
  (a < b)%nat →
  subproofContains (buildProofLineInfo steps) a c ≠ true →
  isLineAccessible (buildProofLineInfo steps) t c d = false.
Proof.
  intros Htc Ha Hb Hab Hnc. apply not_true_is_false. intros Hacc.
  apply Hnc. apply (proj1 (isLineAccessible_spec steps t c d ltac:(lia)) Hacc).
  apply subproofContains_spans in Ha, Hb; [|lia|lia].
  apply spans_encloses; [lia|done|].
  pose proof (spans_nested steps a b t ltac:(lia) Ha Hb Hab). lia.
Qed.

(** C2 (amended): at the validation of the step at index [c], a cited
    line at index [t ≤ c] is accessible when every subproof that contains
    [t] also contains [c], and it is inaccessible when some subproof that
    contains [t], other than the innermost one that contains it, does not
    contain [c]. For the assumption that opens a subproof the innermost
    subproof is the one it opens, which does not count: the opening
    assumption is how the subproof rules cite a subproof that has closed.
    An opening assumption, like a line at depth 0, is accessible exactly
    when every subproof that contains it, other than the one it opens,
    also contains [c]; a line at depth 0 is always accessible, and so is,
    from depth 0, the opening assumption of a subproof at depth 1. The
    halves that conclude that a line is accessible from what the subproofs
    contain are for proofs whose depth column is a nesting level. Once the
    arity check has passed, citing a line that resolves and is
    inaccessible puts INACCESSIBLE_JUSTIFICATION among the errors of the
    step. In particular, when the final step of a proof is at depth 0,
    passes the arity check and cites a line that lies inside a subproof
    other than the innermost one that contains it, the checker reports
    INACCESSIBLE_JUSTIFICATION for that step. *)
Theorem C2_accessibility :
  ∀ steps,
    let lines := buildProofLineInfo steps in
    let inside a t := subproofContains lines a t = true in
    (∀ t c d, (t ≤ c)%nat → lineDepth lines t = 0%nat →
       isLineAccessible lines t c d = true)
    ∧ (nestingLevels steps = true →
       ∀ t c d, (t ≤ c < length steps)%nat →
         (∀ a, inside a t → inside a c) →
         isLineAccessible lines t c d = true)
    ∧ (∀ t c d a b, (t ≤ c < length steps)%nat →
         inside a t → inside b t → (a < b)%nat → ¬ inside a c →
         isLineAccessible lines t c d = false)
    ∧ (nestingLevels steps = true →
       ∀ t c d, (t ≤ c < length steps)%nat →
         startsSubproof steps t = true ∨ stepDepth steps t = 0%nat →
         (isLineAccessible lines t c d = true
          ↔ ∀ a, a ≠ t → inside a t → inside a c))
    ∧ (∀ t c lt,
         (t ≤ c)%nat →
         lines !! t = Some lt →
         ProofLineInfo.isSubproofStart lt = true →
         ProofStep.depth (ProofLineInfo.step lt) = 1%nat →
         isLineAccessible lines t c 0 = true)
    ∧ (∀ premises lib c step j t l,
         length (ProofStep.justification step)
         = (getRequiredJustificationCount (ProofStep.rule step)).1 →
         j ∈ ProofStep.justification step →
         list_find (λ l, ProofStep.id (ProofLineInfo.step l) = j) (take (S c) lines)
         = Some (t, l) →
         isLineAccessible lines t c (ProofStep.depth step) = false →
         err step INACCESSIBLE_JUSTIFICATION ∈ checkStep lines premises lib c step)
    ∧ (∀ premises conclusion lib c step j t l a b,
         steps !! c = Some step →
         S c = length steps →
         ProofStep.depth step = 0%nat →
         length (ProofStep.justification step)
         = (getRequiredJustificationCount (ProofStep.rule step)).1 →
         j ∈ ProofStep.justification step →
         list_find (λ l, ProofStep.id (ProofLineInfo.step l) = j) (take (S c) lines)
         = Some (t, l) →
         inside a t → inside b t → (a < b)%nat →
         err step INACCESSIBLE_JUSTIFICATION
         ∈ ProofCheckResult.errors (checkProof steps premises conclusion lib)).
Proof.
  intros steps lines inside. subst lines inside. cbn beta. split_and!.
  - apply isLineAccessible_depth_0.
  - intros Hn t c d Htc Hall. apply isLineAccessible_spec; [lia|].
    intros a Henc. apply Hall. apply subproofContains_spans; [lia|].
    apply encloses_spans; [done|lia|done].
  - intros t c d a b Htc Ha Hb Hab Hnc.
    by apply (closed_outer_subproof_inaccessible steps t c d a b).
  - intros Hn t c d Htc Ht. rewrite isLineAccessible_spec by lia. split.
    + intros Hacc a Hne Ha. apply Hacc.
      apply subproofContains_spans in Ha; [|lia].
      destruct Ht as [Hs|H0].
      * pose proof Ha as (Hle & _).
        pose proof (spans_nested steps a t t ltac:(lia) Ha (spans_self steps t Hs)
                      ltac:(lia)).
        apply spans_encloses; [lia|done|lia].
      * pose proof (spans_depth_le steps a t ltac:(lia) Ha). lia.
    + intros Hall a Henc. pose proof Henc as (Hat & _). apply Hall; [lia|].
      apply subproofContains_spans; [lia|]. apply encloses_spans; [done|lia|done].
  - intros t c lt Hle Hlt Hstart Hd. unfold isLineAccessible.
    destruct (Nat.ltb_spec c t); [lia|].
    assert (lineDepth (buildProofLineInfo steps) t = 1%nat) as ->.
    { unfold lineDepth. by rewrite Hlt; cbn. }
    cbn [Nat.eqb].
    assert (isInSameSubproofBranch (buildProofLineInfo steps) t c = true) as ->;
      [|by destruct (_ <? _)%nat].
    unfold isInSameSubproofBranch, getSubproofAncestors.
    assert (lineDepth (buildProofLineInfo steps) t = 1%nat) as ->.
    { unfold lineDepth. by rewrite Hlt; cbn. }
    rewrite ancestorsLoop_depth_le_1; [done| |lia].
    apply buildProofLineInfo_starts.
  - intros premises lib c step j t l. apply inaccessible_reported.
  - intros premises conclusion lib c step j t l a b Hc Hlast Hd Hlen Hj Hfind Ha Hb Hab.
    rewrite checkProof_errors by (by intros ->).
    apply (elem_of_concat_imap _ steps c step); [done|].
    apply (inaccessible_reported _ premises lib c step j t l Hlen Hj Hfind).
    assert (t ≤ c)%nat as Htc.
    { apply list_find_Some in Hfind as (Ht%lookup_lt_Some & _).
      rewrite length_take in Ht. lia. }
    apply (closed_outer_subproof_inaccessible steps t c _ a b); [lia|done|done|done|].
    intros Hac. apply subproofContains_spans in Hac; [|lia].
    pose proof (spans_depth_le steps a c ltac:(lia) Hac) as Hpos.
    rewrite (stepDepth_lookup steps c step Hc) in Hpos. lia.
Qed.

Lemma C2_accessibility_witness :
  let lines := buildProofLineInfo Examples.citesNestedClosed in
  let final := Examples.makeStep (Or Examples.Q Examples.R) or_intro_l ["b"] 0 "d" in
  nestingLevels Examples.citesNestedClosed = true
  ∧ isLineAccessible lines 2 2 0 = true
  ∧ isLineAccessible lines 0 1 2 = true
  ∧ isLineAccessible lines 1 2 0 = false
  ∧ isLineAccessible lines 0 2 0 = true
  ∧ err final INACCESSIBLE_JUSTIFICATION
    ∈ ProofCheckResult.errors
        (checkProof Examples.citesNestedClosed [] (Or Examples.Q Examples.R) []).
Proof.
  cbv zeta.
  destruct (C2_accessibility Examples.citesNestedClosed)
    as (Hzero & Hopen & Hclosed & Hhandle & _ & _ & Hfinal).
  split_and!.
  - reflexivity.
  - apply Hzero; [lia|]. vm_compute. reflexivity.
  - apply (Hopen eq_refl 0%nat 1%nat 2%nat); [vm_compute; lia|].
    intros a Ha. pose proof (subproofContains_le _ _ _ Ha) as Hle.
    assert (a = 0%nat) as -> by lia. reflexivity.
  - apply (Hclosed 1%nat 2%nat 0%nat 0%nat 1%nat);
      [vm_compute; lia|reflexivity|reflexivity|lia|].
    vm_compute. discriminate.
  - apply (Hhandle eq_refl 0%nat 2%nat 0%nat); [vm_compute; lia|by left|].
    intros a Hne Ha. apply subproofContains_le in Ha. lia.
  - eapply (Hfinal [] (Or Examples.Q Examples.R) [] 2%nat _ (str "b") 1%nat _ 0%nat 1%nat);
      [reflexivity|reflexivity|reflexivity|reflexivity|left| |reflexivity|reflexivity|lia].
    vm_compute. reflexivity.
Defined.

(** C2 as stated fails: in the proof of [⊢ P → P] the final step, at depth
    0 and index 1, cites line 0, which lies inside the subproof [0..0] that
    was closed before it; the checker treats line 0 as accessible and
    reports no error at all. *)
Lemma C2_counterexample :
  let lines := buildProofLineInfo Examples.conditionalIntro in
  (ProofLineInfo.isSubproofStart <$> lines !! 0%nat) = Some true
  ∧ (lines !! 0%nat ≫= ProofLineInfo.subproofEnd) = Some 0%nat
  ∧ (ProofStep.depth <$> Examples.conditionalIntro !! 1%nat) = Some 0%nat
  ∧ (ProofStep.justification <$> Examples.conditionalIntro !! 1%nat) = Some [str "s1"]
  ∧ isLineAccessible lines 0 1 0 = true
  ∧ ProofCheckResult.errors
      (checkProof Examples.conditionalIntro [] (Implies Examples.P Examples.P) [])
    = [].
Proof. cbv zeta. split_and!; vm_compute; reflexivity. Qed.

(** The condition on the depth column is needed: where the depth jumps
    from 1 to 3 the walk of [getSubproofAncestors] collects the closed
    subproof [b], and the line [t] is not accessible from [u], although
    both subproofs that contain [t] contain [u]. *)
Lemma depth_jump_inaccessible :
  let lines := buildProofLineInfo Examples.depthJump in
  nestingLevels Examples.depthJump = false
  ∧ filter (λ a, subproofContains lines a 3 = true) (seq 0 5) = [0; 3]%nat
  ∧ filter (λ a, subproofContains lines a 4 = true) (seq 0 5) = [0; 3]%nat
  ∧ getSubproofAncestors lines 3 = [1; 0]%nat
  ∧ isLineAccessible lines 3 4 3 = false.
Proof. cbv zeta. split_and!; vm_compute; reflexivity. Qed.

End CheckerClaims.

(** * Where the checker is sound *)

Section DirectRules.
Import Validator Checker.

(** Turns the boolean tests of a rule into equations between formulas. *)
Local Ltac formula_tests :=
  repeat match goal with
    | H : negb _ = false |- _ => apply negb_false_iff in H
    | H : negb _ = true |- _ => apply negb_true_iff in H
    | H : _ || _ = false |- _ => apply orb_false_iff in H as [? ?]
    | H : _ && _ = true |- _ => apply andb_true_iff in H as [? ?]
    | H : _ || _ = true |- _ => apply orb_true_iff in H as [H|H]
    | H : _ && _ = false |- _ => apply andb_false_iff in H as [H|H]
    | H : formulaEquals _ _ = true |- _ => apply formulaEquals_spec in H
    end.

(** An accepted application of a direct rule is truth-preserving: a
    valuation under which every cited formula holds makes the formula of
    the step hold. *)
Lemma validateRuleApplication_sound step context (val : list N → bool) :
  directRule (ProofStep.rule step) = true →
  validateRuleApplication step context = [] →
  (∀ k f, (k < 2)%nat → getFormula context (ProofStep.justification step !! k) = Some f →
          classical val f = true) →
  classical val (ProofStep.formula step) = true.
Proof.
  destruct step as [id E rule just depth thm].
  cbn [ProofStep.rule ProofStep.formula ProofStep.justification].
  intros Hd Hok Hcited.
  pose proof (Hcited 0%nat) as H0. pose proof (Hcited 1%nat) as H1.
  unfold validateRuleApplication in Hok.
  cbn [ProofStep.rule ProofStep.formula ProofStep.justification] in Hok.
  destruct rule; try discriminate Hd; cbv beta iota zeta in Hok;
    destruct (getFormula context (just !! 0%nat)) as [J0|];
    destruct (getFormula context (just !! 1%nat)) as [J1|];
    try discriminate Hok;
    try specialize (H0 _ ltac:(lia) eq_refl); try specialize (H1 _ ltac:(lia) eq_refl);
    repeat case_match; try discriminate Hok; formula_tests; subst;
    cbn [classical] in *.
  all: repeat match goal with
         | H : _ && _ = true |- _ => apply andb_true_iff in H as [? ?]
         | H : negb _ || _ = true |- _ => apply orb_true_iff in H as [H|H]
         end.
  all: repeat match goal with
         | |- context [classical ?v ?f] =>
             is_var f; let b := fresh "b" in
             set (b := classical v f) in *; clearbody b; destruct b
         | H : context [classical ?v ?f] |- _ =>
             is_var f; let b := fresh "b" in
             set (b := classical v f) in *; clearbody b; destruct b
         end.
  all: repeat match goal with
         | H : context [?v ?n] |- _ =>
             is_var v; is_var n;
             match type of n with list N => idtac end;
             let b := fresh "b" in
             set (b := v n) in *; clearbody b; destruct b
         end.
  all: try done.
Qed.

End DirectRules.


(** X12: The line table [buildProofLineInfo] returns: line [k] carries step [k]
    and the index [k]; it is marked as the start of a subproof exactly
    when its step is an assumption at a depth above 0 that is at least as
    deep as the step before; a start has its [subproofEnd] set, at or
    after the start and within the proof, and no other line has one; and
    the subproofs are well nested: one that starts inside another ends
    inside it. *)
Theorem buildProofLineInfo_shape :
  ∀ steps,
    let lines := Checker.buildProofLineInfo steps in
    ProofLineInfo.step <$> lines = steps
    ∧ (∀ k l, lines !! k = Some l →
        ProofLineInfo.index l = k
        ∧ (ProofLineInfo.isSubproofStart l = true
           ↔ ProofStep.rule (ProofLineInfo.step l) = assumption
             ∧ (0 < ProofStep.depth (ProofLineInfo.step l))%nat
             ∧ (depthBefore lines k ≤ ProofStep.depth (ProofLineInfo.step l))%nat)
        ∧ (ProofLineInfo.isSubproofStart l = false → ProofLineInfo.subproofEnd l = None)
        ∧ (ProofLineInfo.isSubproofStart l = true →
             ∃ e, ProofLineInfo.subproofEnd l = Some e ∧ (k ≤ e < length steps)%nat))
    ∧ (∀ a b la lb ea,
         lines !! a = Some la → lines !! b = Some lb →
         ProofLineInfo.subproofEnd la = Some ea →
         ProofLineInfo.isSubproofStart lb = true →
         (a < b ≤ ea)%nat →
         ∃ eb, ProofLineInfo.subproofEnd lb = Some eb ∧ (eb ≤ ea)%nat).
Proof.
  intros steps lines.
  destruct (buildProofLineInfo_inv steps) as [(_ & _ & Hl) Hsteps].
  destruct (buildProofLineInfo_nested steps) as (_ & _ & Hnest).
  split_and!; [done| |done]. intros k l Hk.
  destruct (Hl k l Hk) as (? & ? & ? & _ & Hclosed).
  split_and!; [done|done|done|].
  intros Hs. destruct (Hclosed Hs) as [[]%elem_of_nil|?]. done.
Qed.

Section PlainProofs.
Import Validator Checker.

Lemma concat_imap_nil {A B} (g : nat → A → list B) (l : list A) i x :
  concat (imap g l) = [] → l !! i = Some x → g i x = [].
Proof.
  revert g i. induction l as [|y l IH]; intros g i Hnil Hi; [done|].
  rewrite imap_cons in Hnil. cbn [concat] in Hnil.
  apply app_eq_nil in Hnil as [H0 Hrest].
  destruct i as [|i]; simplify_eq/=; [done|].
  by apply (IH (g ∘ S) i).
Qed.

Lemma validateStep_nil step context :
  validateStep step context = [] →
  checkJustifications step context (ProofStep.justification step) = []
  ∧ validateRuleApplication step context = [].
Proof.
  unfold validateStep.
  destruct (getRequiredJustificationCount (ProofStep.rule step)) as [mn mx].
  destruct (_ <? mn)%nat; [done|]. destruct (mx <? _)%nat; [done|].
  by destruct (checkJustifications _ _ _).
Qed.

Lemma contextLines_lookup lines i d k l :
  contextLines lines i d !! k = Some l →
  (k ≤ i)%nat
  ∧ ∃ l0, lines !! k = Some l0 ∧ ProofLineInfo.step l = ProofLineInfo.step l0.
Proof.
  unfold contextLines. rewrite list_lookup_imap.
  intros (l0 & [Hl0 Hk]%lookup_take_Some & ->)%fmap_Some.
  split; [lia|]. by exists l0.
Qed.

Lemma getFormula_resolves context j f :
  getFormula context j = Some f →
  ∃ jid k l, j = Some jid
             ∧ ValidationContext.lines context !! k = Some l
             ∧ ProofStep.id (ProofLineInfo.step l) = jid
             ∧ f = ProofStep.formula (ProofLineInfo.step l).
Proof.
  unfold getFormula, getLineInfo. destruct j as [jid|]; [|done]. cbn.
  destruct (list_find _ _) as [[k l]|] eqn:Hfind; [|done]. cbn. intros [= <-].
  apply list_find_Some in Hfind as (Hk & Hid & _). by exists jid, k, l.
Qed.

Lemma isPremise_elem_of f premises : isPremise f premises = true → f ∈ premises.
Proof.
  unfold isPremise. intros (p & Hp & Heq)%existsb_exists.
  apply formulaEquals_spec in Heq as ->. by apply list_elem_of_In.
Qed.

(** In an accepted proof of plain steps every line is true under every
    valuation that makes the premises true. *)
Lemma plain_lines_true steps premises lib (val : list N → bool) :
  (∀ s, s ∈ steps → plainStep premises s) →
  (∀ i s, steps !! i = Some s →
          checkStep (buildProofLineInfo steps) premises lib i s = []) →
  (∀ p, p ∈ premises → classical val p = true) →
  ∀ i s, steps !! i = Some s → classical val (ProofStep.formula s) = true.
Proof.
  intros Hplain Hok Hprem i.
  induction i as [i IH] using lt_wf_ind. intros s Hs.
  pose proof (Hplain s (list_elem_of_lookup_2 _ _ _ Hs)) as Hp.
  pose proof (Hok i s Hs) as Hcheck.
  unfold plainStep in Hp. unfold checkStep in Hcheck.
  destruct (bool_decide_reflect (ProofStep.rule s = assumption)) as [Hass|Hnass].
  { destruct Hp as [_ Hp]. by apply Hprem, isPremise_elem_of. }
  destruct Hp as [Hdirect Hself]. cbn [andb] in Hcheck.
  destruct (bool_decide_reflect (ProofStep.rule s = theorem)) as [Hthm|_].
  { rewrite Hthm in Hdirect. done. }
  apply validateStep_nil in Hcheck as [_ Hrule].
  eapply validateRuleApplication_sound; [exact Hdirect|exact Hrule|].
  intros k f _ Hf.
  apply getFormula_resolves in Hf as (jid & k' & l & Hj & Hl & Hid & ->).
  cbn [ValidationContext.lines] in Hl.
  apply contextLines_lookup in Hl as (Hle & l0 & Hl0 & Hstep).
  destruct (buildProofLineInfo_inv steps) as [_ Hsteps].
  assert (steps !! k' = Some (ProofLineInfo.step l0)) as Hk'.
  { rewrite <- Hsteps at 1. by rewrite list_lookup_fmap, Hl0. }
  rewrite Hstep in *.
  destruct (decide (k' = i)) as [->|Hne].
  - exfalso. rewrite Hs in Hk'. injection Hk' as ->. apply Hself.
    rewrite Hid. by eapply list_elem_of_lookup_2.
  - apply (IH k'); [lia|done].
Qed.

(** X13: A proof of plain steps that the checker accepts is sound: under every
    valuation that makes the premises true every line is true, and so is
    the conclusion when the proof is complete; with at most 30 variables
    in the argument, [entails] then returns [true]. *)
Theorem plain_proofs_sound :
  ∀ steps premises conclusion lib,
    (∀ s, s ∈ steps → plainStep premises s) →
    ProofCheckResult.valid (checkProof steps premises conclusion lib) = true →
    (∀ val, (∀ p, p ∈ premises → classical val p = true) →
            ∀ s, s ∈ steps → classical val (ProofStep.formula s) = true)
    ∧ (ProofCheckResult.complete (checkProof steps premises conclusion lib) = true →
       (∀ val, (∀ p, p ∈ premises → classical val p = true) →
               classical val conclusion = true)
       ∧ ((length (TruthTable.allVars premises conclusion) ≤ 30)%nat →
          TruthTable.entails premises conclusion = Some true)).
Proof.
  intros steps premises conclusion lib Hplain Hvalid.
  assert (steps ≠ []) as Hne.
  { intros ->. cbn in Hvalid. done. }
  apply checkProof_valid in Hvalid; [|done].
  rewrite checkProof_errors in Hvalid by done.
  assert (∀ val, (∀ p, p ∈ premises → classical val p = true) →
            ∀ s, s ∈ steps → classical val (ProofStep.formula s) = true) as Hlines.
  { intros val Hprem s (i & Hi)%list_elem_of_lookup.
    eapply plain_lines_true; try done.
    intros j sj Hj. by eapply concat_imap_nil. }
  split; [done|]. intros Hcomplete.
  assert (∀ val, (∀ p, p ∈ premises → classical val p = true) →
            classical val conclusion = true) as Hsem.
  { intros val Hprem. unfold checkProof in Hcomplete.
    destruct (last steps) as [lastStep|] eqn:Hlast; [|done].
    cbn in Hcomplete. apply andb_true_iff in Hcomplete as [_ Heq].
    apply formulaEquals_spec in Heq as <-.
    apply Hlines; [done|]. by apply last_Some_elem_of. }
  split; [done|]. intros Hn.
  destruct (entails_spec premises conclusion Hn) as (b & Hb & Hiff).
  rewrite Hb. f_equal. by apply Hiff.
Qed.

Lemma plain_proofs_sound_witness :
  TruthTable.entails [Examples.P; Implies Examples.P Examples.Q] Examples.Q = Some true.
Proof.
  refine (proj2 (proj2 (plain_proofs_sound
    [ Examples.makeStep Examples.P assumption [] 0 "s1";
      Examples.makeStep (Implies Examples.P Examples.Q) assumption [] 0 "s2";
      Examples.makeStep Examples.Q implies_elim ["s2"; "s1"] 0 "s3" ]
    [Examples.P; Implies Examples.P Examples.Q] Examples.Q [] _ _) _) _).
  - intros s Hs. rewrite !elem_of_cons, elem_of_nil in Hs.
    destruct Hs as [->|[->|[->|[]]]]; unfold plainStep; cbn.
    + split; [done|]. vm_compute. reflexivity.
    + split; [done|]. vm_compute. reflexivity.
    + split; [done|]. rewrite !elem_of_cons, elem_of_nil.
      intros [H|[H|[]]]; vm_compute in H; discriminate H.
  - vm_compute. reflexivity.
  - vm_compute. reflexivity.
  - vm_compute. lia.
Defined.

End PlainProofs.

(** * Accessibility does not depend on later steps *)

Section AccessibilityStable.
Import Validator Checker.

Lemma buildLoop_app xs ys i prevDepth stk L :
  buildLoop i prevDepth (xs ++ ys) stk L
  = buildLoop (i + length xs) (default prevDepth (ProofStep.depth <$> last xs)) ys
      (buildLoop i prevDepth xs stk L).1 (buildLoop i prevDepth xs stk L).2.
Proof.
  revert i prevDepth stk L. induction xs as [|x xs IH]; intros i prevDepth stk L.
  - cbn. by rewrite Nat.add_0_r.
  - cbn [app buildLoop]. destruct (closeWhile _ _ _ stk L) as [stk' L'].
    rewrite IH. cbn [length]. rewrite Nat.add_succ_r, last_cons.
    by destruct (last xs).
Qed.

Lemma ancestorsLoop_static A B k d :
  (∀ j, (j < k)%nat → lineStatic <$> B !! j = lineStatic <$> A !! j) →
  ancestorsLoop B k d = ancestorsLoop A k d.
Proof.
  revert d. induction k as [|i IH]; intros d Hs; [done|]. cbn [ancestorsLoop].
  pose proof (Hs i ltac:(lia)) as Hi.
  destruct (B !! i) as [b|]; destruct (A !! i) as [a|]; simplify_eq/=.
  - repeat match goal with H : _ b = _ a |- _ => rewrite H end.
    destruct (_ && _); [f_equal|]; apply IH; intros; apply Hs; lia.
  - apply IH; intros; apply Hs; lia.
Qed.

Lemma forallb_ext_elem_of {X} (g h : X → bool) (l : list X) :
  (∀ x, x ∈ l → g x = h x) → forallb g l = forallb h l.
Proof.
  induction l as [|x l IH]; intros H; [done|]. cbn [forallb].
  rewrite (H x) by left. rewrite IH; [done|]. intros; apply H. by right.
Qed.

(** Two tables that agree before [n] on the static fields, and on the
    ends of subproofs except that an end [n - 1] may have become [n], give
    the same accessibility to every step before [n]. *)
Lemma isLineAccessible_related A B n t c d :
  (∀ k, (k < n)%nat →
     lineStatic <$> B !! k = lineStatic <$> A !! k
     ∧ (B !! k ≫= ProofLineInfo.subproofEnd = A !! k ≫= ProofLineInfo.subproofEnd
        ∨ (A !! k ≫= ProofLineInfo.subproofEnd = Some (n - 1)%nat
           ∧ B !! k ≫= ProofLineInfo.subproofEnd = Some n))) →
  (c < n)%nat →
  isLineAccessible B t c d = isLineAccessible A t c d.
Proof.
  intros Hrel Hc. unfold isLineAccessible.
  destruct (Nat.ltb_spec c t) as [|Htc]; [done|].
  rewrite (lineDepth_static B A t) by (apply Hrel; lia).
  assert (isInSameSubproofBranch B t c = isInSameSubproofBranch A t c) as ->;
    [|done].
  unfold isInSameSubproofBranch, getSubproofAncestors.
  rewrite (lineDepth_static B A t) by (apply Hrel; lia).
  rewrite (ancestorsLoop_static A B) by (intros; apply Hrel; lia).
  apply forallb_ext_elem_of. intros a [Ha _]%ancestorsLoop_spec. f_equal.
  unfold ancestorExcludes.
  destruct (Hrel a ltac:(lia)) as [_ [->|[-> ->]]]; [done|].
  destruct (Nat.ltb_spec (n - 1) c); [lia|]. destruct (Nat.ltb_spec n c); [lia|]. done.
Qed.

Lemma bind_subproofEnd (L : list ProofLineInfo.t) k :
  L !! k ≫= ProofLineInfo.subproofEnd = mjoin (ProofLineInfo.subproofEnd <$> L !! k).
Proof. by destruct (L !! k). Qed.

(** The table of a proof and the table of the proof with one more step. *)
Lemma buildProofLineInfo_snoc steps s k :
  (k < length steps)%nat →
  lineStatic <$> buildProofLineInfo (steps ++ [s]) !! k
  = lineStatic <$> buildProofLineInfo steps !! k
  ∧ (buildProofLineInfo (steps ++ [s]) !! k ≫= ProofLineInfo.subproofEnd
     = buildProofLineInfo steps !! k ≫= ProofLineInfo.subproofEnd
     ∨ (buildProofLineInfo steps !! k ≫= ProofLineInfo.subproofEnd
        = Some (length steps - 1)%nat
        ∧ buildProofLineInfo (steps ++ [s]) !! k ≫= ProofLineInfo.subproofEnd
          = Some (length steps))).
Proof.
  intros Hk. unfold buildProofLineInfo. rewrite buildLoop_app.
  destruct (buildLoop_inv steps 0 0 [] []) as [(Hlen & Hstk & _) _].
  { split_and!; [done|constructor|]. intros j l Hj. done. }
  { done. }
  destruct (buildLoop 0 0 steps [] []) as [stk L].
  cbn [fst snd Nat.add] in *. cbn [buildLoop].
  (* the table of [steps] *)
  pose proof (closeWhile_fields (λ _, true) (length L - 1) (length L) stk L)
    as (poppedA & HstkA & HfA).
  pose proof (closeWhile_all (length L - 1) (length L) stk L) as HnilA.
  destruct (closeWhile (λ _, true) _ _ stk L) as [stkA LA].
  cbn [fst snd] in *. subst stkA. rewrite app_nil_r in HstkA. subst poppedA.
  (* the turn of the loop for [s] *)
  match goal with |- context [closeWhile ?c ?e ?b stk L] =>
    pose proof (closeWhile_fields c e b stk L) as (popped1 & Hstk1 & Hf1);
    pose proof (closeWhile_length c e b stk L) as Hlen1;
    destruct (closeWhile c e b stk L) as [stk1 L1]
  end.
  cbn [fst snd] in *.
  match goal with |- context [closeWhile (λ _, true) ?e ?b ?stk2 (L1 ++ [?info])] =>
    pose proof (closeWhile_fields (λ _, true) e b stk2 (L1 ++ [info]))
      as (popped2 & Hstk2 & Hf2);
    pose proof (closeWhile_all e b stk2 (L1 ++ [info])) as Hnil2;
    assert (∀ j, j ∈ stk2.*1 → j = length steps ∨ j ∈ stk1.*1) as Hmem2;
    [|destruct (closeWhile (λ _, true) e b stk2 (L1 ++ [info])) as [stkB LB]]
  end.
  { intros j. destruct (_ && _); [|by right].
    cbn [fmap list_fmap fst]. rewrite elem_of_cons. intros [->|?]; [by left|by right]. }
  cbn [fst snd] in *. subst stkB. rewrite app_nil_r in Hstk2.
  rewrite length_app, Hlen1, Hlen in Hf2. cbn [length] in Hf2.
  replace (length steps + 1 - 1)%nat with (length steps) in Hf2 by lia.
  rewrite Hlen in HfA.
  destruct (markSubproofEnds_fields LB k) as [HmB1 HmB2].
  destruct (markSubproofEnds_fields LA k) as [HmA1 HmA2].
  destruct (HfA k) as [HA1 HA2]. destruct (Hf1 k) as [H11 H12].
  destruct (Hf2 k) as [H21 H22].
  rewrite lookup_app_l in H21, H22 by lia.
  destruct (lookup_lt_is_Some_2 L k ltac:(lia)) as [l Hl].
  rewrite !bind_subproofEnd, HmB1, HmB2, HmA1, HmA2, H21, H11, HA1, H22, HA2.
  split; [done|].
  rewrite Hl in *. cbn [fmap option_fmap option_map mjoin option_join] in *.
  destruct (L1 !! k) as [l1|] eqn:Hl1; [|done].
  cbn [fmap option_fmap option_map mjoin option_join] in *.
  assert (k ∈ stk.*1 ↔ k ∈ popped1.*1 ∨ k ∈ stk1.*1) as Hsplit
    by (by rewrite Hstk1, fmap_app, elem_of_app).
  assert (k ∈ popped2.*1 ↔ k ∈ stk1.*1) as Hin2.
  { rewrite <- Hstk2. split.
    - intros [->|?]%Hmem2; [lia|done].
    - intros ?. destruct (_ && _); [cbn; by right|done]. }
  destruct (decide (k ∈ stk.*1)) as [Hin|Hnin];
    destruct (decide (k ∈ popped2.*1)) as [Hp2|Hp2];
    destruct (decide (k ∈ popped1.*1)) as [Hp1|Hp1];
    cbn [mjoin option_join]; try (by right); try (by left); try tauto.
  all: left; congruence.
Qed.

Lemma isLineAccessible_snoc steps s t c d :
  (c < length steps)%nat →
  isLineAccessible (buildProofLineInfo (steps ++ [s])) t c d
  = isLineAccessible (buildProofLineInfo steps) t c d.
Proof.
  intros Hc. apply (isLineAccessible_related _ _ (length steps)); [|done].
  intros k Hk. by apply buildProofLineInfo_snoc.
Qed.

(** X14: Accessibility is decided by the steps up to the citing one: whether
    the line at index [t] may be cited from the step at index [c] is the
    same in a proof and in every extension of the proof by further
    steps. *)
Theorem accessibility_ignores_later_steps :
  ∀ steps more t c d,
    (c < length steps)%nat →
    isLineAccessible (buildProofLineInfo (steps ++ more)) t c d
    = isLineAccessible (buildProofLineInfo steps) t c d.
Proof.
  intros steps more t c d Hc.
  induction more as [|s more IH] using rev_ind.
  - by rewrite app_nil_r.
  - rewrite app_assoc, isLineAccessible_snoc; [done|]. rewrite length_app. lia.
Qed.

Lemma accessibility_ignores_later_steps_witness :
  isLineAccessible
    (buildProofLineInfo
       (Examples.citesClosedSubproof
        ++ [Examples.makeStep Examples.P assumption [] 1 "s4"])) 1 2 0
  = isLineAccessible (buildProofLineInfo Examples.citesClosedSubproof) 1 2 0.
Proof.
  apply (accessibility_ignores_later_steps Examples.citesClosedSubproof
           [Examples.makeStep Examples.P assumption [] 1 "s4"] 1 2 0).
  cbn. lia.
Defined.

End AccessibilityStable.

(** * Rules and the steps they accept *)

Section RuleFacts.
Import Validator Checker.

(** X15: A step that applies a direct rule and passes [validateStep] follows
    from the lines it cites: a valuation under which the formula of every
    cited line holds makes the formula of the step hold. *)
Theorem direct_rules_preserve_truth :
  ∀ step context (val : list N → bool),
    directRule (ProofStep.rule step) = true →
    validateStep step context = [] →
    (∀ j l, j ∈ ProofStep.justification step →
            getLineInfo context (Some j) = Some l →
            classical val (ProofStep.formula (ProofLineInfo.step l)) = true) →
    classical val (ProofStep.formula step) = true.
Proof.
  intros step context val Hd [_ Hrule]%validateStep_nil Hcited.
  eapply validateRuleApplication_sound; [done|done|].
  intros k f _ Hf. unfold getFormula in Hf.
  destruct (ProofStep.justification step !! k) as [j|] eqn:Hj; [|done].
  destruct (getLineInfo context (Some j)) as [l|] eqn:Hl; [|done].
  cbn in Hf. injection Hf as <-.
  eapply Hcited; [|done]. by eapply list_elem_of_lookup_2.
Qed.

Lemma direct_rules_preserve_truth_witness :
  classical (λ v, bool_decide (v = str "P")) Examples.P = true.
Proof.
  apply (direct_rules_preserve_truth
           (Examples.makeStep Examples.P and_elim_l ["s1"] 0 "s2")
           (ValidationContext.mk
              [ProofLineInfo.mk
                 (Examples.makeStep (And Examples.P (Not Examples.Q)) assumption [] 0 "s1")
                 0 true false false None]
              1 0 [])).
  - reflexivity.
  - vm_compute. reflexivity.
  - intros j l Hj Hl. cbn in Hj. apply list_elem_of_singleton in Hj as ->.
    vm_compute in Hl. injection Hl as <-. vm_compute. reflexivity.
Defined.

Lemma subproofOf_Some l s e :
  subproofOf l = Some (s, e) →
  l = Some s ∧ ProofLineInfo.isSubproofStart s = true
  ∧ ProofLineInfo.subproofEnd s = Some e.
Proof.
  unfold subproofOf. destruct l as [s'|]; [|done].
  destruct (ProofLineInfo.isSubproofStart s') eqn:Hs; [|done].
  destruct (ProofLineInfo.subproofEnd s') eqn:He; [|done].
  by intros [= -> ->].
Qed.

(** X16: [usesSubproofJustification] agrees with [validateRuleApplication]:
    only the rules it names report an error about a subproof, and each of
    them accepts a step only when the lines it cites as subproofs (the
    second and third for [or_elim], the first otherwise) open a subproof
    whose recorded end lies within the lines up to the step. *)
Theorem subproof_rules_cite_subproofs :
  ∀ step context,
    (∀ e, e ∈ validateRuleApplication step context →
          isSubproofCode (ValidationError.code e) = true →
          usesSubproofJustification (ProofStep.rule step) = true)
    ∧ (usesSubproofJustification (ProofStep.rule step) = true →
       validateRuleApplication step context = [] →
       ∀ k, (if bool_decide (ProofStep.rule step = or_elim)
             then k = 1%nat ∨ k = 2%nat else k = 0%nat) →
            ∃ l e, getLineInfo context (ProofStep.justification step !! k) = Some l
                   ∧ ProofLineInfo.isSubproofStart l = true
                   ∧ ProofLineInfo.subproofEnd l = Some e
                   ∧ is_Some (lineFormula context e)).
Proof.
  intros step context. split.
  - intros e He Hcode. unfold validateRuleApplication in He.
    destruct (ProofStep.rule step); try done;
      repeat case_match;
      try (by apply elem_of_nil in He);
      apply list_elem_of_singleton in He as ->; discriminate Hcode.
  - intros Huses Hok k Hk. unfold validateRuleApplication in Hok.
    destruct (ProofStep.rule step); try discriminate Huses;
      first [rewrite bool_decide_eq_true_2 in Hk by done
            |rewrite bool_decide_eq_false_2 in Hk by done].
    + (* or_elim *)
      destruct (getFormula context _) as [[]|]; try discriminate Hok.
      destruct (getLineInfo context (ProofStep.justification step !! 1%nat))
        as [s1|] eqn:H1; [|discriminate Hok].
      destruct (getLineInfo context (ProofStep.justification step !! 2%nat))
        as [s2|] eqn:H2; [|discriminate Hok].
      destruct (subproofOf (Some s1)) as [[? e1]|] eqn:Hs1; [|discriminate Hok].
      apply subproofOf_Some in Hs1 as ([= <-] & ? & ?).
      destruct (negb (formulaEquals _ _)); [discriminate Hok|].
      destruct (lineFormula context e1) eqn:Hc1; [|discriminate Hok].
      destruct (negb (formulaEquals _ _)); [discriminate Hok|].
      destruct (subproofOf (Some s2)) as [[? e2]|] eqn:Hs2; [|discriminate Hok].
      apply subproofOf_Some in Hs2 as ([= <-] & ? & ?).
      destruct (negb (formulaEquals _ _)); [discriminate Hok|].
      destruct (lineFormula context e2) eqn:Hc2; [|discriminate Hok].
      destruct Hk as [-> | ->].
      * exists s1, e1. rewrite H1, Hc1. eauto.
      * exists s2, e2. rewrite H2, Hc2. eauto.
    + (* implies_intro *)
      subst k. destruct (subproofOf _) as [[s e]|] eqn:Hs; [|discriminate Hok].
      apply subproofOf_Some in Hs as (? & ? & ?).
      destruct (ProofStep.formula step); try discriminate Hok.
      destruct (negb (formulaEquals _ _)); [discriminate Hok|].
      destruct (lineFormula context e) eqn:Hc; [|discriminate Hok].
      exists s, e. eauto.
    + (* not_intro *)
      subst k. destruct (subproofOf _) as [[s e]|] eqn:Hs; [|discriminate Hok].
      apply subproofOf_Some in Hs as (? & ? & ?).
      destruct (ProofStep.formula step); try discriminate Hok.
      destruct (negb (formulaEquals _ _)); [discriminate Hok|].
      destruct (lineFormula context e) eqn:Hc; [|discriminate Hok].
      exists s, e. eauto.
    + (* raa *)
      subst k. destruct (subproofOf _) as [[s e]|] eqn:Hs; [|discriminate Hok].
      apply subproofOf_Some in Hs as (? & ? & ?).
      destruct (ProofStep.formula (ProofLineInfo.step s)); try discriminate Hok.
      destruct (negb (formulaEquals _ _)); [discriminate Hok|].
      destruct (lineFormula context e) eqn:Hc; [|discriminate Hok].
      exists s, e. eauto.
Qed.

(** X17: [validateNewStep] agrees with [checkProof] on the step it is given:
    when the new step is no theorem citation, the errors of
    [checkProof] for the extended proof are the errors of the earlier steps
    followed by the errors [validateNewStep] returns. *)
Theorem validateNewStep_is_last_step_of_checkProof :
  ∀ existingSteps newStep premises conclusion lib,
    ProofStep.rule newStep ≠ theorem →
    ProofCheckResult.errors
      (checkProof (existingSteps ++ [newStep]) premises conclusion lib)
    = concat (imap (checkStep (buildProofLineInfo (existingSteps ++ [newStep]))
                      premises lib) existingSteps)
      ++ validateNewStep existingSteps newStep premises.
Proof.
  intros existing newStep premises conclusion lib Hrule.
  rewrite checkProof_errors by (by destruct existing).
  rewrite imap_app, concat_app. f_equal.
  cbn [imap concat]. rewrite app_nil_r, Nat.add_0_r.
  unfold validateNewStep, checkStep.
  rewrite length_app. cbn [length].
  replace (length existing + 1 - 1)%nat with (length existing) by lia.
  by rewrite (bool_decide_eq_false_2 _ Hrule).
Qed.

Lemma validateNewStep_is_last_step_of_checkProof_witness :
  ProofCheckResult.errors
    (checkProof ([Examples.makeStep Examples.P assumption [] 1 "s1"]
                 ++ [Examples.makeStep (Implies Examples.P Examples.P) implies_intro ["s1"] 0 "s2"])
       [] (Implies Examples.P Examples.P) [])
  = concat (imap (checkStep
                    (buildProofLineInfo
                       ([Examples.makeStep Examples.P assumption [] 1 "s1"]
                        ++ [Examples.makeStep (Implies Examples.P Examples.P)
                              implies_intro ["s1"] 0 "s2"]))
                    [] [])
              [Examples.makeStep Examples.P assumption [] 1 "s1"])
    ++ validateNewStep [Examples.makeStep Examples.P assumption [] 1 "s1"]
         (Examples.makeStep (Implies Examples.P Examples.P) implies_intro ["s1"] 0 "s2") [].
Proof.
  apply validateNewStep_is_last_step_of_checkProof. discriminate.
Defined.

End RuleFacts.

(** * More on the lexer *)

Section LexerContent.
Import Lexer.

Lemma isAlphaNumeric_not_space c : isAlphaNumeric c = true → isSpace c = false.
Proof.
  unfold isAlphaNumeric, isAlpha, isSpace. intros H.
  assert (48 ≤ c ≤ 122)%N as Hc.
  { repeat match type of H with
      | context [(?a <=? ?b)%N] => destruct (N.leb_spec a b); cbn in H
      end; try done; lia. }
  repeat match goal with
    | |- context [(?a <=? ?b)%N] => destruct (N.leb_spec a b); try lia
    | |- context [(?a =? ?b)%N] => destruct (N.eqb_spec a b); try lia
    end.
Qed.

Lemma takeWhile_Forall test s : Forall (λ c, test c = true) (takeWhile test s).
Proof.
  induction s as [|c s IH]; [constructor|]. cbn [takeWhile].
  destruct (test c) eqn:Hc; [by constructor|constructor].
Qed.

Lemma takeWhile_all test s : Forall (λ c, test c = true) s → takeWhile test s = s.
Proof.
  induction 1 as [|c s Hc _ IH]; [done|]. cbn [takeWhile]. by rewrite Hc, IH.
Qed.

Lemma filter_keep_all (s : list N) :
  Forall (λ c, isSpace c = false) s → filter (λ c, isSpace c = false) s = s.
Proof.
  induction 1 as [|c s Hc _ IH]; [done|]. by rewrite filter_cons_True, IH.
Qed.

Lemma filter_drop_spaces (s : list N) :
  Forall (λ c, isSpace c = true) s → filter (λ c, isSpace c = false) s = [].
Proof.
  induction 1 as [|c s Hc _ IH]; [done|].
  rewrite filter_cons_False; [done|]. congruence.
Qed.

(** No token holds white space. *)
Lemma scanToken_nonspace unread position t q :
  scanToken unread position = (t, q) →
  match unread with c :: _ => isSpace c = false | [] => True end →
  Forall (λ c, isSpace c = false) (Token.value t).
Proof.
  unfold scanToken. destruct unread as [|char rest]; [by intros [= <- <-]|].
  intros Hscan Hc. revert Hscan.
  repeat case_match; intros [= <- <-]; cbn [Token.value];
    repeat match goal with
      | H : (_ =? _)%N = true |- _ => apply N.eqb_eq in H; subst
      end;
    try (by repeat constructor).
  rename select (isAlpha _ = true) into Ha.
  cbn [takeWhile]. rewrite (isAlpha_isAlphaNumeric _ Ha).
  constructor; [done|].
  eapply Forall_impl; [apply takeWhile_Forall|]. apply isAlphaNumeric_not_space.
Qed.

Lemma tokenizeLoop_values fuel input position :
  (position ≤ length input)%nat →
  (length input - position < fuel)%nat →
  concat (Token.value <$> tokenizeLoop fuel input position)
  = filter (λ c, isSpace c = false) (drop position input).
Proof.
  revert position. induction fuel as [|fuel IH]; intros position Hle Hfuel; [lia|].
  cbn [tokenizeLoop].
  destruct (nextToken input position) as [t q] eqn:Hnext.
  pose proof (nextToken_spec _ _ _ _ Hle Hnext) as (Hp & Hq & Hqle & Htake & Heof & Hval).
  unfold nextToken in Hnext.
  pose proof (scanToken_spec _ _ _ _ Hnext) as (Hpos & _ & _ & Hnil & _).
  assert (drop position input
          = takeWhile isSpace (drop position input) ++ drop (Token.position t) input)
    as Hsplit.
  { rewrite Hpos. unfold skipWhitespace.
    pose proof (take_drop (length (takeWhile isSpace (drop position input)))
                  (drop position input)) as Htd.
    rewrite takeWhile_prefix, drop_drop in Htd. by rewrite Htd. }
  assert (filter (λ c, isSpace c = false) (takeWhile isSpace (drop position input)) = [])
    as Hws by apply filter_drop_spaces, takeWhile_Forall.
  rewrite Hsplit, filter_app, Hws. cbn [app].
  destruct (decide (Token.type t = EOF)) as [Ht|Ht].
  - cbn. rewrite (proj1 Hval Ht). cbn.
    apply Hnil in Ht. rewrite Hpos, Ht. done.
  - assert (0 < length (Token.value t))%nat.
    { destruct (Token.value t); [by destruct Ht; apply Hval|cbn; lia]. }
    cbn [fmap list_fmap concat]. rewrite IH by lia.
    assert (Forall (λ c, isSpace c = false) (Token.value t)) as Hns.
    { eapply scanToken_nonspace; [exact Hnext|].
      destruct (drop (skipWhitespace input position) input) as [|c s] eqn:Hd; [done|].
      unfold skipWhitespace in Hd. rewrite <- drop_drop in Hd.
      by eapply takeWhile_drop_head. }
    rewrite <- (take_drop (length (Token.value t)) (drop (Token.position t) input)).
    rewrite Htake, filter_app, (filter_keep_all (Token.value t) Hns).
    by rewrite drop_drop, Hq.
Qed.

(** X18: The lexer drops white space and nothing else: the values of the
    tokens of an input, put one after the other, spell the input with its
    white space removed. *)
Theorem tokens_spell_the_input :
  ∀ input,
    concat (Token.value <$> tokenize input)
    = filter (λ c, isSpace c = false) input.
Proof.
  intros input. unfold tokenize. rewrite tokenizeLoop_values by lia. done.
Qed.

Lemma tokenize_spaces input :
  Forall (λ c, isSpace c = true) input →
  tokenize input = [Token.mk EOF [] (length input)].
Proof.
  intros Hall. unfold tokenize. cbn [tokenizeLoop].
  unfold nextToken, skipWhitespace. rewrite drop_0.
  rewrite (takeWhile_all isSpace input Hall). cbn [Nat.add].
  rewrite drop_all. done.
Qed.

End LexerContent.

(** * More on the parser *)

(** X19: An input of white space only, the empty input included, is rejected:
    [parseFormula] fails at the end of the input, where it expected a
    variable, the bottom sign or an opening parenthesis, and [parse]
    raises. *)
Theorem blank_input_is_rejected :
  ∀ input,
    Forall (λ c, Lexer.isSpace c = true) input →
    parseFormula input
    = Some (Parser.failure {| Parser.message := Parser.ExpectedPrimary [];
                              Parser.errorPosition := length input |})
    ∧ parse input = None.
Proof.
  intros input Hall. unfold parse, parseFormula. by rewrite tokenize_spaces.
Qed.

Lemma blank_input_is_rejected_witness :
  parseFormula (str "  ")
  = Some (Parser.failure {| Parser.message := Parser.ExpectedPrimary [];
                            Parser.errorPosition := 2 |})
  ∧ parse (str "  ") = None.
Proof.
  apply (blank_input_is_rejected (str "  ")). by repeat constructor.
Defined.

(** X20: The parser ends on every input: [parseFormula] returns a success or a
    failure for every string, each loop turn and each pair of parentheses
    consuming a token. *)
Theorem parser_always_returns :
  ∀ input, ∃ result, parseFormula input = Some result.
Proof. intros input. apply parseFormula_total. Qed.

Section ParserInside.
Import Parser.
Variable tokens : list Token.t.
Hypothesis tokens_end : Token.type <$> last tokens = Some EOF.

Lemma current_inside p :
  (p < length tokens)%nat → tokens !! p = Some (current tokens p).
Proof.
  intros Hp. unfold current.
  destruct (lookup_lt_is_Some_2 tokens p Hp) as [t ->]. done.
Qed.

Lemma advance_inside p :
  (p < length tokens)%nat → (advance tokens p < length tokens)%nat.
Proof using tokens_end.
  intros Hp. unfold advance.
  destruct (decide (Token.type (current tokens p) = EOF)) as [|Hne]; [done|].
  destruct (decide (S p = length tokens)) as [Heq|]; [|lia].
  exfalso. apply Hne.
  rewrite last_lookup in tokens_end.
  replace (pred (length tokens)) with p in tokens_end by lia.
  rewrite (current_inside p Hp) in tokens_end. cbn in tokens_end. congruence.
Qed.

Lemma throwAt_inside p msg : (p < length tokens)%nat → Inside tokens (throwAt tokens p msg).
Proof.
  intros Hp. cbn. exists p, (current tokens p). split; [by apply current_inside|done].
Qed.

Lemma Inside_bind (m : run (Formula * nat)) (k : Formula * nat → run (Formula * nat)) :
  Inside tokens m →
  (∀ f q, (q < length tokens)%nat → Inside tokens (k (f, q))) →
  Inside tokens (m ≫= k).
Proof. destruct m as [[f q]| |]; cbn; auto. Qed.

Lemma parsePrimary_inside handler p :
  (∀ q, (q < length tokens)%nat → Inside tokens (handler q)) →
  (p < length tokens)%nat →
  Inside tokens (parsePrimary tokens handler p).
Proof using tokens_end.
  intros Hh Hp. unfold parsePrimary.
  pose proof (advance_inside p Hp).
  repeat case_match; try done; try (by apply throwAt_inside).
  apply Inside_bind; [by apply Hh|].
  intros f q Hq. destruct (negb _); [by apply throwAt_inside|].
  cbn. by apply advance_inside.
Qed.

Lemma parseUnary_inside handler fuel p :
  (∀ q, (q < length tokens)%nat → Inside tokens (handler q)) →
  (p < length tokens)%nat →
  Inside tokens (parseUnary tokens handler fuel p).
Proof using tokens_end.
  intros Hh. revert p. induction fuel as [|fuel IH]; intros p Hp; cbn [parseUnary].
  - destruct (check tokens p NOT); [done|by apply parsePrimary_inside].
  - destruct (check tokens p NOT); [|by apply parsePrimary_inside].
    apply Inside_bind; [by apply IH, advance_inside|]. by intros f q Hq.
Qed.

Lemma leftLoop_inside operand type node fuel left p :
  (∀ q, (q < length tokens)%nat → Inside tokens (operand q)) →
  (p < length tokens)%nat →
  Inside tokens (leftLoop tokens operand type node fuel left p).
Proof using tokens_end.
  intros Ho. revert left p. induction fuel as [|fuel IH]; intros left p Hp; cbn [leftLoop].
  - by destruct (check tokens p type).
  - destruct (check tokens p type); [|done].
    apply Inside_bind; [by apply Ho, advance_inside|].
    intros f q Hq. by apply IH.
Qed.

Lemma parseAnd_inside handler p :
  (∀ q, (q < length tokens)%nat → Inside tokens (handler q)) →
  (p < length tokens)%nat →
  Inside tokens (parseAnd tokens handler p).
Proof using tokens_end.
  intros Hh Hp. unfold parseAnd.
  apply Inside_bind; [by apply parseUnary_inside|].
  intros f q Hq. apply leftLoop_inside; [|done].
  intros; by apply parseUnary_inside.
Qed.

Lemma parseOr_inside handler p :
  (∀ q, (q < length tokens)%nat → Inside tokens (handler q)) →
  (p < length tokens)%nat →
  Inside tokens (parseOr tokens handler p).
Proof using tokens_end.
  intros Hh Hp. unfold parseOr.
  apply Inside_bind; [by apply parseAnd_inside|].
  intros f q Hq. apply leftLoop_inside; [|done].
  intros; by apply parseAnd_inside.
Qed.

Lemma impliesLoop_inside handler fuel operands p :
  (∀ q, (q < length tokens)%nat → Inside tokens (handler q)) →
  (p < length tokens)%nat →
  Inside tokens (impliesLoop tokens handler fuel operands p).
Proof using tokens_end.
  intros Hh. revert operands p.
  induction fuel as [|fuel IH]; intros operands p Hp; cbn [impliesLoop].
  - by destruct (check tokens p IMPLIES).
  - destruct (check tokens p IMPLIES); [|done].
    apply Inside_bind; [by apply parseOr_inside, advance_inside|].
    intros f q Hq. by apply IH.
Qed.

Lemma parseImplies_inside handler p :
  (∀ q, (q < length tokens)%nat → Inside tokens (handler q)) →
  (p < length tokens)%nat →
  Inside tokens (parseImplies tokens handler p).
Proof using tokens_end.
  intros Hh Hp. unfold parseImplies.
  apply Inside_bind; [by apply parseOr_inside|].
  intros f q Hq. by apply impliesLoop_inside.
Qed.

Lemma parseIff_inside handler p :
  (∀ q, (q < length tokens)%nat → Inside tokens (handler q)) →
  (p < length tokens)%nat →
  Inside tokens (parseIff tokens handler p).
Proof using tokens_end.
  intros Hh Hp. unfold parseIff.
  apply Inside_bind; [by apply parseImplies_inside|].
  intros f q Hq. apply leftLoop_inside; [|done].
  intros; by apply parseImplies_inside.
Qed.

Lemma parseFormula_inside depth p :
  (p < length tokens)%nat → Inside tokens (Parser.parseFormula tokens depth p).
Proof using tokens_end.
  revert p. induction depth as [|depth IH]; intros p Hp; [done|].
  cbn [Parser.parseFormula]. by apply parseIff_inside.
Qed.

(** Every failure of [Parser.parse] points at a token of the array. *)
Lemma parse_failure_inside e :
  parse tokens = Some (failure e) →
  ∃ p t, tokens !! p = Some t ∧ errorPosition e = Token.position t.
Proof using tokens_end.
  unfold parse.
  assert (0 < length tokens)%nat as Hpos.
  { destruct tokens; [done|cbn; lia]. }
  pose proof (parseFormula_inside (loopFuel tokens) 0 Hpos) as Hin.
  destruct (Parser.parseFormula tokens (loopFuel tokens) 0) as [[f q]| |];
    cbn in Hin; [|by intros [= <-]|done].
  destruct (negb _); [|done]. intros [= <-]. cbn.
  exists q, (current tokens q). split; [by apply current_inside|done].
Qed.

End ParserInside.

(** X21: A parse error points into the input: the position [parseFormula]
    reports is the position of one of the tokens of the input, the EOF
    token at the end included, so it is at most the length of the
    input. *)
Theorem parse_errors_point_into_the_input :
  ∀ input e,
    parseFormula input = Some (Parser.failure e) →
    (∃ t, t ∈ Lexer.tokenize input ∧ Parser.errorPosition e = Token.position t)
    ∧ (Parser.errorPosition e ≤ length input)%nat.
Proof.
  intros input e Hfail. unfold parseFormula in Hfail.
  destruct (tokenizeLoop_spec (S (length input)) input 0) as (body & Hbody & Hall & _);
    [lia|lia|].
  fold (Lexer.tokenize input) in Hbody.
  apply parse_failure_inside in Hfail as (p & t & Hp & He).
  - split; [exists t; split; [by eapply list_elem_of_lookup_2|done]|].
    rewrite He. rewrite Hbody in Hp.
    apply lookup_app_Some in Hp as [Hp|[_ Hp]].
    + eapply Forall_lookup_1 in Hall; [|exact Hp]. cbn in Hall. lia.
    + apply list_lookup_singleton_Some in Hp as [_ <-]. done.
  - by rewrite Hbody, last_snoc.
Qed.

Lemma parse_errors_point_into_the_input_witness :
  (∃ t, t ∈ Lexer.tokenize (str "P /\ )")
        ∧ 5%nat = Token.position t)
  ∧ (5 ≤ length (str "P /\ )"))%nat.
Proof.
  apply (parse_errors_point_into_the_input (str "P /\ )")
           {| Parser.message := Parser.ExpectedPrimary [41%N];
              Parser.errorPosition := 5 |}).
  vm_compute. reflexivity.
Defined.

(** * More on formulas and the printer *)

(** X22: [formulaEquals] is an equivalence relation on formulas. *)
Theorem formulaEquals_is_equivalence :
  ∀ a b c,
    formulaEquals a a = true
    ∧ formulaEquals a b = formulaEquals b a
    ∧ (formulaEquals a b = true → formulaEquals b c = true → formulaEquals a c = true).
Proof.
  intros a b c. split_and!.
  - apply formulaEquals_refl.
  - destruct (formulaEquals a b) eqn:Hab, (formulaEquals b a) eqn:Hba; try done.
    + apply formulaEquals_spec in Hab as ->. by rewrite formulaEquals_refl in Hba.
    + apply formulaEquals_spec in Hba as ->. by rewrite formulaEquals_refl in Hab.
  - intros ->%formulaEquals_spec ->%formulaEquals_spec. apply formulaEquals_refl.
Qed.

(** X23: [extractVariables] depends on the set of variables only: two formulas
    with the same variables get the same array, whatever the order and
    the number of the occurrences. *)
Theorem extractVariables_canonical :
  ∀ f g,
    (∀ v, v ∈ varsOf f ↔ v ∈ varsOf g) →
    extractVariables f = extractVariables g.
Proof.
  intros f g Hsame. unfold extractVariables.
  apply jsSort_canonical; [by apply collect_NoDup, NoDup_nil..|].
  intros v. rewrite !collect_elem_of, Hsame. done.
Qed.

Lemma extractVariables_canonical_witness :
  extractVariables (And (Var (str "P")) (Var (str "Q")))
  = extractVariables (Or (Var (str "Q")) (Implies (Var (str "P")) (Var (str "Q")))).
Proof.
  apply extractVariables_canonical. intros v. cbn [varsOf app].
  rewrite !elem_of_cons, elem_of_nil. tauto.
Defined.

Lemma print_ascii f p :
  Forall (λ name, Forall (λ c, (c < 128)%N) name) (varsOf f) →
  Forall (λ c, (c < 128)%N) (Printer.print f ascii p).
Proof.
  revert p. induction f as [n|g IH|l IHl r IHr|l IHl r IHr|l IHl r IHr|l IHl r IHr|];
    intros p Hv; cbn [varsOf] in Hv;
    try apply Forall_app in Hv as [Hvl Hvr];
    cbn [Printer.print Printer.SYMBOLS Printer.and Printer.or Printer.implies
         Printer.iff Printer.not Printer.bottom];
    destruct (_ <? p)%nat;
    rewrite ?Forall_app, ?Forall_cons; repeat split; auto;
    try (by apply Forall_nil); try by (apply N.ltb_lt; vm_compute).
  all: by apply Forall_inv in Hv.
Qed.

(** X24: [printAscii] writes ASCII only when the names are ASCII, and then the
    code-unit positions in its output are byte offsets. *)
Theorem printAscii_is_ascii :
  ∀ f,
    Forall (λ name, Forall (λ c, (c < 128)%N) name) (varsOf f) →
    Forall (λ c, (c < 128)%N) (printAscii f)
    ∧ ∀ k, (k ≤ length (printAscii f))%nat →
           Lexer.byteOffset (printAscii f) k = k.
Proof.
  intros f Hv.
  assert (Forall (λ c, (c < 128)%N) (printAscii f)) as H by by apply print_ascii.
  split; [done|]. intros k Hk. by apply byteOffset_ascii.
Qed.

Lemma printAscii_is_ascii_witness :
  Forall (λ c, (c < 128)%N) (printAscii (Iff (Not (Var (str "P"))) Bottom))
  ∧ ∀ k, (k ≤ length (printAscii (Iff (Not (Var (str "P"))) Bottom)))%nat →
         Lexer.byteOffset (printAscii (Iff (Not (Var (str "P"))) Bottom)) k = k.
Proof.
  apply (printAscii_is_ascii (Iff (Not (Var (str "P"))) Bottom)).
  cbn [varsOf app]. repeat constructor.
Defined.

(** * Printing what the parser returns *)

Section LexPrintedNames.
Import Lexer.

Lemma followsPrinted_ends r : followsPrinted r → endsIdentifier r.
Proof. destruct r as [|c r]; [done|]. by intros [-> | ->]. Qed.

(** A fallback character followed as the printer follows a name is read
    as a variable of one character. *)
Lemma scanToken_fallback c r p :
  fallbackChar c = true → followsPrinted r →
  scanToken (c :: r) p = (Token.mk VAR [c] p, S p).
Proof.
  unfold fallbackChar. intros [[Hsp Hal]%andb_true_iff Hop]%andb_true_iff Hr.
  apply negb_true_iff in Hsp, Hal, Hop. apply bool_decide_eq_false in Hop.
  unfold operatorChars in Hop. rewrite !not_elem_of_cons in Hop.
  destruct Hop as (?&?&?&?&?&?&?&?&?&?&?&_).
  unfold scanToken.
  repeat match goal with
    | H : c ≠ _ |- _ => apply N.eqb_neq in H; rewrite H; clear H
    end.
  cbn [orb andb].
  assert (∀ k, k ≠ 32%N → k ≠ 41%N → bool_decide ((c :: r) !! 1%nat = Some k) = false)
    as Hpeek.
  { intros k H32 H41. apply bool_decide_eq_false_2. cbn.
    destruct r as [|d r]; [done|]. cbn. destruct Hr as [-> | ->]; congruence. }
  rewrite !Hpeek by (by vm_compute).
  rewrite ?andb_false_r. cbn [andb]. by rewrite Hal.
Qed.

Lemma Lexes_name input pos name r :
  lexerName name = true → followsPrinted r →
  drop pos input = name ++ r →
  Lexes input pos [(VAR, name)] (pos + length name).
Proof.
  unfold lexerName. intros [Hwf|Hfb]%orb_true_iff Hr Hd.
  - apply (Lexes_identifier _ _ _ r); [done|by apply followsPrinted_ends|done].
  - destruct name as [|c [|? ?]]; try done.
    assert (isSpace c = false) as Hsp.
    { unfold fallbackChar in Hfb. apply andb_true_iff in Hfb as [[H _]%andb_true_iff _].
      by apply negb_true_iff in H. }
    eapply Lexes_eq;
      [eapply Lexes_token; [exact Hd|exact Hsp|by apply scanToken_fallback]|done|].
    cbn [length]. lia.
Qed.

Lemma LexesPrinted_prefix type lexeme B KB :
  lexemeOf type lexeme → LexesPrinted B KB →
  LexesPrinted (lexeme ++ B) ((type, []) :: KB).
Proof.
  intros Hlx HB input pos r Hd Hr. rewrite <- app_assoc in Hd.
  eapply Lexes_eq; [eapply (Lexes_app _ _ _ _ [_])| |].
  - eapply Lexes_lexeme; [exact Hlx|exact Hd].
  - eapply HB; [|exact Hr]. by eapply drop_app_at.
  - done.
  - rewrite length_app. lia.
Qed.

Lemma LexesPrinted_suffix type lexeme A KA :
  lexemeOf type lexeme → (∀ r, followsPrinted (lexeme ++ r)) →
  LexesPrinted A KA → LexesPrinted (A ++ lexeme) (KA ++ [(type, [])]).
Proof.
  intros Hlx Hfollows HA input pos r Hd Hr. rewrite <- app_assoc in Hd.
  eapply Lexes_eq; [eapply Lexes_app| |].
  - eapply HA; [exact Hd|]. apply Hfollows.
  - eapply Lexes_lexeme; [exact Hlx|]. by eapply drop_app_at.
  - done.
  - rewrite length_app. lia.
Qed.

Lemma LexesPrinted_space A K : LexesPrinted A K → LexesPrinted (32%N :: A) K.
Proof.
  intros HA input pos r Hd Hr.
  eapply Lexes_eq; [eapply Lexes_app| |].
  - eapply Lexes_space; [exact Hd|done].
  - eapply HA; [|exact Hr].
    replace (S pos) with (pos + length [32%N])%nat by (cbn; lia).
    eapply drop_app_at. exact Hd.
  - done.
  - cbn [length]. lia.
Qed.

Lemma LexesPrinted_infix type symbol A B KA KB :
  infixOf type symbol → LexesPrinted A KA → LexesPrinted B KB →
  LexesPrinted (A ++ symbol ++ B) (KA ++ (type, []) :: KB).
Proof.
  intros (lexeme & -> & Hlx) HA HB.
  assert (LexesPrinted ((32%N :: lexeme ++ [32%N]) ++ B) ((type, []) :: KB)) as Hop.
  { cbn [app]. apply LexesPrinted_space. rewrite <- app_assoc.
    apply LexesPrinted_prefix; [done|]. cbn [app]. by apply LexesPrinted_space. }
  intros input pos r Hd Hr. rewrite <- !app_assoc in Hd.
  eapply Lexes_eq; [eapply Lexes_app| |].
  - eapply HA; [exact Hd|]. cbn [app]. by left.
  - eapply Hop; [|exact Hr]. rewrite <- app_assoc. by eapply drop_app_at.
  - done.
  - rewrite !length_app. lia.
Qed.

Lemma LexesPrinted_wrap A K :
  LexesPrinted A K →
  LexesPrinted ([40%N] ++ A ++ [41%N]) ((LPAREN, []) :: K ++ [(RPAREN, [])]).
Proof.
  intros HA. apply LexesPrinted_prefix; [apply lexeme_lparen|].
  eapply LexesPrinted_suffix; [apply lexeme_rparen| |done].
  intros r. cbn. by right.
Qed.

(** The lexer reads a printed formula as its tokens when every name is
    one the lexer can produce. *)
Lemma print_LexesPrinted f mode p :
  lexerFormula f = true → LexesPrinted (Printer.print f mode p) (printedTokens f p).
Proof.
  revert p. induction f as [n|g IH|l IHl r IHr|l IHl r IHr|l IHl r IHr|l IHl r IHr|];
    intros p Hwf; cbn [lexerFormula] in Hwf;
    try apply andb_true_iff in Hwf as [Hwl Hwr];
    cbn [Printer.print printedTokens];
    (destruct (_ <? p)%nat; [apply LexesPrinted_wrap|]).
  all: try (intros input pos r0 Hd Hr; by eapply Lexes_name).
  all: try (apply LexesPrinted_prefix; [apply lexeme_not|by apply IH]).
  all: try (apply LexesPrinted_infix; [apply infix_and|by apply IHl|by apply IHr]).
  all: try (apply LexesPrinted_infix; [apply infix_or|by apply IHl|by apply IHr]).
  all: try (apply LexesPrinted_infix; [apply infix_implies|by apply IHl|by apply IHr]).
  all: try (apply LexesPrinted_infix; [apply infix_iff|by apply IHl|by apply IHr]).
  all: intros input pos r0 Hd Hr; by eapply Lexes_lexeme; [apply lexeme_bottom|].
Qed.

Lemma kinds_tokenize_printed f mode :
  lexerFormula f = true →
  kinds (tokenize (Printer.printFormula f mode)) = printedTokens f 0 ++ [(EOF, [])].
Proof.
  intros Hwf. unfold tokenize, Printer.printFormula.
  set (input := Printer.print f mode 0).
  destruct (print_LexesPrinted f mode 0 Hwf input 0%nat [] ltac:(by rewrite app_nil_r) I
              (S (length input)) ltac:(lia)) as (fuel' & Hf & ->).
  f_equal. apply kinds_tokenizeLoop_end; [|lia].
  apply drop_ge. subst input. lia.
Qed.

Lemma roundtrip_lexer_names f mode :
  lexerFormula f = true →
  parseFormula (Printer.printFormula f mode) = Some (Parser.success f).
Proof.
  intros Hwf. unfold parseFormula. apply parse_printedTokens.
  by apply kinds_tokenize_printed.
Qed.

Lemma forallb_takeWhile test s : forallb test (takeWhile test s) = true.
Proof.
  induction s as [|c s IH]; [done|]. cbn [takeWhile].
  destruct (test c) eqn:Hc; [|done]. cbn [forallb]. by rewrite Hc, IH.
Qed.

(** The names the lexer gives to variable tokens. *)
Lemma scanToken_VAR_name unread position t q :
  scanToken unread position = (t, q) →
  match unread with c :: _ => isSpace c = false | [] => True end →
  Token.type t = VAR →
  lexerName (Token.value t) = true.
Proof.
  unfold scanToken. destruct unread as [|char rest]; [by intros [= <- <-]|].
  intros Hscan Hc. revert Hscan.
  repeat case_match; intros [= <- <-] Hvar; cbn [Token.type Token.value] in *;
    try discriminate Hvar.
  - rename select (isAlpha _ = true) into Ha.
    unfold lexerName. apply orb_true_iff. left.
    cbn [takeWhile]. rewrite (isAlpha_isAlphaNumeric _ Ha). cbn [wellFormedName].
    by rewrite Ha, forallb_takeWhile.
  - rename select (isAlpha _ = false) into Ha.
    unfold lexerName, fallbackChar. apply orb_true_iff. right.
    rewrite Hc, Ha. cbn [negb andb]. apply negb_true_iff, bool_decide_eq_false_2.
    unfold operatorChars. rewrite !not_elem_of_cons.
    repeat match goal with
      | H : _ || _ = false |- _ => apply orb_false_iff in H as [? ?]
      | H : (_ =? _)%N = false |- _ => apply N.eqb_neq in H
      end.
    split_and!; try done. apply not_elem_of_nil.
Qed.

Lemma tokenizeLoop_VAR_names fuel input position t :
  t ∈ tokenizeLoop fuel input position → Token.type t = VAR →
  lexerName (Token.value t) = true.
Proof.
  revert position. induction fuel as [|fuel IH]; intros position; cbn [tokenizeLoop].
  { by intros ?%elem_of_nil. }
  destruct (nextToken input position) as [t' q] eqn:Hnext.
  assert (Token.type t' = VAR → lexerName (Token.value t') = true) as Hhead.
  { unfold nextToken in Hnext. eapply scanToken_VAR_name; [exact Hnext|].
    destruct (drop (skipWhitespace input position) input) as [|c s] eqn:Hd; [done|].
    unfold skipWhitespace in Hd. rewrite <- drop_drop in Hd.
    by eapply takeWhile_drop_head. }
  destruct (decide (Token.type t' = EOF)).
  - intros ->%list_elem_of_singleton. done.
  - intros [->|Hin]%elem_of_cons; [done|]. by eapply IH.
Qed.

End LexPrintedNames.

Section ParserNames.
Import Parser.
Variable tokens : list Token.t.

Lemma Names_bind (m : run (Formula * nat)) (k : Formula * nat → run (Formula * nat)) :
  NamesFromTokens tokens m →
  (∀ f q, NamesFromTokens tokens (Done (f, q)) → NamesFromTokens tokens (k (f, q))) →
  NamesFromTokens tokens (m ≫= k).
Proof. destruct m as [[f q]| |]; cbn; auto. Qed.

Lemma parsePrimary_names handler p :
  (∀ q, NamesFromTokens tokens (handler q)) →
  NamesFromTokens tokens (parsePrimary tokens handler p).
Proof.
  intros Hh. unfold parsePrimary.
  destruct (check tokens p VAR) eqn:Hv.
  { cbn. intros name ->%list_elem_of_singleton.
    unfold check in Hv. apply bool_decide_eq_true in Hv. unfold current in *.
    destruct (tokens !! p) as [t|] eqn:Ht; [|done]. cbn in *.
    exists t. split_and!; [by eapply list_elem_of_lookup_2|done|done]. }
  destruct (check tokens p BOTTOM).
  { cbn. by intros name ?%elem_of_nil. }
  destruct (check tokens p LPAREN); [|done].
  apply Names_bind; [apply Hh|].
  intros f q Hf. by destruct (negb _).
Qed.

Lemma parseUnary_names handler fuel p :
  (∀ q, NamesFromTokens tokens (handler q)) →
  NamesFromTokens tokens (parseUnary tokens handler fuel p).
Proof.
  intros Hh. revert p. induction fuel as [|fuel IH]; intros p; cbn [parseUnary].
  - destruct (check tokens p NOT); [done|by apply parsePrimary_names].
  - destruct (check tokens p NOT); [|by apply parsePrimary_names].
    apply Names_bind; [apply IH|]. by intros f q Hf.
Qed.

Lemma leftLoop_names operand type node fuel left p :
  (∀ l r, varsOf (node l r) = varsOf l ++ varsOf r) →
  (∀ q, NamesFromTokens tokens (operand q)) →
  NamesFromTokens tokens (Done (left, p)) →
  NamesFromTokens tokens (leftLoop tokens operand type node fuel left p).
Proof.
  intros Hnode Ho. revert left p.
  induction fuel as [|fuel IH]; intros left p Hl; cbn [leftLoop].
  - by destruct (check tokens p type).
  - destruct (check tokens p type); [|done].
    apply Names_bind; [apply Ho|].
    intros f q Hf. apply IH. cbn in *. intros name.
    rewrite Hnode, elem_of_app. intros [?|?]; auto.
Qed.

Lemma parseAnd_names handler p :
  (∀ q, NamesFromTokens tokens (handler q)) →
  NamesFromTokens tokens (parseAnd tokens handler p).
Proof.
  intros Hh. unfold parseAnd.
  apply Names_bind; [by apply parseUnary_names|].
  intros f q Hf. apply leftLoop_names; [done| |done].
  intros; by apply parseUnary_names.
Qed.

Lemma parseOr_names handler p :
  (∀ q, NamesFromTokens tokens (handler q)) →
  NamesFromTokens tokens (parseOr tokens handler p).
Proof.
  intros Hh. unfold parseOr.
  apply Names_bind; [by apply parseAnd_names|].
  intros f q Hf. apply leftLoop_names; [done| |done].
  intros; by apply parseAnd_names.
Qed.

Lemma varsOf_foldr_Implies f acc name :
  name ∈ varsOf (foldr Implies f acc) →
  name ∈ varsOf f ∨ ∃ o, o ∈ acc ∧ name ∈ varsOf o.
Proof.
  induction acc as [|o acc IH]; cbn [foldr varsOf]; [by left|].
  intros [?|[?|(o' & ? & ?)]%IH]%elem_of_app.
  - right. exists o. split; [left|done].
  - by left.
  - right. exists o'. split; [by right|done].
Qed.

Lemma impliesLoop_names handler fuel operands lastOperand p :
  (∀ q, NamesFromTokens tokens (handler q)) →
  (∀ o, o ∈ operands ++ [lastOperand] → NamesFromTokens tokens (Done (o, p))) →
  NamesFromTokens tokens (impliesLoop tokens handler fuel (operands ++ [lastOperand]) p).
Proof.
  intros Hh. revert operands lastOperand p.
  induction fuel as [|fuel IH]; intros operands lastOperand p Hops; cbn [impliesLoop].
  - destruct (check tokens p IMPLIES); [done|].
    cbn. rewrite buildImplies_snoc. intros name [?|(o & ? & ?)]%varsOf_foldr_Implies.
    + apply (Hops lastOperand); [apply elem_of_app; right; left|done].
    + apply (Hops o); [apply elem_of_app; by left|done].
  - destruct (check tokens p IMPLIES).
    + apply Names_bind; [by apply parseOr_names|].
      intros f q Hf. apply IH.
      intros o [Ho | ->%list_elem_of_singleton]%elem_of_app; [|done].
      exact (Hops o Ho).
    + cbn. rewrite buildImplies_snoc.
      intros name [?|(o & ? & ?)]%varsOf_foldr_Implies.
      * apply (Hops lastOperand); [apply elem_of_app; right; left|done].
      * apply (Hops o); [apply elem_of_app; by left|done].
Qed.

Lemma parseImplies_names handler p :
  (∀ q, NamesFromTokens tokens (handler q)) →
  NamesFromTokens tokens (parseImplies tokens handler p).
Proof.
  intros Hh. unfold parseImplies.
  apply Names_bind; [by apply parseOr_names|].
  intros f q Hf. apply (impliesLoop_names handler _ [] f); [done|].
  intros o ->%list_elem_of_singleton. done.
Qed.

Lemma parseIff_names handler p :
  (∀ q, NamesFromTokens tokens (handler q)) →
  NamesFromTokens tokens (parseIff tokens handler p).
Proof.
  intros Hh. unfold parseIff.
  apply Names_bind; [by apply parseImplies_names|].
  intros f q Hf. apply leftLoop_names; [done| |done].
  intros; by apply parseImplies_names.
Qed.

Lemma parseFormula_names depth p :
  NamesFromTokens tokens (Parser.parseFormula tokens depth p).
Proof.
  revert p. induction depth as [|depth IH]; intros p; [done|].
  cbn [Parser.parseFormula]. by apply parseIff_names.
Qed.

(** The names of a parsed formula are values of variable tokens. *)
Lemma parse_names f name :
  parse tokens = Some (success f) → name ∈ varsOf f →
  ∃ t, t ∈ tokens ∧ Token.type t = VAR ∧ Token.value t = name.
Proof.
  unfold parse. pose proof (parseFormula_names (loopFuel tokens) 0) as Hn.
  destruct (Parser.parseFormula tokens (loopFuel tokens) 0) as [[g q]| |]; [|done|done].
  destruct (negb _); [done|]. intros [= <-]. apply Hn.
Qed.

End ParserNames.

Lemma lexerFormula_names f :
  (∀ name, name ∈ varsOf f → lexerName name = true) → lexerFormula f = true.
Proof.
  induction f as [n|g IH|l IHl r IHr|l IHl r IHr|l IHl r IHr|l IHl r IHr|];
    intros Hv; cbn [lexerFormula varsOf] in *.
  - apply Hv. left.
  - by apply IH.
  - rewrite IHl, IHr by (intros; apply Hv, elem_of_app; auto). done.
  - rewrite IHl, IHr by (intros; apply Hv, elem_of_app; auto). done.
  - rewrite IHl, IHr by (intros; apply Hv, elem_of_app; auto). done.
  - rewrite IHl, IHr by (intros; apply Hv, elem_of_app; auto). done.
  - done.
Qed.

(** Every formula the parser returns has names the lexer can produce. *)
Lemma parsed_lexerFormula input f :
  parseFormula input = Some (Parser.success f) → lexerFormula f = true.
Proof.
  intros Hparse. apply lexerFormula_names. intros name Hname.
  destruct (parse_names _ f name Hparse Hname) as (t & Ht & Hvar & <-).
  by eapply tokenizeLoop_VAR_names.
Qed.

(** X25: The round trip holds for every formula whose names the lexer can
    produce, one-character names such as a digit or [#] included: parsing
    what [printAscii] or [printUtf8] writes returns the formula, from
    [parseFormula] as a success and from [parse] without an exception. *)
Theorem print_then_parse_on_lexer_names :
  ∀ f,
    lexerFormula f = true →
    parseFormula (printAscii f) = Some (Parser.success f)
    ∧ parseFormula (printUtf8 f) = Some (Parser.success f)
    ∧ parse (printAscii f) = Some f
    ∧ parse (printUtf8 f) = Some f.
Proof.
  intros f Hf. unfold parse, printAscii, printUtf8.
  rewrite !roundtrip_lexer_names by done. done.
Qed.

Lemma print_then_parse_on_lexer_names_witness :
  parseFormula (printAscii (And (Var (str "1")) (Not (Var (str "#")))))
  = Some (Parser.success (And (Var (str "1")) (Not (Var (str "#")))))
  ∧ parseFormula (printUtf8 (And (Var (str "1")) (Not (Var (str "#")))))
    = Some (Parser.success (And (Var (str "1")) (Not (Var (str "#")))))
  ∧ parse (printAscii (And (Var (str "1")) (Not (Var (str "#")))))
    = Some (And (Var (str "1")) (Not (Var (str "#"))))
  ∧ parse (printUtf8 (And (Var (str "1")) (Not (Var (str "#")))))
    = Some (And (Var (str "1")) (Not (Var (str "#")))).
Proof.
  apply (print_then_parse_on_lexer_names (And (Var (str "1")) (Not (Var (str "#"))))).
  vm_compute. reflexivity.
Defined.

(** X26: Printing inverts parsing on everything the parser returns: when
    [parseFormula] succeeds on an input with a formula, printing that
    formula in either mode and parsing the result returns the same
    formula. *)
Theorem parse_print_parse :
  ∀ input f mode,
    parseFormula input = Some (Parser.success f) →
    parseFormula (Printer.printFormula f mode) = Some (Parser.success f).
Proof.
  intros input f mode Hparse. apply roundtrip_lexer_names.
  by eapply parsed_lexerFormula.
Qed.

Lemma parse_print_parse_witness :
  parseFormula
    (Printer.printFormula
       (Implies (Var (str "1")) (Implies (Or (Var (str "#")) (Var (str "q"))) Bottom))
       ascii)
  = Some (Parser.success
            (Implies (Var (str "1")) (Implies (Or (Var (str "#")) (Var (str "q"))) Bottom))).
Proof.
  apply (parse_print_parse (str "1 -> (# | q) -> _|_")). vm_compute. reflexivity.
Defined.

(** X27: Distinct formulas are printed differently: on formulas whose names
    the lexer can produce, [printFormula] is injective in each mode. *)
Theorem printFormula_injective :
  ∀ f g mode,
    lexerFormula f = true → lexerFormula g = true →
    f ≠ g →
    Printer.printFormula f mode ≠ Printer.printFormula g mode.
Proof.
  intros f g mode Hf Hg Hne Heq. apply Hne.
  pose proof (roundtrip_lexer_names f mode Hf) as H1.
  pose proof (roundtrip_lexer_names g mode Hg) as H2.
  rewrite Heq in H1. congruence.
Qed.

Lemma printFormula_injective_witness :
  Printer.printFormula
    (Implies (Implies (Var (str "P")) (Var (str "Q"))) (Var (str "R"))) ascii
  ≠ Printer.printFormula
      (Implies (Var (str "P")) (Implies (Var (str "Q")) (Var (str "R")))) ascii.
Proof.
  apply printFormula_injective; [vm_compute; reflexivity|vm_compute; reflexivity|].
  discriminate.
Defined.

(** * The parser reads token types and variable names only *)

Section ParserKinds.
Import Parser.
Variables tokens tokens' : list Token.t.
Hypothesis same_kinds : kinds tokens = kinds tokens'.

Lemma check_same p type : check tokens p type = check tokens' p type.
Proof using same_kinds. by rewrite !check_drop, same_kinds. Qed.

Lemma advance_same p : advance tokens p = advance tokens' p.
Proof using same_kinds. unfold advance. by rewrite !type_current, same_kinds. Qed.

Lemma loopFuel_same : loopFuel tokens = loopFuel tokens'.
Proof using same_kinds.
  unfold loopFuel. f_equal.
  pose proof (f_equal length same_kinds) as H. unfold kinds in H.
  by rewrite !length_fmap in H.
Qed.

Lemma value_same p :
  check tokens p VAR = true →
  Token.value (current tokens p) = Token.value (current tokens' p).
Proof using same_kinds.
  intros Hc. pose proof Hc as Hc'. rewrite check_same in Hc'.
  unfold check in Hc, Hc'. apply bool_decide_eq_true in Hc, Hc'.
  pose proof (f_equal (λ l, l !! p) same_kinds) as Hp. cbn in Hp.
  unfold kinds in Hp. rewrite !list_lookup_fmap in Hp. unfold current in *.
  destruct (tokens !! p) as [t|]; destruct (tokens' !! p) as [t'|]; simplify_eq/=; try done.
  unfold kind in *. rewrite !decide_True in * by done. congruence.
Qed.

Lemma SameOutcome_bind (m m' : run (Formula * nat))
    (k k' : Formula * nat → run (Formula * nat)) :
  SameOutcome m m' → (∀ a, SameOutcome (k a) (k' a)) →
  SameOutcome (m ≫= k) (m' ≫= k').
Proof.
  destruct m as [a| |], m' as [a'| |]; cbn; try done.
  intros -> Hk. apply Hk.
Qed.

Lemma parsePrimary_same handler handler' p :
  (∀ q, SameOutcome (handler q) (handler' q)) →
  SameOutcome (parsePrimary tokens handler p) (parsePrimary tokens' handler' p).
Proof using same_kinds.
  intros Hh. unfold parsePrimary. rewrite <- !check_same, <- advance_same.
  destruct (check tokens p VAR) eqn:Hv.
  { cbn. by rewrite value_same. }
  destruct (check tokens p BOTTOM); [done|].
  destruct (check tokens p LPAREN); [|done].
  apply SameOutcome_bind; [apply Hh|].
  intros [f q]. rewrite <- check_same, <- advance_same.
  by destruct (negb _).
Qed.

Lemma parseUnary_same handler handler' fuel p :
  (∀ q, SameOutcome (handler q) (handler' q)) →
  SameOutcome (parseUnary tokens handler fuel p) (parseUnary tokens' handler' fuel p).
Proof using same_kinds.
  intros Hh. revert p. induction fuel as [|fuel IH]; intros p; cbn [parseUnary];
    rewrite <- check_same.
  - destruct (check tokens p NOT); [done|by apply parsePrimary_same].
  - destruct (check tokens p NOT); [|by apply parsePrimary_same].
    rewrite <- advance_same. apply SameOutcome_bind; [apply IH|]. by intros [f q].
Qed.

Lemma leftLoop_same operand operand' type node fuel left p :
  (∀ q, SameOutcome (operand q) (operand' q)) →
  SameOutcome (leftLoop tokens operand type node fuel left p)
              (leftLoop tokens' operand' type node fuel left p).
Proof using same_kinds.
  intros Ho. revert left p. induction fuel as [|fuel IH]; intros left p; cbn [leftLoop];
    rewrite <- check_same.
  - by destruct (check tokens p type).
  - destruct (check tokens p type); [|done].
    rewrite <- advance_same. apply SameOutcome_bind; [apply Ho|].
    intros [f q]. apply IH.
Qed.

Lemma parseAnd_same handler handler' p :
  (∀ q, SameOutcome (handler q) (handler' q)) →
  SameOutcome (parseAnd tokens handler p) (parseAnd tokens' handler' p).
Proof using same_kinds.
  intros Hh. unfold parseAnd. rewrite <- loopFuel_same.
  apply SameOutcome_bind; [by apply parseUnary_same|].
  intros [f q]. apply leftLoop_same. intros; by apply parseUnary_same.
Qed.

Lemma parseOr_same handler handler' p :
  (∀ q, SameOutcome (handler q) (handler' q)) →
  SameOutcome (parseOr tokens handler p) (parseOr tokens' handler' p).
Proof using same_kinds.
  intros Hh. unfold parseOr. rewrite <- loopFuel_same.
  apply SameOutcome_bind; [by apply parseAnd_same|].
  intros [f q]. apply leftLoop_same. intros; by apply parseAnd_same.
Qed.

Lemma impliesLoop_same handler handler' fuel operands p :
  (∀ q, SameOutcome (handler q) (handler' q)) →
  SameOutcome (impliesLoop tokens handler fuel operands p)
              (impliesLoop tokens' handler' fuel operands p).
Proof using same_kinds.
  intros Hh. revert operands p.
  induction fuel as [|fuel IH]; intros operands p; cbn [impliesLoop];
    rewrite <- check_same.
  - by destruct (check tokens p IMPLIES).
  - destruct (check tokens p IMPLIES); [|done].
    rewrite <- advance_same. apply SameOutcome_bind; [by apply parseOr_same|].
    intros [f q]. apply IH.
Qed.

Lemma parseImplies_same handler handler' p :
  (∀ q, SameOutcome (handler q) (handler' q)) →
  SameOutcome (parseImplies tokens handler p) (parseImplies tokens' handler' p).
Proof using same_kinds.
  intros Hh. unfold parseImplies. rewrite <- loopFuel_same.
  apply SameOutcome_bind; [by apply parseOr_same|].
  intros [f q]. by apply impliesLoop_same.
Qed.

Lemma parseIff_same handler handler' p :
  (∀ q, SameOutcome (handler q) (handler' q)) →
  SameOutcome (parseIff tokens handler p) (parseIff tokens' handler' p).
Proof using same_kinds.
  intros Hh. unfold parseIff. rewrite <- loopFuel_same.
  apply SameOutcome_bind; [by apply parseImplies_same|].
  intros [f q]. apply leftLoop_same. intros; by apply parseImplies_same.
Qed.

Lemma parseFormula_same depth p :
  SameOutcome (Parser.parseFormula tokens depth p) (Parser.parseFormula tokens' depth p).
Proof using same_kinds.
  revert p. induction depth as [|depth IH]; intros p; [done|].
  cbn [Parser.parseFormula]. by apply parseIff_same.
Qed.

(** Token arrays with the same types and variable names are parsed
    alike. *)
Lemma parse_same f :
  parse tokens = Some (success f) → parse tokens' = Some (success f).
Proof using same_kinds.
  unfold parse. rewrite <- loopFuel_same.
  pose proof (parseFormula_same (loopFuel tokens) 0) as H.
  destruct (Parser.parseFormula tokens (loopFuel tokens) 0) as [[g q]| |];
    destruct (Parser.parseFormula tokens' (loopFuel tokens) 0) as [[g' q']| |];
    cbn in H; try done.
  injection H as <- <-. rewrite <- check_same. by destruct (negb _).
Qed.

End ParserKinds.

(** X28: The parser reads the types of the tokens and the names of the
    variables, nothing else: two inputs whose tokens agree on these (they
    may differ in white space and in the spelling of the operators) are
    parsed to the same formula, or both rejected. *)
Theorem parsing_ignores_spelling :
  ∀ input input' f,
    kinds (Lexer.tokenize input) = kinds (Lexer.tokenize input') →
    parseFormula input = Some (Parser.success f)
    ↔ parseFormula input' = Some (Parser.success f).
Proof.
  intros input input' f Hk. unfold parseFormula. split; by apply parse_same.
Qed.

Lemma parsing_ignores_spelling_witness :
  parseFormula (str "~P&Q|R")
  = Some (Parser.success (Or (And (Not (Var (str "P"))) (Var (str "Q"))) (Var (str "R"))))
  ↔ parseFormula (str "  ~ P /\ Q \/ R ")
    = Some (Parser.success (Or (And (Not (Var (str "P"))) (Var (str "Q"))) (Var (str "R")))).
Proof.
  apply parsing_ignores_spelling. vm_compute. reflexivity.
Defined.
